(** * An in-memory hierarchical file system: model and properties

    Shallow embedding of the tree engine of [fs.c] (the revision with
    metadata, rename and the descriptor table) together with the
    declarations of [fs.h].

    Representation choices, all of them local to this file:
    - a [node_t *] is an optional heap address ([None] is [NULL]); the
      heap maps addresses to node records, so that two pointers to the
      same node see the same fields;
    - a C string is the [string] of its bytes before the terminator;
      the paths, terms and buffers handed to the interface are not null
      pointers (the tests [!path], [!buf], [!info] never fire);
    - [children] holds the first [child_count] slots of the array (no
      function reads a slot at or after [child_count]), and [data] holds
      the allocated buffer, so that [cap] is its length;
    - an operation either returns a value and a new state, or has no
      defined result (a null or dangling pointer is dereferenced, a copy
      leaves its buffer, a signed sum overflows), or never returns (the
      doubling loop of [ensure_cap] once the capacity has wrapped to
      zero, a search that follows a cycle of child pointers);
    - [time(NULL)] reads a clock that the state carries; [realloc] asks
      the allocator of the state; [calloc] is taken to succeed, as
      [node_new] does not test its result;
    - what is printed on the standard output is not part of the state. *)

From Stdlib Require Import ZArith String Ascii List Lia.
From Stdlib.Strings Require Import Byte.
From stdpp Require Import base option list gmap strings.

Local Open Scope Z_scope.

(** ** Constants of [fs.h] *)

Definition NAME_MAX : nat := 32.
Definition MAX_CHILDREN : nat := 64.
Definition MAX_OPEN_FILES : nat := 32.

Definition ATTR_NONE : Z := 0.
Definition ATTR_HIDDEN : Z := 1.
Definition ATTR_READONLY : Z := 2.
Definition ATTR_SYSTEM : Z := 4.
Definition ATTR_ARCHIVE : Z := 8.

Definition O_RDONLY : Z := 1.
Definition O_WRONLY : Z := 2.
Definition O_RDWR : Z := 3.

(** ** Machine integers: [size_t] is 64 bits wide, [ssize_t] and [off_t]
    are its signed counterparts. *)

Definition SIZE_MOD : Z := 2 ^ 64.
Definition SSIZE_MOD : Z := 2 ^ 63.

Definition wrap (x : Z) : Z := x mod SIZE_MOD.

(** The cast [(ssize_t)x] (and [(off_t)x]) of an unsigned value. *)
Definition to_signed (x : Z) : Z :=
  if x <? SSIZE_MOD then x else x - SIZE_MOD.

(** ** C strings *)

Definition strlen (s : string) : nat := String.length s.

(** The first [n] bytes of [s]: what [strncpy(dst, s, n)] leaves in a
    destination whose byte [n] is zero. *)
Fixpoint str_take (n : nat) (s : string) : string :=
  match n, s with
  | S n', String c s' => String c (str_take n' s')
  | _, _ => EmptyString
  end.

(** [strncmp(a, b, n) == 0]. *)
Definition strncmp_eq (a b : string) (n : nat) : bool :=
  String.eqb (str_take n a) (str_take n b).

(** [strcmp(a, b) == 0]. *)
Definition strcmp_eq (a b : string) : bool := String.eqb a b.

Definition slash : ascii := "/"%char.
Definition dot : string := "."%string.
Definition dotdot : string := ".."%string.

(** The successive results of [strtok_r(_, "/", _)] on [s]: the maximal
    runs of bytes other than the separator, in order. [tok] is the run
    being read. *)
Fixpoint tokens_from (s : string) (tok : string) : list string :=
  match s with
  | EmptyString =>
      match tok with EmptyString => [] | _ => [tok] end
  | String c s' =>
      if Ascii.eqb c slash then
        match tok with
        | EmptyString => tokens_from s' EmptyString
        | _ => tok :: tokens_from s' EmptyString
        end
      else tokens_from s' (tok +:+ String c EmptyString)
  end.

Definition tokens (s : string) : list string := tokens_from s EmptyString.

(** [path[0] == '/']. *)
Definition is_absolute (path : string) : bool :=
  match path with
  | String c _ => Ascii.eqb c slash
  | EmptyString => false
  end.

(** [strncpy(tmp, path, sizeof tmp); tmp[sizeof tmp - 1] = 0] with a
    buffer of 1024 bytes. *)
Definition path_buffer (path : string) : string := str_take 1023 path.

(** [strstr(s, term) != NULL]. *)
Fixpoint str_prefix (p s : string) : bool :=
  match p, s with
  | EmptyString, _ => true
  | String a p', String b s' => Ascii.eqb a b && str_prefix p' s'
  | String _ _, EmptyString => false
  end.

Fixpoint strstr (s term : string) : bool :=
  str_prefix term s ||
  match s with
  | EmptyString => false
  | String _ s' => strstr s' term
  end.

(** ** Nodes and the state of the file system *)

Definition addr : Type := positive.
Definition ptr : Type := option addr.
Abbreviation NULL := (@None positive).

Inductive node_type : Type := N_DIR | N_FILE.

Definition node_type_eqb (a b : node_type) : bool :=
  match a, b with
  | N_DIR, N_DIR | N_FILE, N_FILE => true
  | _, _ => false
  end.

Record node_t : Type := mk_node {
  type : node_type;
  name : string;
  parent : ptr;
  created : Z;
  modified : Z;
  accessed : Z;
  attributes : Z;
  children : list addr;
  data : list byte;
  size : Z
}.

Definition child_count (n : node_t) : nat := length (children n).
Definition cap (n : node_t) : Z := Z.of_nat (length (data n)).

Record file_descriptor_t : Type := mk_fd {
  node : ptr;
  offset : Z;
  flags : Z;
  in_use : bool
}.

(** A slot of the zero-initialised static table. *)
Definition free_slot : file_descriptor_t :=
  {| node := NULL; offset := 0; flags := 0; in_use := false |}.

Record fs : Type := mk_fs {
  heap : gmap addr node_t;
  root : ptr;
  cwd : ptr;
  fd_table : list file_descriptor_t;
  allocator : Z -> bool;
  clock : nat -> Z;
  ticks : nat
}.

(** The state of the process before [fs_init]. *)
Definition boot (alloc : Z -> bool) (clk : nat -> Z) : fs :=
  {| heap := ∅; root := NULL; cwd := NULL;
     fd_table := replicate MAX_OPEN_FILES free_slot;
     allocator := alloc; clock := clk; ticks := 0 |}.

(** Field updates. *)

Definition set_name (x : string) (n : node_t) : node_t :=
  mk_node (type n) x (parent n) (created n) (modified n) (accessed n)
          (attributes n) (children n) (data n) (size n).
Definition set_parent (x : ptr) (n : node_t) : node_t :=
  mk_node (type n) (name n) x (created n) (modified n) (accessed n)
          (attributes n) (children n) (data n) (size n).
Definition set_modified (x : Z) (n : node_t) : node_t :=
  mk_node (type n) (name n) (parent n) (created n) x (accessed n)
          (attributes n) (children n) (data n) (size n).
Definition set_accessed (x : Z) (n : node_t) : node_t :=
  mk_node (type n) (name n) (parent n) (created n) (modified n) x
          (attributes n) (children n) (data n) (size n).
Definition set_attributes (x : Z) (n : node_t) : node_t :=
  mk_node (type n) (name n) (parent n) (created n) (modified n) (accessed n)
          x (children n) (data n) (size n).
Definition set_children (x : list addr) (n : node_t) : node_t :=
  mk_node (type n) (name n) (parent n) (created n) (modified n) (accessed n)
          (attributes n) x (data n) (size n).
Definition set_data (x : list byte) (n : node_t) : node_t :=
  mk_node (type n) (name n) (parent n) (created n) (modified n) (accessed n)
          (attributes n) (children n) x (size n).
Definition set_size (x : Z) (n : node_t) : node_t :=
  mk_node (type n) (name n) (parent n) (created n) (modified n) (accessed n)
          (attributes n) (children n) (data n) x.

Definition set_heap (h : gmap addr node_t) (s : fs) : fs :=
  mk_fs h (root s) (cwd s) (fd_table s) (allocator s) (clock s) (ticks s).
Definition set_root (r : ptr) (s : fs) : fs :=
  mk_fs (heap s) r (cwd s) (fd_table s) (allocator s) (clock s) (ticks s).
Definition set_cwd (c : ptr) (s : fs) : fs :=
  mk_fs (heap s) (root s) c (fd_table s) (allocator s) (clock s) (ticks s).
Definition set_fd_table (t : list file_descriptor_t) (s : fs) : fs :=
  mk_fs (heap s) (root s) (cwd s) t (allocator s) (clock s) (ticks s).
Definition set_ticks (k : nat) (s : fs) : fs :=
  mk_fs (heap s) (root s) (cwd s) (fd_table s) (allocator s) (clock s) k.

Definition is_readonly (n : node_t) : bool :=
  negb (Z.land (attributes n) ATTR_READONLY =? 0).

Definition is_dir (n : node_t) : bool := node_type_eqb (type n) N_DIR.
Definition is_file (n : node_t) : bool := node_type_eqb (type n) N_FILE.

(** ** Outcomes and the monad of operations *)

Inductive result (A : Type) : Type :=
  | Ret (v : A) (s : fs)
  | Undefined
  | Diverges.
Arguments Ret {A} v s.
Arguments Undefined {A}.
Arguments Diverges {A}.

Definition M (A : Type) : Type := fs -> result A.

Definition ret {A : Type} (v : A) : M A := fun s => Ret v s.

Definition bind {A B : Type} (m : M A) (k : A -> M B) : M B :=
  fun s =>
    match m s with
    | Ret v s' => k v s'
    | Undefined => Undefined
    | Diverges => Diverges
    end.

Notation "x <- m ; k" := (bind m (fun x => k))
  (at level 20, m at level 100, k at level 200, only parsing).
Notation "' p <- m ; k" := (bind m (fun x => let 'p := x in k))
  (at level 20, p pattern, m at level 100, k at level 200, only parsing).
Notation "m ;; k" := (bind m (fun _ => k))
  (at level 100, k at level 200, only parsing, right associativity).

Definition undefined {A : Type} : M A := fun _ => Undefined.
Definition diverges {A : Type} : M A := fun _ => Diverges.
Definition get : M fs := fun s => Ret s s.

(** A read of the state that is undefined where [f] has no value. *)
Definition lift {A : Type} (f : fs -> option A) : M A :=
  fun s => match f s with Some v => Ret v s | None => Undefined end.

(** [*p]. *)
Definition deref (p : ptr) : M node_t :=
  lift (fun s => a ← p; heap s !! a).

(** Update in place of the node that [a] points to, which must be live. *)
Definition modify (a : addr) (f : node_t -> node_t) : M unit :=
  fun s =>
    match heap s !! a with
    | Some n => Ret tt (set_heap (<[a := f n]> (heap s)) s)
    | None => Undefined
    end.

(** [time(NULL)]. *)
Definition time : M Z :=
  fun s => Ret (clock s (ticks s)) (set_ticks (S (ticks s)) s).

(** [calloc(1, sizeof(node_t))] followed by the initialisation [n].
    The allocation is taken to succeed, at an address that is not
    live, which may be one that was released before. [node_new] does
    not test what [calloc] returns; a run in which it returns the
    null pointer writes through it and is not described here. *)
Definition alloc_node (n : node_t) : M addr :=
  fun s =>
    let a := fresh (dom (heap s)) in
    Ret a (set_heap (<[a := n]> (heap s)) s).

(** ** The node store *)

(** [node_new]: a zeroed node with its type, parent and name, the three
    timestamps set to one reading of the clock and no attribute. The
    name is copied with [strncpy(n->name, name, NAME_MAX)]. *)
Definition node_new (t : node_type) (nm : string) (par : ptr) : M ptr :=
  now <- time ;
  a <- alloc_node
         {| type := t; name := str_take NAME_MAX nm; parent := par;
            created := now; modified := now; accessed := now;
            attributes := ATTR_NONE;
            children := []; data := []; size := 0 |} ;
  ret (Some a).

(** [fs_init]. *)
Definition fs_init : M unit :=
  r <- node_new N_DIR EmptyString NULL ;
  fun s => Ret tt (set_cwd r (set_root r s)).

(** [node_free]: the subtree below [n] is released children first. The
    recursion follows pointers, so it is bounded by [fuel]; freeing a
    node that is not live has no defined result. *)
Fixpoint node_free_heap (fuel : nat) (n : ptr) (h : gmap addr node_t)
  : option (gmap addr node_t) :=
  match n with
  | None => Some h
  | Some a =>
      match fuel with
      | O => None
      | S fuel' =>
          nd ← h !! a;
          h' ← (if is_dir nd
                then foldl (fun acc c => hc ← acc; node_free_heap fuel' (Some c) hc)
                           (Some h) (children nd)
                else Some h);
          _ ← h' !! a;
          Some (delete a h')
      end
  end.

Definition node_free (n : ptr) : M unit :=
  fun s =>
    match node_free_heap (S (base.size (heap s))) n (heap s) with
    | Some h' => Ret tt (set_heap h' s)
    | None => Undefined
    end.

(** [fs_destroy]. *)
Definition fs_destroy : M unit :=
  s <- get ;
  node_free (root s) ;;
  fun s' => Ret tt (set_cwd NULL (set_root NULL s')).

(** The index of the first slot of [cs] that holds [c], as the loops
    comparing [children[i] == c] find it. *)
Fixpoint index_of (c : addr) (cs : list addr) : option nat :=
  match cs with
  | [] => None
  | x :: cs' => if Pos.eqb x c then Some O else S <$> index_of c cs'
  end.

(** [dir_add]. *)
Definition dir_add (dir child : ptr) : M ptr :=
  match dir with
  | None => ret NULL
  | Some d =>
      dn <- deref (Some d) ;
      if negb (is_dir dn) || (MAX_CHILDREN <=? child_count dn)%nat then ret NULL
      else
        match child with
        | None => ret NULL
        | Some c =>
            cn <- deref (Some c) ;
            if match parent cn with
               | Some p => negb (Pos.eqb p d)
               | None => false
               end
            then ret NULL
            else
              match index_of c (children dn) with
              | Some _ => ret (Some c)
              | None =>
                  modify d (set_children (children dn ++ [c])) ;;
                  modify c (set_parent (Some d)) ;;
                  now <- time ;
                  modify d (fun n => set_accessed now (set_modified now n)) ;;
                  ret (Some c)
              end
        end
  end.

(** The scan of [dir_find] over the children: the first child whose
    name agrees with [nm] on [NAME_MAX] bytes. A child pointer that is
    not live has no name to read. *)
Fixpoint find_by_name (h : gmap addr node_t) (cs : list addr) (nm : string)
  : option ptr :=
  match cs with
  | [] => Some NULL
  | c :: cs' =>
      cn ← h !! c;
      if strncmp_eq (name cn) nm NAME_MAX then Some (Some c)
      else find_by_name h cs' nm
  end.

(** [dir_find]. The outer [option] is definedness, the inner one the
    pointer returned. *)
Definition dir_find (h : gmap addr node_t) (dir : ptr) (nm : string)
  : option ptr :=
  match dir with
  | None => Some NULL
  | Some d =>
      dn ← h !! d;
      if negb (is_dir dn) then Some NULL
      else find_by_name h (children dn) nm
  end.

(** ** The path resolver *)

(** The loop of [walk_from] over the tokens that remain: [tok] is the
    head of the list and [next] the head of its tail. The result is the
    pointer returned and what was written to [out_leaf], if anything. *)
Fixpoint walk_loop (h : gmap addr node_t) (want_parent : bool)
    (cur : ptr) (toks : list string) : option (ptr * option string) :=
  match toks with
  | [] => Some (cur, None)
  | tok :: rest =>
      if (strlen tok =? 0)%nat || (NAME_MAX <? strlen tok)%nat
      then Some (NULL, None)
      else if strcmp_eq tok dot then walk_loop h want_parent cur rest
      else if strcmp_eq tok dotdot then
        a ← cur;
        cn ← h !! a;
        walk_loop h want_parent
                  (match parent cn with Some p => Some p | None => cur end)
                  rest
      else
        match rest with
        | [] =>
            if want_parent then Some (cur, Some (str_take NAME_MAX tok))
            else r ← dir_find h cur tok; Some (r, None)
        | _ :: _ =>
            r ← dir_find h cur tok;
            match r with
            | None => Some (NULL, None)
            | Some a =>
                n ← h !! a;
                if negb (is_dir n) then Some (NULL, None)
                else walk_loop h want_parent (Some a) rest
            end
        end
  end.

(** What the loop of [walk_from] has reached when it stands before a
    segment: a current node, or the point where it returned [NULL]. *)
Inductive reached : Type :=
  | At (cur : ptr)
  | Lost.

(** The iterations of [walk_loop] over segments that are followed by
    another one ([next] is not null), read off the same branches. It
    is related to [walk_loop] by [walk_loop_app] below. *)
Fixpoint descend (h : gmap addr node_t) (cur : ptr) (pre : list string)
  : option reached :=
  match pre with
  | [] => Some (At cur)
  | tok :: rest =>
      if (strlen tok =? 0)%nat || (NAME_MAX <? strlen tok)%nat
      then Some Lost
      else if strcmp_eq tok dot then descend h cur rest
      else if strcmp_eq tok dotdot then
        a ← cur;
        cn ← h !! a;
        descend h (match parent cn with Some p => Some p | None => cur end)
                rest
      else
        r ← dir_find h cur tok;
        match r with
        | None => Some Lost
        | Some a =>
            n ← h !! a;
            if negb (is_dir n) then Some Lost
            else descend h (Some a) rest
        end
  end.

(** Where a walk starts: the root for an absolute path, else [start],
    or the root when [start] is null. *)
Definition start_node (s : fs) (start : ptr) (path : string) : ptr :=
  if is_absolute path then root s
  else match start with Some a => Some a | None => root s end.

(** [walk_from], for a path that is not the null pointer. *)
Definition walk_from (s : fs) (start : ptr) (path : string)
    (want_parent : bool) : option (ptr * option string) :=
  walk_loop (heap s) want_parent (start_node s start path)
            (tokens (path_buffer path)).

(** [walk]. *)
Definition walk (path : string) (want_parent : bool)
  : M (ptr * option string) :=
  lift (fun s => walk_from s (cwd s) path want_parent).

(** The content of a leaf buffer that was initialised to zeros and
    handed to [walk]. *)
Definition leaf_of (written : option string) : string :=
  match written with Some l => l | None => EmptyString end.

(** [fs_cd]. *)
Definition fs_cd (path : string) : M Z :=
  '(d, _) <- walk path false ;
  match d with
  | None => ret (-1)
  | Some a =>
      dn <- deref (Some a) ;
      if negb (is_dir dn) then ret (-1)
      else
        (fun s => Ret tt (set_cwd (Some a) s)) ;;
        now <- time ;
        modify a (set_accessed now) ;;
        ret 0
  end.

(** ** Directory creation *)

(** The loop of [mkdir_p] over the tokens that remain. *)
Fixpoint mkdir_loop (toks : list string) (cur : ptr) : M Z :=
  match toks with
  | [] => ret 0
  | tok :: rest =>
      if (strlen tok =? 0)%nat || (NAME_MAX <? strlen tok)%nat then ret (-1)
      else if strcmp_eq tok dot then mkdir_loop rest cur
      else if strcmp_eq tok dotdot then
        cn <- deref cur ;
        mkdir_loop rest (match parent cn with Some p => Some p | None => cur end)
      else
        n <- lift (fun s => dir_find (heap s) cur tok) ;
        match n with
        | None =>
            n' <- node_new N_DIR tok cur ;
            r <- dir_add cur n' ;
            match r with
            | None => ret (-1)
            | Some _ => mkdir_loop rest n'
            end
        | Some a =>
            nd <- deref (Some a) ;
            if negb (is_dir nd) then ret (-1)
            else
              now <- time ;
              modify a (set_accessed now) ;;
              mkdir_loop rest (Some a)
        end
  end.

(** [mkdir_p]. *)
Definition mkdir_p (path : string) : M Z :=
  if strcmp_eq path (String slash EmptyString) || strcmp_eq path EmptyString
  then ret 0
  else
    s <- get ;
    mkdir_loop (tokens (path_buffer path))
               (if is_absolute path then root s else cwd s).

Definition stamp_both (now : Z) (n : node_t) : node_t :=
  set_accessed now (set_modified now n).

(** [create_file]. *)
Definition create_file (path : string) : M Z :=
  '(par, written) <- walk path true ;
  let leaf := leaf_of written in
  match par with
  | None => ret (-1)
  | Some p =>
      pn <- deref (Some p) ;
      if negb (is_dir pn) then ret (-1)
      else if (strlen leaf =? 0)%nat then ret (-1)
      else if strcmp_eq leaf dot || strcmp_eq leaf dotdot then ret (-1)
      else if (NAME_MAX <? strlen leaf)%nat then ret (-1)
      else
        c <- lift (fun s => dir_find (heap s) (Some p) leaf) ;
        match c with
        | Some _ => ret (-1)
        | None =>
            if is_readonly pn then ret (-1)
            else
              f <- node_new N_FILE leaf (Some p) ;
              r <- dir_add (Some p) f ;
              match r with
              | None => node_free f ;; ret (-1)
              | Some _ =>
                  now <- time ;
                  modify p (stamp_both now) ;;
                  ret 0
              end
        end
  end.

(** ** File contents *)

(** The loop [while (newcap < want) newcap *= 2] on 64-bit values. A
    capacity that is still too small after 64 doublings is zero and
    stays zero: the loop does not end. *)
Fixpoint grow (fuel : nat) (newcap want : Z) : option Z :=
  if newcap <? want then
    match fuel with
    | O => None
    | S fuel' => grow fuel' (wrap (newcap * 2)) want
    end
  else Some newcap.

(** [ensure_cap]. *)
Definition ensure_cap (f : addr) (want : Z) : M Z :=
  fn <- deref (Some f) ;
  if want <=? cap fn then ret 0
  else
    match grow 64 (if cap fn =? 0 then 64 else cap fn) want with
    | None => diverges
    | Some newcap =>
        s <- get ;
        if negb (allocator s newcap) then ret (-1)
        else
          modify f (fun n =>
            set_data (data n ++ replicate (Z.to_nat (newcap - cap n)) x00) n) ;;
          ret 0
    end.

(** [memcpy(d + off, buf, len)] into the buffer [d]; defined when the
    bytes written lie inside [d]. *)
Definition memcpy_to (d : list byte) (off : Z) (buf : list byte)
  : option (list byte) :=
  let len := Z.of_nat (length buf) in
  if (0 <=? off) && (off + len <=? Z.of_nat (length d))
  then Some (take (Z.to_nat off) d ++ buf ++ drop (Z.to_nat (off + len)) d)
  else None.

(** [memcpy(buf, d + off, n)]: the bytes read, when they lie inside
    [d]. *)
Definition memcpy_from (d : list byte) (off n : Z) : option (list byte) :=
  if (0 <=? off) && (off + n <=? Z.of_nat (length d))
  then Some (take (Z.to_nat n) (drop (Z.to_nat off) d))
  else None.

(** The body shared by [write_file] and [fs_write_fd] once the node
    [a] and the position [off] are known: grow, copy, extend the size
    and stamp. Returns [false] when the buffer could not be grown. *)
Definition write_at (a : addr) (off : Z) (buf : list byte) : M bool :=
  let len := Z.of_nat (length buf) in
  let need := wrap (off + len) in
  r <- ensure_cap a need ;
  if r <? 0 then ret false
  else
    fn <- deref (Some a) ;
    match memcpy_to (data fn) off buf with
    | None => undefined
    | Some d' =>
        modify a (set_data d') ;;
        (if size fn <? need then modify a (set_size need) else ret tt) ;;
        now <- time ;
        modify a (stamp_both now) ;;
        ret true
    end.

(** [write_file]; [buf] holds the [len] bytes to write. *)
Definition write_file (path : string) (off : Z) (buf : list byte) : M Z :=
  '(f, _) <- walk path false ;
  match f with
  | None => ret (-1)
  | Some a =>
      fn <- deref (Some a) ;
      if negb (is_file fn) then ret (-1)
      else if is_readonly fn then ret (-1)
      else
        ok <- write_at a off buf ;
        if ok then ret (to_signed (Z.of_nat (length buf))) else ret (-1)
  end.

(** [read_file]: the value returned and the bytes placed in [buf]. *)
Definition read_file (path : string) (off len : Z) : M (Z * list byte) :=
  '(f, _) <- walk path false ;
  match f with
  | None => ret (-1, [])
  | Some a =>
      fn <- deref (Some a) ;
      if negb (is_file fn) then ret (-1, [])
      else if size fn <=? off then ret (0, [])
      else
        let n := if len <? size fn - off then len else size fn - off in
        match memcpy_from (data fn) off n with
        | None => undefined
        | Some bytes =>
            now <- time ;
            modify a (set_accessed now) ;;
            ret (to_signed n, bytes)
        end
  end.

(** ** Removal *)

(** [children[i] = children[child_count-1]; child_count--]. *)
Definition swap_remove (i : nat) (cs : list addr) : list addr :=
  match last cs with
  | Some l => take (length cs - 1) (<[i := l]> cs)
  | None => cs
  end.

(** The scan of [rm_file]: the first slot, counted from [i], whose node
    is a file named [leaf]. *)
Fixpoint find_file (h : gmap addr node_t) (cs : list addr) (leaf : string)
    (i : nat) : option (option (nat * addr * node_t)) :=
  match cs with
  | [] => Some None
  | c :: cs' =>
      cn ← h !! c;
      if strncmp_eq (name cn) leaf NAME_MAX && is_file cn
      then Some (Some (i, c, cn))
      else find_file h cs' leaf (S i)
  end.

(** [rm_file]. *)
Definition rm_file (path : string) : M Z :=
  '(par, written) <- walk path true ;
  let leaf := leaf_of written in
  match par with
  | None => ret (-1)
  | Some p =>
      pn <- deref (Some p) ;
      if is_readonly pn then ret (-1)
      else
        hit <- lift (fun s => find_file (heap s) (children pn) leaf O) ;
        match hit with
        | None => ret (-1)
        | Some (i, c, cn) =>
            if is_readonly cn then ret (-1)
            else
              modify p (set_children (swap_remove i (children pn))) ;;
              node_free (Some c) ;;
              now <- time ;
              modify p (stamp_both now) ;;
              ret 0
        end
  end.

Definition ptr_eqb (a b : ptr) : bool :=
  match a, b with
  | Some x, Some y => Pos.eqb x y
  | None, None => true
  | _, _ => false
  end.

(** [rmdir_empty]. *)
Definition rmdir_empty (path : string) : M Z :=
  '(d, _) <- walk path false ;
  match d with
  | None => ret (-1)
  | Some a =>
      dn <- deref (Some a) ;
      s <- get ;
      if negb (is_dir dn) || ptr_eqb (Some a) (root s) then ret (-1)
      else if negb (child_count dn =? 0)%nat then ret (-1)
      else
        pn <- deref (parent dn) ;
        if is_readonly pn then ret (-1)
        else if is_readonly dn then ret (-1)
        else
          match parent dn, index_of a (children pn) with
          | Some p, Some i =>
              modify p (set_children (swap_remove i (children pn))) ;;
              node_free (Some a) ;;
              now <- time ;
              modify p (stamp_both now) ;;
              ret 0
          | _, _ => ret (-1)
          end
  end.

(** ** Listing, metadata and search *)

(** [ls_dir], for a path that is not the null pointer: the names it
    prints are read from the children, which must be live. *)
Definition ls_dir (path : string) : M Z :=
  s <- get ;
  '(d, _) <- (if (strlen path =? 0)%nat || strcmp_eq path dot
              then ret (cwd s, None)
              else if strcmp_eq path (String slash EmptyString)
              then ret (root s, None)
              else walk path false) ;
  match d with
  | None => ret (-1)
  | Some a =>
      dn <- deref (Some a) ;
      if negb (is_dir dn) then ret (-1)
      else
        now <- time ;
        modify a (set_accessed now) ;;
        lift (fun s' => mapM (fun c => heap s' !! c) (children dn)) ;;
        ret 0
  end.

Record file_info_t : Type := mk_info {
  info_type : node_type;
  info_name : string;
  info_created : Z;
  info_modified : Z;
  info_accessed : Z;
  info_attributes : Z;
  info_size : Z;
  info_child_count : nat
}.

(** [get_file_info], for an [info] that is not the null pointer: the
    value returned and the snapshot written. *)
Definition get_file_info (path : string) : M (Z * option file_info_t) :=
  '(n, _) <- walk path false ;
  match n with
  | None => ret (-1, None)
  | Some a =>
      nd <- deref (Some a) ;
      let info :=
        {| info_type := type nd;
           info_name := str_take NAME_MAX (name nd);
           info_created := created nd;
           info_modified := modified nd;
           info_accessed := accessed nd;
           info_attributes := attributes nd;
           info_size := if is_file nd then size nd else 0;
           info_child_count := if is_file nd then O else child_count nd |} in
      now <- time ;
      modify a (set_accessed now) ;;
      ret (0, Some info)
  end.

(** [set_file_attributes]. *)
Definition set_file_attributes (path : string) (attrs : Z) : M Z :=
  '(n, _) <- walk path false ;
  match n with
  | None => ret (-1)
  | Some a =>
      modify a (set_attributes attrs) ;;
      now <- time ;
      modify a (set_modified now) ;;
      ret 0
  end.

(** [touch_file]. *)
Definition touch_file (path : string) : M Z :=
  '(n, _) <- walk path false ;
  match n with
  | None => ret (-1)
  | Some a =>
      now <- time ;
      modify a (set_accessed now) ;;
      modify a (set_modified now) ;;
      ret 0
  end.

(** [search_subtree]: the number of matches below [n]. The recursion
    follows child pointers and is bounded by [fuel]; on a tree it ends
    before the bound, on a cycle the C function does not end. *)
Fixpoint search_subtree (fuel : nat) (n : ptr) (term : string) : M Z :=
  match n with
  | None => ret 0
  | Some a =>
      if (strlen term =? 0)%nat then ret 0
      else
        match fuel with
        | O => diverges
        | S fuel' =>
            now <- time ;
            modify a (set_accessed now) ;;
            nd <- deref (Some a) ;
            s <- get ;
            let here :=
              if negb (ptr_eqb (Some a) (root s)) && strstr (name nd) term
              then 1 else 0 in
            if is_dir nd then
              foldl (fun acc c =>
                       m <- acc ;
                       r <- search_subtree fuel' (Some c) term ;
                       ret (m + r))
                    (ret here) (children nd)
            else ret here
        end
  end.

(** [fs_search], for a term that is not the null pointer. *)
Definition fs_search (term : string) : M Z :=
  if (strlen term =? 0)%nat then ret (-1)
  else
    s <- get ;
    m <- search_subtree (S (base.size (heap s))) (cwd s) term ;
    ret (if 0 <=? m then m else -1).

(** ** Rename and move *)

(** [rename_file], for paths that are not the null pointer. *)
Definition rename_file (old_path new_path : string) : M Z :=
  '(n, _) <- walk old_path false ;
  match n with
  | None => ret (-1)
  | Some a =>
      s <- get ;
      if ptr_eqb (Some a) (root s) then ret (-1)
      else
        nd <- deref (Some a) ;
        if is_readonly nd then ret (-1)
        else
          ro <- match parent nd with
                | Some p => pn <- deref (Some p) ; ret (is_readonly pn)
                | None => ret false
                end ;
          if ro then ret (-1)
          else
            '(new_parent, written) <- walk new_path true ;
            let new_name := leaf_of written in
            match new_parent with
            | None => ret (-1)
            | Some np =>
                npn <- deref (Some np) ;
                if negb (is_dir npn) then ret (-1)
                else if is_readonly npn then ret (-1)
                else
                  c <- lift (fun s' => dir_find (heap s') (Some np) new_name) ;
                  match c with
                  | Some _ => ret (-1)
                  | None =>
                      moved <-
                        (if ptr_eqb (parent nd) (Some np) then ret true
                         else
                           let old_parent := parent nd in
                           opn <- deref old_parent ;
                           match old_parent, index_of a (children opn) with
                           | Some op, Some i =>
                               modify op (set_children
                                            (swap_remove i (children opn)))
                           | _, _ => ret tt
                           end ;;
                           modify a (set_parent NULL) ;;
                           r <- dir_add (Some np) (Some a) ;
                           match r with
                           | None => dir_add old_parent (Some a) ;; ret false
                           | Some _ =>
                               now <- time ;
                               match old_parent with
                               | Some op => modify op (stamp_both now)
                               | None => undefined
                               end ;;
                               ret true
                           end) ;
                      if negb moved then ret (-1)
                      else
                        modify a (set_name (str_take NAME_MAX new_name)) ;;
                        now <- time ;
                        modify a (set_modified now) ;;
                        cur <- deref (Some a) ;
                        match parent cur with
                        | Some p => modify p (set_modified now)
                        | None => ret tt
                        end ;;
                        ret 0
                  end
            end
  end.

(** ** The descriptor table *)

(** The slot of the first entry of [t] that is not in use, counted
    from [i]. *)
Fixpoint first_free (t : list file_descriptor_t) (i : nat) : option nat :=
  match t with
  | [] => None
  | d :: t' => if in_use d then first_free t' (S i) else Some i
  end.

(** [fs_open]. *)
Definition fs_open (path : string) (fl : Z) : M Z :=
  '(n, _) <- walk path false ;
  match n with
  | None => ret (-1)
  | Some a =>
      nd <- deref (Some a) ;
      if negb (is_file nd) then ret (-1)
      else if (negb (Z.land fl O_WRONLY =? 0) || negb (Z.land fl O_RDWR =? 0))
              && is_readonly nd
      then ret (-1)
      else
        s <- get ;
        match first_free (take MAX_OPEN_FILES (fd_table s)) O with
        | Some i =>
            (fun s' =>
               Ret tt (set_fd_table
                         (<[i := {| node := Some a; offset := 0;
                                    flags := fl; in_use := true |}]>
                            (fd_table s')) s')) ;;
            now <- time ;
            modify a (set_accessed now) ;;
            ret (Z.of_nat i)
        | None => ret (-1)
        end
  end.

(** The test [fd < 0 || fd >= MAX_OPEN_FILES || !fd_table[fd].in_use]
    that opens every descriptor operation: the slot and its index when
    the test lets the call through. *)
Definition fd_lookup (fd : Z) : M (option (nat * file_descriptor_t)) :=
  if (fd <? 0) || (Z.of_nat MAX_OPEN_FILES <=? fd) then ret None
  else
    d <- lift (fun s => fd_table s !! Z.to_nat fd) ;
    if in_use d then ret (Some (Z.to_nat fd, d)) else ret None.

Definition set_slot (i : nat) (d : file_descriptor_t) : M unit :=
  fun s => Ret tt (set_fd_table (<[i := d]> (fd_table s)) s).

(** [fs_close]. *)
Definition fs_close (fd : Z) : M Z :=
  o <- fd_lookup fd ;
  match o with
  | None => ret (-1)
  | Some (i, _) => set_slot i free_slot ;; ret 0
  end.

Definition set_offset (x : Z) (d : file_descriptor_t) : file_descriptor_t :=
  {| node := node d; offset := x; flags := flags d; in_use := in_use d |}.

(** [fs_read_fd], for a buffer that is not the null pointer: the value
    returned and the bytes placed in [buf]. *)
Definition fs_read_fd (fd : Z) (len : Z) : M (Z * list byte) :=
  o <- fd_lookup fd ;
  match o with
  | None => ret (-1, [])
  | Some (i, f) =>
      if (Z.land (flags f) O_RDONLY =? 0) && (Z.land (flags f) O_RDWR =? 0)
      then ret (-1, [])
      else
        match node f with
        | None => ret (-1, [])
        | Some a =>
            nd <- deref (Some a) ;
            if negb (is_file nd) then ret (-1, [])
            else if size nd <=? offset f then ret (0, [])
            else
              let to_read :=
                if len <? size nd - offset f then len
                else size nd - offset f in
              match memcpy_from (data nd) (offset f) to_read with
              | None => undefined
              | Some bytes =>
                  set_slot i (set_offset (wrap (offset f + to_read)) f) ;;
                  now <- time ;
                  modify a (set_accessed now) ;;
                  ret (to_signed to_read, bytes)
              end
        end
  end.

(** [fs_write_fd], for a buffer that is not the null pointer. *)
Definition fs_write_fd (fd : Z) (buf : list byte) : M Z :=
  o <- fd_lookup fd ;
  match o with
  | None => ret (-1)
  | Some (i, f) =>
      if (Z.land (flags f) O_WRONLY =? 0) && (Z.land (flags f) O_RDWR =? 0)
      then ret (-1)
      else
        match node f with
        | None => ret (-1)
        | Some a =>
            nd <- deref (Some a) ;
            if negb (is_file nd) then ret (-1)
            else if is_readonly nd then ret (-1)
            else
              let len := Z.of_nat (length buf) in
              r <- ensure_cap a (wrap (offset f + len)) ;
              if r <? 0 then ret (-1)
              else
                fn <- deref (Some a) ;
                match memcpy_to (data fn) (offset f) buf with
                | None => undefined
                | Some d' =>
                    modify a (set_data d') ;;
                    (if size fn <? wrap (offset f + len)
                     then modify a (set_size (wrap (offset f + len)))
                     else ret tt) ;;
                    set_slot i (set_offset (wrap (offset f + len)) f) ;;
                    now <- time ;
                    modify a (stamp_both now) ;;
                    ret (to_signed len)
                end
        end
  end.

(** [fs_seek]. The sums are computed in [off_t]; one that leaves the
    type has no defined result. *)
Definition fs_seek (fd : Z) (off : Z) (whence : Z) : M Z :=
  o <- fd_lookup fd ;
  match o with
  | None => ret (-1)
  | Some (i, f) =>
      match node f with
      | None => ret (-1)
      | Some a =>
          nd <- deref (Some a) ;
          if negb (is_file nd) then ret (-1)
          else
            let target :=
              if whence =? 0 then Some off
              else if whence =? 1 then Some (to_signed (offset f) + off)
              else if whence =? 2 then Some (to_signed (size nd) + off)
              else None in
            match target with
            | None => ret (-1)
            | Some new_offset =>
                if (new_offset <? - SSIZE_MOD) || (SSIZE_MOD <=? new_offset)
                then undefined
                else if new_offset <? 0 then ret (-1)
                else
                  set_slot i (set_offset new_offset f) ;;
                  ret new_offset
            end
      end
  end.

(** ** The interface as a type of calls *)

Inductive call : Type :=
  | Fs_init
  | Fs_destroy
  | Fs_cd (path : string)
  | Mkdir_p (path : string)
  | Rmdir_empty (path : string)
  | Ls_dir (path : string)
  | Fs_search (term : string)
  | Create_file (path : string)
  | Write_file (path : string) (off : Z) (buf : list byte)
  | Read_file (path : string) (off len : Z)
  | Rm_file (path : string)
  | Rename_file (old_path new_path : string)
  | Fs_open (path : string) (fl : Z)
  | Fs_close (fd : Z)
  | Fs_read_fd (fd len : Z)
  | Fs_write_fd (fd : Z) (buf : list byte)
  | Fs_seek (fd off whence : Z)
  | Get_file_info (path : string)
  | Set_file_attributes (path : string) (attrs : Z)
  | Touch_file (path : string).

(** The value a call returns to its caller; the two calls that return
    nothing are given the value 0. *)
Definition exec (c : call) : M Z :=
  match c with
  | Fs_init => fs_init ;; ret 0
  | Fs_destroy => fs_destroy ;; ret 0
  | Fs_cd p => fs_cd p
  | Mkdir_p p => mkdir_p p
  | Rmdir_empty p => rmdir_empty p
  | Ls_dir p => ls_dir p
  | Fs_search t => fs_search t
  | Create_file p => create_file p
  | Write_file p off buf => write_file p off buf
  | Read_file p off len => r <- read_file p off len ; ret (fst r)
  | Rm_file p => rm_file p
  | Rename_file o n => rename_file o n
  | Fs_open p fl => fs_open p fl
  | Fs_close fd => fs_close fd
  | Fs_read_fd fd len => r <- fs_read_fd fd len ; ret (fst r)
  | Fs_write_fd fd buf => fs_write_fd fd buf
  | Fs_seek fd off wh => fs_seek fd off wh
  | Get_file_info p => r <- get_file_info p ; ret (fst r)
  | Set_file_attributes p at_ => set_file_attributes p at_
  | Touch_file p => touch_file p
  end.

(** ** What callers can observe of a state *)

(** The tree with its names, contents, sizes and attributes, the root
    and the current directory, and the descriptor table; the position
    of the clock is not part of it. *)
Definition same_fs (s s' : fs) : Prop :=
  heap s' = heap s /\ root s' = root s /\ cwd s' = cwd s /\
  fd_table s' = fd_table s.

(** The byte count of a read is a [size_t]: any value from 0 to
    [SIZE_MOD - 1]. *)
Definition count_in_range (c : call) : Prop :=
  match c with
  | Read_file _ _ len | Fs_read_fd _ len => 0 <= len < SIZE_MOD
  | _ => True
  end.

(** ** Attributes across a call *)

(** Every node that is live before and after has kept its attribute
    bitset. *)
Definition keeps_attrs (s s' : fs) : Prop :=
  forall a nd nd',
    heap s !! a = Some nd -> heap s' !! a = Some nd' ->
    attributes nd' = attributes nd.

(** Live nodes stay live with their attributes; nodes may be added. *)
Definition extends (s s' : fs) : Prop :=
  forall a nd,
    heap s !! a = Some nd ->
    exists nd', heap s' !! a = Some nd' /\ attributes nd' = attributes nd.

(** Nodes that are live afterwards were live with the same attributes;
    nodes may be released. *)
Definition shrinks (s s' : fs) : Prop :=
  forall a nd',
    heap s' !! a = Some nd' ->
    exists nd, heap s !! a = Some nd /\ attributes nd' = attributes nd.

(** Every returning run of [m] relates the state before to the state
    after. *)
Definition pres {A : Type} (R : fs -> fs -> Prop) (m : M A) : Prop :=
  forall s v s', m s = Ret v s' -> R s s'.

(** The relations between states that the in-place updates of nodes
    respect. *)
Class FrameRel (R : fs -> fs -> Prop) : Prop := {
  frame_same_heap : forall s s', heap s' = heap s -> R s s';
  frame_trans : forall s1 s2 s3, R s1 s2 -> R s2 s3 -> R s1 s3;
  frame_modify : forall s a n n',
    heap s !! a = Some n ->
    attributes n' = attributes n -> cap n' = cap n ->
    R s (set_heap (<[a := n']> (heap s)) s)
}.

(** ** Shape of the tree *)

(** Two nodes with the same type, name, parent and children: what the
    path resolver reads of a node. *)
Definition shape_eq (n n' : node_t) : Prop :=
  type n = type n' /\ name n = name n' /\ parent n = parent n' /\
  children n = children n'.

Definition same_shape (h h' : gmap addr node_t) : Prop :=
  forall a,
    (h !! a = None /\ h' !! a = None) \/
    (exists n n', h !! a = Some n /\ h' !! a = Some n' /\ shape_eq n n').

(** The [cap] field of every node holds a [size_t]. *)
Definition caps_fit (s : fs) : Prop :=
  forall a nd, heap s !! a = Some nd -> cap nd < SIZE_MOD.

Definition caps_fit_b (s : fs) : bool :=
  forallb (fun x : addr * node_t => cap (snd x) <? SIZE_MOD)
          (map_to_list (heap s)).

(** The capacities stay 64-bit values. *)
Definition keeps_caps (s s' : fs) : Prop := caps_fit s -> caps_fit s'.

(** The capacities that [ensure_cap] leaves: none at first, then 64
    bytes doubled as often as a request needs. Each is a multiple of
    64 that a [size_t] holds. *)
Definition caps_aligned (s : fs) : Prop :=
  forall a nd, heap s !! a = Some nd -> cap nd < SIZE_MOD /\ (64 | cap nd).

Definition keeps_aligned (s s' : fs) : Prop :=
  caps_aligned s -> caps_aligned s'.

(** ** Sample states *)

Definition always_grants : Z -> bool := fun _ => true.
Definition wall_clock : nat -> Z := fun k => 1000 + Z.of_nat k.

(** The state after [m], started from [s], when [m] returns. *)
Definition state_after {A : Type} (m : M A) (s : fs) : fs :=
  match m s with
  | Ret _ s' => s'
  | _ => s
  end.

Definition value_of {A : Type} (m : M A) (s : fs) : option A :=
  match m s with
  | Ret v _ => Some v
  | _ => None
  end.

(** The file system right after [fs_init]. *)
Definition fresh_fs : fs := state_after fs_init (boot always_grants wall_clock).

Definition bytes_of (s : string) : list byte := list_byte_of_string s.


Definition forty_bytes : string := "0123456789012345678901234567890123456789".

Definition thirty_two_bytes : string := "01234567890123456789012345678901".

Definition hello : list byte := bytes_of "Hello, World!".

(** The scenario of the specification: [/a/b/c] is made, [f.txt] is
    created in it and thirteen bytes are written. *)
Definition with_dirs : fs := state_after (mkdir_p "/a/b/c") fresh_fs.
Definition with_file : fs := state_after (create_file "/a/b/c/f.txt") with_dirs.
Definition with_data : fs :=
  state_after (write_file "/a/b/c/f.txt" 0 hello) with_file.

(** The same with the file flagged read-only. *)
Definition with_readonly_file : fs :=
  state_after (set_file_attributes "/a/b/c/f.txt" ATTR_READONLY) with_data.

(** The same with every descriptor slot taken by an open for reading. *)
Definition with_full_table : fs :=
  Nat.iter MAX_OPEN_FILES
           (state_after (fs_open "/a/b/c/f.txt" O_RDONLY)) with_data.

(** The file of the scenario opened for writing only: descriptor 0. *)
Definition with_write_only_fd : fs :=
  state_after (fs_open "/a/b/c/f.txt" O_WRONLY) with_data.

(** The scenario with a second file [g.txt] next to [f.txt]. *)
Definition with_two_files : fs :=
  state_after (create_file "/a/b/c/g.txt") with_data.

(** * The helpers that print: [format_attributes] and [node_get_path] *)

(** [strncat(dst, src, n)]: at most [n] bytes of [src] are appended. *)
Definition strncat (dst src : string) (n : nat) : string :=
  dst +:+ str_take n src.

(** [attributes & bit]. *)
Definition has_bit (attrs bit : Z) : bool := negb (Z.land attrs bit =? 0).

(** One of the four blocks of [format_attributes]: the buffer and the
    flag [first] after it. *)
Definition append_flag (attrs bit : Z) (word : string) (st : string * bool)
  : string * bool :=
  if has_bit attrs bit then
    (strncat (fst st)
             (if snd st then word else String "," word)
             (32 - strlen (fst st) - 1),
     false)
  else st.

(** [format_attributes]: the content of the static buffer of 32 bytes
    that it returns. *)
Definition format_attributes (attrs : Z) : string :=
  if attrs =? ATTR_NONE then str_take 32 "none"
  else
    let st := (EmptyString, true) in
    let st := append_flag attrs ATTR_HIDDEN "hidden" st in
    let st := append_flag attrs ATTR_READONLY "readonly" st in
    let st := append_flag attrs ATTR_SYSTEM "system" st in
    let st := append_flag attrs ATTR_ARCHIVE "archive" st in
    fst st.

(** The names of the flags that are set in [attrs], in the order in
    which [format_attributes] tests them. *)
Definition flag_names (attrs : Z) : list string :=
  (if has_bit attrs ATTR_HIDDEN then ["hidden"%string] else []) ++
  (if has_bit attrs ATTR_READONLY then ["readonly"%string] else []) ++
  (if has_bit attrs ATTR_SYSTEM then ["system"%string] else []) ++
  (if has_bit attrs ATTR_ARCHIVE then ["archive"%string] else []).

(** The comparison of [format_attributes] with the names of the flags
    for the byte [k], and the bound on its length. *)
Definition format_attributes_agrees (k : nat) : bool :=
  let attrs := Z.of_nat k in
  String.eqb (format_attributes attrs)
             (if attrs =? 0 then "none"
              else String.concat "," (flag_names attrs)) &&
  (strlen (format_attributes attrs) <=? 30)%nat.

(** The first loop of [node_get_path]: the names from [cur] upwards,
    until the root or a null parent is met or [count] reaches 64
    ([left] is what remains of the 64). *)
Fixpoint segments_up (h : gmap addr node_t) (rt : ptr) (left : nat)
    (cur : ptr) : option (list string) :=
  match cur with
  | None => Some []
  | Some a =>
      if ptr_eqb (Some a) rt then Some []
      else
        match left with
        | O => Some []
        | S left' =>
            nd ← h !! a;
            rest ← segments_up h rt left' (parent nd);
            Some (name nd :: rest)
        end
  end.

(** The second loop of [node_get_path]: [names] are the segments that
    remain, from the one nearest to the root on, [acc] is what the
    buffer holds ([pos] is its length) and [limit] is [bufsize - 1]. *)
Fixpoint join_segments (limit : nat) (acc : string) (names : list string)
  : string :=
  match names with
  | [] => acc
  | nm :: rest =>
      if (strlen acc <? limit)%nat then
        let len :=
          if (limit <=? strlen acc + strlen nm)%nat
          then (limit - strlen acc)%nat else strlen nm in
        let acc1 := acc +:+ str_take len nm in
        let acc2 :=
          match rest with
          | [] => acc1
          | _ :: _ =>
              if (strlen acc1 <? limit)%nat
              then acc1 +:+ String slash EmptyString else acc1
          end in
        join_segments limit acc2 rest
      else acc
  end.

(** [node_get_path], for a buffer that is not the null pointer: what
    the buffer of [bufsize] bytes holds afterwards, [None] when the
    function returns without writing. *)
Definition node_get_path (s : fs) (n : ptr) (bufsize : nat)
  : option (option string) :=
  match n with
  | None => Some None
  | Some a =>
      if (bufsize =? 0)%nat then Some None
      else if ptr_eqb (Some a) (root s)
      then Some (Some (if (1 <? bufsize)%nat
                       then String slash EmptyString else EmptyString))
      else
        segs ← segments_up (heap s) (root s) 64 (Some a);
        let limit := (bufsize - 1)%nat in
        Some (Some (join_segments limit
                      (if (0 <? limit)%nat
                       then String slash EmptyString else EmptyString)
                      (rev segs)))
  end.

(** The path that names the segments [names] from the root. *)
Definition path_of_segments (names : list string) : string :=
  String slash (String.concat (String slash EmptyString) names).

(** * Descriptors and buffers *)

(** The descriptor [fd] names a slot of the table that is in use. *)
Definition open_on (s : fs) (fd : Z) (f : file_descriptor_t) : Prop :=
  0 <= fd < Z.of_nat MAX_OPEN_FILES /\
  fd_table s !! Z.to_nat fd = Some f /\ in_use f = true.

(** The state after [fs_close] has released the slot of [fd]. *)
Definition released (fd : Z) (s : fs) : fs :=
  set_fd_table (<[Z.to_nat fd := free_slot]> (fd_table s)) s.

(** The file of the scenario opened for reading: descriptor 0. *)
Definition with_read_fd : fs :=
  state_after (fs_open "/a/b/c/f.txt" O_RDONLY) with_data.

(** The file of the scenario opened for reading and writing. *)
Definition with_rdwr_fd : fs :=
  state_after (fs_open "/a/b/c/f.txt" O_RDWR) with_data.

(** The node that [a] points to in a sample state (a zeroed node when
    [a] is not live). *)
Definition node_at (s : fs) (a : addr) : node_t :=
  default (mk_node N_FILE EmptyString NULL 0 0 0 0 [] [] 0) (heap s !! a).

(** The node [nd] after the bytes [buf] were written at [off] at time
    [now], its buffer having first been extended by [k] zeroed bytes:
    what [write_file] and [fs_write_fd] leave of the file. *)
Definition written (nd : node_t) (k : nat) (off : Z) (buf : list byte)
    (now : Z) : node_t :=
  let d := data nd ++ replicate k x00 in
  let need := off + Z.of_nat (length buf) in
  stamp_both now
    (set_size (Z.max (size nd) need)
       (set_data (take (Z.to_nat off) d ++ buf ++ drop (Z.to_nat need) d)
                 nd)).

(** * Sequences of calls and what they keep *)

(** The calls [cs] made one after the other, as long as each returns. *)
Fixpoint run (cs : list call) (s : fs) : option fs :=
  match cs with
  | [] => Some s
  | c :: cs' =>
      match exec c s with
      | Ret _ s' => run cs' s'
      | _ => None
      end
  end.

(** The states that a process reaches: [fs_init] on the zeroed statics,
    then any calls of the interface. *)
Definition reachable (s : fs) : Prop :=
  exists alloc clk cs, run (Fs_init :: cs) (boot alloc clk) = Some s.

(** The relations between states that steps respect when the nodes
    they update are related by [keep]: a step that leaves the heap and
    the root alone, two steps in a row, an update in place. *)
Class StepRel (keep : node_t -> node_t -> Prop) (R : fs -> fs -> Prop)
  : Prop := {
  step_same : forall s s', heap s' = heap s -> root s' = root s -> R s s';
  step_trans : forall s1 s2 s3, R s1 s2 -> R s2 s3 -> R s1 s3;
  step_modify : forall s a n n',
    heap s !! a = Some n -> keep n n' ->
    R s (set_heap (<[a := n']> (heap s)) s)
}.

(** ** Calls that only look *)

(** [n'] is [n] but for its access time. *)
Definition accessed_only (n n' : node_t) : Prop :=
  n' = set_accessed (accessed n') n.

(** The same nodes are live, each with the fields it had but for the
    access time, and the root is the same. *)
Definition only_accessed (s s' : fs) : Prop :=
  root s' = root s /\
  forall a,
    match heap s !! a, heap s' !! a with
    | Some n, Some n' => accessed_only n n'
    | None, None => True
    | _, _ => False
    end.

(** The calls that report on the tree or move a cursor. *)
Definition is_query (c : call) : bool :=
  match c with
  | Fs_cd _ | Ls_dir _ | Fs_search _ | Read_file _ _ _ | Get_file_info _
  | Fs_open _ _ | Fs_close _ | Fs_read_fd _ _ | Fs_seek _ _ _ => true
  | _ => false
  end.

(** ** Contents *)

(** The content of a node: its buffer and its size. *)
Definition buffer_eq (n n' : node_t) : Prop :=
  data n' = data n /\ size n' = size n.

(** The two calls that write into a file. *)
Definition is_write (c : call) : bool :=
  match c with
  | Write_file _ _ _ | Fs_write_fd _ _ => true
  | _ => false
  end.

(** Live nodes stay live with their content; nodes may be added. *)
Definition extends_buf (s s' : fs) : Prop :=
  forall a nd,
    heap s !! a = Some nd ->
    exists nd', heap s' !! a = Some nd' /\ buffer_eq nd nd'.

(** Nodes that are live afterwards were live with the same content;
    nodes may be released. *)
Definition shrinks_buf (s s' : fs) : Prop :=
  forall a nd',
    heap s' !! a = Some nd' ->
    exists nd, heap s !! a = Some nd /\ buffer_eq nd nd'.

(** The buffer of a node is sound: the size lies within the capacity,
    the capacity is a [size_t], and every byte of the buffer at or
    after the size is zero. *)
Definition buffer_ok (nd : node_t) : Prop :=
  0 <= size nd <= cap nd /\ cap nd < SIZE_MOD /\
  forall i b, size nd <= Z.of_nat i -> data nd !! i = Some b -> b = x00.

Definition sound_buffers (s : fs) : Prop :=
  forall a nd, heap s !! a = Some nd -> buffer_ok nd.

Definition keeps_buffers (s s' : fs) : Prop :=
  sound_buffers s -> sound_buffers s'.

(** The state after the scenario: what the sample states are reached
    by. *)
Definition scenario : list call :=
  [Mkdir_p "/a/b/c"; Create_file "/a/b/c/f.txt";
   Write_file "/a/b/c/f.txt" 0 hello].

(** ** The links of the tree *)

(** What holds of the node [nd] at [d]: only a directory has entries,
    no entry is listed twice, there are at most [MAX_CHILDREN] of
    them, each is a live node whose parent pointer is [d], and the
    name fits the [name] array. *)
Definition node_ok (h : gmap addr node_t) (d : addr) (nd : node_t) : Prop :=
  (children nd <> [] -> type nd = N_DIR) /\
  NoDup (children nd) /\
  (child_count nd <= MAX_CHILDREN)%nat /\
  (strlen (name nd) <= NAME_MAX)%nat /\
  forall c, c ∈ children nd ->
            exists cn, h !! c = Some cn /\ parent cn = Some d.

Definition linked (h : gmap addr node_t) : Prop :=
  forall d nd, h !! d = Some nd -> node_ok h d nd.

(** The root, when there is one, is a live directory without parent. *)
Definition root_ok (s : fs) : Prop :=
  forall r, root s = Some r ->
            exists rn, heap s !! r = Some rn /\ type rn = N_DIR /\
                       parent rn = NULL.

Definition tree_ok (s : fs) : Prop := linked (heap s) /\ root_ok s.

(** A step that leaves the root where it is and hands [tree_ok] on. *)
Definition tree_step (s s' : fs) : Prop :=
  root s' = root s /\ (tree_ok s -> tree_ok s').

(** ** The current directory and the descriptor table across calls *)

(** The calls that assign to [cwd]. *)
Definition moves_cwd (c : call) : bool :=
  match c with
  | Fs_init | Fs_destroy | Fs_cd _ => true
  | _ => false
  end.

(** The calls that write to a slot of the descriptor table. *)
Definition uses_table (c : call) : bool :=
  match c with
  | Fs_open _ _ | Fs_close _ | Fs_read_fd _ _ | Fs_write_fd _ _
  | Fs_seek _ _ _ => true
  | _ => false
  end.

(** The part [proj] of the state is what it was. *)
Definition field_kept {X : Type} (proj : fs -> X) (s s' : fs) : Prop :=
  proj s' = proj s.

(** ** Paths across calls *)

(** What a call that removes nothing leaves of the node [n] in [n']:
    its type, name and parent, and its entries, with any new ones
    behind them. *)
Definition entries_kept (n n' : node_t) : Prop :=
  type n' = type n /\ name n' = name n /\ parent n' = parent n /\
  exists more, children n' = children n ++ more.

(** The root is where it was and every live node is still there, with
    its entries kept. *)
Definition grows (s s' : fs) : Prop :=
  root s' = root s /\
  forall a n, heap s !! a = Some n ->
              exists n', heap s' !! a = Some n' /\ entries_kept n n'.

(** The calls that neither remove nor rename a node, nor replace the
    root. *)
Definition keeps_paths (c : call) : bool :=
  match c with
  | Fs_init | Fs_destroy | Rm_file _ | Rmdir_empty _ | Rename_file _ _ =>
      false
  | _ => true
  end.

(** [a] points to a live directory. *)
Definition live_dir (s : fs) (a : addr) : Prop :=
  exists n, heap s !! a = Some n /\ type n = N_DIR.

(** ** Names and attachment *)

(** [d] is live and lists [x] among its entries. *)
Definition lists (h : gmap addr node_t) (d x : addr) : Prop :=
  exists dn, h !! d = Some dn /\ x ∈ children dn.

(** No two entries of a directory have the same name. *)
Definition names_unique (h : gmap addr node_t) : Prop :=
  forall d x y xn yn,
    lists h d x -> lists h d y ->
    h !! x = Some xn -> h !! y = Some yn ->
    name xn = name yn -> x = y.

(** [x] is the root or an entry of a live node. *)
Definition attached (s : fs) (x : addr) : Prop :=
  root s = Some x \/ exists d, lists (heap s) d x.

(** Every node that has entries is attached. *)
Definition holders_attached (s : fs) : Prop :=
  forall d x, lists (heap s) d x -> attached s d.

(** The current directory, when there is one, is an attached
    directory. *)
Definition cwd_ok (s : fs) : Prop :=
  forall c, cwd s = Some c -> attached s c /\ live_dir s c.

(** The links of the tree hold, names are unique among siblings, and
    what the resolver starts from and passes through is attached. *)
Definition tidy (s : fs) : Prop :=
  tree_ok s /\ names_unique (heap s) /\ holders_attached s /\ cwd_ok s.

(** The root is where it was and the same nodes are live, each with
    the type, name, parent and entries that it had. *)
Definition shape_kept (s s' : fs) : Prop :=
  root s' = root s /\ same_shape (heap s) (heap s').

(** The same nodes are live in [h'] as in [h], each with the type and
    the name that it had. *)
Definition kept (h h' : gmap addr node_t) : Prop :=
  forall x,
    match h !! x, h' !! x with
    | Some n, Some n' => type n' = type n /\ name n' = name n
    | None, None => True
    | _, _ => False
    end.

(** The same entries are listed in [h'] as in [h]. *)
Definition same_lists (h h' : gmap addr node_t) : Prop :=
  forall d y, lists h' d y <-> lists h d y.

(** The calls that leave a tidy state tidy: [fs_init] on a process
    that has no root yet, [rmdir_empty] on a path that does not
    resolve to the current directory, and every other call. *)
Definition stays_put (c : call) (s : fs) : Prop :=
  match c with
  | Fs_init => root s = NULL
  | Rmdir_empty path =>
      forall w, walk_from s (cwd s) path false <> Some (cwd s, w)
  | _ => True
  end.

(** The descriptor table has its [MAX_OPEN_FILES] slots. *)
Definition table_ok (s : fs) : Prop :=
  length (fd_table s) = MAX_OPEN_FILES.

(** ** Calls that return *)

(** The computation [m], started in [s], returns: it neither reads
    released memory nor runs forever. *)
Definition returns {A : Type} (m : M A) (s : fs) : Prop :=
  exists v s', m s = Ret v s'.

(** The calls that name their object by a path, allocate nothing and
    leave file content alone or only read it, the read at an offset
    that is not negative. [mkdir_p] and [create_file], which call
    [node_new], are not among them. *)
Definition by_path (c : call) : bool :=
  match c with
  | Fs_cd _ | Rmdir_empty _ | Ls_dir _ | Rm_file _ | Rename_file _ _
  | Fs_open _ _ | Get_file_info _ | Set_file_attributes _ _
  | Touch_file _ => true
  | Read_file _ off _ => 0 <=? off
  | _ => false
  end.

(** * Properties *)

(** ** Running a computation *)

Lemma bind_Ret {A B : Type} (m : M A) (k : A -> M B) s v s' :
  bind m k s = Ret v s' ->
  exists x s1, m s = Ret x s1 /\ k x s1 = Ret v s'.
Proof.
  unfold bind. destruct (m s) as [x s1| |]; intros H; try discriminate.
  exists x, s1. split; [reflexivity | exact H].
Qed.

Lemma bind_run {A B : Type} (m : M A) (k : A -> M B) s x s1 :
  m s = Ret x s1 -> bind m k s = k x s1.
Proof. unfold bind. intros ->. reflexivity. Qed.

Lemma deref_Ret p s n s' :
  deref p s = Ret n s' ->
  s' = s /\ exists a, p = Some a /\ heap s !! a = Some n.
Proof.
  unfold deref, lift. destruct p as [a|]; simpl.
  - destruct (heap s !! a) eqn:E; intros H; inversion H; subst.
    split; [reflexivity | exists a; auto].
  - discriminate.
Qed.

Lemma deref_live a s n :
  heap s !! a = Some n -> deref (Some a) s = Ret n s.
Proof. unfold deref, lift. simpl. intros ->. reflexivity. Qed.

Lemma modify_live a f s n :
  heap s !! a = Some n ->
  modify a f s = Ret tt (set_heap (<[a := f n]> (heap s)) s).
Proof. unfold modify. intros ->. reflexivity. Qed.

Lemma lift_Ret {A : Type} (f : fs -> option A) s v s' :
  lift f s = Ret v s' -> s' = s /\ f s = Some v.
Proof.
  unfold lift. destruct (f s); intros H; inversion H; subst; auto.
Qed.

Lemma modify_Ret a f s u s' :
  modify a f s = Ret u s' ->
  exists n, heap s !! a = Some n /\
            s' = set_heap (<[a := f n]> (heap s)) s.
Proof.
  unfold modify. destruct (heap s !! a) as [n|]; intros H; inversion H.
  exists n. auto.
Qed.

Lemma time_Ret s t s' :
  time s = Ret t s' -> t = clock s (ticks s) /\ s' = set_ticks (S (ticks s)) s.
Proof. unfold time. intros H. inversion H. auto. Qed.

(** ** Strings *)

Lemma str_take_length n s : (strlen (str_take n s) <= n)%nat.
Proof.
  unfold strlen. revert s.
  induction n as [|n IH]; intros [|c s]; simpl; try lia.
  specialize (IH s). lia.
Qed.

Lemma str_take_all n s : (strlen s <= n)%nat -> str_take n s = s.
Proof.
  unfold strlen. revert s.
  induction n as [|n IH]; intros [|c s]; simpl; intros H;
    try reflexivity; try lia.
  rewrite IH; [reflexivity | lia].
Qed.

Lemma strcmp_eq_true a b : strcmp_eq a b = true <-> a = b.
Proof. unfold strcmp_eq. apply String.eqb_eq. Qed.

Lemma strcmp_eq_false a b : strcmp_eq a b = false <-> a <> b.
Proof. unfold strcmp_eq. apply String.eqb_neq. Qed.

Global Arguments str_take : simpl never.
Global Arguments strlen : simpl never.

(** ** Node creation *)

Lemma fresh_not_live s : heap s !! fresh (dom (heap s)) = None.
Proof. apply not_elem_of_dom. apply is_fresh. Qed.

Lemma node_new_run t nm par s :
  node_new t nm par s =
  Ret (Some (fresh (dom (heap s))))
      (set_heap
         (<[fresh (dom (heap s)) :=
              {| type := t; name := str_take NAME_MAX nm; parent := par;
                 created := clock s (ticks s);
                 modified := clock s (ticks s);
                 accessed := clock s (ticks s);
                 attributes := ATTR_NONE;
                 children := []; data := []; size := 0 |}]> (heap s))
         (set_ticks (S (ticks s)) s)).
Proof. reflexivity. Qed.

(** C7, as stated, fails: a name of 40 bytes exceeds the bound, and
    [node_new] still returns a node; its name is the first 32 bytes. *)
Lemma node_new_long_name_returns_node :
  strlen forty_bytes = 40%nat /\
  exists s' nd,
    node_new N_FILE forty_bytes NULL fresh_fs = Ret (Some 2%positive) s' /\
    heap s' !! 2%positive = Some nd /\
    name nd = "01234567890123456789012345678901"%string.
Proof.
  split; [reflexivity |].
  eexists _, _. split; [reflexivity |]. split; vm_compute; reflexivity.
Qed.

(** C7, amended: [node_new] has no failure on account of the name. For
    every type, name and parent it returns a pointer to a node that was
    not live before, whose name is the first [NAME_MAX] bytes of the
    given name (the given name itself when it has at most [NAME_MAX]
    bytes), whose attribute bitset is cleared and whose created,
    modified and accessed times are the current reading of the clock;
    no other node changes. *)
Theorem node_new_returns_stamped_node t nm par s :
  exists a s' nd,
    node_new t nm par s = Ret (Some a) s' /\
    heap s !! a = None /\
    heap s' !! a = Some nd /\
    type nd = t /\ parent nd = par /\
    name nd = str_take NAME_MAX nm /\
    ((strlen nm <= NAME_MAX)%nat -> name nd = nm) /\
    attributes nd = ATTR_NONE /\
    created nd = clock s (ticks s) /\
    modified nd = clock s (ticks s) /\
    accessed nd = clock s (ticks s) /\
    forall b, b <> a -> heap s' !! b = heap s !! b.
Proof.
  eexists _, _, _. rewrite node_new_run. split; [reflexivity |].
  split; [apply fresh_not_live |].
  split; [simpl; apply lookup_insert_eq |].
  simpl. repeat (split; [reflexivity |]).
  split; [intros H; apply str_take_all; exact H |].
  repeat (split; [reflexivity |]).
  intros b Hb. apply lookup_insert_ne. congruence.
Qed.

Lemma node_new_returns_stamped_node_witness :
  exists a s' nd,
    node_new N_FILE "f.txt" NULL fresh_fs = Ret (Some a) s' /\
    heap s' !! a = Some nd /\
    name nd = "f.txt"%string /\ attributes nd = 0 /\
    created nd = 1001 /\ modified nd = 1001 /\ accessed nd = 1001.
Proof.
  destruct (node_new_returns_stamped_node N_FILE "f.txt" NULL fresh_fs)
    as (a & s' & nd & Hrun & _ & Hnd & _ & _ & _ & Hnm & Hat & Hc & Hm & Ha & _).
  exists a, s', nd.
  split; [exact Hrun |]. split; [exact Hnd |].
  split; [apply Hnm; vm_compute; lia |].
  split; [exact Hat |].
  split; [rewrite Hc; reflexivity |].
  split; [rewrite Hm; reflexivity | rewrite Ha; reflexivity].
Defined.

(** ** Path resolution *)

Lemma tokens_empty_path : tokens (path_buffer "") = [].
Proof. reflexivity. Qed.

Lemma tokens_slash_path : tokens (path_buffer "/") = [].
Proof. reflexivity. Qed.




(** A last segment that is neither [.] nor [..]. *)
Lemma walk_loop_last h wp cur tok :
  tok <> dot -> tok <> dotdot ->
  walk_loop h wp cur [tok] =
  if (strlen tok =? 0)%nat || (NAME_MAX <? strlen tok)%nat
  then Some (NULL, None)
  else if wp then Some (cur, Some (str_take NAME_MAX tok))
       else r ← dir_find h cur tok; Some (r, None).
Proof.
  intros Hd Hdd. apply strcmp_eq_false in Hd, Hdd.
  cbn [walk_loop]. rewrite Hd, Hdd. reflexivity.
Qed.

(** One iteration of the loop on a segment that is followed by
    another one. *)
Lemma walk_loop_cons h wp cur t rest :
  rest <> [] ->
  walk_loop h wp cur (t :: rest) =
  if (strlen t =? 0)%nat || (NAME_MAX <? strlen t)%nat
  then Some (NULL, None)
  else if strcmp_eq t dot then walk_loop h wp cur rest
  else if strcmp_eq t dotdot then
    a ← cur;
    cn ← h !! a;
    walk_loop h wp (match parent cn with Some p => Some p | None => cur end)
              rest
  else
    r ← dir_find h cur t;
    match r with
    | None => Some (NULL, None)
    | Some a =>
        n ← h !! a;
        if negb (is_dir n) then Some (NULL, None)
        else walk_loop h wp (Some a) rest
    end.
Proof. destruct rest; [congruence | reflexivity]. Qed.

(** The walk over a path is the descent over all segments but the last
    followed by the step on the last one. *)
Lemma walk_loop_app h wp pre tok : forall cur,
  walk_loop h wp cur (pre ++ [tok]) =
  match descend h cur pre with
  | None => None
  | Some Lost => Some (NULL, None)
  | Some (At c) => walk_loop h wp c [tok]
  end.
Proof.
  induction pre as [|t pre IH]; intros cur; [reflexivity |].
  change ((t :: pre) ++ [tok]) with (t :: (pre ++ [tok])).
  rewrite walk_loop_cons by (destruct pre; discriminate).
  cbn [descend].
  destruct ((strlen t =? 0)%nat || (NAME_MAX <? strlen t)%nat); [reflexivity |].
  destruct (strcmp_eq t dot); [apply IH |].
  destruct (strcmp_eq t dotdot).
  { destruct cur as [a|]; [| reflexivity]. cbn.
    destruct (h !! a) as [cn|]; [| reflexivity]. cbn. apply IH. }
  destruct (dir_find h cur t) as [[a|]|]; cbn; try reflexivity.
  destruct (h !! a) as [n|]; cbn; [| reflexivity].
  destruct (negb (is_dir n)); [reflexivity | apply IH].
Qed.



(** No segment produced by the tokenizer is empty. *)
Lemma tokens_from_nonempty s : forall tok t,
  t ∈ tokens_from s tok -> t <> EmptyString.
Proof.
  induction s as [|c s IH]; intros tok t; cbn [tokens_from].
  - destruct tok; [intros H; inversion H |].
    intros H. apply list_elem_of_singleton in H. subst. discriminate.
  - destruct (Ascii.eqb c slash).
    + destruct tok as [|c0 tok]; [apply IH |].
      intros H. apply elem_of_cons in H as [-> | H]; [discriminate |].
      revert H. apply IH.
    + apply IH.
Qed.

Lemma tokens_nonempty path t :
  t ∈ tokens path -> (1 <= strlen t)%nat.
Proof.
  intros H. apply tokens_from_nonempty in H.
  destruct t; [congruence | unfold strlen; simpl; lia].
Qed.

(** The step of the resolver on the last segment when the caller asks
    for the parent: a segment of more than [NAME_MAX] bytes makes the
    resolution fail; [.] and [..] are never handed back as a leaf (the
    node reached, or its parent, is returned and the leaf buffer is
    left as it was); any other segment is handed back as the leaf
    together with the directory reached, and no lookup takes place. *)
Lemma walk_from_want_parent_leaf s start path pre tok c :
  tokens (path_buffer path) = pre ++ [tok] ->
  descend (heap s) (start_node s start path) pre = Some (At c) ->
  ((NAME_MAX < strlen tok)%nat ->
     walk_from s start path true = Some (NULL, None)) /\
  (tok = dot -> walk_from s start path true = Some (c, None)) /\
  (tok = dotdot ->
     forall a cn, c = Some a -> heap s !! a = Some cn ->
     walk_from s start path true =
       Some (match parent cn with Some p => Some p | None => c end, None)) /\
  ((strlen tok <= NAME_MAX)%nat -> tok <> dot -> tok <> dotdot ->
     walk_from s start path true = Some (c, Some tok)).
Proof.
  intros Htok Hpre. unfold walk_from. rewrite Htok, walk_loop_app, Hpre.
  assert (Hne : (1 <= strlen tok)%nat).
  { apply (tokens_nonempty (path_buffer path)). rewrite Htok.
    apply elem_of_app. right. apply list_elem_of_singleton. reflexivity. }
  repeat apply conj.
  - intros Hlen. cbn [walk_loop].
    replace (NAME_MAX <? strlen tok)%nat with true
      by (symmetry; apply Nat.ltb_lt; exact Hlen).
    rewrite orb_true_r. reflexivity.
  - intros ->. reflexivity.
  - intros -> a cn -> Hcn. cbn. rewrite Hcn. reflexivity.
  - intros Hlen Hd Hdd. rewrite walk_loop_last by assumption.
    replace ((strlen tok =? 0)%nat || (NAME_MAX <? strlen tok)%nat)
      with false.
    + rewrite str_take_all by exact Hlen. reflexivity.
    + symmetry. apply orb_false_iff. split.
      * apply Nat.eqb_neq. lia.
      * apply Nat.ltb_ge. lia.
Qed.

(** C5 at a concrete input: the last segment has 32 bytes, one more
    than the 31 that the claim, and the comment on [NAME_MAX] in
    [fs.h], allow; the resolver hands it back as the leaf. *)
Lemma walk_accepts_32_byte_leaf :
  strlen thirty_two_bytes = 32%nat /\
  walk_from fresh_fs (cwd fresh_fs) (String slash thirty_two_bytes) true =
    Some (Some 1%positive, Some thirty_two_bytes).
Proof. split; vm_compute; reflexivity. Qed.

(** ** Failure leaves the state as it was *)

Lemma same_fs_refl s : same_fs s s.
Proof. repeat split. Qed.

Lemma same_fs_ticks s k : same_fs s (set_ticks k s).
Proof. repeat split. Qed.

Lemma to_signed_small x : 0 <= x < SSIZE_MOD -> to_signed x = x.
Proof.
  intros H. unfold to_signed.
  destruct (x <? SSIZE_MOD) eqn:E; [reflexivity |].
  apply Z.ltb_ge in E. lia.
Qed.

(** Unfolding of the primitives, and case analysis of a run that is
    known to return. *)
Ltac unfold_prims :=
  unfold walk, fd_lookup in *;
  unfold bind, ret, deref, modify, time, get, undefined, diverges,
    set_slot, alloc_node in *;
  unfold lift in *.

Ltac reduce_state :=
  cbn [heap root cwd fd_table allocator clock ticks
       set_heap set_root set_cwd set_fd_table set_ticks
       mbind option_bind fst snd] in *.

Ltac crunch :=
  repeat (reduce_state;
          match goal with
          | H : Ret _ _ = Ret _ _ |- _ => inversion H; clear H; subst
          | H : Undefined = Ret _ _ |- _ => discriminate H
          | H : Diverges = Ret _ _ |- _ => discriminate H
          | H : context [match ?x with _ => _ end] |- _ =>
              destruct x eqn:?
          end).

Ltac close_failure :=
  try apply same_fs_refl; try discriminate; try (exfalso; lia).

Lemma fs_cd_fails path s s' :
  fs_cd path s = Ret (-1) s' -> same_fs s s'.
Proof. unfold fs_cd. unfold_prims. intros H. crunch; close_failure. Qed.

Lemma ls_dir_fails path s s' :
  ls_dir path s = Ret (-1) s' -> same_fs s s'.
Proof. unfold ls_dir. unfold_prims. intros H. crunch; close_failure. Qed.

Lemma get_file_info_fails path s s' info :
  get_file_info path s = Ret (-1, info) s' -> same_fs s s'.
Proof.
  unfold get_file_info. unfold_prims. intros H. crunch; close_failure.
Qed.

Lemma set_file_attributes_fails path bits s s' :
  set_file_attributes path bits s = Ret (-1) s' -> same_fs s s'.
Proof.
  unfold set_file_attributes. unfold_prims. intros H. crunch; close_failure.
Qed.

Lemma touch_file_fails path s s' :
  touch_file path s = Ret (-1) s' -> same_fs s s'.
Proof. unfold touch_file. unfold_prims. intros H. crunch; close_failure. Qed.

Lemma rm_file_fails path s s' :
  rm_file path s = Ret (-1) s' -> same_fs s s'.
Proof. unfold rm_file. unfold_prims. intros H. crunch; close_failure. Qed.

Lemma rmdir_empty_fails path s s' :
  rmdir_empty path s = Ret (-1) s' -> same_fs s s'.
Proof. unfold rmdir_empty. unfold_prims. intros H. crunch; close_failure. Qed.

Lemma fs_open_fails path fl s s' :
  fs_open path fl s = Ret (-1) s' -> same_fs s s'.
Proof. unfold fs_open. unfold_prims. intros H. crunch; close_failure. Qed.

Lemma fs_close_fails fd s s' :
  fs_close fd s = Ret (-1) s' -> same_fs s s'.
Proof. unfold fs_close. unfold_prims. intros H. crunch; close_failure. Qed.

Lemma fs_seek_fails fd off wh s s' :
  fs_seek fd off wh s = Ret (-1) s' -> same_fs s s'.
Proof. unfold fs_seek. unfold_prims. intros H. crunch; close_failure. Qed.

Lemma ensure_cap_fails a want s s' r :
  ensure_cap a want s = Ret r s' -> r <> 0 -> s' = s.
Proof.
  unfold ensure_cap. unfold_prims. intros H Hr. crunch; congruence.
Qed.

Lemma write_at_fails a off buf s s' :
  write_at a off buf s = Ret false s' -> s' = s.
Proof.
  unfold write_at. intros H.
  apply bind_Ret in H as (r & s1 & He & H).
  destruct (r <? 0) eqn:Er.
  - unfold ret in H. inversion H; subst.
    apply (ensure_cap_fails _ _ _ _ _ He). apply Z.ltb_lt in Er. lia.
  - unfold_prims. crunch.
Qed.

Lemma dir_add_NULL dir child s s' :
  dir_add dir child s = Ret NULL s' -> s' = s.
Proof.
  unfold dir_add. unfold_prims. intros H. crunch; reflexivity.
Qed.

Lemma dir_add_Some dir child s s' c :
  dir_add dir child s = Ret (Some c) s' -> child = Some c.
Proof.
  unfold dir_add. unfold_prims. intros H. crunch; reflexivity.
Qed.

(** Releasing a node without children removes it from the heap. *)
Lemma node_free_leaf a nd s :
  heap s !! a = Some nd ->
  is_dir nd = false \/ children nd = [] ->
  node_free (Some a) s = Ret tt (set_heap (delete a (heap s)) s).
Proof.
  intros Hnd Hleaf. unfold node_free. cbn [node_free_heap].
  rewrite Hnd. cbn [mbind option_bind].
  assert ((if is_dir nd
           then foldl (fun acc c =>
                         hc ← acc;
                         node_free_heap (base.size (heap s)) (Some c) hc)
                      (Some (heap s)) (children nd)
           else Some (heap s)) = Some (heap s)) as ->.
  { destruct Hleaf as [-> | ->]; [reflexivity |].
    destruct (is_dir nd); reflexivity. }
  cbn [mbind option_bind]. rewrite Hnd. reflexivity.
Qed.

Lemma create_file_fails path s s' :
  create_file path s = Ret (-1) s' -> same_fs s s'.
Proof.
  unfold create_file. intros H.
  apply bind_Ret in H as ([par w] & s1 & Hw & H).
  unfold walk in Hw. apply lift_Ret in Hw as [-> Hw].
  destruct par as [p|]; [| unfold ret in H; inversion H; apply same_fs_refl].
  apply bind_Ret in H as (pn & s2 & Hd & H).
  apply deref_Ret in Hd as [-> _].
  repeat match type of H with
         | (if ?b then _ else _) _ = _ =>
             destruct b;
             [unfold ret in H; inversion H; apply same_fs_refl |]
         end.
  apply bind_Ret in H as (c & s3 & Hf & H).
  apply lift_Ret in Hf as [-> Hf].
  destruct c; [unfold ret in H; inversion H; apply same_fs_refl |].
  destruct (is_readonly pn);
    [unfold ret in H; inversion H; apply same_fs_refl |].
  rewrite (bind_run _ _ _ _ _ (node_new_run _ _ _ _)) in H.
  apply bind_Ret in H as (r & s4 & Hda & H).
  destruct r as [c|].
  - exfalso. revert H. unfold_prims. intros H. crunch.
  - apply dir_add_NULL in Hda. subst s4.
    match type of H with
    | bind (node_free (Some ?f)) _ ?st = _ =>
        assert (Hfree : node_free (Some f) st =
                        Ret tt (set_heap (delete f (heap st)) st))
          by (eapply node_free_leaf;
              [apply lookup_insert_eq | left; reflexivity])
    end.
    rewrite (bind_run _ _ _ _ _ Hfree) in H.
    unfold ret in H. inversion H; subst. clear H.
    repeat split. cbn [heap set_heap set_ticks].
    apply delete_insert_id. apply fresh_not_live.
Qed.

(** [search_subtree] counts matches: it never returns a negative
    number. *)
Lemma search_subtree_nonneg fuel : forall n term s m s',
  search_subtree fuel n term s = Ret m s' -> 0 <= m.
Proof.
  induction fuel as [|fuel IH]; intros n term s m s' H;
    destruct n as [a|]; cbn [search_subtree] in H;
    try (unfold ret in H; inversion H; lia);
    destruct (strlen term =? 0)%nat;
    try (unfold ret in H; inversion H; lia);
    try discriminate.
  apply bind_Ret in H as (now & s1 & _ & H).
  apply bind_Ret in H as (u & s2 & _ & H).
  apply bind_Ret in H as (nd & s3 & _ & H).
  apply bind_Ret in H as (s4 & s5 & _ & H).
  set (here := if negb (ptr_eqb (Some a) (root s4)) && strstr (name nd) term
               then 1 else 0) in H.
  assert (Hhere : 0 <= here) by (subst here; destruct (_ && _); lia).
  destruct (is_dir nd); [| unfold ret in H; inversion H; lia].
  clearbody here. clear - IH H Hhere.
  assert (Hgen : forall (cs : list addr) (acc : M Z),
             (forall s m s', acc s = Ret m s' -> 0 <= m) ->
             forall s m s',
               foldl (fun acc c =>
                        m <- acc ;
                        r <- search_subtree fuel (Some c) term ;
                        ret (m + r)) acc cs s = Ret m s' -> 0 <= m).
  { induction cs as [|c cs IHcs]; intros acc Hacc t0 k0 t0' Hrun;
      cbn [foldl] in Hrun; [eapply Hacc; eauto |].
    eapply IHcs; [| exact Hrun].
    intros t k t' Hk.
    apply bind_Ret in Hk as (m0 & t1 & H0 & Hk).
    apply bind_Ret in Hk as (r & t2 & Hr & Hk).
    unfold ret in Hk. inversion Hk; subst.
    apply Hacc in H0. apply IH in Hr. lia. }
  eapply (Hgen (children nd) (ret here)); [| exact H].
  intros t k t' Hk. unfold ret in Hk. inversion Hk; subst. exact Hhere.
Qed.

Lemma fs_search_fails term s s' :
  fs_search term s = Ret (-1) s' -> same_fs s s'.
Proof.
  unfold fs_search. destruct (strlen term =? 0)%nat; intros H.
  - unfold ret in H. inversion H. apply same_fs_refl.
  - exfalso. apply bind_Ret in H as (s0 & s1 & _ & H).
    apply bind_Ret in H as (m & s2 & Hs & H).
    apply search_subtree_nonneg in Hs.
    unfold ret in H. inversion H as [[Hm Hst]].
    destruct (0 <=? m) eqn:E; [lia |]. apply Z.leb_gt in E. lia.
Qed.

(** C2, as stated, fails for [mkdir_p]: on a fresh file system the call
    below creates the directory [x] and then returns the error value
    on the second segment, which is too long. *)
Lemma mkdir_p_fails_after_creating :
  exists s' nd,
    exec (Mkdir_p ("/x/" +:+ forty_bytes)) fresh_fs = Ret (-1) s' /\
    heap fresh_fs !! 2%positive = None /\
    heap s' !! 2%positive = Some nd /\
    type nd = N_DIR /\ name nd = "x"%string /\
    ~ same_fs fresh_fs s'.
Proof.
  eexists _, _. split; [vm_compute; reflexivity |].
  split; [vm_compute; reflexivity |].
  split; [vm_compute; reflexivity |].
  split; [reflexivity |]. split; [reflexivity |].
  intros (Hh & _).
  apply (f_equal (fun h : gmap addr node_t => h !! 2%positive)) in Hh.
  vm_compute in Hh. discriminate Hh.
Qed.

(** ** Opening a descriptor *)

Lemma first_free_Some t : forall i0 i,
  first_free t i0 = Some i ->
  exists k, i = (i0 + k)%nat /\
    (exists d, t !! k = Some d /\ in_use d = false) /\
    forall j d, (j < k)%nat -> t !! j = Some d -> in_use d = true.
Proof.
  induction t as [|d t IH]; intros i0 i H; cbn [first_free] in H;
    [discriminate |].
  destruct (in_use d) eqn:Ed.
  - apply IH in H as (k & -> & (d' & Hd' & Hfree) & Hbefore).
    exists (S k). split; [lia |]. split; [exists d'; auto |].
    intros [|j] dj Hj Hdj; cbn in Hdj.
    + inversion Hdj; subst. exact Ed.
    + apply (Hbefore j); [lia | exact Hdj].
  - inversion H; subst. exists O. split; [lia |].
    split; [exists d; auto |]. intros j dj Hj. lia.
Qed.

Lemma first_free_None t : forall i0,
  (forall d, d ∈ t -> in_use d = true) -> first_free t i0 = None.
Proof.
  induction t as [|d t IH]; intros i0 H; [reflexivity |].
  cbn [first_free]. rewrite (H d) by (apply elem_of_cons; left; reflexivity).
  apply IH. intros d' Hd'. apply H. apply elem_of_cons. right. exact Hd'.
Qed.

Lemma fs_open_readonly_for_write s path fl a w nd :
  walk_from s (cwd s) path false = Some (Some a, w) ->
  heap s !! a = Some nd ->
  is_readonly nd = true ->
  fl = O_WRONLY \/ fl = O_RDWR ->
  fs_open path fl s = Ret (-1) s.
Proof.
  intros Hw Hnd Hro Hfl. unfold fs_open. unfold_prims.
  rewrite Hw. cbn. rewrite Hnd. rewrite Hro.
  destruct (negb (is_file nd)); [reflexivity |].
  destruct Hfl as [-> | ->]; reflexivity.
Qed.

Lemma fs_open_table_full s path fl n w :
  walk_from s (cwd s) path false = Some (n, w) ->
  (forall a, n = Some a -> is_Some (heap s !! a)) ->
  (forall i, (i < MAX_OPEN_FILES)%nat ->
             exists d, fd_table s !! i = Some d /\ in_use d = true) ->
  fs_open path fl s = Ret (-1) s.
Proof.
  intros Hw Hlive Hfull. unfold fs_open. unfold_prims.
  rewrite Hw. destruct n as [a|]; [| reflexivity].
  destruct (Hlive a eq_refl) as [nd Hnd]. cbn. rewrite Hnd.
  destruct (negb (is_file nd)); [reflexivity |].
  destruct (_ && _); [reflexivity |].
  rewrite first_free_None; [reflexivity |].
  intros d Hd. apply list_elem_of_lookup in Hd as [i Hi].
  apply lookup_take_Some in Hi as [Hi Hlt].
  destruct (Hfull i Hlt) as (d' & Hd' & Huse). congruence.
Qed.

Lemma fs_open_success s path fl r s' :
  fs_open path fl s = Ret r s' -> r <> -1 ->
  exists i a w nd,
    r = Z.of_nat i /\ (i < MAX_OPEN_FILES)%nat /\
    walk_from s (cwd s) path false = Some (Some a, w) /\
    heap s !! a = Some nd /\ type nd = N_FILE /\
    (exists d, fd_table s !! i = Some d /\ in_use d = false) /\
    (forall j d, (j < i)%nat -> fd_table s !! j = Some d -> in_use d = true) /\
    fd_table s' !! i =
      Some {| node := Some a; offset := 0; flags := fl; in_use := true |} /\
    (forall j, j <> i -> fd_table s' !! j = fd_table s !! j) /\
    heap s' = <[a := set_accessed (clock s (ticks s)) nd]> (heap s).
Proof.
  unfold fs_open. unfold_prims. intros H Hr.
  crunch; try congruence.
  match goal with
  | F : first_free _ _ = Some ?n |- _ =>
      apply first_free_Some in F as (k & Hk & (d & Hd & Hfree) & Hbefore);
      cbn in Hk; subst n
  end.
  apply lookup_take_Some in Hd as [Hd Hlt].
  match goal with
  | N : negb (is_file ?v) = false |- _ =>
      exists k, a, o, v
  end.
  split; [reflexivity |]. split; [exact Hlt |].
  split; [reflexivity |]. split; [assumption |].
  split.
  { match goal with
    | N : negb (is_file ?v) = false |- _ =>
        unfold is_file in N; destruct (type v); [discriminate | reflexivity]
    end. }
  split; [exists d; auto |].
  split.
  { intros j dj Hj Hdj. apply (Hbefore j); [exact Hj |].
    rewrite lookup_take_lt by lia. exact Hdj. }
  split.
  { apply list_lookup_insert_eq. apply lookup_lt_is_Some. eauto. }
  split.
  { intros j Hj. apply list_lookup_insert_ne. congruence. }
  congruence.
Qed.

(** C8. (1) When the path resolves to a file that carries the read-only
    attribute and the mode is [O_WRONLY] or [O_RDWR], [fs_open] returns
    the error value and the state, descriptor table included, is the
    one before the call. (2) When [fs_open] succeeds, the handle it
    returns is the index of the first slot that was free: the slot was
    free, every slot before it was in use, the index is below
    [MAX_OPEN_FILES], and after the call the slot is in use with cursor
    0, the requested mode and the resolved file. (3) When all
    [MAX_OPEN_FILES] slots are in use, [fs_open] returns the error
    value and leaves the state as it was. *)
Theorem fs_open_checks_and_slot :
  (forall s path fl a w nd,
      walk_from s (cwd s) path false = Some (Some a, w) ->
      heap s !! a = Some nd ->
      type nd = N_FILE ->
      is_readonly nd = true ->
      fl = O_WRONLY \/ fl = O_RDWR ->
      fs_open path fl s = Ret (-1) s) /\
  (forall s path fl r s',
      fs_open path fl s = Ret r s' -> r <> -1 ->
      exists i a w nd,
        r = Z.of_nat i /\ (i < MAX_OPEN_FILES)%nat /\
        walk_from s (cwd s) path false = Some (Some a, w) /\
        heap s !! a = Some nd /\ type nd = N_FILE /\
        (exists d, fd_table s !! i = Some d /\ in_use d = false) /\
        (forall j d, (j < i)%nat -> fd_table s !! j = Some d ->
                     in_use d = true) /\
        fd_table s' !! i =
          Some {| node := Some a; offset := 0; flags := fl; in_use := true |} /\
        (forall j, j <> i -> fd_table s' !! j = fd_table s !! j) /\
        heap s' = <[a := set_accessed (clock s (ticks s)) nd]> (heap s)) /\
  (forall s path fl n w,
      walk_from s (cwd s) path false = Some (n, w) ->
      (forall a, n = Some a -> is_Some (heap s !! a)) ->
      (forall i, (i < MAX_OPEN_FILES)%nat ->
                 exists d, fd_table s !! i = Some d /\ in_use d = true) ->
      fs_open path fl s = Ret (-1) s).
Proof.
  split; [| split].
  - intros s path fl a w nd Hw Hnd _ Hro Hfl.
    eapply fs_open_readonly_for_write; eauto.
  - apply fs_open_success.
  - apply fs_open_table_full.
Qed.

Lemma fs_open_checks_and_slot_witness :
  fs_open "/a/b/c/f.txt" O_RDWR with_readonly_file =
    Ret (-1) with_readonly_file /\
  (exists s', fs_open "/a/b/c/f.txt" O_RDWR with_data = Ret 0 s' /\
     fd_table s' !! 0%nat =
       Some {| node := Some 5%positive; offset := 0; flags := O_RDWR;
               in_use := true |}) /\
  fs_open "/a/b/c/f.txt" O_RDONLY with_full_table = Ret (-1) with_full_table.
Proof.
  destruct fs_open_checks_and_slot as (Hro & Hslot & Hfull).
  split; [| split].
  - apply (Hro with_readonly_file "/a/b/c/f.txt"%string O_RDWR 5%positive
                 None
                 (mk_node N_FILE "f.txt" (Some 4%positive) 1007 1011 1010 2 []
                          (hello ++ replicate 51 x00) 13));
      [vm_compute; reflexivity | vm_compute; reflexivity | reflexivity
       | reflexivity | right; reflexivity].
  - destruct (fs_open "/a/b/c/f.txt" O_RDWR with_data) as [r s'| |] eqn:E;
      [| vm_compute in E; discriminate E | vm_compute in E; discriminate E].
    assert (Hr : r = 0)
      by (apply (f_equal (fun x => match x with Ret v _ => v | _ => 0 end)) in E;
          vm_compute in E; congruence).
    subst r. exists s'. split; [reflexivity |].
    destruct (Hslot _ _ _ _ _ E) as (i & a & w & nd & Hi & _ & Hw & _ & _ & _
                                     & _ & Hs' & _); [discriminate |].
    assert (i = 0%nat) as -> by lia.
    assert (Hw' : walk_from with_data (cwd with_data) "/a/b/c/f.txt" false =
                  Some (Some 5%positive, None)) by (vm_compute; reflexivity).
    rewrite Hw' in Hw. inversion Hw; subst. exact Hs'.
  - apply (Hfull with_full_table "/a/b/c/f.txt"%string O_RDONLY
                 (Some 5%positive) None);
      [vm_compute; reflexivity | |].
    + intros a Ha. inversion Ha; subst. vm_compute. eauto.
    + intros i Hi.
      assert (Ht : fd_table with_full_table =
                   replicate MAX_OPEN_FILES
                     {| node := Some 5%positive; offset := 0;
                        flags := O_RDONLY; in_use := true |})
        by (vm_compute; reflexivity).
      rewrite Ht. eexists. split; [apply lookup_replicate_2; exact Hi |].
      reflexivity.
Defined.

(** ** Reading through a descriptor *)

(** The parts of C9 that the code satisfies: a handle out of range or
    a free slot gives the error value; so does a mode with neither of
    the two low bits; a cursor at or past the size gives 0 and changes
    nothing; otherwise [min(len, size - cursor)] bytes are copied from
    the cursor, the cursor advances by that amount and the accessed
    time is stamped. *)
Lemma fs_read_fd_behaviour s fd len :
  ((fd < 0 \/ Z.of_nat MAX_OPEN_FILES <= fd) ->
     fs_read_fd fd len s = Ret (-1, []) s) /\
  (forall f, 0 <= fd < Z.of_nat MAX_OPEN_FILES ->
     fd_table s !! Z.to_nat fd = Some f ->
     (in_use f = false \/ Z.land (flags f) 3 = 0) ->
     fs_read_fd fd len s = Ret (-1, []) s) /\
  (forall f a nd, 0 <= fd < Z.of_nat MAX_OPEN_FILES ->
     fd_table s !! Z.to_nat fd = Some f -> in_use f = true ->
     Z.land (flags f) O_RDONLY <> 0 \/ Z.land (flags f) O_RDWR <> 0 ->
     node f = Some a -> heap s !! a = Some nd -> type nd = N_FILE ->
     (size nd <= offset f -> fs_read_fd fd len s = Ret (0, []) s) /\
     (offset f < size nd -> 0 <= offset f -> 0 <= len ->
      size nd <= cap nd ->
      let n := Z.min len (size nd - offset f) in
      fs_read_fd fd len s =
        Ret (to_signed n,
             take (Z.to_nat n) (drop (Z.to_nat (offset f)) (data nd)))
            (set_heap (<[a := set_accessed (clock s (ticks s)) nd]> (heap s))
               (set_ticks (S (ticks s))
                  (set_fd_table
                     (<[Z.to_nat fd := set_offset (wrap (offset f + n)) f]>
                        (fd_table s)) s))))).
Proof.
  split; [| split].
  - intros Hfd. unfold fs_read_fd. unfold_prims.
    replace ((fd <? 0) || (Z.of_nat MAX_OPEN_FILES <=? fd)) with true;
      [reflexivity |].
    symmetry. apply orb_true_iff.
    destruct Hfd; [left; apply Z.ltb_lt | right; apply Z.leb_le]; lia.
  - intros f Hfd Hf Hbad. unfold fs_read_fd. unfold_prims.
    replace ((fd <? 0) || (Z.of_nat MAX_OPEN_FILES <=? fd)) with false
      by (symmetry; apply orb_false_iff; split;
          [apply Z.ltb_ge | apply Z.leb_gt]; lia).
    rewrite Hf. destruct (in_use f) eqn:Eu; [| reflexivity].
    destruct Hbad as [? | Hbits]; [discriminate |].
    assert (Z.land (flags f) O_RDONLY = 0) as ->.
    { apply Z.bits_inj'. intros k Hk. rewrite Z.land_spec, Z.bits_0.
      apply (f_equal (fun z => Z.testbit z k)) in Hbits.
      rewrite Z.land_spec, Z.bits_0 in Hbits.
      destruct (Z.testbit (flags f) k); [| reflexivity].
      cbn in *. destruct (Z.testbit O_RDONLY k) eqn:E1; [| reflexivity].
      assert (k = 0) as ->.
      { destruct (Z.eq_dec k 0) as [|Hne]; [assumption |].
        unfold O_RDONLY in E1. destruct k; try lia; discriminate. }
      discriminate. }
    unfold O_RDWR. rewrite Hbits. reflexivity.
  - intros f a nd Hfd Hf Hu Hmode Ha Hnd Hty.
    assert (Hpass : (Z.land (flags f) O_RDONLY =? 0) &&
                    (Z.land (flags f) O_RDWR =? 0) = false).
    { apply andb_false_iff.
      destruct Hmode; [left | right]; apply Z.eqb_neq; assumption. }
    assert (Hfile : negb (is_file nd) = false)
      by (unfold is_file; rewrite Hty; reflexivity).
    split.
    + intros Hend. unfold fs_read_fd. unfold_prims.
      replace ((fd <? 0) || (Z.of_nat MAX_OPEN_FILES <=? fd)) with false
        by (symmetry; apply orb_false_iff; split;
            [apply Z.ltb_ge | apply Z.leb_gt]; lia).
      rewrite Hf, Hu, Hpass, Ha. cbn. rewrite Hnd, Hfile.
      replace (size nd <=? offset f) with true
        by (symmetry; apply Z.leb_le; lia).
      reflexivity.
    + intros Hlt Hoff Hlen Hcap n. unfold fs_read_fd. unfold_prims.
      replace ((fd <? 0) || (Z.of_nat MAX_OPEN_FILES <=? fd)) with false
        by (symmetry; apply orb_false_iff; split;
            [apply Z.ltb_ge | apply Z.leb_gt]; lia).
      rewrite Hf, Hu, Hpass, Ha. cbn. rewrite Hnd, Hfile.
      replace (size nd <=? offset f) with false
        by (symmetry; apply Z.leb_gt; lia).
      assert ((if len <? size nd - offset f then len
               else size nd - offset f) = n) as ->.
      { subst n. destruct (len <? size nd - offset f) eqn:E.
        - apply Z.ltb_lt in E. lia.
        - apply Z.ltb_ge in E. lia. }
      unfold memcpy_from.
      replace (0 <=? offset f) with true by (symmetry; apply Z.leb_le; lia).
      replace (offset f + n <=? Z.of_nat (length (data nd))) with true
        by (symmetry; apply Z.leb_le; unfold cap in Hcap; lia).
      cbn. rewrite Hnd. reflexivity.
Qed.

(** C9 at a concrete input: descriptor 0 was opened with [O_WRONLY],
    a mode without read capability, and reading five bytes through it
    returns 5 and the first five bytes of the file, not the error
    value. The test on the mode masks with [O_RDWR], which is 3 and
    shares a bit with [O_WRONLY]. *)
Lemma fs_read_fd_reads_through_write_only :
  fd_table with_write_only_fd !! 0%nat =
    Some {| node := Some 5%positive; offset := 0; flags := O_WRONLY;
            in_use := true |} /\
  Z.land O_WRONLY O_RDWR = 2 /\
  value_of (fs_read_fd 0 5) with_write_only_fd = Some (5, bytes_of "Hello").
Proof. repeat split; vm_compute; reflexivity. Qed.

(** ** Attributes are written by [set_file_attributes] only *)

Lemma extends_keeps s s' : extends s s' -> keeps_attrs s s'.
Proof.
  intros H a nd nd' Hnd Hnd'. destruct (H a nd Hnd) as (n & Hn & Hat).
  congruence.
Qed.

Lemma shrinks_keeps s s' : shrinks s s' -> keeps_attrs s s'.
Proof.
  intros H a nd nd' Hnd Hnd'. destruct (H a nd' Hnd') as (n & Hn & Hat).
  congruence.
Qed.

(** An update in place that keeps the attributes. *)
Lemma extends_update s a n n' :
  heap s !! a = Some n -> attributes n' = attributes n ->
  extends s (set_heap (<[a := n']> (heap s)) s).
Proof.
  intros Hn Hat b nd Hnd. cbn [heap set_heap].
  destruct (decide (a = b)) as [<- | Hne].
  - exists n'. rewrite lookup_insert_eq. split; [reflexivity | congruence].
  - exists nd. rewrite lookup_insert_ne by exact Hne. auto.
Qed.

Lemma shrinks_update s a n n' :
  heap s !! a = Some n -> attributes n' = attributes n ->
  shrinks s (set_heap (<[a := n']> (heap s)) s).
Proof.
  intros Hn Hat b nd. cbn [heap set_heap].
  destruct (decide (a = b)) as [<- | Hne].
  - rewrite lookup_insert_eq. intros H. inversion H; subst.
    exists n. auto.
  - rewrite lookup_insert_ne by exact Hne. intros H. exists nd. auto.
Qed.

(** An update in place that keeps the capacity a 64-bit value. *)
Lemma keeps_caps_update s a n n' :
  heap s !! a = Some n -> (cap n < SIZE_MOD -> cap n' < SIZE_MOD) ->
  keeps_caps s (set_heap (<[a := n']> (heap s)) s).
Proof.
  intros Hn Hcap Hfit b nd. cbn [heap set_heap].
  destruct (decide (a = b)) as [<- | Hne].
  - rewrite lookup_insert_eq. intros H. inversion H; subst.
    apply Hcap. apply (Hfit a n Hn).
  - rewrite lookup_insert_ne by exact Hne. apply Hfit.
Qed.

#[local] Instance extends_frame : FrameRel extends.
Proof.
  split.
  - intros s s' H a nd Hnd. exists nd. rewrite H. auto.
  - intros s1 s2 s3 H12 H23 a nd Hnd.
    destruct (H12 a nd Hnd) as (n2 & Hn2 & E2).
    destruct (H23 a n2 Hn2) as (n3 & Hn3 & E3).
    exists n3. split; [exact Hn3 | congruence].
  - intros s a n n' Hn Hat _. apply (extends_update _ _ n); assumption.
Qed.

#[local] Instance shrinks_frame : FrameRel shrinks.
Proof.
  split.
  - intros s s' H a nd Hnd. exists nd. rewrite <- H. auto.
  - intros s1 s2 s3 H12 H23 a nd Hnd.
    destruct (H23 a nd Hnd) as (n2 & Hn2 & E2).
    destruct (H12 a n2 Hn2) as (n1 & Hn1 & E1).
    exists n1. split; [exact Hn1 | congruence].
  - intros s a n n' Hn Hat _. apply (shrinks_update _ _ n); assumption.
Qed.

#[local] Instance keeps_caps_frame : FrameRel keeps_caps.
Proof.
  split.
  - intros s s' H Hfit a nd. rewrite H. apply Hfit.
  - intros s1 s2 s3 H12 H23 Hfit. auto.
  - intros s a n n' Hn _ Hcap. apply (keeps_caps_update _ _ n); [exact Hn |].
    rewrite Hcap. auto.
Qed.

Section Primitives.

Context (R : fs -> fs -> Prop) `{!FrameRel R}.

Lemma pres_ret {A : Type} (v : A) : pres R (ret v).
Proof.
  intros s v' s' H. unfold ret in H. inversion H; subst.
  apply frame_same_heap. reflexivity.
Qed.

Lemma pres_bind {A B : Type} (m : M A) (k : A -> M B) :
  pres R m -> (forall x, pres R (k x)) -> pres R (bind m k).
Proof.
  intros Hm Hk s v s' H. apply bind_Ret in H as (x & s1 & H1 & H2).
  eapply frame_trans; [eapply Hm | eapply Hk]; eauto.
Qed.

Lemma pres_state {A : Type} (v : fs -> A) (g : fs -> fs) :
  (forall s, heap (g s) = heap s) -> pres R (fun s => Ret (v s) (g s)).
Proof.
  intros Hg s v' s' H. inversion H; subst. apply frame_same_heap. apply Hg.
Qed.

Lemma pres_lift {A : Type} (f : fs -> option A) : pres R (lift f).
Proof.
  intros s v s' H. apply lift_Ret in H as [-> _].
  apply frame_same_heap. reflexivity.
Qed.

Lemma pres_undefined {A : Type} : pres R (@undefined A).
Proof. intros s v s' H. discriminate H. Qed.

Lemma pres_diverges {A : Type} : pres R (@diverges A).
Proof. intros s v s' H. discriminate H. Qed.

Lemma pres_modify a f :
  (forall n, attributes (f n) = attributes n) ->
  (forall n, cap (f n) = cap n) ->
  pres R (modify a f).
Proof.
  intros Hf Hc s v s' H. unfold modify in H.
  destruct (heap s !! a) as [n|] eqn:E; inversion H; subst.
  apply (frame_modify _ _ n); [exact E | apply Hf | apply Hc].
Qed.

End Primitives.

(** One step of the decomposition of an operation into its primitives. *)
Ltac pres_step :=
  lazymatch goal with
  | |- pres _ (bind (deref _)
                    (fun fn => match memcpy_to _ _ _ with _ => _ end)) =>
      fail
  | |- pres ?R (bind _ _) => apply (pres_bind R); [| intros ?]
  | |- pres ?R (ret _) => apply (pres_ret R)
  | |- pres _ (match ?x with _ => _ end) => destruct x
  | |- pres ?R (lift _) => apply (pres_lift R)
  | |- pres ?R (deref _) => apply (pres_lift R)
  | |- pres ?R (walk _ _) => apply (pres_lift R)
  | |- pres ?R undefined => apply (pres_undefined R)
  | |- pres ?R diverges => apply (pres_diverges R)
  | |- pres ?R (modify _ _) => apply (pres_modify R); intros ?; reflexivity
  | |- pres ?R time =>
      apply (pres_state R (fun s => clock s (ticks s))); reflexivity
  | |- pres ?R get =>
      apply (pres_state R (fun s => s) (fun s => s)); reflexivity
  | |- pres ?R (set_slot _ _) =>
      apply (pres_state R (fun _ => tt)); reflexivity
  | |- pres ?R (fun s => Ret tt _) =>
      apply (pres_state R (fun _ => tt)); reflexivity
  end.

Ltac pres_auto := repeat pres_step.

Section Operations.

Context (R : fs -> fs -> Prop) `{!FrameRel R}.

Lemma pres_dir_add dir child : pres R (dir_add dir child).
Proof. unfold dir_add. pres_auto. Qed.

Lemma pres_fs_cd path : pres R (fs_cd path).
Proof. unfold fs_cd. pres_auto. Qed.

Lemma pres_ls_dir path : pres R (ls_dir path).
Proof. unfold ls_dir. pres_auto. Qed.

Lemma pres_get_file_info path : pres R (get_file_info path).
Proof. unfold get_file_info. pres_auto. Qed.

Lemma pres_touch_file path : pres R (touch_file path).
Proof. unfold touch_file. pres_auto. Qed.

Lemma pres_read_file path off len : pres R (read_file path off len).
Proof. unfold read_file. pres_auto. Qed.

Lemma pres_fs_open path fl : pres R (fs_open path fl).
Proof. unfold fs_open. pres_auto. Qed.

Lemma pres_fd_lookup fd : pres R (fd_lookup fd).
Proof. unfold fd_lookup. pres_auto. Qed.

Lemma pres_fs_close fd : pres R (fs_close fd).
Proof. unfold fs_close. pres_auto; apply pres_fd_lookup. Qed.

Lemma pres_fs_read_fd fd len : pres R (fs_read_fd fd len).
Proof. unfold fs_read_fd. pres_auto; apply pres_fd_lookup. Qed.

Lemma pres_fs_seek fd off wh : pres R (fs_seek fd off wh).
Proof. unfold fs_seek. pres_auto; apply pres_fd_lookup. Qed.

Lemma pres_rename_file o n : pres R (rename_file o n).
Proof. unfold rename_file. pres_auto; apply pres_dir_add. Qed.

Lemma pres_search_children (f : ptr -> M Z) :
  (forall n, pres R (f n)) ->
  forall (cs : list addr) (acc : M Z),
    pres R acc ->
    pres R (foldl (fun acc c => m <- acc ; r <- f (Some c) ; ret (m + r))
                  acc cs).
Proof.
  intros Hf. induction cs as [|c cs IH]; intros acc Hacc; cbn [foldl];
    [exact Hacc |].
  apply IH. pres_auto; [exact Hacc | apply Hf].
Qed.

Lemma pres_search_subtree fuel : forall n term,
  pres R (search_subtree fuel n term).
Proof.
  induction fuel as [|fuel IH]; intros n term; cbn [search_subtree];
    pres_auto.
  apply (pres_search_children (fun n => search_subtree fuel n term)).
  - intros n. apply IH.
  - pres_auto.
Qed.

Lemma pres_fs_search term : pres R (fs_search term).
Proof. unfold fs_search. pres_auto. apply pres_search_subtree. Qed.

End Operations.

(** The operations that grow or fill a buffer, for a relation that
    [ensure_cap] and the copies into a buffer respect. *)
Section BufferOperations.

Context (R : fs -> fs -> Prop) `{!FrameRel R}.
Hypothesis R_ensure_cap : forall a want, pres R (ensure_cap a want).
Hypothesis R_copy : forall s a fn off buf d',
  heap s !! a = Some fn ->
  memcpy_to (data fn) off buf = Some d' ->
  R s (set_heap (<[a := set_data d' fn]> (heap s)) s).

(** The part of a write that follows [ensure_cap]. *)
Lemma pres_copy_in {A : Type} a off buf (k : node_t -> M A) :
  (forall fn, pres R (k fn)) ->
  pres R (fn <- deref (Some a) ;
          match memcpy_to (data fn) off buf with
          | None => undefined
          | Some d' => modify a (set_data d') ;; k fn
          end).
Proof.
  intros Hk s v s' H.
  apply bind_Ret in H as (fn & s1 & Hd & H).
  apply deref_Ret in Hd as [-> (a' & Ha' & Hfn)]. inversion Ha'; subst a'.
  destruct (memcpy_to (data fn) off buf) as [d'|] eqn:Em; [| discriminate].
  apply bind_Ret in H as (u & s2 & Hm & H).
  apply modify_Ret in Hm as (n & Hn & ->).
  assert (n = fn) as -> by congruence.
  eapply frame_trans; [eapply R_copy; eauto |].
  eapply Hk; eauto.
Qed.

Lemma pres_write_at a off buf : pres R (write_at a off buf).
Proof.
  unfold write_at. pres_auto; [apply R_ensure_cap |].
  apply pres_copy_in. intros fn. pres_auto.
Qed.

Lemma pres_write_file path off buf : pres R (write_file path off buf).
Proof. unfold write_file. pres_auto. apply pres_write_at. Qed.

Lemma pres_fs_write_fd fd buf : pres R (fs_write_fd fd buf).
Proof.
  unfold fs_write_fd. pres_auto;
    try first [apply (pres_fd_lookup R) | apply R_ensure_cap].
  apply pres_copy_in. intros fn. pres_auto.
Qed.

End BufferOperations.

(** [ensure_cap] and the copies keep the attributes. *)
Lemma extends_ensure_cap a want : pres extends (ensure_cap a want).
Proof.
  intros s v s' H. revert H. unfold ensure_cap. unfold_prims. intros H.
  crunch;
    first [ apply frame_same_heap; reflexivity
          | eapply extends_update; [eassumption | reflexivity] ].
Qed.

Lemma extends_copy s a fn off buf d' :
  heap s !! a = Some fn -> memcpy_to (data fn) off buf = Some d' ->
  extends s (set_heap (<[a := set_data d' fn]> (heap s)) s).
Proof.
  intros Hfn _. apply (extends_update _ _ fn); [exact Hfn | reflexivity].
Qed.

(** Allocation adds a node and touches no other. *)
Lemma pres_alloc_node n : pres extends (alloc_node n).
Proof.
  intros s v s' H. unfold alloc_node in H. inversion H; subst. clear H.
  intros a nd Hnd. exists nd. cbn [heap set_heap].
  rewrite lookup_insert_ne; [auto |].
  intros <-. rewrite fresh_not_live in Hnd. discriminate.
Qed.

Lemma pres_node_new t nm par : pres extends (node_new t nm par).
Proof. unfold node_new. pres_auto. apply pres_alloc_node. Qed.

Lemma pres_fs_init : pres extends fs_init.
Proof. unfold fs_init. pres_auto. apply pres_node_new. Qed.

Lemma pres_mkdir_loop toks : forall cur, pres extends (mkdir_loop toks cur).
Proof.
  induction toks as [|tok rest IH]; intros cur; cbn [mkdir_loop];
    pres_auto;
    first [apply IH | apply pres_node_new | apply (pres_dir_add extends)].
Qed.

Lemma pres_mkdir_p path : pres extends (mkdir_p path).
Proof. unfold mkdir_p. pres_auto. apply pres_mkdir_loop. Qed.

(** Releasing nodes only removes entries of the heap. *)
Lemma node_free_heap_sub fuel : forall n h h',
  node_free_heap fuel n h = Some h' ->
  forall a nd, h' !! a = Some nd -> h !! a = Some nd.
Proof.
  induction fuel as [|fuel IH]; intros n h h' H a nd Hnd;
    destruct n as [x|]; cbn [node_free_heap] in H;
    try discriminate; try (inversion H; subst; exact Hnd).
  destruct (h !! x) as [xn|] eqn:Ex; cbn in H; [| discriminate].
  assert (Hfold : forall cs (acc : option (gmap addr node_t)) h1,
             foldl (fun acc c => hc ← acc; node_free_heap fuel (Some c) hc)
                   acc cs = Some h1 ->
             exists h0, acc = Some h0 /\
                        forall b nb, h1 !! b = Some nb -> h0 !! b = Some nb).
  { induction cs as [|c cs IHcs]; intros acc h1 Hrun; cbn [foldl] in Hrun.
    - exists h1. auto.
    - apply IHcs in Hrun as (h0 & Hstep & Hsub).
      destruct acc as [hacc|]; cbn in Hstep; [| discriminate].
      exists hacc. split; [reflexivity |].
      intros b nb Hb. eapply IH; [exact Hstep |]. apply Hsub. exact Hb. }
  destruct (is_dir xn).
  - destruct (foldl _ _ _) as [h1|] eqn:Ef; cbn in H; [| discriminate].
    apply Hfold in Ef as (h0 & E0 & Hsub). inversion E0; subst h0.
    destruct (h1 !! x); cbn in H; [| discriminate].
    inversion H; subst. apply Hsub.
    apply lookup_delete_Some in Hnd as [_ Hnd]. exact Hnd.
  - cbn in H. rewrite Ex in H. cbn in H. inversion H; subst.
    apply lookup_delete_Some in Hnd as [_ Hnd]. exact Hnd.
Qed.

Lemma pres_node_free n : pres shrinks (node_free n).
Proof.
  intros s v s' H. unfold node_free in H.
  destruct (node_free_heap _ _ _) as [h'|] eqn:E; inversion H; subst.
  intros a nd Hnd. exists nd. split; [| reflexivity].
  eapply node_free_heap_sub; eauto.
Qed.

Lemma pres_rm_file path : pres shrinks (rm_file path).
Proof. unfold rm_file. pres_auto. apply pres_node_free. Qed.

Lemma pres_rmdir_empty path : pres shrinks (rmdir_empty path).
Proof. unfold rmdir_empty. pres_auto; apply pres_node_free. Qed.

Lemma pres_fs_destroy : pres shrinks fs_destroy.
Proof. unfold fs_destroy. pres_auto. apply pres_node_free. Qed.

(** [create_file] allocates and, when the directory is full, releases
    the node it has just allocated. *)
Lemma create_file_keeps_attrs path s r s' :
  create_file path s = Ret r s' -> keeps_attrs s s'.
Proof.
  destruct (Z.eq_dec r (-1)) as [-> | Hr].
  { intros H. apply create_file_fails in H as (Hh & _).
    intros a nd nd' Hnd Hnd'. rewrite Hh in Hnd'. congruence. }
  unfold create_file. intros H.
  apply bind_Ret in H as ([par w] & s1 & Hw & H).
  unfold walk in Hw. apply lift_Ret in Hw as [-> Hw].
  destruct par as [p|]; [| unfold ret in H; inversion H; congruence].
  apply bind_Ret in H as (pn & s2 & Hd & H).
  apply deref_Ret in Hd as [-> _].
  repeat match type of H with
         | (if ?b then _ else _) _ = _ =>
             destruct b; [unfold ret in H; inversion H; congruence |]
         end.
  apply bind_Ret in H as (c & s3 & Hf & H).
  apply lift_Ret in Hf as [-> Hf].
  destruct c; [unfold ret in H; inversion H; congruence |].
  destruct (is_readonly pn); [unfold ret in H; inversion H; congruence |].
  apply bind_Ret in H as (f & s4 & Hnew & H).
  apply bind_Ret in H as (x & s5 & Hadd & H).
  apply extends_keeps.
  apply (frame_trans s s4 s'); [eapply pres_node_new; eauto |].
  apply (frame_trans s4 s5 s'); [eapply (pres_dir_add extends); eauto |].
  destruct x as [c|].
  - revert H. generalize s5 r s'. change (pres extends
      (now <- time ; modify p (stamp_both now) ;; ret 0)). pres_auto.
  - exfalso. apply bind_Ret in H as (u & s6 & _ & H).
    unfold ret in H. inversion H; congruence.
Qed.

Lemma set_file_attributes_run s path bits a w nd :
  walk_from s (cwd s) path false = Some (Some a, w) ->
  heap s !! a = Some nd ->
  set_file_attributes path bits s =
    Ret 0 (set_heap
             (<[a := set_modified (clock s (ticks s)) (set_attributes bits nd)]>
                (heap s))
             (set_ticks (S (ticks s)) s)).
Proof.
  intros Hw Hnd. unfold set_file_attributes. unfold_prims.
  rewrite Hw, Hnd. cbn [heap set_heap set_ticks ticks clock].
  rewrite lookup_insert_eq. cbn [heap set_heap set_ticks].
  rewrite insert_insert_eq. reflexivity.
Qed.

Lemma touch_file_run s path a w nd :
  walk_from s (cwd s) path false = Some (Some a, w) ->
  heap s !! a = Some nd ->
  touch_file path s =
    Ret 0 (set_heap
             (<[a := set_modified (clock s (ticks s))
                       (set_accessed (clock s (ticks s)) nd)]> (heap s))
             (set_ticks (S (ticks s)) s)).
Proof.
  intros Hw Hnd. unfold touch_file. unfold_prims.
  rewrite Hw. cbn [heap set_heap set_ticks ticks clock].
  rewrite Hnd. cbn [heap set_heap set_ticks].
  rewrite lookup_insert_eq. cbn [heap set_heap set_ticks].
  rewrite insert_insert_eq. reflexivity.
Qed.

(** C10. Whenever the path resolves to a live node, whatever its
    attributes and so also when it carries the read-only attribute:
    (1) [set_file_attributes] returns 0, the node's bitset becomes
    exactly the bits given (so the node is read-only afterwards if and
    only if the bits say so) and its modified time is stamped;
    (2) [touch_file] returns 0, stamps the accessed and modified times
    and keeps the bitset. (3) No other call of the interface changes
    the bitset of a node that is live before and after it. *)
Theorem metadata_calls_pass_readonly :
  (forall s path bits a w nd,
      walk_from s (cwd s) path false = Some (Some a, w) ->
      heap s !! a = Some nd ->
      exists s' nd',
        set_file_attributes path bits s = Ret 0 s' /\
        heap s' !! a = Some nd' /\
        attributes nd' = bits /\
        is_readonly nd' = negb (Z.land bits ATTR_READONLY =? 0) /\
        modified nd' = clock s (ticks s) /\
        nd' = set_modified (clock s (ticks s)) (set_attributes bits nd) /\
        forall b, b <> a -> heap s' !! b = heap s !! b) /\
  (forall s path a w nd,
      walk_from s (cwd s) path false = Some (Some a, w) ->
      heap s !! a = Some nd ->
      exists s' nd',
        touch_file path s = Ret 0 s' /\
        heap s' !! a = Some nd' /\
        attributes nd' = attributes nd /\
        accessed nd' = clock s (ticks s) /\
        modified nd' = clock s (ticks s) /\
        forall b, b <> a -> heap s' !! b = heap s !! b) /\
  (forall c s r s',
      (forall p bits, c <> Set_file_attributes p bits) ->
      exec c s = Ret r s' ->
      keeps_attrs s s').
Proof.
  split; [| split].
  - intros s path bits a w nd Hw Hnd. eexists _, _.
    split; [apply (set_file_attributes_run _ _ _ _ _ _ Hw Hnd) |].
    cbn [heap set_heap set_ticks].
    split; [apply lookup_insert_eq |].
    repeat (split; [reflexivity |]).
    intros b Hb. apply lookup_insert_ne. congruence.
  - intros s path a w nd Hw Hnd. eexists _, _.
    split; [apply (touch_file_run _ _ _ _ _ Hw Hnd) |].
    cbn [heap set_heap set_ticks].
    split; [apply lookup_insert_eq |].
    repeat (split; [reflexivity |]).
    intros b Hb. apply lookup_insert_ne. congruence.
  - intros c s r s' Hc H. destruct c; cbn [exec] in H.
    + apply extends_keeps. revert H. generalize s r s'.
      change (pres extends (fs_init ;; ret 0)). pres_auto.
      apply pres_fs_init.
    + apply shrinks_keeps. revert H. generalize s r s'.
      change (pres shrinks (fs_destroy ;; ret 0)). pres_auto.
      apply pres_fs_destroy.
    + apply extends_keeps. eapply (pres_fs_cd extends); eauto.
    + apply extends_keeps. eapply pres_mkdir_p; eauto.
    + apply shrinks_keeps. eapply pres_rmdir_empty; eauto.
    + apply extends_keeps. eapply (pres_ls_dir extends); eauto.
    + apply extends_keeps. eapply (pres_fs_search extends); eauto.
    + eapply create_file_keeps_attrs; eauto.
    + apply extends_keeps. eapply (pres_write_file extends extends_ensure_cap extends_copy); eauto.
    + apply extends_keeps. revert H. generalize s r s'.
      change (pres extends (x <- read_file path off len ; ret (fst x))).
      pres_auto. apply (pres_read_file extends).
    + apply shrinks_keeps. eapply pres_rm_file; eauto.
    + apply extends_keeps. eapply (pres_rename_file extends); eauto.
    + apply extends_keeps. eapply (pres_fs_open extends); eauto.
    + apply extends_keeps. eapply (pres_fs_close extends); eauto.
    + apply extends_keeps. revert H. generalize s r s'.
      change (pres extends (x <- fs_read_fd fd len ; ret (fst x))).
      pres_auto. apply (pres_fs_read_fd extends).
    + apply extends_keeps. eapply (pres_fs_write_fd extends extends_ensure_cap extends_copy); eauto.
    + apply extends_keeps. eapply (pres_fs_seek extends); eauto.
    + apply extends_keeps. revert H. generalize s r s'.
      change (pres extends (x <- get_file_info path ; ret (fst x))).
      pres_auto. apply (pres_get_file_info extends).
    + exfalso. eapply Hc; eauto.
    + apply extends_keeps. eapply (pres_touch_file extends); eauto.
Qed.

Lemma metadata_calls_pass_readonly_witness :
  (exists s' nd',
      set_file_attributes "/a/b/c/f.txt" ATTR_NONE with_readonly_file =
        Ret 0 s' /\
      heap s' !! 5%positive = Some nd' /\ is_readonly nd' = false) /\
  (exists s' nd',
      touch_file "/a/b/c/f.txt" with_readonly_file = Ret 0 s' /\
      heap s' !! 5%positive = Some nd' /\ is_readonly nd' = true) /\
  keeps_attrs with_readonly_file
              (state_after (exec (Rm_file "/a/b/c/f.txt")) with_readonly_file).
Proof.
  destruct metadata_calls_pass_readonly as (Hset & Htouch & Hkeep).
  assert (Hw : walk_from with_readonly_file (cwd with_readonly_file)
                         "/a/b/c/f.txt" false = Some (Some 5%positive, None))
    by (vm_compute; reflexivity).
  assert (Hnd : heap with_readonly_file !! 5%positive =
                Some (mk_node N_FILE "f.txt" (Some 4%positive) 1007 1011 1010
                              2 [] (hello ++ replicate 51 x00) 13))
    by (vm_compute; reflexivity).
  split; [| split].
  - destruct (Hset _ _ ATTR_NONE _ _ _ Hw Hnd)
      as (s' & nd' & Hrun & Hlive & _ & Hro & _).
    exists s', nd'. split; [exact Hrun |]. split; [exact Hlive |].
    rewrite Hro. reflexivity.
  - destruct (Htouch _ _ _ _ _ Hw Hnd)
      as (s' & nd' & Hrun & Hlive & Hat & _).
    exists s', nd'. split; [exact Hrun |]. split; [exact Hlive |].
    unfold is_readonly. rewrite Hat. reflexivity.
  - apply (Hkeep (Rm_file "/a/b/c/f.txt") with_readonly_file (-1));
      [discriminate | vm_compute; reflexivity].
Defined.

(** ** Rename onto an existing name *)

Lemma ptr_eqb_true a b : ptr_eqb a b = true <-> a = b.
Proof.
  destruct a as [x|], b as [y|]; cbn; split; intros H;
    try discriminate; try reflexivity.
  - apply Pos.eqb_eq in H. congruence.
  - inversion H. apply Pos.eqb_refl.
Qed.

Lemma ptr_eqb_false a b : ptr_eqb a b = false <-> a <> b.
Proof.
  rewrite <- ptr_eqb_true. destruct (ptr_eqb a b); split; congruence.
Qed.

Lemma strncmp_eq_refl a n : strncmp_eq a a n = true.
Proof. unfold strncmp_eq. apply String.eqb_refl. Qed.

(** When every child is live and one of them has the name, the scan
    finds a child. *)
Lemma find_by_name_hit h nm : forall cs c cn,
  (forall x, x ∈ cs -> is_Some (h !! x)) ->
  c ∈ cs -> h !! c = Some cn ->
  strncmp_eq (name cn) nm NAME_MAX = true ->
  exists c', find_by_name h cs nm = Some (Some c').
Proof.
  induction cs as [|x cs IH]; intros c cn Hlive Hin Hc Hnm;
    [inversion Hin |].
  cbn [find_by_name].
  destruct (Hlive x) as [xn Hx]; [apply elem_of_cons; left; reflexivity |].
  rewrite Hx. cbn.
  destruct (strncmp_eq (name xn) nm NAME_MAX) eqn:E; [eauto |].
  apply elem_of_cons in Hin as [-> | Hin]; [congruence |].
  apply (IH c cn); auto.
  intros y Hy. apply Hlive. apply elem_of_cons. right. exact Hy.
Qed.

(** What a successful scan returns: a live child with the name. *)
Lemma find_by_name_Some h nm : forall cs c,
  find_by_name h cs nm = Some (Some c) ->
  c ∈ cs /\ exists cn, h !! c = Some cn /\
                       strncmp_eq (name cn) nm NAME_MAX = true.
Proof.
  induction cs as [|x cs IH]; intros c H; cbn [find_by_name] in H;
    [discriminate |].
  destruct (h !! x) as [xn|] eqn:Ex; cbn in H; [| discriminate].
  destruct (strncmp_eq (name xn) nm NAME_MAX) eqn:E.
  - inversion H; subst. split; [apply elem_of_cons; left; reflexivity |].
    eauto.
  - apply IH in H as [Hin Hcn]. split; [| exact Hcn].
    apply elem_of_cons. right. exact Hin.
Qed.

(** A scan that finds nothing has read the name of every child: they
    are all live, and none has the name. *)
Lemma find_by_name_NULL h nm : forall cs,
  find_by_name h cs nm = Some NULL ->
  forall x, x ∈ cs ->
    exists xn, h !! x = Some xn /\ strncmp_eq (name xn) nm NAME_MAX = false.
Proof.
  induction cs as [|y cs IH]; intros H x Hx; [inversion Hx |].
  cbn [find_by_name] in H.
  destruct (h !! y) as [yn|] eqn:Ey; cbn in H; [| discriminate].
  destruct (strncmp_eq (name yn) nm NAME_MAX) eqn:E; [discriminate |].
  apply elem_of_cons in Hx as [-> | Hx]; [eauto | apply IH; auto].
Qed.

(** C3. When the source resolves to a live node other than the root,
    attached to a live parent directory, and the destination resolves
    to a directory whose children are live and one of which already
    has the new leaf name, [rename_file] returns the error value and
    the state after the call is the state before it: both directories
    keep their children, in the same order and number, and the source
    keeps its parent and its name. *)
Theorem rename_onto_existing_name_fails
    s old_path new_path a w nd pa pnd np npn leaf c cn :
  walk_from s (cwd s) old_path false = Some (Some a, w) ->
  heap s !! a = Some nd ->
  root s <> Some a ->
  parent nd = Some pa ->
  heap s !! pa = Some pnd ->
  walk_from s (cwd s) new_path true = Some (Some np, Some leaf) ->
  heap s !! np = Some npn ->
  type npn = N_DIR ->
  (forall x, x ∈ children npn -> is_Some (heap s !! x)) ->
  c ∈ children npn ->
  heap s !! c = Some cn ->
  name cn = leaf ->
  rename_file old_path new_path s = Ret (-1) s.
Proof.
  intros Hold Hnd Hroot Hpar Hpnd Hnew Hnpn Hty Hlive Hin Hcn Hname.
  assert (Hfind : exists c', dir_find (heap s) (Some np) leaf = Some (Some c')).
  { unfold dir_find. rewrite Hnpn. cbn. unfold is_dir. rewrite Hty. cbn.
    apply (find_by_name_hit _ _ _ c cn); auto.
    rewrite Hname. apply strncmp_eq_refl. }
  destruct Hfind as [c' Hfind].
  unfold rename_file. unfold_prims. rewrite Hold.
  replace (ptr_eqb (Some a) (root s)) with false
    by (symmetry; apply ptr_eqb_false; congruence).
  cbn [mbind option_bind]. rewrite Hnd.
  destruct (is_readonly nd); [reflexivity |].
  rewrite Hpar. cbn [mbind option_bind]. rewrite Hpnd.
  destruct (is_readonly pnd); [reflexivity |].
  rewrite Hnew. cbn [mbind option_bind leaf_of]. rewrite Hnpn.
  unfold is_dir at 1. rewrite Hty. cbn [node_type_eqb negb].
  destruct (is_readonly npn); [reflexivity |].
  rewrite Hfind. reflexivity.
Qed.

Lemma rename_onto_existing_name_fails_witness :
  rename_file "/a/b/c/f.txt" "/a/b/c/g.txt" with_two_files =
    Ret (-1) with_two_files.
Proof.
  apply (rename_onto_existing_name_fails
           with_two_files "/a/b/c/f.txt" "/a/b/c/g.txt"
           5%positive None
           (mk_node N_FILE "f.txt" (Some 4%positive) 1007 1010 1010 0 []
                    (hello ++ replicate 51 x00) 13)
           4%positive
           (mk_node N_DIR "c" (Some 3%positive) 1005 1013 1013 0
                    [5%positive; 6%positive] [] 0)
           4%positive
           (mk_node N_DIR "c" (Some 3%positive) 1005 1013 1013 0
                    [5%positive; 6%positive] [] 0)
           "g.txt"%string 6%positive
           (mk_node N_FILE "g.txt" (Some 4%positive) 1011 1011 1011 0 [] [] 0)).
  - vm_compute. reflexivity.
  - vm_compute. reflexivity.
  - vm_compute. discriminate.
  - reflexivity.
  - vm_compute. reflexivity.
  - vm_compute. reflexivity.
  - vm_compute. reflexivity.
  - reflexivity.
  - intros x Hx. cbn [children] in Hx.
    apply elem_of_cons in Hx as [-> | Hx]; [vm_compute; eauto |].
    apply list_elem_of_singleton in Hx. subst. vm_compute. eauto.
  - cbn [children]. apply elem_of_cons. right. apply list_elem_of_singleton.
    reflexivity.
  - vm_compute. reflexivity.
  - reflexivity.
Defined.

(** ** File creation *)

(** A walk that writes the leaf buffer has stopped on the last segment,
    which is neither [.] nor [..] and has at most [NAME_MAX] bytes; the
    pointer returned is the node reached by the segments before it. *)
Lemma walk_loop_leaf h : forall toks cur p leaf,
  walk_loop h true cur toks = Some (p, Some leaf) ->
  exists pre, toks = pre ++ [leaf] /\
    descend h cur pre = Some (At p) /\
    leaf <> dot /\ leaf <> dotdot /\
    (1 <= strlen leaf <= NAME_MAX)%nat.
Proof.
  induction toks as [|tok rest IH]; intros cur p leaf H;
    [cbn in H; inversion H |].
  destruct rest as [|next rest].
  - cbn [walk_loop] in H.
    destruct ((strlen tok =? 0)%nat || (NAME_MAX <? strlen tok)%nat) eqn:El;
      [inversion H |].
    apply orb_false_iff in El as [E0 E1].
    apply Nat.eqb_neq in E0. apply Nat.ltb_ge in E1.
    destruct (strcmp_eq tok dot) eqn:Ed; [inversion H |].
    destruct (strcmp_eq tok dotdot) eqn:Edd.
    { destruct cur as [a|]; cbn in H; [| discriminate].
      destruct (h !! a); cbn in H; [inversion H | discriminate]. }
    inversion H; subst. rewrite str_take_all by exact E1.
    exists []. split; [reflexivity |]. split; [reflexivity |].
    apply strcmp_eq_false in Ed, Edd. repeat split; auto; lia.
  - rewrite walk_loop_cons in H by discriminate.
    assert (Hstep : forall c,
               walk_loop h true c (next :: rest) = Some (p, Some leaf) ->
               descend h cur [tok] = Some (At c) ->
               exists pre, tok :: next :: rest = pre ++ [leaf] /\
                 descend h cur pre = Some (At p) /\
                 leaf <> dot /\ leaf <> dotdot /\
                 (1 <= strlen leaf <= NAME_MAX)%nat).
    { intros c Hc Hd. apply IH in Hc as (pre & Hpre & Hdes & Hrest).
      exists (tok :: pre). split; [rewrite Hpre; reflexivity |].
      split; [| exact Hrest].
      revert Hd. cbn [descend].
      destruct ((strlen tok =? 0)%nat || (NAME_MAX <? strlen tok)%nat);
        [discriminate |].
      destruct (strcmp_eq tok dot); [intros Hd; inversion Hd; subst; exact Hdes |].
      destruct (strcmp_eq tok dotdot).
      { destruct cur as [a|]; cbn; [| discriminate].
        destruct (h !! a); cbn; [| discriminate].
        intros Hd; inversion Hd; subst; exact Hdes. }
      destruct (dir_find h cur tok) as [[a|]|]; cbn; try discriminate.
      destruct (h !! a) as [n|]; cbn; [| discriminate].
      destruct (negb (is_dir n)); [discriminate |].
      intros Hd; inversion Hd; subst; exact Hdes. }
    destruct ((strlen tok =? 0)%nat || (NAME_MAX <? strlen tok)%nat) eqn:El;
      [inversion H |].
    destruct (strcmp_eq tok dot) eqn:Ed.
    { apply (Hstep cur H). cbn [descend]. rewrite El, Ed. reflexivity. }
    destruct (strcmp_eq tok dotdot) eqn:Edd.
    { destruct cur as [a|]; cbn [mbind option_bind] in H; [| discriminate].
      destruct (h !! a) as [cn|] eqn:Ea; cbn [mbind option_bind] in H; [| discriminate].
      apply (Hstep _ H). cbn [descend]. rewrite El, Ed, Edd. cbn.
      rewrite Ea. reflexivity. }
    destruct (dir_find h cur tok) as [[a|]|] eqn:Ef; cbn [mbind option_bind] in H;
      try discriminate.
    destruct (h !! a) as [n|] eqn:Ea; cbn [mbind option_bind] in H; [| discriminate].
    destruct (negb (is_dir n)) eqn:En; [inversion H |].
    apply (Hstep _ H). cbn [descend]. rewrite El, Ed, Edd, Ef. cbn.
    rewrite Ea. cbn. rewrite En. reflexivity.
Qed.

(** The leaf that [create_file] reads after a walk is empty when the
    path has no segment or ends in [.], [..] or a segment of more than
    [NAME_MAX] bytes. *)
Lemma walk_from_no_leaf s start path par written :
  walk_from s start path true = Some (par, written) ->
  (tokens (path_buffer path) = [] \/
   exists pre tok, tokens (path_buffer path) = pre ++ [tok] /\
     (tok = dot \/ tok = dotdot \/ (NAME_MAX < strlen tok)%nat)) ->
  written = None.
Proof.
  intros Hw Hlast. destruct written as [leaf|]; [exfalso | reflexivity].
  unfold walk_from in Hw.
  apply walk_loop_leaf in Hw as (pre' & Hpre' & _ & Hd & Hdd & Hlen).
  destruct Hlast as [Hnil | (pre & tok & Hpre & Hbad)].
  - rewrite Hnil in Hpre'. destruct pre'; discriminate.
  - rewrite Hpre in Hpre'. apply app_inj_tail in Hpre' as [_ ->].
    destruct Hbad as [? | [? | ?]]; [congruence | congruence | lia].
Qed.

Lemma index_of_None c : forall cs, c ∉ cs -> index_of c cs = None.
Proof.
  induction cs as [|x cs IH]; intros H; [reflexivity |].
  cbn [index_of]. destruct (Pos.eqb x c) eqn:E.
  - apply Pos.eqb_eq in E. subst. exfalso. apply H.
    apply elem_of_cons. left. reflexivity.
  - rewrite IH; [reflexivity |]. intros Hin. apply H.
    apply elem_of_cons. right. exact Hin.
Qed.

(** [dir_add] on a directory that is full. *)
Lemma dir_add_full d child s dn :
  heap s !! d = Some dn ->
  (MAX_CHILDREN <= child_count dn)%nat ->
  dir_add (Some d) child s = Ret NULL s.
Proof.
  intros Hd Hfull. unfold dir_add. unfold_prims. cbn [mbind option_bind].
  rewrite Hd.
  replace (MAX_CHILDREN <=? child_count dn)%nat with true
    by (symmetry; apply Nat.leb_le; exact Hfull).
  rewrite orb_true_r. reflexivity.
Qed.

(** [dir_add] of a node that the directory does not hold yet. *)
Lemma dir_add_appends d c s dn cn :
  d <> c ->
  heap s !! d = Some dn -> is_dir dn = true ->
  (child_count dn < MAX_CHILDREN)%nat ->
  heap s !! c = Some cn ->
  parent cn = Some d \/ parent cn = NULL ->
  c ∉ children dn ->
  dir_add (Some d) (Some c) s =
    Ret (Some c)
        (set_heap
           (<[d := stamp_both (clock s (ticks s))
                     (set_children (children dn ++ [c]) dn)]>
              (<[c := set_parent (Some d) cn]>
                 (<[d := set_children (children dn ++ [c]) dn]> (heap s))))
           (set_ticks (S (ticks s)) s)).
Proof.
  intros Hne Hd Hdir Hroom Hc Hpar Hnotin.
  unfold dir_add. unfold_prims. cbn [mbind option_bind].
  rewrite Hd, Hdir. cbn [negb orb].
  replace (MAX_CHILDREN <=? child_count dn)%nat with false
    by (symmetry; apply Nat.leb_gt; exact Hroom).
  rewrite Hc.
  assert (match parent cn with
          | Some p => negb (p =? d)%positive
          | None => false
          end = false) as ->.
  { destruct Hpar as [-> | ->]; [| reflexivity].
    rewrite Pos.eqb_refl. reflexivity. }
  rewrite (index_of_None _ _ Hnotin). rewrite Hd.
  cbn [heap set_heap set_ticks ticks clock].
  rewrite lookup_insert_ne by exact Hne. rewrite Hc.
  cbn [heap set_heap set_ticks ticks clock].
  rewrite lookup_insert_ne by congruence. rewrite lookup_insert_eq.
  reflexivity.
Qed.

Lemma create_file_rejects s path par w :
  walk_from s (cwd s) path true = Some (par, w) ->
  (par = NULL -> create_file path s = Ret (-1) s) /\
  (forall p pn, par = Some p -> heap s !! p = Some pn ->
     (is_dir pn = false \/ leaf_of w = EmptyString \/
      exists r, dir_find (heap s) (Some p) (leaf_of w) = Some r /\
                (r <> NULL \/ is_readonly pn = true)) ->
     create_file path s = Ret (-1) s).
Proof.
  intros Hw. split.
  - intros ->. unfold create_file. unfold_prims. rewrite Hw. reflexivity.
  - intros p pn -> Hpn Hbad. unfold create_file. unfold_prims. rewrite Hw.
    cbn [mbind option_bind]. rewrite Hpn.
    destruct (negb (is_dir pn)) eqn:Edir; [reflexivity |].
    destruct (strlen (leaf_of w) =? 0)%nat eqn:Elen; [reflexivity |].
    destruct (_ || _); [reflexivity |].
    destruct (NAME_MAX <? strlen (leaf_of w))%nat; [reflexivity |].
    destruct Hbad as [Hd | [Hl | (r & Hr & Hwhy)]].
    + rewrite Hd in Edir. discriminate.
    + rewrite Hl in Elen. discriminate.
    + rewrite Hr. destruct r as [c|]; [reflexivity |].
      destruct Hwhy as [Hne | ->];
        [exfalso; apply Hne; reflexivity | reflexivity].
Qed.

Lemma create_file_bad_leaf s path par w :
  walk_from s (cwd s) path true = Some (par, w) ->
  (forall p, par = Some p -> is_Some (heap s !! p)) ->
  (tokens (path_buffer path) = [] \/
   exists pre tok, tokens (path_buffer path) = pre ++ [tok] /\
     (tok = dot \/ tok = dotdot \/ (NAME_MAX < strlen tok)%nat)) ->
  create_file path s = Ret (-1) s.
Proof.
  intros Hw Hlive Hlast.
  pose proof (walk_from_no_leaf _ _ _ _ _ Hw Hlast) as ->.
  destruct (create_file_rejects _ _ _ _ Hw) as [Hnull Hnode].
  destruct par as [p|]; [| apply Hnull; reflexivity].
  destruct (Hlive p eq_refl) as [pn Hpn].
  apply (Hnode p pn eq_refl Hpn). right. left. reflexivity.
Qed.

Lemma create_file_success s path s' :
  create_file path s = Ret 0 s' ->
  exists p pn leaf f fn pn',
    walk_from s (cwd s) path true = Some (Some p, Some leaf) /\
    heap s !! p = Some pn /\ type pn = N_DIR /\ is_readonly pn = false /\
    dir_find (heap s) (Some p) leaf = Some NULL /\
    heap s !! f = None /\
    heap s' !! f = Some fn /\
    type fn = N_FILE /\ name fn = leaf /\ parent fn = Some p /\
    attributes fn = ATTR_NONE /\ size fn = 0 /\
    children fn = [] /\ data fn = [] /\
    heap s' !! p = Some pn' /\
    children pn' = children pn ++ [f] /\
    modified pn' = clock s (ticks s + 2)%nat /\
    accessed pn' = clock s (ticks s + 2)%nat /\
    type pn' = type pn /\ name pn' = name pn /\ parent pn' = parent pn /\
    attributes pn' = attributes pn /\ created pn' = created pn /\
    forall b, b <> p -> b <> f -> heap s' !! b = heap s !! b.
Proof.
  unfold create_file. intros H.
  apply bind_Ret in H as ([par w] & s1 & Hw & H).
  unfold walk in Hw. apply lift_Ret in Hw as [-> Hw].
  destruct par as [p|]; [| unfold ret in H; inversion H].
  apply bind_Ret in H as (pn & s2 & Hd & H).
  apply deref_Ret in Hd as [-> (p' & Hp' & Hpn)]. inversion Hp'; subst p'.
  destruct (negb (is_dir pn)) eqn:Edir; [unfold ret in H; inversion H |].
  destruct (strlen (leaf_of w) =? 0)%nat eqn:Elen;
    [unfold ret in H; inversion H |].
  destruct (_ || _); [unfold ret in H; inversion H |].
  destruct (NAME_MAX <? strlen (leaf_of w))%nat eqn:Emax;
    [unfold ret in H; inversion H |].
  apply bind_Ret in H as (c & s3 & Hf & H).
  apply lift_Ret in Hf as [-> Hf].
  destruct c; [unfold ret in H; inversion H |].
  destruct (is_readonly pn) eqn:Ero; [unfold ret in H; inversion H |].
  destruct w as [leaf|]; [| cbn in Elen; discriminate]. cbn [leaf_of] in *.
  apply Nat.ltb_ge in Emax.
  rewrite (bind_run _ _ _ _ _ (node_new_run _ _ _ _)) in H.
  rewrite (str_take_all _ _ Emax) in H.
  set (f := fresh (dom (heap s))) in *.
  assert (Hfresh : heap s !! f = None) by apply fresh_not_live.
  assert (Hpf : p <> f) by (intros E; rewrite E in Hpn; congruence).
  assert (Hdirt : is_dir pn = true) by (destruct (is_dir pn); auto; discriminate).
  assert (Hnotin : f ∉ children pn).
  { intros Hin. unfold dir_find in Hf. rewrite Hpn in Hf. cbn in Hf.
    rewrite Edir in Hf.
    destruct (find_by_name_NULL _ _ _ Hf f Hin) as (xn & Hx & _).
    congruence. }
  destruct (Nat.le_gt_cases MAX_CHILDREN (child_count pn)) as [Hfull | Hroom].
  { exfalso. revert H.
    erewrite bind_run.
    2:{ eapply dir_add_full; [| exact Hfull]. cbn [heap set_heap set_ticks].
        rewrite lookup_insert_ne by congruence. exact Hpn. }
    intros H. apply bind_Ret in H as (u & s4 & _ & H).
    unfold ret in H. inversion H. }
  revert H. erewrite bind_run.
  2:{ eapply (dir_add_appends p f); try eassumption.
      - cbn [heap set_heap set_ticks].
        rewrite lookup_insert_ne by congruence. exact Hpn.
      - cbn [heap set_heap set_ticks]. apply lookup_insert_eq.
      - left. reflexivity. }
  unfold_prims. cbn [heap set_heap set_ticks ticks clock].
  rewrite lookup_insert_eq. intros H. inversion H; subst s'. clear H.
  cbn [heap set_heap set_ticks ticks clock].
  eexists p, pn, leaf, f, _, _.
  split; [exact Hw |]. split; [exact Hpn |].
  split; [unfold is_dir in Hdirt; destruct (type pn); [reflexivity | discriminate] |].
  split; [exact Ero |]. split; [exact Hf |]. split; [exact Hfresh |].
  split.
  { rewrite lookup_insert_ne by congruence.
    rewrite lookup_insert_ne by congruence.
    apply lookup_insert_eq. }
  cbn [type name parent attributes size children data set_parent].
  repeat (split; [reflexivity |]).
  split; [apply lookup_insert_eq |].
  cbn [stamp_both set_accessed set_modified set_children children modified
       accessed type name parent attributes created].
  split; [reflexivity |].
  replace (ticks s + 2)%nat with (S (S (ticks s))) by lia.
  repeat (split; [reflexivity |]).
  intros b Hbp Hbf.
  rewrite !lookup_insert_ne by congruence. reflexivity.
Qed.

(** The checks and the effect of [create_file], with the bound on the
    leaf that the code tests, [NAME_MAX] = 32 bytes. For every state
    and path on which the resolution of the parent is defined and
    returns the null pointer or a live node: [create_file] returns the
    error value, and leaves the state as it was, (1) when no parent is returned; (2) when the parent is not a
    directory, or carries the read-only attribute, or [dir_find] finds
    an entry with the leaf name in it; (3) when the path has no leaf,
    or its last segment is [.] or [..] or has more than [NAME_MAX]
    bytes. (4) When [create_file] returns 0, the path had resolved to a
    live, writable directory without an entry of that name; a node
    that was not live before is now a file with the leaf name, that
    directory as parent, no attribute, no content; the directory has
    it as its last child and has its modified and accessed times set
    to the reading of the clock that ends the call; every other node
    is as before. *)
Theorem create_file_checks_and_effect s path :
  (forall par w,
      walk_from s (cwd s) path true = Some (par, w) ->
      (forall p, par = Some p -> is_Some (heap s !! p)) ->
      (par = NULL -> create_file path s = Ret (-1) s) /\
      (forall p pn r,
          par = Some p -> heap s !! p = Some pn ->
          dir_find (heap s) (Some p) (leaf_of w) = Some r ->
          type pn <> N_DIR \/ is_readonly pn = true \/ r <> NULL ->
          create_file path s = Ret (-1) s) /\
      ((tokens (path_buffer path) = [] \/
        exists pre tok, tokens (path_buffer path) = pre ++ [tok] /\
          (tok = dot \/ tok = dotdot \/ (NAME_MAX < strlen tok)%nat)) ->
       create_file path s = Ret (-1) s)) /\
  (forall s',
      create_file path s = Ret 0 s' ->
      exists p pn leaf f fn pn',
        walk_from s (cwd s) path true = Some (Some p, Some leaf) /\
        heap s !! p = Some pn /\ type pn = N_DIR /\ is_readonly pn = false /\
        dir_find (heap s) (Some p) leaf = Some NULL /\
        heap s !! f = None /\
        heap s' !! f = Some fn /\
        type fn = N_FILE /\ name fn = leaf /\ parent fn = Some p /\
        attributes fn = ATTR_NONE /\ size fn = 0 /\
        children fn = [] /\ data fn = [] /\
        heap s' !! p = Some pn' /\
        children pn' = children pn ++ [f] /\
        modified pn' = clock s (ticks s + 2)%nat /\
        accessed pn' = clock s (ticks s + 2)%nat /\
        type pn' = type pn /\ name pn' = name pn /\ parent pn' = parent pn /\
        attributes pn' = attributes pn /\ created pn' = created pn /\
        forall b, b <> p -> b <> f -> heap s' !! b = heap s !! b).
Proof.
  split.
  - intros par w Hw Hlive.
    destruct (create_file_rejects _ _ _ _ Hw) as [Hnull Hnode].
    split; [exact Hnull |]. split.
    + intros p pn r Hp Hpn Hr Hwhy. apply (Hnode p pn Hp Hpn).
      destruct Hwhy as [Hty | [Hro | Hr']].
      * left. unfold is_dir. destruct (type pn); [congruence | reflexivity].
      * right. right. exists r. auto.
      * right. right. exists r. auto.
    + apply (create_file_bad_leaf _ _ _ _ Hw Hlive).
  - apply create_file_success.
Qed.

Lemma create_file_checks_and_effect_witness :
  create_file "/zz/f.txt" with_file = Ret (-1) with_file /\
  create_file "/a/b/c/f.txt" with_file = Ret (-1) with_file /\
  create_file "/a/b/c/." with_file = Ret (-1) with_file /\
  exists s' f fn,
    create_file "/a/b/c/g.txt" with_file = Ret 0 s' /\
    heap with_file !! f = None /\
    heap s' !! f = Some fn /\
    type fn = N_FILE /\ name fn = "g.txt"%string.
Proof.
  split; [| split; [| split]].
  - destruct (create_file_checks_and_effect with_file "/zz/f.txt") as [H _].
    destruct (H NULL None) as (Hnull & _);
      [vm_compute; reflexivity | intros p Hp; discriminate Hp |].
    apply Hnull. reflexivity.
  - destruct (create_file_checks_and_effect with_file "/a/b/c/f.txt")
      as [H _].
    destruct (H (Some 4%positive) (Some "f.txt"%string)) as (_ & Hnode & _);
      [vm_compute; reflexivity
      | intros p Hp; inversion Hp; subst; vm_compute; eauto |].
    apply (Hnode 4%positive
                 (mk_node N_DIR "c" (Some 3%positive) 1005 1009 1009 0
                          [5%positive] [] 0)
                 (Some 5%positive));
      [reflexivity | vm_compute; reflexivity | vm_compute; reflexivity |].
    right. right. discriminate.
  - destruct (create_file_checks_and_effect with_file "/a/b/c/.") as [H _].
    destruct (H (Some 4%positive) None) as (_ & _ & Hleaf);
      [vm_compute; reflexivity
      | intros p Hp; inversion Hp; subst; vm_compute; eauto |].
    apply Hleaf. right. exists ["a"; "b"; "c"]%string, dot.
    split; [vm_compute; reflexivity | left; reflexivity].
  - destruct (create_file_checks_and_effect with_file "/a/b/c/g.txt")
      as [_ H].
    destruct (create_file "/a/b/c/g.txt" with_file) as [r s'| |] eqn:E;
      [| vm_compute in E; discriminate E | vm_compute in E; discriminate E].
    assert (Hr : r = 0)
      by (apply (f_equal (fun x => match x with Ret v _ => v | _ => 1 end)) in E;
          vm_compute in E; congruence).
    subst r.
    destruct (H s' eq_refl)
      as (p & pn & leaf & f & fn & pn' & Hw & _ & _ & _ & _ & Hfresh & Hfn
          & Hty & Hname & _).
    assert (Hw' : walk_from with_file (cwd with_file) "/a/b/c/g.txt" true =
                  Some (Some 4%positive, Some "g.txt"%string))
      by (vm_compute; reflexivity).
    rewrite Hw' in Hw. inversion Hw; subst p leaf.
    exists s', f, fn. auto.
Defined.

(** C6 at a concrete input: the leaf has 32 bytes, one more than the
    31 that bound a name (the comment on [NAME_MAX] in [fs.h]: 31
    characters and the terminator). [create_file] does not reject it
    as too long: it returns 0, and the file that it has created carries
    the 32-byte name. *)
Lemma create_file_accepts_32_byte_leaf :
  strlen thirty_two_bytes = 32%nat /\
  exists s' fn,
    create_file (String slash thirty_two_bytes) fresh_fs = Ret 0 s' /\
    heap fresh_fs !! 2%positive = None /\
    heap s' !! 2%positive = Some fn /\
    type fn = N_FILE /\ name fn = thirty_two_bytes /\
    parent fn = root fresh_fs.
Proof.
  split; [reflexivity |]. eexists _, _.
  split; [vm_compute; reflexivity |].
  split; [vm_compute; reflexivity |].
  split; [vm_compute; reflexivity |].
  split; [reflexivity |]. split; reflexivity.
Qed.

(** ** Read after write *)

Lemma same_shape_insert h a n n' :
  h !! a = Some n -> shape_eq n n' -> same_shape h (<[a := n']> h).
Proof.
  intros Hn Hs b. destruct (decide (a = b)) as [<- | Hne].
  - right. exists n, n'. rewrite lookup_insert_eq. auto.
  - rewrite lookup_insert_ne by exact Hne.
    destruct (h !! b) as [m|]; [right | left; auto].
    exists m, m. repeat split; reflexivity.
Qed.

Lemma find_by_name_shape h h' nm :
  same_shape h h' ->
  forall cs, find_by_name h cs nm = find_by_name h' cs nm.
Proof.
  intros Hs. induction cs as [|c cs IH]; [reflexivity |].
  cbn [find_by_name].
  destruct (Hs c) as [[-> ->] | (n & n' & -> & -> & _ & Hname & _)];
    [reflexivity |].
  cbn. rewrite Hname, IH. reflexivity.
Qed.

Lemma dir_find_shape h h' dir nm :
  same_shape h h' -> dir_find h dir nm = dir_find h' dir nm.
Proof.
  intros Hs. destruct dir as [d|]; [| reflexivity]. cbn [dir_find].
  destruct (Hs d) as [[-> ->] | (n & n' & -> & -> & Hty & _ & _ & Hch)];
    [reflexivity |].
  cbn. unfold is_dir. rewrite Hty, Hch.
  rewrite (find_by_name_shape h h' nm Hs). reflexivity.
Qed.

(** The resolver reads the shape of the tree only. *)
Lemma walk_loop_shape h h' wp :
  same_shape h h' ->
  forall toks cur, walk_loop h wp cur toks = walk_loop h' wp cur toks.
Proof.
  intros Hs. induction toks as [|tok rest IH]; intros cur; [reflexivity |].
  destruct rest as [|next rest].
  - cbn [walk_loop].
    destruct ((strlen tok =? 0)%nat || (NAME_MAX <? strlen tok)%nat);
      [reflexivity |].
    destruct (strcmp_eq tok dot); [reflexivity |].
    destruct (strcmp_eq tok dotdot).
    { destruct cur as [a|]; [| reflexivity]. cbn [mbind option_bind].
      destruct (Hs a) as [[-> ->] | (n & n' & -> & -> & _ & _ & Hpar & _)];
        [reflexivity |].
      cbn [mbind option_bind]. rewrite Hpar. reflexivity. }
    rewrite (dir_find_shape h h' cur tok Hs). reflexivity.
  - rewrite !(walk_loop_cons _ _ _ _ (next :: rest)) by discriminate.
    destruct ((strlen tok =? 0)%nat || (NAME_MAX <? strlen tok)%nat);
      [reflexivity |].
    destruct (strcmp_eq tok dot); [apply IH |].
    destruct (strcmp_eq tok dotdot).
    { destruct cur as [a|]; [| reflexivity]. cbn [mbind option_bind].
      destruct (Hs a) as [[-> ->] | (n & n' & -> & -> & _ & _ & Hpar & _)];
        [reflexivity |].
      cbn [mbind option_bind]. rewrite Hpar. apply IH. }
    rewrite (dir_find_shape h h' cur tok Hs).
    destruct (dir_find h' cur tok) as [[a|]|]; cbn [mbind option_bind];
      try reflexivity.
    destruct (Hs a) as [[-> ->] | (n & n' & -> & -> & Hty & _)];
      [reflexivity |].
    cbn [mbind option_bind]. unfold is_dir. rewrite Hty.
    destruct (negb (node_type_eqb (type n') N_DIR)); [reflexivity | apply IH].
Qed.

(** The doubling loop returns a capacity that covers the request and
    is either where it started or a 64-bit value. *)
Lemma grow_result fuel : forall c want n,
  grow fuel c want = Some n ->
  want <= n /\ (n = c \/ 0 <= n < SIZE_MOD).
Proof.
  induction fuel as [|fuel IH]; intros c want n H; cbn [grow] in H.
  - destruct (c <? want) eqn:E; [discriminate |].
    inversion H; subst. apply Z.ltb_ge in E. auto.
  - destruct (c <? want) eqn:E.
    + apply IH in H as [Hw [-> | Hr]]; (split; [exact Hw |]);
        right; [| exact Hr].
      unfold wrap. apply Z.mod_pos_bound. reflexivity.
    + inversion H; subst. apply Z.ltb_ge in E. auto.
Qed.

(** The bound of 64 iterations loses nothing: when 64 doublings do
    not reach the request, the capacity has wrapped to zero and no
    number of doublings reaches it. *)
Lemma grow_from_zero want : 0 < want -> forall n, grow n 0 want = None.
Proof.
  intros Hw. induction n as [|n IH]; cbn [grow];
    replace (0 <? want) with true by (symmetry; apply Z.ltb_lt; exact Hw);
    [reflexivity | exact IH].
Qed.

Lemma grow_fuel_enough want : forall fuel j c,
  (j + fuel = 64)%nat ->
  0 <= c < SIZE_MOD -> c mod 2 ^ Z.of_nat j = 0 ->
  grow fuel c want = None ->
  forall n, grow n c want = None.
Proof.
  induction fuel as [|fuel IH]; intros j c Hj Hc Hdiv Hrun n.
  - assert (j = 64%nat) as -> by lia.
    assert (c = 0) as ->.
    { change (2 ^ Z.of_nat 64) with SIZE_MOD in Hdiv.
      rewrite Z.mod_small in Hdiv by exact Hc. exact Hdiv. }
    apply grow_from_zero. cbn [grow] in Hrun.
    destruct (0 <? want) eqn:E; [apply Z.ltb_lt; exact E | discriminate].
  - cbn [grow] in Hrun. destruct (c <? want) eqn:E; [| discriminate].
    assert (Hnext : forall m, grow m (wrap (c * 2)) want = None).
    { apply (IH (S j)); [lia | | | exact Hrun].
      - unfold wrap. apply Z.mod_pos_bound. reflexivity.
      - unfold wrap.
        rewrite Z.mod_mod_divide.
        + rewrite Nat2Z.inj_succ, Z.pow_succ_r by lia.
          apply Z.mod_divide; [lia |].
          apply Z.mod_divide in Hdiv; [| lia].
          destruct Hdiv as [k ->]. exists k. ring.
        + exists (2 ^ (64 - Z.of_nat (S j))).
          unfold SIZE_MOD. rewrite <- Z.pow_add_r by lia.
          f_equal. lia. }
    destruct n as [|n]; cbn [grow]; rewrite E; [reflexivity | apply Hnext].
Qed.

Lemma grow_fuel_exact c want :
  0 <= c < SIZE_MOD ->
  grow 64 c want = None -> forall n, grow n c want = None.
Proof.
  intros Hc. apply (grow_fuel_enough want 64 0 c); [reflexivity | exact Hc |].
  apply Z.mod_1_r.
Qed.

(** A successful [ensure_cap]: the node keeps everything but its
    buffer, which keeps its content as a prefix, covers the request and
    still has a 64-bit length. *)
Lemma ensure_cap_ok a want s s' nd :
  heap s !! a = Some nd -> cap nd < SIZE_MOD ->
  ensure_cap a want s = Ret 0 s' ->
  exists tail,
    s' = set_heap (<[a := set_data (data nd ++ tail) nd]> (heap s)) s /\
    want <= Z.of_nat (length (data nd ++ tail)) /\
    Z.of_nat (length (data nd ++ tail)) < SIZE_MOD.
Proof.
  intros Hnd Hcap. unfold ensure_cap. unfold_prims. cbn [mbind option_bind].
  rewrite Hnd. destruct (want <=? cap nd) eqn:E.
  - intros H. inversion H; subst. exists []. rewrite app_nil_r.
    apply Z.leb_le in E. unfold cap in *.
    split; [| split; [exact E | exact Hcap]].
    destruct s'. unfold set_heap. cbn in *. f_equal.
    symmetry. apply insert_id. rewrite Hnd. destruct nd. reflexivity.
  - apply Z.leb_gt in E.
    destruct (grow 64 _ want) as [newcap|] eqn:G; [| discriminate].
    destruct (negb (allocator s newcap)); [discriminate |].
    rewrite Hnd. intros H. inversion H; subst. clear H.
    exists (replicate (Z.to_nat (newcap - cap nd)) x00).
    split; [reflexivity |].
    apply grow_result in G as [Hw Hr].
    rewrite length_app, length_replicate. unfold cap in *.
    split; [lia |].
    destruct Hr as [-> | Hr]; [| lia].
    destruct (Z.of_nat (length (data nd)) =? 0) eqn:E0.
    + apply Z.eqb_eq in E0. unfold SIZE_MOD. lia.
    + lia.
Qed.

Lemma ensure_cap_value a want s s' r :
  ensure_cap a want s = Ret r s' -> r = 0 \/ r = -1.
Proof.
  unfold ensure_cap. unfold_prims. intros H. crunch; auto.
Qed.

(** What [memcpy_to] leaves in the buffer. *)
Lemma memcpy_to_read d off buf d' :
  memcpy_to d off buf = Some d' ->
  0 <= off /\
  off + Z.of_nat (length buf) <= Z.of_nat (length d) /\
  length d' = length d /\
  take (length buf) (drop (Z.to_nat off) d') = buf.
Proof.
  unfold memcpy_to.
  destruct (0 <=? off) eqn:E0; [| discriminate].
  destruct (off + Z.of_nat (length buf) <=? Z.of_nat (length d)) eqn:E;
    [| discriminate].
  apply Z.leb_le in E0, E. intros H. inversion H; subst. clear H.
  split; [exact E0 |]. split; [exact E |]. split.
  - rewrite !length_app, length_take, length_drop. lia.
  - rewrite drop_app_length'; [apply take_app_length |].
    rewrite length_take. lia.
Qed.

(** A successful [write_at]: only the node written changes; it keeps
    its shape and attributes, its buffer holds the bytes at the offset
    and its size covers them. *)
Lemma write_at_ok a off buf s s' nd :
  heap s !! a = Some nd -> cap nd < SIZE_MOD ->
  write_at a off buf s = Ret true s' ->
  exists nd',
    heap s' = <[a := nd']> (heap s) /\
    root s' = root s /\ cwd s' = cwd s /\ fd_table s' = fd_table s /\
    shape_eq nd nd' /\ attributes nd' = attributes nd /\
    0 <= off /\
    off + Z.of_nat (length buf) <= Z.of_nat (length (data nd')) /\
    take (length buf) (drop (Z.to_nat off) (data nd')) = buf /\
    off + Z.of_nat (length buf) <= size nd'.
Proof.
  intros Hnd Hcap. unfold write_at. intros H.
  apply bind_Ret in H as (r & s1 & He & H).
  destruct (ensure_cap_value _ _ _ _ _ He) as [-> | ->];
    [| unfold ret in H; cbn in H; inversion H].
  cbn [Z.ltb Z.compare] in H.
  destruct (ensure_cap_ok _ _ _ _ _ Hnd Hcap He) as (tail & -> & Hwant & Hfit).
  apply bind_Ret in H as (fn & s2 & Hd & H).
  apply deref_Ret in Hd as [-> (a' & Ha' & Hfn)]. inversion Ha'; subst a'.
  cbn [heap set_heap] in Hfn. rewrite lookup_insert_eq in Hfn.
  inversion Hfn; subst fn. clear Hfn Ha'. cbn [data set_data size] in H.
  destruct (memcpy_to (data nd ++ tail) off buf) as [d'|] eqn:Em;
    [| discriminate].
  destruct (memcpy_to_read _ _ _ _ Em) as (Hoff & Hbound & Hlen & Hread).
  assert (Hnowrap : wrap (off + Z.of_nat (length buf)) =
                    off + Z.of_nat (length buf)).
  { unfold wrap. apply Z.mod_small. lia. }
  rewrite Hnowrap in H.
  apply bind_Ret in H as (u1 & s3 & Hm1 & H).
  apply modify_Ret in Hm1 as (n1 & Hn1 & ->).
  cbn [heap set_heap] in Hn1. rewrite lookup_insert_eq in Hn1.
  inversion Hn1; subst n1. clear Hn1.
  apply bind_Ret in H as (u2 & s4 & Hm2 & H).
  apply bind_Ret in H as (now & s5 & Ht & H).
  apply time_Ret in Ht as [-> ->].
  apply bind_Ret in H as (u3 & s6 & Hm3 & H).
  unfold ret in H. inversion H; subst s6. clear H.
  apply modify_Ret in Hm3 as (n3 & Hn3 & ->).
  cbn [heap set_heap set_ticks] in Hn3.
  destruct (size nd <? off + Z.of_nat (length buf)) eqn:Es.
  - apply modify_Ret in Hm2 as (n2 & Hn2 & ->).
    cbn [heap set_heap] in Hn2. rewrite lookup_insert_eq in Hn2.
    inversion Hn2; subst n2. clear Hn2.
    cbn [heap set_heap] in Hn3. rewrite lookup_insert_eq in Hn3.
    inversion Hn3; subst n3. clear Hn3.
    eexists. cbn [heap set_heap set_ticks root cwd fd_table].
    split; [rewrite !insert_insert_eq; reflexivity |].
    cbn. rewrite Hlen. repeat split; try reflexivity; try lia; auto.
  - unfold ret in Hm2. inversion Hm2; subst s4. clear Hm2.
    cbn [heap set_heap] in Hn3. rewrite lookup_insert_eq in Hn3.
    inversion Hn3; subst n3. clear Hn3.
    eexists. cbn [heap set_heap set_ticks root cwd fd_table].
    split; [rewrite !insert_insert_eq; reflexivity |].
    apply Z.ltb_ge in Es.
    cbn. rewrite Hlen. repeat split; try reflexivity; try lia; auto.
Qed.

(** *** The capacities are 64-bit values in every reachable state *)

Lemma keeps_caps_ensure_cap a want : pres keeps_caps (ensure_cap a want).
Proof.
  intros s r s' H Hfit.
  destruct (ensure_cap_value _ _ _ _ _ H) as [-> | ->].
  - pose proof H as Hrun. unfold ensure_cap in H.
    apply bind_Ret in H as (fn & s1 & Hd & _).
    apply deref_Ret in Hd as [-> (a' & Ha' & Hfn)]. inversion Ha'; subst a'.
    destruct (ensure_cap_ok _ _ _ _ _ Hfn (Hfit _ _ Hfn) Hrun)
      as (tail & -> & _ & Hlen).
    apply (keeps_caps_update _ _ fn); [exact Hfn | | exact Hfit].
    intros _. exact Hlen.
  - apply ensure_cap_fails in H; [subst; exact Hfit | discriminate].
Qed.

Lemma keeps_caps_copy s a fn off buf d' :
  heap s !! a = Some fn -> memcpy_to (data fn) off buf = Some d' ->
  keeps_caps s (set_heap (<[a := set_data d' fn]> (heap s)) s).
Proof.
  intros Hfn Hcopy. apply (keeps_caps_update _ _ fn); [exact Hfn |].
  destruct (memcpy_to_read _ _ _ _ Hcopy) as (_ & _ & Hlen & _).
  unfold cap. cbn [data set_data]. rewrite Hlen. auto.
Qed.

Lemma keeps_caps_alloc_node n :
  cap n < SIZE_MOD -> pres keeps_caps (alloc_node n).
Proof.
  intros Hn s v s' H Hfit. unfold alloc_node in H. inversion H; subst.
  intros a nd. cbn [heap set_heap].
  destruct (decide (fresh (dom (heap s)) = a)) as [<- | Hne].
  - rewrite lookup_insert_eq. intros E. inversion E; subst. exact Hn.
  - rewrite lookup_insert_ne by exact Hne. apply Hfit.
Qed.

Lemma keeps_caps_node_new t nm par : pres keeps_caps (node_new t nm par).
Proof.
  unfold node_new. pres_auto. apply keeps_caps_alloc_node. reflexivity.
Qed.

Lemma keeps_caps_node_free n : pres keeps_caps (node_free n).
Proof.
  intros s v s' H Hfit. unfold node_free in H.
  destruct (node_free_heap _ _ _) as [h'|] eqn:E; inversion H; subst.
  intros a nd Hnd. cbn [heap set_heap] in Hnd.
  apply (Hfit a). eapply node_free_heap_sub; eauto.
Qed.

Lemma keeps_caps_mkdir_loop toks : forall cur,
  pres keeps_caps (mkdir_loop toks cur).
Proof.
  induction toks as [|tok rest IH]; intros cur; cbn [mkdir_loop];
    pres_auto;
    first [apply IH | apply keeps_caps_node_new
           | apply (pres_dir_add keeps_caps)].
Qed.

Lemma keeps_caps_modify a f :
  (forall n, cap (f n) = cap n) -> pres keeps_caps (modify a f).
Proof.
  intros Hf s v s' H. apply modify_Ret in H as (n & Hn & ->).
  apply (keeps_caps_update _ _ n); [exact Hn |]. rewrite Hf. auto.
Qed.

(** Before [fs_init] there is no node. *)
Lemma boot_caps_fit alloc clk : caps_fit (boot alloc clk).
Proof. intros a nd H. cbn in H. rewrite lookup_empty in H. discriminate. Qed.

(** Every call of the interface keeps the capacities 64-bit values. *)
Lemma exec_keeps_caps_fit c s r s' :
  caps_fit s -> exec c s = Ret r s' -> caps_fit s'.
Proof.
  intros Hfit H. revert Hfit. revert H. generalize s r s'.
  change (pres keeps_caps (exec c)).
  destruct c; cbn [exec].
  - unfold fs_init. pres_auto. apply keeps_caps_node_new.
  - unfold fs_destroy. pres_auto. apply keeps_caps_node_free.
  - apply (pres_fs_cd keeps_caps).
  - unfold mkdir_p. pres_auto. apply keeps_caps_mkdir_loop.
  - unfold rmdir_empty. pres_auto; apply keeps_caps_node_free.
  - apply (pres_ls_dir keeps_caps).
  - apply (pres_fs_search keeps_caps).
  - unfold create_file. pres_auto;
      first [apply keeps_caps_node_new | apply (pres_dir_add keeps_caps)
             | apply keeps_caps_node_free].
  - apply (pres_write_file keeps_caps keeps_caps_ensure_cap keeps_caps_copy).
  - pres_auto. apply (pres_read_file keeps_caps).
  - unfold rm_file. pres_auto. apply keeps_caps_node_free.
  - apply (pres_rename_file keeps_caps).
  - apply (pres_fs_open keeps_caps).
  - apply (pres_fs_close keeps_caps).
  - pres_auto. apply (pres_fs_read_fd keeps_caps).
  - apply (pres_fs_write_fd keeps_caps keeps_caps_ensure_cap keeps_caps_copy).
  - apply (pres_fs_seek keeps_caps).
  - pres_auto. apply (pres_get_file_info keeps_caps).
  - unfold set_file_attributes. pres_auto.
    apply keeps_caps_modify. intros n. reflexivity.
  - apply (pres_touch_file keeps_caps).
Qed.

Lemma caps_fit_b_true s : caps_fit_b s = true -> caps_fit s.
Proof.
  unfold caps_fit_b. intros H a nd Hnd.
  rewrite forallb_forall in H.
  specialize (H (a, nd)). cbn [snd] in H. apply Z.ltb_lt. apply H.
  apply list_elem_of_In. apply elem_of_map_to_list. exact Hnd.
Qed.

(** *** The capacities are multiples of 64 in every reachable state *)

Lemma grow_aligned fuel : forall c want n,
  grow fuel c want = Some n -> (64 | c) -> (64 | n).
Proof.
  induction fuel as [|fuel IH]; intros c want n H Hc; cbn [grow] in H;
    destruct (c <? want); try discriminate;
    try (inversion H; subst; exact Hc).
  apply IH in H; [exact H |]. unfold wrap.
  rewrite Z.mod_eq by (unfold SIZE_MOD; lia).
  apply Z.divide_sub_r; [apply Z.divide_mul_l; exact Hc |].
  apply Z.divide_mul_l. exists (2 ^ 58). reflexivity.
Qed.

Lemma keeps_aligned_update s a n n' :
  heap s !! a = Some n ->
  (cap n < SIZE_MOD /\ (64 | cap n) -> cap n' < SIZE_MOD /\ (64 | cap n')) ->
  keeps_aligned s (set_heap (<[a := n']> (heap s)) s).
Proof.
  intros Hn Hcap Hal b nd. cbn [heap set_heap].
  destruct (decide (a = b)) as [<- | Hne].
  - rewrite lookup_insert_eq. intros H. inversion H; subst.
    apply Hcap. apply (Hal a n Hn).
  - rewrite lookup_insert_ne by exact Hne. apply Hal.
Qed.

#[local] Instance keeps_aligned_frame : FrameRel keeps_aligned.
Proof.
  split.
  - intros s s' H Hal a nd. rewrite H. apply Hal.
  - intros s1 s2 s3 H12 H23 Hal. auto.
  - intros s a n n' Hn _ Hcap. apply (keeps_aligned_update _ _ n); [exact Hn |].
    rewrite Hcap. auto.
Qed.

Lemma keeps_aligned_ensure_cap a want : pres keeps_aligned (ensure_cap a want).
Proof.
  intros s r s' H Hal. unfold ensure_cap in H.
  apply bind_Ret in H as (fn & s1 & Hd & H).
  apply deref_Ret in Hd as [-> (a' & Ha' & Hfn)]. inversion Ha'; subst a'.
  destruct (want <=? cap fn) eqn:E; [inversion H; subst; exact Hal |].
  apply Z.leb_gt in E.
  destruct (grow 64 _ want) as [newcap|] eqn:G; [| discriminate].
  apply bind_Ret in H as (s0 & s1 & Hg & H). inversion Hg; subst s0 s1.
  destruct (negb (allocator s newcap)); [inversion H; subst; exact Hal |].
  apply bind_Ret in H as (u & s1 & Hm & H). inversion H; subst s1.
  apply modify_Ret in Hm as (n & Hn & ->).
  assert (n = fn) as -> by congruence.
  apply (keeps_aligned_update _ _ fn); [exact Hn | | exact Hal].
  intros [Hfit Hdiv].
  assert (Hstart : (64 | (if cap fn =? 0 then 64 else cap fn)))
    by (destruct (cap fn =? 0); [exists 1; reflexivity | exact Hdiv]).
  pose proof (grow_aligned _ _ _ _ G Hstart) as Hnew.
  apply grow_result in G as [Hw Hr].
  assert (Hcap : cap (set_data (data fn ++
                   replicate (Z.to_nat (newcap - cap fn)) x00) fn) = newcap).
  { unfold cap in *. cbn [data set_data].
    rewrite length_app, length_replicate. lia. }
  rewrite Hcap. split; [| exact Hnew].
  destruct Hr as [-> | Hr]; [| lia].
  destruct (cap fn =? 0); [unfold SIZE_MOD; lia | exact Hfit].
Qed.

Lemma keeps_aligned_copy s a fn off buf d' :
  heap s !! a = Some fn -> memcpy_to (data fn) off buf = Some d' ->
  keeps_aligned s (set_heap (<[a := set_data d' fn]> (heap s)) s).
Proof.
  intros Hfn Hcopy. apply (keeps_aligned_update _ _ fn); [exact Hfn |].
  destruct (memcpy_to_read _ _ _ _ Hcopy) as (_ & _ & Hlen & _).
  unfold cap. cbn [data set_data]. rewrite Hlen. auto.
Qed.

Lemma keeps_aligned_node_new t nm par :
  pres keeps_aligned (node_new t nm par).
Proof.
  unfold node_new. pres_auto.
  intros s v s' H Hal. unfold alloc_node in H. inversion H; subst.
  intros a nd. cbn [heap set_heap].
  destruct (decide (fresh (dom (heap s)) = a)) as [<- | Hne].
  - rewrite lookup_insert_eq. intros E. inversion E; subst.
    split; [reflexivity | exists 0; reflexivity].
  - rewrite lookup_insert_ne by exact Hne. apply Hal.
Qed.

Lemma keeps_aligned_node_free n : pres keeps_aligned (node_free n).
Proof.
  intros s v s' H Hal. unfold node_free in H.
  destruct (node_free_heap _ _ _) as [h'|] eqn:E; inversion H; subst.
  intros a nd Hnd. cbn [heap set_heap] in Hnd.
  apply (Hal a). eapply node_free_heap_sub; eauto.
Qed.

Lemma keeps_aligned_mkdir_loop toks : forall cur,
  pres keeps_aligned (mkdir_loop toks cur).
Proof.
  induction toks as [|tok rest IH]; intros cur; cbn [mkdir_loop];
    pres_auto;
    first [apply IH | apply keeps_aligned_node_new
           | apply (pres_dir_add keeps_aligned)].
Qed.

Lemma keeps_aligned_modify a f :
  (forall n, cap (f n) = cap n) -> pres keeps_aligned (modify a f).
Proof.
  intros Hf s v s' H. apply modify_Ret in H as (n & Hn & ->).
  apply (keeps_aligned_update _ _ n); [exact Hn |]. rewrite Hf. auto.
Qed.

(** Before [fs_init] there is no node. *)
Lemma boot_caps_aligned alloc clk : caps_aligned (boot alloc clk).
Proof. intros a nd H. cbn in H. rewrite lookup_empty in H. discriminate. Qed.

(** Every call of the interface keeps the capacities multiples of 64
    that a [size_t] holds. *)
Lemma exec_keeps_caps_aligned c s r s' :
  caps_aligned s -> exec c s = Ret r s' -> caps_aligned s'.
Proof.
  intros Hal H. revert Hal. revert H. generalize s r s'.
  change (pres keeps_aligned (exec c)).
  destruct c; cbn [exec].
  - unfold fs_init. pres_auto. apply keeps_aligned_node_new.
  - unfold fs_destroy. pres_auto. apply keeps_aligned_node_free.
  - apply (pres_fs_cd keeps_aligned).
  - unfold mkdir_p. pres_auto. apply keeps_aligned_mkdir_loop.
  - unfold rmdir_empty. pres_auto; apply keeps_aligned_node_free.
  - apply (pres_ls_dir keeps_aligned).
  - apply (pres_fs_search keeps_aligned).
  - unfold create_file. pres_auto;
      first [apply keeps_aligned_node_new | apply (pres_dir_add keeps_aligned)
             | apply keeps_aligned_node_free].
  - apply (pres_write_file keeps_aligned keeps_aligned_ensure_cap
                           keeps_aligned_copy).
  - pres_auto. apply (pres_read_file keeps_aligned).
  - unfold rm_file. pres_auto. apply keeps_aligned_node_free.
  - apply (pres_rename_file keeps_aligned).
  - apply (pres_fs_open keeps_aligned).
  - apply (pres_fs_close keeps_aligned).
  - pres_auto. apply (pres_fs_read_fd keeps_aligned).
  - apply (pres_fs_write_fd keeps_aligned keeps_aligned_ensure_cap
                            keeps_aligned_copy).
  - apply (pres_fs_seek keeps_aligned).
  - pres_auto. apply (pres_get_file_info keeps_aligned).
  - unfold set_file_attributes. pres_auto.
    apply keeps_aligned_modify. intros n. reflexivity.
  - apply (pres_touch_file keeps_aligned).
Qed.

(** The largest capacity: no buffer has [SIZE_MOD - 1] bytes, the
    count that the cast to [ssize_t] turns into the error value. *)
Lemma aligned_cap_bound s a nd :
  caps_aligned s -> heap s !! a = Some nd -> cap nd <= SIZE_MOD - 64.
Proof.
  intros Hal Hnd. destruct (Hal a nd Hnd) as [Hfit [k Hk]].
  unfold SIZE_MOD in *. lia.
Qed.

Lemma to_signed_count n :
  0 <= n <= SIZE_MOD - 64 -> to_signed n <> -1.
Proof.
  unfold to_signed, SIZE_MOD, SSIZE_MOD. intros Hn.
  destruct (n <? 2 ^ 63) eqn:E;
    [apply Z.ltb_lt in E | apply Z.ltb_ge in E]; lia.
Qed.

(** *** The calls that transfer bytes *)

Lemma write_file_fails path off buf s s' :
  caps_aligned s ->
  write_file path off buf s = Ret (-1) s' -> same_fs s s'.
Proof.
  intros Hal. unfold write_file.
  intros H. apply bind_Ret in H as ([f w] & s1 & Hw & H).
  unfold walk in Hw. apply lift_Ret in Hw as [-> Hw].
  destruct f as [a|]; [| unfold ret in H; inversion H; apply same_fs_refl].
  apply bind_Ret in H as (fn & s2 & Hd & H).
  apply deref_Ret in Hd as [-> (a' & Ha' & Hfn)]. inversion Ha'; subst a'.
  destruct (negb (is_file fn));
    [unfold ret in H; inversion H; apply same_fs_refl |].
  destruct (is_readonly fn);
    [unfold ret in H; inversion H; apply same_fs_refl |].
  apply bind_Ret in H as (ok & s3 & Hwr & H).
  destruct ok; unfold ret in H; inversion H; subst.
  - exfalso.
    pose proof (pres_write_at keeps_aligned keeps_aligned_ensure_cap
                  keeps_aligned_copy _ _ _ _ _ _ Hwr Hal) as Hal'.
    destruct (write_at_ok _ _ _ _ _ _ Hfn (proj1 (Hal _ _ Hfn)) Hwr)
      as (nd' & Hheap & _ & _ & _ & _ & _ & Hoff & Hbound & _).
    assert (Hnd' : heap s' !! a = Some nd')
      by (rewrite Hheap; apply lookup_insert_eq).
    pose proof (aligned_cap_bound _ _ _ Hal' Hnd') as Hcap. unfold cap in Hcap.
    match goal with G : to_signed _ = -1 |- _ =>
      revert G; apply to_signed_count; lia
    end.
  - apply write_at_fails in Hwr. subst. apply same_fs_refl.
Qed.

Lemma read_file_fails path off len s s' bytes :
  caps_aligned s -> 0 <= len ->
  read_file path off len s = Ret (-1, bytes) s' -> same_fs s s'.
Proof.
  intros Hal Hlen. unfold read_file. intros H.
  apply bind_Ret in H as ([f w] & s1 & Hw & H).
  unfold walk in Hw. apply lift_Ret in Hw as [-> Hw].
  destruct f as [a|]; [| unfold ret in H; inversion H; apply same_fs_refl].
  apply bind_Ret in H as (fn & s2 & Hd & H).
  apply deref_Ret in Hd as [-> (a' & Ha' & Hfn)]. inversion Ha'; subst a'.
  destruct (negb (is_file fn));
    [unfold ret in H; inversion H; apply same_fs_refl |].
  destruct (size fn <=? off) eqn:Esz; [unfold ret in H; inversion H |].
  apply Z.leb_gt in Esz. exfalso.
  pose proof (aligned_cap_bound _ _ _ Hal Hfn) as Hcap. unfold cap in Hcap.
  unfold memcpy_from in H.
  destruct (0 <=? off) eqn:E0; [| discriminate H].
  destruct (off + _ <=? _) eqn:E1; [| discriminate H].
  apply Z.leb_le in E0, E1. cbn [andb] in H.
  apply bind_Ret in H as (now & s3 & _ & H).
  apply bind_Ret in H as (u & s4 & _ & H).
  unfold ret in H. inversion H as [[Hr Hb Hs]].
  revert Hr E1. destruct (len <? size fn - off) eqn:E;
    [apply Z.ltb_lt in E | apply Z.ltb_ge in E]; intros Hr E1;
    apply to_signed_count in Hr; auto; lia.
Qed.

Lemma fs_read_fd_fails fd len s s' bytes :
  caps_aligned s -> 0 <= len ->
  fs_read_fd fd len s = Ret (-1, bytes) s' -> same_fs s s'.
Proof.
  intros Hal Hlen. unfold fs_read_fd. intros H.
  apply bind_Ret in H as (o & s1 & Hl & H).
  assert (s1 = s) as ->.
  { revert Hl. unfold_prims. intros Hl. crunch; reflexivity. }
  destruct o as [[i f]|]; [| unfold ret in H; inversion H; apply same_fs_refl].
  destruct (_ && _); [unfold ret in H; inversion H; apply same_fs_refl |].
  destruct (node f) as [a|];
    [| unfold ret in H; inversion H; apply same_fs_refl].
  apply bind_Ret in H as (fn & s2 & Hd & H).
  apply deref_Ret in Hd as [-> (a' & Ha' & Hfn)]. inversion Ha'; subst a'.
  destruct (negb (is_file fn));
    [unfold ret in H; inversion H; apply same_fs_refl |].
  destruct (size fn <=? offset f) eqn:Esz; [unfold ret in H; inversion H |].
  apply Z.leb_gt in Esz. exfalso.
  pose proof (aligned_cap_bound _ _ _ Hal Hfn) as Hcap. unfold cap in Hcap.
  cbv zeta in H. unfold memcpy_from in H.
  destruct (0 <=? offset f) eqn:E0; [| discriminate H].
  destruct (offset f + _ <=? _) eqn:E1; [| discriminate H].
  apply Z.leb_le in E0, E1. cbn [andb] in H.
  apply bind_Ret in H as (u0 & s3 & _ & H).
  apply bind_Ret in H as (now & s4 & _ & H).
  apply bind_Ret in H as (u & s5 & _ & H).
  unfold ret in H. inversion H as [[Hr Hb Hs]].
  revert Hr E1. destruct (len <? size fn - offset f) eqn:E;
    [apply Z.ltb_lt in E | apply Z.ltb_ge in E]; intros Hr E1;
    apply to_signed_count in Hr; auto; lia.
Qed.

Lemma fs_write_fd_fails fd buf s s' :
  caps_aligned s ->
  fs_write_fd fd buf s = Ret (-1) s' -> same_fs s s'.
Proof.
  intros Hal. unfold fs_write_fd. intros H.
  apply bind_Ret in H as (o & s1 & Hl & H).
  assert (s1 = s) as ->.
  { revert Hl. unfold_prims. intros Hl. crunch; reflexivity. }
  destruct o as [[i f]|]; [| unfold ret in H; inversion H; apply same_fs_refl].
  destruct (_ && _); [unfold ret in H; inversion H; apply same_fs_refl |].
  destruct (node f) as [a|];
    [| unfold ret in H; inversion H; apply same_fs_refl].
  apply bind_Ret in H as (nd & s2 & Hd & H).
  apply deref_Ret in Hd as [-> _].
  destruct (negb (is_file nd));
    [unfold ret in H; inversion H; apply same_fs_refl |].
  destruct (is_readonly nd);
    [unfold ret in H; inversion H; apply same_fs_refl |].
  cbv zeta in H.
  apply bind_Ret in H as (r & s3 & He & H).
  destruct (r <? 0) eqn:Er.
  - unfold ret in H. inversion H; subst.
    apply ensure_cap_fails in He; [subst; apply same_fs_refl |].
    apply Z.ltb_lt in Er. lia.
  - exfalso.
    pose proof (keeps_aligned_ensure_cap _ _ _ _ _ He Hal) as Hal3.
    apply bind_Ret in H as (fn & s4 & Hd & H).
    apply deref_Ret in Hd as [-> (a' & Ha' & Hfn)]. inversion Ha'; subst a'.
    pose proof (aligned_cap_bound _ _ _ Hal3 Hfn) as Hcap. unfold cap in Hcap.
    destruct (memcpy_to (data fn) (offset f) buf) as [d'|] eqn:Em;
      [| discriminate H].
    destruct (memcpy_to_read _ _ _ _ Em) as (Hoff & Hbound & _).
    apply bind_Ret in H as (u1 & s5 & _ & H).
    apply bind_Ret in H as (u2 & s6 & _ & H).
    apply bind_Ret in H as (u3 & s7 & _ & H).
    apply bind_Ret in H as (now & s8 & _ & H).
    apply bind_Ret in H as (u4 & s9 & _ & H).
    unfold ret in H. inversion H as [[Hr Hs]].
    apply to_signed_count in Hr; [exact Hr | lia].
Qed.

(** C2, amended: for every call other than [rename_file] and
    [mkdir_p], if the call returns the error value then the tree
    (structure, names, contents, sizes, attributes and timestamps),
    the root, the current directory and the descriptor table are what
    they were before the call. [mkdir_p] is a second exception: it
    creates and stamps directories segment by segment and keeps them
    when a later segment fails. The state is one whose capacities are
    multiples of 64 that a [size_t] holds, as they are in every state
    that the calls of the interface can reach ([boot_caps_aligned],
    [exec_keeps_caps_aligned], [reachable_caps_aligned]), and the
    byte count of a read is a [size_t]; no count is excluded. *)
Theorem failed_call_leaves_state c s s' :
  (forall o n, c <> Rename_file o n) ->
  (forall p, c <> Mkdir_p p) ->
  caps_aligned s ->
  count_in_range c ->
  exec c s = Ret (-1) s' ->
  same_fs s s'.
Proof.
  intros Hren Hmk Hal Hfit H. destruct c; cbn [exec count_in_range] in *.
  - exfalso. revert H. unfold fs_init. unfold_prims. intros H. crunch.
  - exfalso. revert H. unfold fs_destroy, node_free. unfold_prims.
    intros H. crunch.
  - eapply fs_cd_fails; eauto.
  - exfalso. eapply Hmk; eauto.
  - eapply rmdir_empty_fails; eauto.
  - eapply ls_dir_fails; eauto.
  - eapply fs_search_fails; eauto.
  - eapply create_file_fails; eauto.
  - eapply write_file_fails; eauto.
  - apply bind_Ret in H as ([r bytes] & s1 & Hr & H).
    unfold ret in H. inversion H; subst. cbn [fst] in *.
    eapply read_file_fails; eauto. lia.
  - eapply rm_file_fails; eauto.
  - exfalso. eapply Hren; eauto.
  - eapply fs_open_fails; eauto.
  - eapply fs_close_fails; eauto.
  - apply bind_Ret in H as ([r bytes] & s1 & Hr & H).
    unfold ret in H. inversion H; subst. cbn [fst] in *.
    eapply fs_read_fd_fails; eauto. lia.
  - eapply fs_write_fd_fails; eauto.
  - eapply fs_seek_fails; eauto.
  - apply bind_Ret in H as ([r info] & s1 & Hr & H).
    unfold ret in H. inversion H; subst. cbn [fst] in *.
    eapply get_file_info_fails; eauto.
  - eapply set_file_attributes_fails; eauto.
  - eapply touch_file_fails; eauto.
Qed.

Lemma caps_aligned_with_file : caps_aligned with_file.
Proof.
  apply (exec_keeps_caps_aligned (Create_file "/a/b/c/f.txt") with_dirs 0);
    [| vm_compute; reflexivity].
  apply (exec_keeps_caps_aligned (Mkdir_p "/a/b/c") fresh_fs 0);
    [| vm_compute; reflexivity].
  apply (exec_keeps_caps_aligned Fs_init (boot always_grants wall_clock) 0);
    [apply boot_caps_aligned | vm_compute; reflexivity].
Qed.

Lemma failed_call_leaves_state_witness :
  exec (Fs_read_fd 7 (SIZE_MOD - 1)) with_file = Ret (-1) with_file /\
  same_fs with_file with_file.
Proof.
  assert (H : exec (Fs_read_fd 7 (SIZE_MOD - 1)) with_file
              = Ret (-1) with_file)
    by (vm_compute; reflexivity).
  split; [exact H |].
  apply (failed_call_leaves_state (Fs_read_fd 7 (SIZE_MOD - 1)) with_file
                                  with_file);
    [discriminate | discriminate | apply caps_aligned_with_file
     | cbn [count_in_range]; unfold SIZE_MOD; lia | exact H].
Defined.

(** C1. On a state whose capacity fields hold 64-bit values, as they
    do in every state that the calls of the interface can reach, for
    every path, every offset and every byte sequence: if [write_file]
    returns the length of the sequence, then [read_file] on the same
    path, at the same offset and for the same length, called on the
    state that the write has left, returns that length and places
    exactly those bytes in the buffer. *)
Theorem read_after_write s path off buf s' :
  caps_fit s ->
  write_file path off buf s = Ret (Z.of_nat (length buf)) s' ->
  exists s'',
    read_file path off (Z.of_nat (length buf)) s' =
      Ret (Z.of_nat (length buf), buf) s''.
Proof.
  intros Hcaps. unfold write_file. intros H.
  apply bind_Ret in H as ([f w] & s1 & Hw & H).
  unfold walk in Hw. apply lift_Ret in Hw as [-> Hw].
  destruct f as [a|]; [| unfold ret in H; inversion H; lia].
  apply bind_Ret in H as (nd & s2 & Hd & H).
  apply deref_Ret in Hd as [-> (a' & Ha' & Hnd)]. inversion Ha'; subst a'.
  destruct (negb (is_file nd)) eqn:Efile; [unfold ret in H; inversion H; lia |].
  destruct (is_readonly nd); [unfold ret in H; inversion H; lia |].
  apply bind_Ret in H as (ok & s3 & Hwr & H).
  destruct ok; [| unfold ret in H; inversion H; lia].
  unfold ret in H. inversion H as [[Hret Hs3]]. subst s3. clear H.
  rewrite ?Hret.
  destruct (write_at_ok _ _ _ _ _ _ Hnd (Hcaps _ _ Hnd) Hwr)
    as (nd' & Hheap & Hroot & Hcwd & _ & Hshape & _ & Hoff & Hbound & Hread
        & Hsize).
  assert (Hw' : walk_from s' (cwd s') path false = Some (Some a, w)).
  { unfold walk_from in *. rewrite Hcwd.
    assert (start_node s' (cwd s) path = start_node s (cwd s) path) as ->
      by (unfold start_node; rewrite Hroot; reflexivity).
    rewrite <- (walk_loop_shape (heap s) (heap s')); [exact Hw |].
    rewrite Hheap. apply (same_shape_insert _ _ nd); assumption. }
  assert (Hnd' : heap s' !! a = Some nd')
    by (rewrite Hheap; apply lookup_insert_eq).
  assert (Hfile' : negb (is_file nd') = false).
  { unfold is_file in *. destruct Hshape as (<- & _). exact Efile. }
  unfold read_file. unfold_prims. rewrite Hw'.
  cbn [mbind option_bind]. rewrite Hnd', Hfile'.
  destruct (size nd' <=? off) eqn:Eend.
  - apply Z.leb_le in Eend.
    assert (length buf = 0%nat) as Hz by lia.
    destruct buf; [| discriminate]. eexists. reflexivity.
  - apply Z.leb_gt in Eend.
    assert ((if Z.of_nat (length buf) <? size nd' - off
             then Z.of_nat (length buf) else size nd' - off) =
            Z.of_nat (length buf)) as ->.
    { destruct (_ <? _) eqn:E; [reflexivity |]. apply Z.ltb_ge in E. lia. }
    unfold memcpy_from.
    replace (0 <=? off) with true by (symmetry; apply Z.leb_le; lia).
    replace (off + Z.of_nat (length buf) <=? Z.of_nat (length (data nd')))
      with true by (symmetry; apply Z.leb_le; lia).
    cbn [andb].
    rewrite Nat2Z.id, Hread. cbn [heap set_ticks].
    rewrite Hnd', Hret. eexists. reflexivity.
Qed.

Lemma read_after_write_witness :
  exists s'',
    read_file "/a/b/c/f.txt" 0 (Z.of_nat (length hello)) with_data =
      Ret (Z.of_nat (length hello), hello) s''.
Proof.
  apply (read_after_write with_file "/a/b/c/f.txt" 0 hello with_data).
  - apply caps_fit_b_true. vm_compute. reflexivity.
  - vm_compute. reflexivity.
Defined.

(** * Further properties of the interface *)

(** ** Separators of a path *)

Lemma app_String c p q : String c p +:+ q = String c (p +:+ q).
Proof. reflexivity. Qed.

Lemma app_empty q : EmptyString +:+ q = q.
Proof. reflexivity. Qed.

Lemma tokens_from_trailing_slash p : forall tok,
  tokens_from (p +:+ String slash EmptyString) tok = tokens_from p tok.
Proof.
  induction p as [|c p IH]; intros tok;
    rewrite ?app_String, ?app_empty; cbn [tokens_from].
  - rewrite Ascii.eqb_refl. destruct tok; reflexivity.
  - destruct (Ascii.eqb c slash).
    + destruct tok; rewrite IH; reflexivity.
    + apply IH.
Qed.

Lemma tokens_from_repeated_slash p q : forall tok,
  tokens_from (p +:+ String slash (String slash q)) tok =
  tokens_from (p +:+ String slash q) tok.
Proof.
  induction p as [|c p IH]; intros tok;
    rewrite ?app_String, ?app_empty; cbn [tokens_from].
  - rewrite Ascii.eqb_refl. destruct tok; reflexivity.
  - destruct (Ascii.eqb c slash).
    + destruct tok; rewrite IH; reflexivity.
    + apply IH.
Qed.

Lemma is_absolute_app p q :
  p <> EmptyString -> is_absolute (p +:+ q) = is_absolute p.
Proof. destruct p; [congruence | rewrite app_String; reflexivity]. Qed.

Lemma path_buffer_short p : (strlen p <= 1023)%nat -> path_buffer p = p.
Proof. apply str_take_all. Qed.

Lemma strlen_app p q : strlen (p +:+ q) = (strlen p + strlen q)%nat.
Proof.
  unfold strlen. induction p as [|c p IH]; rewrite ?app_String, ?app_empty;
    cbn [String.length]; [reflexivity | rewrite IH; reflexivity].
Qed.

(** X1. A slash at the end of a path and a slash that follows a slash
    change nothing in the resolution: for paths that fit the buffer of
    1024 bytes, [p/] resolves as [p] does (for [p] not empty) and
    [p//q] as [p/q] does. *)
Theorem walk_from_extra_slashes s start p q want_parent :
  ((strlen p < 1023)%nat -> p <> EmptyString ->
   walk_from s start (p +:+ String slash EmptyString) want_parent =
   walk_from s start p want_parent) /\
  ((strlen p + strlen q + 2 <= 1023)%nat ->
   walk_from s start (p +:+ String slash (String slash q)) want_parent =
   walk_from s start (p +:+ String slash q) want_parent).
Proof.
  split.
  - intros Hlen Hne. unfold walk_from, start_node.
    rewrite is_absolute_app by exact Hne.
    rewrite !path_buffer_short.
    + unfold tokens. rewrite tokens_from_trailing_slash. reflexivity.
    + lia.
    + rewrite strlen_app. change (strlen (String slash EmptyString)) with 1%nat.
      lia.
  - intros Hlen. unfold walk_from, start_node.
    assert (is_absolute (p +:+ String slash (String slash q)) =
            is_absolute (p +:+ String slash q)) as ->.
    { destruct p; rewrite ?app_String, ?app_empty; reflexivity. }
    rewrite !path_buffer_short.
    + unfold tokens. rewrite tokens_from_repeated_slash. reflexivity.
    + rewrite strlen_app. change (strlen (String slash q)) with (S (strlen q)).
      lia.
    + rewrite strlen_app.
      change (strlen (String slash (String slash q))) with (S (S (strlen q))).
      lia.
Qed.

Lemma walk_from_extra_slashes_witness :
  walk_from with_data NULL "/a/b/" false = walk_from with_data NULL "/a/b" false /\
  walk_from with_data NULL "/a//b/c" true = walk_from with_data NULL "/a/b/c" true.
Proof.
  split.
  - destruct (walk_from_extra_slashes with_data NULL "/a/b" "" false)
      as [Hend _].
    apply Hend; [vm_compute; lia | discriminate].
  - destruct (walk_from_extra_slashes with_data NULL "/a" "b/c" true)
      as [_ Hrep].
    apply Hrep. vm_compute. lia.
Defined.

(** ** The attribute bitset in words *)

Lemma format_attributes_table :
  forallb format_attributes_agrees (seq 0 256) = true.
Proof. vm_compute. reflexivity. Qed.

(** X2. For every attribute byte, [format_attributes] returns [none]
    for the empty bitset and otherwise the names of the flags that are
    set among hidden, readonly, system and archive, in that order and
    separated by commas (the empty string when only other bits are
    set). The text has at most 30 bytes, so that the 32-byte buffer
    never cuts it. *)
Theorem format_attributes_names attrs :
  0 <= attrs < 256 ->
  format_attributes attrs =
    (if attrs =? 0 then "none"%string
     else String.concat "," (flag_names attrs)) /\
  (strlen (format_attributes attrs) <= 30)%nat.
Proof.
  intros Hrange.
  pose proof format_attributes_table as Htable.
  rewrite forallb_forall in Htable.
  specialize (Htable (Z.to_nat attrs)).
  assert (In (Z.to_nat attrs) (seq 0 256)) as Hin.
  { apply in_seq. lia. }
  apply Htable in Hin. unfold format_attributes_agrees in Hin.
  rewrite Z2Nat.id in Hin by lia.
  apply andb_true_iff in Hin as [Heq Hlen].
  apply String.eqb_eq in Heq. apply Nat.leb_le in Hlen.
  split; assumption.
Qed.

Lemma format_attributes_names_witness :
  format_attributes 10 =
    (if 10 =? 0 then "none"%string
     else String.concat "," (flag_names 10)) /\
  (strlen (format_attributes 10) <= 30)%nat.
Proof. apply (format_attributes_names 10). lia. Defined.

(** ** The path of a node *)

Lemma str_take_le n s : (strlen (str_take n s) <= strlen s)%nat.
Proof.
  revert s. induction n as [|n IH]; intros s.
  - change (str_take 0 s) with EmptyString.
    change (strlen EmptyString) with 0%nat. lia.
  - destruct s as [|c s].
    + change (str_take (S n) EmptyString) with EmptyString. lia.
    + change (str_take (S n) (String c s)) with (String c (str_take n s)).
      change (strlen (String c ?x)) with (S (strlen x)).
      specialize (IH s). lia.
Qed.

Lemma join_segments_bound limit : forall names acc,
  (strlen acc <= limit)%nat ->
  (strlen (join_segments limit acc names) <= limit)%nat.
Proof.
  induction names as [|nm rest IH]; intros acc Hacc; cbn [join_segments];
    [exact Hacc |].
  destruct (strlen acc <? limit)%nat eqn:Eroom; [| exact Hacc].
  apply Nat.ltb_lt in Eroom. apply IH.
  set (len := if (limit <=? strlen acc + strlen nm)%nat
              then (limit - strlen acc)%nat else strlen nm).
  assert (strlen (acc +:+ str_take len nm) <= limit)%nat as Hcopy.
  { rewrite strlen_app. pose proof (str_take_length len nm) as H1.
    pose proof (str_take_le len nm) as H2. subst len.
    destruct (limit <=? strlen acc + strlen nm)%nat eqn:E.
    - lia.
    - apply Nat.leb_gt in E. lia. }
  destruct rest as [|nm' rest']; [exact Hcopy |].
  destruct (strlen (acc +:+ str_take len nm) <? limit)%nat eqn:E;
    [| exact Hcopy].
  apply Nat.ltb_lt in E. rewrite strlen_app.
  change (strlen (String slash EmptyString)) with 1%nat. lia.
Qed.

Lemma concat_cons sep x y ys :
  String.concat sep (x :: y :: ys) = x +:+ sep +:+ String.concat sep (y :: ys).
Proof. reflexivity. Qed.

Lemma string_app_assoc a b c : (a +:+ b) +:+ c = a +:+ (b +:+ c).
Proof.
  induction a as [|x a IH]; rewrite ?app_String, ?app_empty;
    [reflexivity | rewrite IH; reflexivity].
Qed.

Lemma string_app_empty_r a : a +:+ EmptyString = a.
Proof.
  induction a as [|x a IH]; rewrite ?app_String, ?app_empty;
    [reflexivity | rewrite IH; reflexivity].
Qed.

Lemma join_segments_exact limit : forall names acc,
  (strlen acc + strlen (String.concat (String slash EmptyString) names)
     <= limit)%nat ->
  join_segments limit acc names =
    acc +:+ String.concat (String slash EmptyString) names.
Proof.
  induction names as [|nm rest IH]; intros acc Hfit.
  - cbn. rewrite string_app_empty_r. reflexivity.
  - cbn [join_segments].
    destruct rest as [|nm' rest'].
    + cbn [String.concat] in *.
      destruct (strlen acc <? limit)%nat eqn:Eroom.
      * assert ((if (limit <=? strlen acc + strlen nm)%nat
                 then (limit - strlen acc)%nat else strlen nm) = strlen nm)
          as ->.
        { destruct (limit <=? _)%nat eqn:E; [| reflexivity].
          apply Nat.leb_le in E. lia. }
        rewrite str_take_all by lia. reflexivity.
      * apply Nat.ltb_ge in Eroom.
        assert (strlen nm = 0%nat) as Hz by lia.
        destruct nm; [| discriminate Hz].
        rewrite string_app_empty_r. reflexivity.
    + rewrite concat_cons in *. rewrite !strlen_app in Hfit.
      change (strlen (String slash EmptyString)) with 1%nat in Hfit.
      destruct (strlen acc <? limit)%nat eqn:Eroom;
        [| apply Nat.ltb_ge in Eroom; lia].
      assert ((if (limit <=? strlen acc + strlen nm)%nat
               then (limit - strlen acc)%nat else strlen nm) = strlen nm)
        as ->.
      { destruct (limit <=? _)%nat eqn:E; [| reflexivity].
        apply Nat.leb_le in E. lia. }
      rewrite str_take_all by lia.
      destruct (strlen (acc +:+ nm) <? limit)%nat eqn:Eslash.
      * rewrite IH.
        -- rewrite !string_app_assoc. reflexivity.
        -- rewrite !strlen_app.
           change (strlen (String slash EmptyString)) with 1%nat. lia.
      * apply Nat.ltb_ge in Eslash. rewrite strlen_app in Eslash. lia.
Qed.

(** X3. [node_get_path] never fills more than the buffer it is given:
    what it writes is shorter than [bufsize], the terminator included.
    For a node other than the root whose names up to the root (at most
    64 of them), joined by slashes behind a leading slash, fit the
    buffer, it writes exactly that path. *)
Theorem node_get_path_fits s n bufsize :
  (forall p, node_get_path s n bufsize = Some (Some p) ->
             (strlen p < bufsize)%nat) /\
  (forall a segs,
     n = Some a -> root s <> Some a ->
     segments_up (heap s) (root s) 64 n = Some segs ->
     (strlen (path_of_segments (rev segs)) < bufsize)%nat ->
     node_get_path s n bufsize = Some (Some (path_of_segments (rev segs)))).
Proof.
  split.
  - intros p H. unfold node_get_path in H.
    destruct n as [a|]; [| discriminate].
    destruct (bufsize =? 0)%nat eqn:Ez; [discriminate |].
    apply Nat.eqb_neq in Ez.
    destruct (ptr_eqb (Some a) (root s)).
    + inversion H; subst. destruct (1 <? bufsize)%nat eqn:E1.
      * apply Nat.ltb_lt in E1. exact E1.
      * change (strlen EmptyString) with 0%nat. lia.
    + destruct (segments_up (heap s) (root s) 64 (Some a)) as [segs|];
        [| discriminate].
      cbn [mbind option_bind] in H. inversion H; subst.
      assert (forall acc, (strlen acc <= bufsize - 1)%nat ->
                (strlen (join_segments (bufsize - 1) acc (rev segs))
                   < bufsize)%nat) as Hb.
      { intros acc Hacc.
        pose proof (join_segments_bound (bufsize - 1) (rev segs) acc Hacc).
        lia. }
      apply Hb. destruct (0 <? bufsize - 1)%nat eqn:E0.
      * apply Nat.ltb_lt in E0.
        change (strlen (String slash EmptyString)) with 1%nat. lia.
      * change (strlen EmptyString) with 0%nat. lia.
  - intros a segs -> Hroot Hsegs Hfit. unfold node_get_path.
    assert ((bufsize =? 0)%nat = false) as ->.
    { apply Nat.eqb_neq. lia. }
    assert (ptr_eqb (Some a) (root s) = false) as ->.
    { apply ptr_eqb_false. congruence. }
    rewrite Hsegs. cbn [mbind option_bind].
    unfold path_of_segments in *.
    change (strlen (String slash ?x)) with (S (strlen x)) in Hfit.
    assert ((0 <? bufsize - 1)%nat = true) as ->.
    { apply Nat.ltb_lt. lia. }
    rewrite join_segments_exact.
    + reflexivity.
    + change (strlen (String slash EmptyString)) with 1%nat. lia.
Qed.

Lemma node_get_path_fits_witness :
  node_get_path with_data (Some 5%positive) 1024 = Some (Some "/a/b/c/f.txt"%string).
Proof.
  destruct (node_get_path_fits with_data (Some 5%positive) 1024) as [_ H].
  apply (H 5%positive ["f.txt"; "c"; "b"; "a"]%string).
  - reflexivity.
  - vm_compute. discriminate.
  - vm_compute. reflexivity.
  - vm_compute. lia.
Defined.

(** ** The life of a descriptor *)

Lemma fd_in_range fd :
  0 <= fd < Z.of_nat MAX_OPEN_FILES ->
  (fd <? 0) || (Z.of_nat MAX_OPEN_FILES <=? fd) = false.
Proof.
  intros H. apply orb_false_iff. split; [apply Z.ltb_ge | apply Z.leb_gt]; lia.
Qed.

Lemma fd_lookup_open s fd f :
  open_on s fd f -> fd_lookup fd s = Ret (Some (Z.to_nat fd, f)) s.
Proof.
  intros (Hfd & Hf & Hu). unfold fd_lookup. rewrite fd_in_range by exact Hfd.
  unfold bind, lift, ret. rewrite Hf, Hu. reflexivity.
Qed.

Lemma fd_lookup_closed s fd f :
  fd_table s !! Z.to_nat fd = Some f -> in_use f = false ->
  fd_lookup fd s = Ret None s.
Proof.
  intros Hf Hu. unfold fd_lookup.
  destruct ((fd <? 0) || (Z.of_nat MAX_OPEN_FILES <=? fd)); [reflexivity |].
  unfold bind, lift, ret. rewrite Hf, Hu. reflexivity.
Qed.

(** X4. The handle that a successful [fs_open] returns can be closed:
    [fs_close] returns 0, puts the slot back to its zeroed state and
    touches nothing else. After that the handle is dead: closing it
    again, reading, writing and seeking through it all return the
    error value and change nothing. *)
Theorem closed_descriptor_is_dead s path fl fd s1 :
  fs_open path fl s = Ret fd s1 -> fd <> -1 ->
  fs_close fd s1 = Ret 0 (released fd s1) /\
  fd_table (released fd s1) = <[Z.to_nat fd := free_slot]> (fd_table s) /\
  fs_close fd (released fd s1) = Ret (-1) (released fd s1) /\
  (forall len,
     fs_read_fd fd len (released fd s1) = Ret (-1, []) (released fd s1)) /\
  (forall buf,
     fs_write_fd fd buf (released fd s1) = Ret (-1) (released fd s1)) /\
  (forall off whence,
     fs_seek fd off whence (released fd s1) = Ret (-1) (released fd s1)).
Proof.
  intros Hopen Hok.
  destruct (fs_open_success _ _ _ _ _ Hopen Hok)
    as (i & a & w & nd & -> & Hi & _ & _ & _ & (d & Hd & _) & _ &
        Hslot & Hothers & _).
  assert (Hopen_on : open_on s1 (Z.of_nat i)
            {| node := Some a; offset := 0; flags := fl; in_use := true |}).
  { split; [lia |]. rewrite Nat2Z.id. split; [exact Hslot | reflexivity]. }
  assert (Hfree : fd_table (released (Z.of_nat i) s1) !! Z.to_nat (Z.of_nat i)
                  = Some free_slot).
  { unfold released. cbn [fd_table set_fd_table].
    apply list_lookup_insert_eq. rewrite Nat2Z.id.
    apply lookup_lt_Some in Hslot. exact Hslot. }
  split; [| split; [| split; [| split; [| split]]]].
  - unfold fs_close. rewrite (bind_run _ _ _ _ _ (fd_lookup_open _ _ _ Hopen_on)).
    reflexivity.
  - unfold released. cbn [fd_table set_fd_table]. rewrite Nat2Z.id.
    apply list_eq. intros j. destruct (decide (j = i)) as [-> | Hne].
    + rewrite !list_lookup_insert_eq; [reflexivity | |].
      * apply lookup_lt_Some in Hd. exact Hd.
      * apply lookup_lt_Some in Hslot. exact Hslot.
    + rewrite !list_lookup_insert_ne by congruence. apply Hothers. exact Hne.
  - unfold fs_close.
    rewrite (bind_run _ _ _ _ _ (fd_lookup_closed _ _ _ Hfree eq_refl)).
    reflexivity.
  - intros len. unfold fs_read_fd.
    rewrite (bind_run _ _ _ _ _ (fd_lookup_closed _ _ _ Hfree eq_refl)).
    reflexivity.
  - intros buf. unfold fs_write_fd.
    rewrite (bind_run _ _ _ _ _ (fd_lookup_closed _ _ _ Hfree eq_refl)).
    reflexivity.
  - intros off wh. unfold fs_seek.
    rewrite (bind_run _ _ _ _ _ (fd_lookup_closed _ _ _ Hfree eq_refl)).
    reflexivity.
Qed.

Lemma closed_descriptor_is_dead_witness :
  fs_close 0 with_read_fd = Ret 0 (released 0 with_read_fd) /\
  fs_close 0 (released 0 with_read_fd) = Ret (-1) (released 0 with_read_fd).
Proof.
  destruct (closed_descriptor_is_dead with_data "/a/b/c/f.txt" O_RDONLY 0
              with_read_fd) as (H1 & _ & H2 & _).
  - vm_compute. reflexivity.
  - discriminate.
  - split; assumption.
Defined.

(** ** Reading through a descriptor and by path *)

Lemma readable_mode f :
  Z.land (flags f) O_RDWR <> 0 ->
  (Z.land (flags f) O_RDONLY =? 0) && (Z.land (flags f) O_RDWR =? 0) = false.
Proof.
  intros H. apply andb_false_iff. right. apply Z.eqb_neq. exact H.
Qed.

(** X5. A descriptor that is open on the file a path names reads what
    the path reads: after [fs_seek(fd, off, SEEK_SET)], which returns
    [off], [fs_read_fd(fd, len)] returns the count and the bytes that
    [read_file(path, off, len)] returns, and leaves the nodes as
    [read_file] leaves them. *)
Theorem fs_read_fd_agrees_with_read_file s fd f a w nd path off len v bytes s' :
  open_on s fd f -> node f = Some a ->
  Z.land (flags f) O_RDWR <> 0 ->
  walk_from s (cwd s) path false = Some (Some a, w) ->
  heap s !! a = Some nd -> type nd = N_FILE ->
  0 <= off < SSIZE_MOD ->
  read_file path off len s = Ret (v, bytes) s' ->
  exists s1 s2,
    fs_seek fd off 0 s = Ret off s1 /\
    fs_read_fd fd len s1 = Ret (v, bytes) s2 /\
    heap s2 = heap s'.
Proof.
  intros Hopen Hnode Hmode Hwalk Hnd Hty Hoff Hread.
  assert (Hfile : negb (is_file nd) = false)
    by (unfold is_file; rewrite Hty; reflexivity).
  pose (f1 := set_offset off f).
  pose (s1 := set_fd_table (<[Z.to_nat fd := f1]> (fd_table s)) s).
  assert (Hseek : fs_seek fd off 0 s = Ret off s1).
  { unfold fs_seek.
    rewrite (bind_run _ _ _ _ _ (fd_lookup_open _ _ _ Hopen)).
    rewrite Hnode. rewrite (bind_run _ _ _ _ _ (deref_live _ _ _ Hnd)).
    rewrite Hfile. cbn [Z.eqb].
    replace ((off <? - SSIZE_MOD) || (SSIZE_MOD <=? off)) with false.
    2:{ symmetry. apply orb_false_iff.
        split; [apply Z.ltb_ge | apply Z.leb_gt]; unfold SSIZE_MOD in *; lia. }
    replace (off <? 0) with false by (symmetry; apply Z.ltb_ge; lia).
    reflexivity. }
  assert (Hopen1 : open_on s1 fd f1).
  { destruct Hopen as (Hfd & Hf & Hu). split; [exact Hfd |].
    split; [| exact Hu]. subst s1. cbn [fd_table set_fd_table].
    apply list_lookup_insert_eq. apply lookup_lt_Some in Hf. exact Hf. }
  exists s1.
  unfold read_file in Hread. unfold walk in Hread.
  unfold bind at 1 in Hread. unfold lift in Hread. rewrite Hwalk in Hread.
  rewrite (bind_run _ _ _ _ _ (deref_live _ _ _ Hnd)) in Hread.
  rewrite Hfile in Hread.
  unfold fs_read_fd.
  rewrite (bind_run _ _ _ _ _ (fd_lookup_open _ _ _ Hopen1)).
  assert (flags f1 = flags f) as -> by reflexivity.
  rewrite (readable_mode _ Hmode).
  assert (node f1 = Some a) as -> by exact Hnode.
  assert (Hnd1 : heap s1 !! a = Some nd) by exact Hnd.
  rewrite (bind_run _ _ _ _ _ (deref_live _ _ _ Hnd1)).
  rewrite Hfile. cbn [offset f1 set_offset].
  destruct (size nd <=? off).
  - unfold ret in *. inversion Hread; subst. eexists. split; [exact Hseek |].
    split; reflexivity.
  - destruct (memcpy_from (data nd) off
                (if len <? size nd - off then len else size nd - off))
      as [got|]; [| discriminate Hread].
    unfold bind, time, modify, ret, set_slot in *.
    subst s1.
    cbn [heap set_heap set_ticks set_fd_table fd_table clock ticks] in *.
    rewrite Hnd in *. inversion Hread; subst.
    eexists. split; [exact Hseek |]. split; reflexivity.
Qed.

Lemma fs_read_fd_agrees_with_read_file_witness :
  exists s1 s2,
    fs_seek 0 7 0 with_read_fd = Ret 7 s1 /\
    fs_read_fd 0 5 s1 = Ret (5, bytes_of "World") s2 /\
    heap s2 = heap (state_after (read_file "/a/b/c/f.txt" 7 5) with_read_fd).
Proof.
  apply (fs_read_fd_agrees_with_read_file with_read_fd 0
           {| node := Some 5%positive; offset := 0; flags := O_RDONLY;
              in_use := true |}
           5%positive None
           (node_at with_read_fd 5%positive)
           "/a/b/c/f.txt" 7 5).
  - repeat split; vm_compute; try reflexivity; discriminate.
  - reflexivity.
  - vm_compute. discriminate.
  - vm_compute. reflexivity.
  - vm_compute. reflexivity.
  - vm_compute. reflexivity.
  - vm_compute. split; [discriminate | reflexivity].
  - vm_compute. reflexivity.
Defined.

(** ** What a write leaves in the file *)

Lemma ensure_cap_exact a want s s' nd :
  heap s !! a = Some nd -> cap nd < SIZE_MOD ->
  ensure_cap a want s = Ret 0 s' ->
  exists k,
    s' = set_heap (<[a := set_data (data nd ++ replicate k x00) nd]> (heap s))
                  s /\
    want <= cap nd + Z.of_nat k /\ cap nd + Z.of_nat k < SIZE_MOD /\
    (k = 0%nat \/ cap nd < want).
Proof.
  intros Hnd Hcap. unfold ensure_cap. unfold_prims. cbn [mbind option_bind].
  rewrite Hnd. destruct (want <=? cap nd) eqn:E.
  - intros H. inversion H; subst. exists O. cbn [replicate].
    rewrite app_nil_r. apply Z.leb_le in E.
    split; [| split; [lia | split; [lia | left; reflexivity]]].
    destruct s'. unfold set_heap. cbn in *. f_equal.
    symmetry. apply insert_id. rewrite Hnd. destruct nd. reflexivity.
  - apply Z.leb_gt in E.
    destruct (grow 64 _ want) as [newcap|] eqn:G; [| discriminate].
    destruct (negb (allocator s newcap)); [discriminate |].
    rewrite Hnd. intros H. inversion H; subst. clear H.
    exists (Z.to_nat (newcap - cap nd)).
    split; [reflexivity |].
    apply grow_result in G as [Hw Hr].
    assert (0 <= cap nd) by (unfold cap; lia).
    split; [lia |]. split; [| right; exact E].
    destruct Hr as [-> | Hr]; [| lia].
    destruct (cap nd =? 0) eqn:E0.
    + apply Z.eqb_eq in E0. unfold SIZE_MOD. lia.
    + lia.
Qed.

Lemma written_size nd k off buf now :
  size (written nd k off buf now) =
  Z.max (size nd) (off + Z.of_nat (length buf)).
Proof. reflexivity. Qed.

Lemma written_length nd k off buf now :
  0 <= off -> off + Z.of_nat (length buf) <= cap nd + Z.of_nat k ->
  length (data (written nd k off buf now)) = (length (data nd) + k)%nat.
Proof.
  intros Hoff Hfit. unfold written, cap in *. cbn [data stamp_both set_accessed
    set_modified set_size set_data].
  rewrite !length_app, length_take, length_drop, length_app, length_replicate.
  lia.
Qed.

Lemma written_read nd k off buf now :
  0 <= off -> off + Z.of_nat (length buf) <= cap nd + Z.of_nat k ->
  take (length buf) (drop (Z.to_nat off) (data (written nd k off buf now)))
  = buf.
Proof.
  intros Hoff Hfit. unfold written, cap in *. cbn [data stamp_both set_accessed
    set_modified set_size set_data].
  rewrite drop_app_length'; [apply take_app_length |].
  rewrite length_take, length_app, length_replicate. lia.
Qed.

(** A byte outside the range written is the byte that was there, or a
    zero of the extension. *)
Lemma written_outside nd k off buf now i :
  0 <= off -> off + Z.of_nat (length buf) <= cap nd + Z.of_nat k ->
  (Z.of_nat i < off \/ off + Z.of_nat (length buf) <= Z.of_nat i) ->
  data (written nd k off buf now) !! i =
  (data nd ++ replicate k x00) !! i.
Proof.
  intros Hoff Hfit Hout. unfold written, cap in *.
  cbn [data stamp_both set_accessed set_modified set_size set_data].
  set (d := data nd ++ replicate k x00).
  assert (Hd : length d = (length (data nd) + k)%nat).
  { subst d. rewrite length_app, length_replicate. reflexivity. }
  destruct Hout as [Hlo | Hhi].
  - rewrite lookup_app_l by (rewrite length_take; lia).
    apply lookup_take_lt. lia.
  - rewrite lookup_app_r by (rewrite length_take; lia).
    rewrite length_take.
    rewrite lookup_app_r by lia.
    rewrite lookup_drop. f_equal. lia.
Qed.

Lemma written_shape nd k off buf now :
  shape_eq nd (written nd k off buf now) /\
  attributes (written nd k off buf now) = attributes nd.
Proof. repeat split. Qed.

(** A run of [fs_write_fd], step by step: it either returns the error
    value on the state it started from, or leaves the file as
    [written] describes and advances the cursor. *)
Lemma fs_write_fd_cases s fd buf r s' :
  caps_fit s ->
  fs_write_fd fd buf s = Ret r s' ->
  (r = -1 /\ s' = s) \/
  exists f a nd k,
    open_on s fd f /\ node f = Some a /\ heap s !! a = Some nd /\
    type nd = N_FILE /\ Z.land (flags f) O_RDWR <> 0 /\
    is_readonly nd = false /\
    r = to_signed (Z.of_nat (length buf)) /\
    0 <= offset f /\
    offset f + Z.of_nat (length buf) <= cap nd + Z.of_nat k /\
    cap nd + Z.of_nat k < SIZE_MOD /\
    (k = 0%nat \/ cap nd < offset f + Z.of_nat (length buf)) /\
    s' = set_heap
           (<[a := written nd k (offset f) buf (clock s (ticks s))]> (heap s))
           (set_ticks (S (ticks s))
              (set_fd_table
                 (<[Z.to_nat fd :=
                      set_offset (offset f + Z.of_nat (length buf)) f]>
                    (fd_table s)) s)).
Proof.
  intros Hcaps H. unfold fs_write_fd in H.
  apply bind_Ret in H as (o & s0 & Hlook & H).
  assert (Hs0 : s0 = s /\
            match o with
            | Some (i, f) => i = Z.to_nat fd /\ open_on s fd f
            | None => True
            end).
  { unfold fd_lookup in Hlook.
    destruct ((fd <? 0) || (Z.of_nat MAX_OPEN_FILES <=? fd)) eqn:Erange.
    - unfold ret in Hlook. inversion Hlook; subst. auto.
    - apply bind_Ret in Hlook as (d & s1 & Hd & Hlook).
      apply lift_Ret in Hd as [-> Hd].
      apply orb_false_iff in Erange as [E1 E2].
      apply Z.ltb_ge in E1. apply Z.leb_gt in E2.
      destruct (in_use d) eqn:Eu; unfold ret in Hlook; inversion Hlook; subst;
        split; auto.
      split; [reflexivity |]. split; [lia |]. split; assumption. }
  destruct Hs0 as [-> Ho].
  destruct o as [[i f]|]; [| left; unfold ret in H; inversion H; auto].
  destruct Ho as [-> Hopen].
  destruct ((Z.land (flags f) O_WRONLY =? 0) && (Z.land (flags f) O_RDWR =? 0))
    eqn:Emode; [left; unfold ret in H; inversion H; auto |].
  destruct (node f) as [a|] eqn:Enode;
    [| left; unfold ret in H; inversion H; auto].
  apply bind_Ret in H as (nd & s1 & Hd & H).
  apply deref_Ret in Hd as [-> (a' & Ha' & Hnd)]. inversion Ha'; subst a'.
  destruct (negb (is_file nd)) eqn:Efile;
    [left; unfold ret in H; inversion H; auto |].
  destruct (is_readonly nd) eqn:Ero;
    [left; unfold ret in H; inversion H; auto |].
  apply bind_Ret in H as (rc & s1 & He & H).
  destruct (ensure_cap_value _ _ _ _ _ He) as [-> | ->].
  2:{ left. unfold ret in H. cbn in H. inversion H; subst.
      split; [reflexivity |].
      apply (ensure_cap_fails _ _ _ _ _ He). discriminate. }
  cbn [Z.ltb Z.compare] in H.
  destruct (ensure_cap_exact _ _ _ _ _ Hnd (Hcaps _ _ Hnd) He)
    as (k & -> & Hwant & Hfit & Hk).
  apply bind_Ret in H as (fn & s2 & Hd & H).
  apply deref_Ret in Hd as [-> (a' & Ha'' & Hfn)]. inversion Ha''; subst a'.
  cbn [heap set_heap] in Hfn. rewrite lookup_insert_eq in Hfn.
  inversion Hfn; subst fn. clear Hfn Ha' Ha''.
  cbn [data set_data size] in H.
  destruct (memcpy_to (data nd ++ replicate k x00) (offset f) buf)
    as [d'|] eqn:Em; [| discriminate].
  pose proof Em as Em'.
  apply memcpy_to_read in Em' as (Hoff & Hbound & Hlen & Hread).
  rewrite length_app, length_replicate in Hbound.
  assert (Hnowrap : wrap (offset f + Z.of_nat (length buf)) =
                    offset f + Z.of_nat (length buf)).
  { unfold wrap. apply Z.mod_small. unfold cap in *. lia. }
  rewrite Hnowrap in *.
  unfold memcpy_to in Em.
  destruct ((0 <=? offset f) && _); [| discriminate].
  inversion Em; subst d'. clear Em.
  right. exists f, a, nd, k.
  split; [exact Hopen |]. split; [exact Enode |]. split; [exact Hnd |].
  split.
  { unfold is_file in Efile. destruct (type nd); [discriminate | reflexivity]. }
  split.
  { apply andb_false_iff in Emode as [E | E]; apply Z.eqb_neq in E.
    - intros Hz. apply E.
      apply Z.bits_inj'. intros n Hn. rewrite Z.land_spec, Z.bits_0.
      apply (f_equal (fun z => Z.testbit z n)) in Hz.
      rewrite Z.land_spec, Z.bits_0 in Hz.
      destruct (Z.testbit (flags f) n); [| reflexivity]. cbn in *.
      destruct (Z.testbit O_WRONLY n) eqn:E2; [| reflexivity].
      assert (n = 1) as ->.
      { unfold O_WRONLY in E2.
        destruct n as [|[p|p|]|]; try discriminate; reflexivity. }
      discriminate.
    - exact E. }
  apply bind_Ret in H as (u1 & s3 & Hm1 & H).
  apply modify_Ret in Hm1 as (n1 & Hn1 & ->).
  cbn [heap set_heap] in Hn1. rewrite lookup_insert_eq in Hn1.
  inversion Hn1; subst n1. clear Hn1.
  apply bind_Ret in H as (u2 & s4 & Hm2 & H).
  apply bind_Ret in H as (u3 & s5 & Hslot & H).
  apply bind_Ret in H as (now & s6 & Ht & H).
  apply bind_Ret in H as (u4 & s7 & Hm3 & H).
  unfold ret in H. inversion H; subst s7. subst r. clear H.
  split; [exact Ero |]. split; [reflexivity |]. split; [exact Hoff |].
  split; [unfold cap; lia |]. split; [exact Hfit |]. split; [exact Hk |].
  unfold set_slot in Hslot. inversion Hslot; subst s5. clear Hslot.
  apply time_Ret in Ht as [-> ->].
  apply modify_Ret in Hm3 as (n3 & Hn3 & ->).
  cbn [heap set_heap set_ticks set_fd_table fd_table clock ticks] in *.
  destruct (size nd <? offset f + Z.of_nat (length buf)) eqn:Es.
  - apply modify_Ret in Hm2 as (n2 & Hn2 & ->).
    cbn [heap set_heap] in Hn2. rewrite lookup_insert_eq in Hn2.
    inversion Hn2; subst n2. clear Hn2.
    cbn [heap set_heap set_ticks set_fd_table fd_table clock ticks] in *.
    rewrite lookup_insert_eq in Hn3. inversion Hn3; subst n3. clear Hn3.
    rewrite !insert_insert_eq. apply Z.ltb_lt in Es.
    unfold written. rewrite Z.max_r by lia. reflexivity.
  - unfold ret in Hm2. inversion Hm2; subst s4. clear Hm2.
    cbn [heap set_heap set_ticks set_fd_table fd_table clock ticks] in *.
    rewrite lookup_insert_eq in Hn3. inversion Hn3; subst n3. clear Hn3.
    rewrite !insert_insert_eq. apply Z.ltb_ge in Es.
    unfold written. rewrite Z.max_l by lia. destruct nd; reflexivity.
Qed.

Lemma fs_write_fd_ok s fd buf r s' :
  caps_fit s ->
  fs_write_fd fd buf s = Ret r s' -> r <> -1 ->
  exists f a nd k,
    open_on s fd f /\ node f = Some a /\ heap s !! a = Some nd /\
    type nd = N_FILE /\ Z.land (flags f) O_RDWR <> 0 /\
    is_readonly nd = false /\
    r = to_signed (Z.of_nat (length buf)) /\
    0 <= offset f /\
    offset f + Z.of_nat (length buf) <= cap nd + Z.of_nat k /\
    cap nd + Z.of_nat k < SIZE_MOD /\
    (k = 0%nat \/ cap nd < offset f + Z.of_nat (length buf)) /\
    s' = set_heap
           (<[a := written nd k (offset f) buf (clock s (ticks s))]> (heap s))
           (set_ticks (S (ticks s))
              (set_fd_table
                 (<[Z.to_nat fd :=
                      set_offset (offset f + Z.of_nat (length buf)) f]>
                    (fd_table s)) s)).
Proof.
  intros Hcaps H Hr.
  destruct (fs_write_fd_cases _ _ _ _ _ Hcaps H) as [[Hbad _] | Hok];
    [congruence | exact Hok].
Qed.

(** X6. What is written through a descriptor is read back through it:
    when [fs_write_fd(fd, buf, len)] returns [len] and the cursor it
    leaves fits [off_t], [fs_seek(fd, -len, SEEK_CUR)] returns the
    cursor the write started from and [fs_read_fd(fd, len)] then
    returns [len] and the bytes written. *)
Theorem fs_write_fd_read_back s fd f buf s1 :
  caps_fit s ->
  fd_table s !! Z.to_nat fd = Some f ->
  offset f + Z.of_nat (length buf) < SSIZE_MOD ->
  fs_write_fd fd buf s = Ret (Z.of_nat (length buf)) s1 ->
  exists s2 s3,
    fs_seek fd (- Z.of_nat (length buf)) 1 s1 = Ret (offset f) s2 /\
    fs_read_fd fd (Z.of_nat (length buf)) s2 =
      Ret (Z.of_nat (length buf), buf) s3.
Proof.
  intros Hcaps Hf Hcur Hw.
  destruct (fs_write_fd_ok _ _ _ _ _ Hcaps Hw ltac:(lia))
    as (f' & a & nd & k & Hopen & Hnode & Hnd & Hty & Hmode & _ & _ &
        Hoff & Hfit & _ & _ & ->).
  assert (f' = f) as ->.
  { destruct Hopen as (_ & Hf' & _). congruence. }
  set (len := Z.of_nat (length buf)) in *.
  set (nd1 := written nd k (offset f) buf (clock s (ticks s))).
  set (f1 := set_offset (offset f + len) f).
  set (s1 := set_heap _ _).
  assert (Hlt : (Z.to_nat fd < length (fd_table s))%nat).
  { apply lookup_lt_Some in Hf. exact Hf. }
  assert (Hopen1 : open_on s1 fd f1).
  { destruct Hopen as (Hfd & _ & Hu). split; [exact Hfd |].
    split; [| exact Hu]. subst s1. cbn [fd_table set_heap set_ticks set_fd_table].
    apply list_lookup_insert_eq. exact Hlt. }
  assert (Hnd1 : heap s1 !! a = Some nd1).
  { subst s1. cbn [heap set_heap]. apply lookup_insert_eq. }
  assert (Hfile1 : negb (is_file nd1) = false).
  { unfold is_file. subst nd1. cbn. rewrite Hty. reflexivity. }
  set (f2 := set_offset (offset f) f1).
  set (s2 := set_fd_table (<[Z.to_nat fd := f2]> (fd_table s1)) s1).
  assert (Hseek : fs_seek fd (- len) 1 s1 = Ret (offset f) s2).
  { unfold fs_seek.
    rewrite (bind_run _ _ _ _ _ (fd_lookup_open _ _ _ Hopen1)).
    assert (node f1 = Some a) as -> by exact Hnode.
    rewrite (bind_run _ _ _ _ _ (deref_live _ _ _ Hnd1)).
    rewrite Hfile1.
    change (1 =? 0) with false. change (1 =? 1) with true. cbv iota.
    assert (to_signed (offset f1) + - len = offset f) as ->.
    { subst f1. cbn [offset set_offset]. rewrite to_signed_small by lia. lia. }
    replace ((offset f <? - SSIZE_MOD) || (SSIZE_MOD <=? offset f)) with false.
    2:{ symmetry. apply orb_false_iff.
        split; [apply Z.ltb_ge | apply Z.leb_gt]; unfold SSIZE_MOD in *; lia. }
    replace (offset f <? 0) with false by (symmetry; apply Z.ltb_ge; lia).
    reflexivity. }
  assert (Hopen2 : open_on s2 fd f2).
  { destruct Hopen1 as (Hfd & Hf1 & Hu). split; [exact Hfd |].
    split; [| exact Hu]. subst s2. cbn [fd_table set_fd_table].
    apply list_lookup_insert_eq. apply lookup_lt_Some in Hf1. exact Hf1. }
  assert (Hnd2 : heap s2 !! a = Some nd1) by exact Hnd1.
  exists s2. unfold fs_read_fd.
  rewrite (bind_run _ _ _ _ _ (fd_lookup_open _ _ _ Hopen2)).
  assert (flags f2 = flags f) as -> by reflexivity.
  rewrite (readable_mode _ Hmode).
  assert (node f2 = Some a) as -> by exact Hnode.
  rewrite (bind_run _ _ _ _ _ (deref_live _ _ _ Hnd2)).
  rewrite Hfile1.
  assert (offset f2 = offset f) as -> by reflexivity.
  assert (Hsize : size nd1 = Z.max (size nd) (offset f + len))
    by reflexivity.
  destruct (size nd1 <=? offset f) eqn:Eend.
  - apply Z.leb_le in Eend.
    assert (length buf = 0%nat) as Hz by lia.
    destruct buf; [| discriminate]. eexists. split; [exact Hseek |].
    reflexivity.
  - apply Z.leb_gt in Eend.
    assert ((if len <? size nd1 - offset f then len
             else size nd1 - offset f) = len) as ->.
    { destruct (_ <? _) eqn:E; [reflexivity |]. apply Z.ltb_ge in E. lia. }
    unfold memcpy_from.
    pose proof (written_length nd k (offset f) buf (clock s (ticks s))
                  Hoff Hfit) as Hlen.
    fold nd1 in Hlen.
    replace (0 <=? offset f) with true by (symmetry; apply Z.leb_le; lia).
    replace (offset f + len <=? Z.of_nat (length (data nd1))) with true.
    2:{ symmetry. apply Z.leb_le. rewrite Hlen. unfold cap in Hfit. lia. }
    cbn [andb]. subst len. rewrite Nat2Z.id.
    unfold nd1 at 1. rewrite written_read by assumption.
    unfold bind, set_slot, time, modify, ret.
    cbn [heap set_heap set_ticks set_fd_table fd_table].
    rewrite Hnd2. rewrite to_signed_small by lia.
    eexists. split; [exact Hseek |]. reflexivity.
Qed.

Lemma fs_write_fd_read_back_witness :
  exists s2 s3,
    fs_seek 0 (- Z.of_nat (length (bytes_of "abc"))) 1
            (state_after (fs_write_fd 0 (bytes_of "abc")) with_rdwr_fd) =
      Ret (offset {| node := Some 5%positive; offset := 0; flags := O_RDWR;
                     in_use := true |}) s2 /\
    fs_read_fd 0 (Z.of_nat (length (bytes_of "abc"))) s2 =
      Ret (Z.of_nat (length (bytes_of "abc")), bytes_of "abc") s3.
Proof.
  apply (fs_write_fd_read_back with_rdwr_fd 0
           {| node := Some 5%positive; offset := 0; flags := O_RDWR;
              in_use := true |}
           (bytes_of "abc")).
  - apply caps_fit_b_true. vm_compute. reflexivity.
  - vm_compute. reflexivity.
  - vm_compute. reflexivity.
  - vm_compute. reflexivity.
Defined.

(** A run of [write_file], step by step: it either returns the error
    value on the state it started from, or leaves the file as
    [written] describes. *)
Lemma write_file_cases s path off buf r s' :
  caps_fit s ->
  write_file path off buf s = Ret r s' ->
  (r = -1 /\ s' = s) \/
  exists a w nd k,
    walk_from s (cwd s) path false = Some (Some a, w) /\
    heap s !! a = Some nd /\ type nd = N_FILE /\ is_readonly nd = false /\
    r = to_signed (Z.of_nat (length buf)) /\
    0 <= off /\
    off + Z.of_nat (length buf) <= cap nd + Z.of_nat k /\
    cap nd + Z.of_nat k < SIZE_MOD /\
    (k = 0%nat \/ cap nd < off + Z.of_nat (length buf)) /\
    s' = set_heap (<[a := written nd k off buf (clock s (ticks s))]> (heap s))
                  (set_ticks (S (ticks s)) s).
Proof.
  intros Hcaps H. unfold write_file in H.
  apply bind_Ret in H as ([f w] & s1 & Hw & H).
  unfold walk in Hw. apply lift_Ret in Hw as [-> Hw].
  destruct f as [a|]; [| left; unfold ret in H; inversion H; auto].
  apply bind_Ret in H as (nd & s2 & Hd & H).
  apply deref_Ret in Hd as [-> (a' & Ha' & Hnd)]. inversion Ha'; subst a'.
  destruct (negb (is_file nd)) eqn:Efile;
    [left; unfold ret in H; inversion H; auto |].
  destruct (is_readonly nd) eqn:Ero;
    [left; unfold ret in H; inversion H; auto |].
  apply bind_Ret in H as (ok & s3 & Hwr & H).
  destruct ok.
  2:{ left. unfold ret in H. inversion H; subst. split; [reflexivity |].
      apply (write_at_fails _ _ _ _ _ Hwr). }
  unfold ret in H. inversion H; subst s3 r. clear H Ha'.
  right. exists a, w, nd.
  unfold write_at in Hwr.
  apply bind_Ret in Hwr as (rc & s1 & He & H).
  destruct (ensure_cap_value _ _ _ _ _ He) as [-> | ->];
    [| unfold ret in H; cbn in H; inversion H].
  cbn [Z.ltb Z.compare] in H.
  destruct (ensure_cap_exact _ _ _ _ _ Hnd (Hcaps _ _ Hnd) He)
    as (k & -> & Hwant & Hfit & Hk).
  exists k.
  apply bind_Ret in H as (fn & s2 & Hd & H).
  apply deref_Ret in Hd as [-> (a' & Ha' & Hfn)]. inversion Ha'; subst a'.
  cbn [heap set_heap] in Hfn. rewrite lookup_insert_eq in Hfn.
  inversion Hfn; subst fn. clear Hfn Ha'.
  cbn [data set_data size] in H.
  destruct (memcpy_to (data nd ++ replicate k x00) off buf)
    as [d'|] eqn:Em; [| discriminate].
  pose proof Em as Em'.
  apply memcpy_to_read in Em' as (Hoff & Hbound & Hlen & Hread).
  rewrite length_app, length_replicate in Hbound.
  assert (Hnowrap : wrap (off + Z.of_nat (length buf)) =
                    off + Z.of_nat (length buf)).
  { unfold wrap. apply Z.mod_small. unfold cap in *. lia. }
  rewrite Hnowrap in *.
  unfold memcpy_to in Em.
  destruct ((0 <=? off) && _); [| discriminate].
  inversion Em; subst d'. clear Em.
  split; [exact Hw |]. split; [exact Hnd |].
  split.
  { unfold is_file in Efile. destruct (type nd); [discriminate | reflexivity]. }
  split; [exact Ero |]. split; [reflexivity |]. split; [exact Hoff |].
  split; [unfold cap; lia |]. split; [exact Hfit |]. split; [exact Hk |].
  apply bind_Ret in H as (u1 & s3 & Hm1 & H).
  apply modify_Ret in Hm1 as (n1 & Hn1 & ->).
  cbn [heap set_heap] in Hn1. rewrite lookup_insert_eq in Hn1.
  inversion Hn1; subst n1. clear Hn1.
  apply bind_Ret in H as (u2 & s4 & Hm2 & H).
  apply bind_Ret in H as (now & s6 & Ht & H).
  apply bind_Ret in H as (u4 & s7 & Hm3 & H).
  unfold ret in H. inversion H; subst s7. clear H.
  apply time_Ret in Ht as [-> ->].
  apply modify_Ret in Hm3 as (n3 & Hn3 & ->).
  cbn [heap set_heap set_ticks clock ticks] in *.
  destruct (size nd <? off + Z.of_nat (length buf)) eqn:Es.
  - apply modify_Ret in Hm2 as (n2 & Hn2 & ->).
    cbn [heap set_heap] in Hn2. rewrite lookup_insert_eq in Hn2.
    inversion Hn2; subst n2. clear Hn2.
    cbn [heap set_heap set_ticks clock ticks] in *.
    rewrite lookup_insert_eq in Hn3. inversion Hn3; subst n3. clear Hn3.
    rewrite !insert_insert_eq. apply Z.ltb_lt in Es.
    unfold written. rewrite Z.max_r by lia. reflexivity.
  - unfold ret in Hm2. inversion Hm2; subst s4. clear Hm2.
    cbn [heap set_heap set_ticks clock ticks] in *.
    rewrite lookup_insert_eq in Hn3. inversion Hn3; subst n3. clear Hn3.
    rewrite !insert_insert_eq. apply Z.ltb_ge in Es.
    unfold written. rewrite Z.max_l by lia. destruct nd; reflexivity.
Qed.

Lemma write_file_ok s path off buf r s' :
  caps_fit s ->
  write_file path off buf s = Ret r s' -> r <> -1 ->
  exists a w nd k,
    walk_from s (cwd s) path false = Some (Some a, w) /\
    heap s !! a = Some nd /\ type nd = N_FILE /\ is_readonly nd = false /\
    r = to_signed (Z.of_nat (length buf)) /\
    0 <= off /\
    off + Z.of_nat (length buf) <= cap nd + Z.of_nat k /\
    cap nd + Z.of_nat k < SIZE_MOD /\
    (k = 0%nat \/ cap nd < off + Z.of_nat (length buf)) /\
    s' = set_heap (<[a := written nd k off buf (clock s (ticks s))]> (heap s))
                  (set_ticks (S (ticks s)) s).
Proof.
  intros Hcaps H Hr.
  destruct (write_file_cases _ _ _ _ _ _ Hcaps H) as [[Hbad _] | Hok];
    [congruence | exact Hok].
Qed.

(** The resolver after an update in place that keeps the shape. *)
Lemma walk_from_update s a nd nd' k start path wp :
  heap s !! a = Some nd -> shape_eq nd nd' ->
  walk_from (set_heap (<[a := nd']> (heap s)) (set_ticks k s)) start path wp
  = walk_from s start path wp.
Proof.
  intros Hnd Hshape. unfold walk_from, start_node.
  cbn [heap root set_heap set_ticks]. symmetry.
  apply walk_loop_shape. apply (same_shape_insert _ _ nd); assumption.
Qed.

(** X7. A write touches the bytes it writes and no others. After
    [write_file(path, off, buf, len)] has returned [len], the size of
    the file is the larger of its old size and [off + len], every byte
    of the old buffer outside the range written is where it was, and
    [read_file] on any range of the old content that does not meet the
    range written returns what it returned before the write. *)
Theorem write_file_keeps_the_rest s path off buf s' a w nd :
  caps_fit s ->
  walk_from s (cwd s) path false = Some (Some a, w) ->
  heap s !! a = Some nd ->
  write_file path off buf s = Ret (Z.of_nat (length buf)) s' ->
  exists nd',
    heap s' !! a = Some nd' /\
    size nd' = Z.max (size nd) (off + Z.of_nat (length buf)) /\
    (forall i b,
       Z.of_nat i < off \/ off + Z.of_nat (length buf) <= Z.of_nat i ->
       data nd !! i = Some b -> data nd' !! i = Some b) /\
    (forall o n v bytes s0,
       0 <= o -> 0 <= n -> o + n <= size nd ->
       o + n <= off \/ off + Z.of_nat (length buf) <= o ->
       read_file path o n s = Ret (v, bytes) s0 ->
       exists s1, read_file path o n s' = Ret (v, bytes) s1).
Proof.
  intros Hcaps Hwalk Hnd Hw.
  destruct (write_file_ok _ _ _ _ _ _ Hcaps Hw ltac:(lia))
    as (a' & w' & nd0 & k & Hwalk' & Hnd0 & Hty & _ & _ & Hoff & Hfit & _ & _
        & ->).
  rewrite Hwalk in Hwalk'. inversion Hwalk'; subst a' w'. clear Hwalk'.
  rewrite Hnd in Hnd0. inversion Hnd0; subst nd0. clear Hnd0.
  set (nd' := written nd k off buf (clock s (ticks s))).
  exists nd'.
  assert (Hlen : length (data nd') = (length (data nd) + k)%nat)
    by (apply written_length; assumption).
  assert (Hkeep : forall i b,
            Z.of_nat i < off \/ off + Z.of_nat (length buf) <= Z.of_nat i ->
            data nd !! i = Some b -> data nd' !! i = Some b).
  { intros i b Hout Hb. unfold nd'.
    rewrite written_outside by assumption.
    apply lookup_app_l_Some. exact Hb. }
  split; [cbn [heap set_heap]; apply lookup_insert_eq |].
  split; [reflexivity |]. split; [exact Hkeep |].
  intros o n v bytes s0 Ho Hn Hin Hdisj Hread.
  unfold read_file in *. unfold walk in *.
  unfold bind at 1 in Hread. unfold bind at 1.
  unfold lift in *. cbn [cwd set_heap set_ticks].
  rewrite (walk_from_update s a nd nd') by (assumption || apply written_shape).
  rewrite Hwalk in *.
  rewrite (bind_run _ _ _ _ _ (deref_live _ _ _ Hnd)) in Hread.
  assert (Hnd' : heap (set_heap (<[a := nd']> (heap s))
                         (set_ticks (S (ticks s)) s)) !! a = Some nd').
  { cbn [heap set_heap]. apply lookup_insert_eq. }
  rewrite (bind_run _ _ _ _ _ (deref_live _ _ _ Hnd')).
  assert (is_file nd' = is_file nd) as -> by reflexivity.
  destruct (negb (is_file nd)).
  { unfold ret in *. inversion Hread; subst. eexists. reflexivity. }
  assert (Hsize' : size nd' = Z.max (size nd) (off + Z.of_nat (length buf)))
    by reflexivity.
  destruct (size nd <=? o) eqn:Eend.
  - apply Z.leb_le in Eend. assert (n = 0) as -> by lia.
    unfold ret in Hread. inversion Hread; subst.
    destruct (size nd' <=? o) eqn:Eend'; [eexists; reflexivity |].
    assert ((if 0 <? size nd' - o then 0 else size nd' - o) = 0) as ->.
    { apply Z.leb_gt in Eend'.
      destruct (0 <? size nd' - o) eqn:E; [reflexivity |].
      apply Z.ltb_ge in E. lia. }
    unfold memcpy_from.
    replace (0 <=? o) with true by (symmetry; apply Z.leb_le; lia).
    replace (o + 0 <=? Z.of_nat (length (data nd'))) with true.
    2:{ symmetry. apply Z.leb_le. apply Z.leb_gt in Eend'. unfold cap in *.
        lia. }
    cbn [andb Z.to_nat take]. rewrite take_0.
    unfold bind, time, modify, ret. cbn [heap set_heap set_ticks].
    rewrite lookup_insert_eq. eexists. reflexivity.
  - apply Z.leb_gt in Eend.
    replace (size nd' <=? o) with false by (symmetry; apply Z.leb_gt; lia).
    assert ((if n <? size nd - o then n else size nd - o) = n) as Hn1.
    { destruct (n <? size nd - o) eqn:E; [reflexivity |].
      apply Z.ltb_ge in E. lia. }
    assert ((if n <? size nd' - o then n else size nd' - o) = n) as Hn2.
    { destruct (n <? size nd' - o) eqn:E; [reflexivity |].
      apply Z.ltb_ge in E. lia. }
    rewrite Hn1 in Hread. rewrite Hn2.
    unfold memcpy_from in *.
    replace (0 <=? o) with true in * by (symmetry; apply Z.leb_le; lia).
    destruct (o + n <=? Z.of_nat (length (data nd))) eqn:Ein;
      [| discriminate Hread].
    apply Z.leb_le in Ein.
    replace (o + n <=? Z.of_nat (length (data nd'))) with true
      by (symmetry; apply Z.leb_le; lia).
    cbn [andb] in *.
    assert (Hsame : take (Z.to_nat n) (drop (Z.to_nat o) (data nd')) =
                    take (Z.to_nat n) (drop (Z.to_nat o) (data nd))).
    { apply list_eq. intros j.
      destruct (decide (j < Z.to_nat n)%nat) as [Hj | Hj].
      - rewrite !lookup_take_lt by exact Hj. rewrite !lookup_drop.
        destruct (data nd !! (Z.to_nat o + j)%nat) as [b|] eqn:Eb.
        + apply Hkeep; [lia | exact Eb].
        + apply lookup_ge_None in Eb. lia.
      - rewrite !lookup_take_ge by lia. reflexivity. }
    rewrite Hsame.
    unfold bind, time, modify, ret in *. cbn [heap set_heap set_ticks] in *.
    rewrite Hnd in Hread. rewrite lookup_insert_eq.
    inversion Hread; subst. eexists. reflexivity.
Qed.

Lemma write_file_keeps_the_rest_witness :
  exists nd',
    heap (state_after (write_file "/a/b/c/f.txt" 7 (bytes_of "There"))
            with_data) !! 5%positive = Some nd' /\
    size nd' = Z.max (size (node_at with_data 5%positive))
                     (7 + Z.of_nat (length (bytes_of "There"))) /\
    (forall i b,
       Z.of_nat i < 7 \/ 7 + Z.of_nat (length (bytes_of "There")) <= Z.of_nat i ->
       data (node_at with_data 5%positive) !! i = Some b ->
       data nd' !! i = Some b) /\
    (forall o n v bytes s0,
       0 <= o -> 0 <= n -> o + n <= size (node_at with_data 5%positive) ->
       o + n <= 7 \/ 7 + Z.of_nat (length (bytes_of "There")) <= o ->
       read_file "/a/b/c/f.txt" o n with_data = Ret (v, bytes) s0 ->
       exists s1,
         read_file "/a/b/c/f.txt" o n
           (state_after (write_file "/a/b/c/f.txt" 7 (bytes_of "There"))
              with_data) = Ret (v, bytes) s1).
Proof.
  apply (write_file_keeps_the_rest with_data "/a/b/c/f.txt" 7
           (bytes_of "There") _ 5%positive None).
  - apply caps_fit_b_true. vm_compute. reflexivity.
  - vm_compute. reflexivity.
  - vm_compute. reflexivity.
  - vm_compute. reflexivity.
Defined.

(** ** Metadata written and read back *)

Lemma walk_Ret path wp s r s' :
  walk path wp s = Ret r s' -> s' = s /\ walk_from s (cwd s) path wp = Some r.
Proof. unfold walk. intros H. apply lift_Ret in H. exact H. Qed.

Lemma walk_run path wp s r :
  walk_from s (cwd s) path wp = Some r -> walk path wp s = Ret r s.
Proof. unfold walk, lift. intros ->. reflexivity. Qed.

Lemma get_file_info_run s path a w nd :
  walk_from s (cwd s) path false = Some (Some a, w) ->
  heap s !! a = Some nd ->
  get_file_info path s =
    Ret (0, Some {| info_type := type nd;
                    info_name := str_take NAME_MAX (name nd);
                    info_created := created nd;
                    info_modified := modified nd;
                    info_accessed := accessed nd;
                    info_attributes := attributes nd;
                    info_size := if is_file nd then size nd else 0;
                    info_child_count :=
                      if is_file nd then O else child_count nd |})
        (set_heap (<[a := set_accessed (clock s (ticks s)) nd]> (heap s))
                  (set_ticks (S (ticks s)) s)).
Proof.
  intros Hw Hnd. unfold get_file_info.
  rewrite (bind_run _ _ _ _ _ (walk_run _ _ _ _ Hw)).
  rewrite (bind_run _ _ _ _ _ (deref_live _ _ _ Hnd)).
  unfold bind, time, modify, ret. cbn [heap set_heap set_ticks].
  rewrite Hnd. reflexivity.
Qed.

Lemma set_file_attributes_resolves path bits s r s' :
  set_file_attributes path bits s = Ret r s' -> r <> -1 ->
  exists a w nd,
    walk_from s (cwd s) path false = Some (Some a, w) /\
    heap s !! a = Some nd.
Proof.
  unfold set_file_attributes. intros H Hr.
  apply bind_Ret in H as ([n w] & s1 & Hw & H).
  apply walk_Ret in Hw as [-> Hw].
  destruct n as [a|]; [| unfold ret in H; inversion H; congruence].
  apply bind_Ret in H as (u & s2 & Hm & _).
  apply modify_Ret in Hm as (nd & Hnd & _).
  exists a, w, nd. auto.
Qed.

Lemma touch_file_resolves path s r s' :
  touch_file path s = Ret r s' -> r <> -1 ->
  exists a w nd,
    walk_from s (cwd s) path false = Some (Some a, w) /\
    heap s !! a = Some nd.
Proof.
  unfold touch_file. intros H Hr.
  apply bind_Ret in H as ([n w] & s1 & Hw & H).
  apply walk_Ret in Hw as [-> Hw].
  destruct n as [a|]; [| unfold ret in H; inversion H; congruence].
  apply bind_Ret in H as (now & s2 & Ht & H).
  apply time_Ret in Ht as [-> ->].
  apply bind_Ret in H as (u & s3 & Hm & _).
  apply modify_Ret in Hm as (nd & Hnd & _).
  exists a, w, nd. auto.
Qed.

(** X8. Metadata that is set is the metadata reported. After
    [set_file_attributes(path, bits)] has returned 0, [get_file_info]
    on the same path returns 0 and reports exactly [bits] as the
    attributes and the time of that call as the modification time;
    after [touch_file(path)] has returned 0 it reports the time of the
    touch as both the modification and the access time. *)
Theorem metadata_read_back s path s1 :
  (forall bits,
     0 <= bits < 256 ->
     set_file_attributes path bits s = Ret 0 s1 ->
     exists info s2,
       get_file_info path s1 = Ret (0, Some info) s2 /\
       info_attributes info = bits /\
       info_modified info = clock s (ticks s)) /\
  (touch_file path s = Ret 0 s1 ->
   exists info s2,
     get_file_info path s1 = Ret (0, Some info) s2 /\
     info_modified info = clock s (ticks s) /\
     info_accessed info = clock s (ticks s)).
Proof.
  split.
  - intros bits _ H.
    destruct (set_file_attributes_resolves _ _ _ _ _ H ltac:(lia))
      as (a & w & nd & Hw & Hnd).
    rewrite (set_file_attributes_run _ _ _ _ _ _ Hw Hnd) in H.
    inversion H; subst s1. clear H.
    eexists. eexists. split.
    + apply (get_file_info_run _ _ a w).
      * cbn [cwd set_heap set_ticks].
        rewrite (walk_from_update s a nd) by (assumption || (repeat split)).
        exact Hw.
      * cbn [heap set_heap]. apply lookup_insert_eq.
    + split; reflexivity.
  - intros H.
    destruct (touch_file_resolves _ _ _ _ H ltac:(lia))
      as (a & w & nd & Hw & Hnd).
    rewrite (touch_file_run _ _ _ _ _ Hw Hnd) in H.
    inversion H; subst s1. clear H.
    eexists. eexists. split.
    + apply (get_file_info_run _ _ a w).
      * cbn [cwd set_heap set_ticks].
        rewrite (walk_from_update s a nd) by (assumption || (repeat split)).
        exact Hw.
      * cbn [heap set_heap]. apply lookup_insert_eq.
    + split; reflexivity.
Qed.

Lemma metadata_read_back_witness :
  exists info s2,
    get_file_info "/a/b/c/f.txt" with_readonly_file = Ret (0, Some info) s2 /\
    info_attributes info = ATTR_READONLY /\
    info_modified info = clock with_data (ticks with_data).
Proof.
  destruct (metadata_read_back with_data "/a/b/c/f.txt" with_readonly_file)
    as [Hset _].
  apply (Hset ATTR_READONLY).
  - vm_compute. split; [discriminate | reflexivity].
  - vm_compute. reflexivity.
Defined.

(** ** Which fields a call writes *)

(** The calls are decomposed into their primitives once, for any
    relation between states and any relation [keep] between a node
    and its update; each lemma depends on the field updates that its
    call performs, and on those only. *)
Section Footprint.

Context (keep : node_t -> node_t -> Prop) (R : fs -> fs -> Prop)
        `{!StepRel keep R}.

Hypothesis keep_trans : forall a b c, keep a b -> keep b c -> keep a c.
Hypothesis keep_accessed : forall n t, keep n (set_accessed t n).
Hypothesis keep_modified : forall n t, keep n (set_modified t n).
Hypothesis keep_attributes : forall n x, keep n (set_attributes x n).
Hypothesis keep_data : forall n d, keep n (set_data d n).
Hypothesis keep_size : forall n x, keep n (set_size x n).
Hypothesis keep_children : forall n cs, keep n (set_children cs n).
Hypothesis keep_parent : forall n p, keep n (set_parent p n).
Hypothesis keep_name : forall n x, keep n (set_name (str_take NAME_MAX x) n).
Hypothesis R_node_new : forall t nm par, pres R (node_new t nm par).
Hypothesis R_node_free : forall n, pres R (node_free n).

Lemma fp_ret {A : Type} (v : A) : pres R (ret v).
Proof.
  intros s v' s' H. unfold ret in H. inversion H; subst.
  apply step_same; reflexivity.
Qed.

Lemma fp_bind {A B : Type} (m : M A) (k : A -> M B) :
  pres R m -> (forall x, pres R (k x)) -> pres R (bind m k).
Proof.
  intros Hm Hk s v s' H. apply bind_Ret in H as (x & s1 & H1 & H2).
  eapply step_trans; [eapply Hm | eapply Hk]; eauto.
Qed.

Lemma fp_state {A : Type} (v : fs -> A) (g : fs -> fs) :
  (forall s, heap (g s) = heap s) -> (forall s, root (g s) = root s) ->
  pres R (fun s => Ret (v s) (g s)).
Proof.
  intros Hg Hr s v' s' H. inversion H; subst.
  apply step_same; [apply Hg | apply Hr].
Qed.

Lemma fp_lift {A : Type} (f : fs -> option A) : pres R (lift f).
Proof.
  intros s v s' H. apply lift_Ret in H as [-> _].
  apply step_same; reflexivity.
Qed.

Lemma fp_undefined {A : Type} : pres R (@undefined A).
Proof. intros s v s' H. discriminate H. Qed.

Lemma fp_diverges {A : Type} : pres R (@diverges A).
Proof. intros s v s' H. discriminate H. Qed.

Lemma fp_modify a f : (forall n, keep n (f n)) -> pres R (modify a f).
Proof.
  intros Hf s v s' H. unfold modify in H.
  destruct (heap s !! a) as [n|] eqn:E; inversion H; subst.
  apply (step_modify _ _ n); [exact E | apply Hf].
Qed.

Ltac fp_keep :=
  unfold stamp_both;
  first [ apply keep_accessed | apply keep_modified | apply keep_attributes
        | apply keep_data | apply keep_size | apply keep_children
        | apply keep_parent | apply keep_name
        | eapply keep_trans; [apply keep_modified | apply keep_accessed]
        | eapply keep_trans; [apply keep_accessed | apply keep_modified] ].

Ltac fp_step :=
  lazymatch goal with
  | |- pres _ (bind _ _) => apply fp_bind; [| intros ?]
  | |- pres _ (ret _) => apply fp_ret
  | |- pres _ (match ?x with _ => _ end) => destruct x
  | |- pres _ (lift _) => apply fp_lift
  | |- pres _ (deref _) => apply fp_lift
  | |- pres _ (walk _ _) => apply fp_lift
  | |- pres _ undefined => apply fp_undefined
  | |- pres _ diverges => apply fp_diverges
  | |- pres _ (modify _ _) => apply fp_modify; intros ?; fp_keep
  | |- pres _ time =>
      apply (fp_state (fun s => clock s (ticks s))); reflexivity
  | |- pres _ get => apply (fp_state (fun s => s) (fun s => s)); reflexivity
  | |- pres _ (set_slot _ _) => apply (fp_state (fun _ => tt)); reflexivity
  | |- pres _ (fun s => Ret tt _) =>
      apply (fp_state (fun _ => tt)); reflexivity
  | |- pres _ (node_new _ _ _) => apply R_node_new
  | |- pres _ (node_free _) => apply R_node_free
  end.

Ltac fp_auto := repeat fp_step.

Lemma fp_fd_lookup fd : pres R (fd_lookup fd).
Proof. unfold fd_lookup. fp_auto. Qed.

Lemma fp_fs_cd path : pres R (fs_cd path).
Proof. unfold fs_cd. fp_auto. Qed.

Lemma fp_ls_dir path : pres R (ls_dir path).
Proof. unfold ls_dir. fp_auto. Qed.

Lemma fp_get_file_info path : pres R (get_file_info path).
Proof. unfold get_file_info. fp_auto. Qed.

Lemma fp_read_file path off len : pres R (read_file path off len).
Proof. unfold read_file. fp_auto. Qed.

Lemma fp_fs_open path fl : pres R (fs_open path fl).
Proof. unfold fs_open. fp_auto. Qed.

Lemma fp_fs_close fd : pres R (fs_close fd).
Proof. unfold fs_close. fp_auto; apply fp_fd_lookup. Qed.

Lemma fp_fs_read_fd fd len : pres R (fs_read_fd fd len).
Proof. unfold fs_read_fd. fp_auto; apply fp_fd_lookup. Qed.

Lemma fp_fs_seek fd off wh : pres R (fs_seek fd off wh).
Proof. unfold fs_seek. fp_auto; apply fp_fd_lookup. Qed.

Lemma fp_search_children (f : ptr -> M Z) :
  (forall n, pres R (f n)) ->
  forall (cs : list addr) (acc : M Z),
    pres R acc ->
    pres R (foldl (fun acc c => m <- acc ; r <- f (Some c) ; ret (m + r))
                  acc cs).
Proof.
  intros Hf. induction cs as [|c cs IH]; intros acc Hacc; cbn [foldl];
    [exact Hacc |].
  apply IH. fp_auto; [exact Hacc | apply Hf].
Qed.

Lemma fp_search_subtree fuel : forall n term,
  pres R (search_subtree fuel n term).
Proof.
  induction fuel as [|fuel IH]; intros n term; cbn [search_subtree];
    fp_auto.
  apply (fp_search_children (fun n => search_subtree fuel n term)).
  - intros n. apply IH.
  - fp_auto.
Qed.

Lemma fp_fs_search term : pres R (fs_search term).
Proof. unfold fs_search. fp_auto. apply fp_search_subtree. Qed.

Lemma fp_touch_file path : pres R (touch_file path).
Proof. unfold touch_file. fp_auto. Qed.

Lemma fp_set_file_attributes path bits :
  pres R (set_file_attributes path bits).
Proof. unfold set_file_attributes. fp_auto. Qed.

Lemma fp_ensure_cap a want : pres R (ensure_cap a want).
Proof. unfold ensure_cap. fp_auto. Qed.

Lemma fp_write_at a off buf : pres R (write_at a off buf).
Proof. unfold write_at. fp_auto. apply fp_ensure_cap. Qed.

Lemma fp_write_file path off buf : pres R (write_file path off buf).
Proof. unfold write_file. fp_auto. apply fp_write_at. Qed.

Lemma fp_fs_write_fd fd buf : pres R (fs_write_fd fd buf).
Proof.
  unfold fs_write_fd. fp_auto; first [apply fp_fd_lookup | apply fp_ensure_cap].
Qed.

Lemma fp_dir_add dir child : pres R (dir_add dir child).
Proof. unfold dir_add. fp_auto. Qed.

Lemma fp_mkdir_loop toks : forall cur, pres R (mkdir_loop toks cur).
Proof.
  induction toks as [|tok rest IH]; intros cur; cbn [mkdir_loop];
    fp_auto; first [apply IH | apply fp_dir_add].
Qed.

Lemma fp_mkdir_p path : pres R (mkdir_p path).
Proof. unfold mkdir_p. fp_auto. apply fp_mkdir_loop. Qed.

Lemma fp_create_file path : pres R (create_file path).
Proof. unfold create_file. fp_auto. apply fp_dir_add. Qed.

Lemma fp_rm_file path : pres R (rm_file path).
Proof. unfold rm_file. fp_auto. Qed.

Lemma fp_rmdir_empty path : pres R (rmdir_empty path).
Proof. unfold rmdir_empty. fp_auto. Qed.

Lemma fp_rename_file o n : pres R (rename_file o n).
Proof. unfold rename_file. fp_auto; apply fp_dir_add. Qed.

End Footprint.

(** ** Calls that only look *)

Lemma accessed_only_refl n : accessed_only n n.
Proof. destruct n. reflexivity. Qed.

Lemma accessed_only_trans a b c :
  accessed_only a b -> accessed_only b c -> accessed_only a c.
Proof.
  unfold accessed_only. intros Hab Hbc. rewrite Hbc at 1. rewrite Hab.
  reflexivity.
Qed.

#[local] Instance only_accessed_step : StepRel accessed_only only_accessed.
Proof.
  split.
  - intros s s' Hh Hr. split; [exact Hr |]. intros a. rewrite Hh.
    destruct (heap s !! a); [apply accessed_only_refl | exact I].
  - intros s1 s2 s3 [Hr12 H12] [Hr23 H23]. split; [congruence |].
    intros a. specialize (H12 a). specialize (H23 a).
    destruct (heap s1 !! a), (heap s2 !! a), (heap s3 !! a);
      try contradiction; try exact I.
    eapply accessed_only_trans; eassumption.
  - intros s a n n' Hn Hk. split; [reflexivity |]. intros b.
    cbn [heap set_heap]. destruct (decide (a = b)) as [<- | Hne].
    + rewrite Hn, lookup_insert_eq. exact Hk.
    + rewrite lookup_insert_ne by exact Hne.
      destruct (heap s !! b); [apply accessed_only_refl | exact I].
Qed.

Lemma accessed_only_stamp n t : accessed_only n (set_accessed t n).
Proof. reflexivity. Qed.

(** The value a call hands back does not matter to what it keeps. *)
Lemma pres_fst {A B : Type} (R : fs -> fs -> Prop) (m : M (A * B)) :
  pres R m -> (forall s, R s s) -> (forall a b c, R a b -> R b c -> R a c) ->
  pres R (r <- m ; ret (fst r)).
Proof.
  intros Hm Hrefl Htrans s v s' H.
  apply bind_Ret in H as (x & s1 & H1 & H2).
  unfold ret in H2. inversion H2; subst. eapply Hm. exact H1.
Qed.

(** X9. The calls that report on the tree or move a cursor ([fs_cd],
    [ls_dir], [fs_search], [read_file], [get_file_info], [fs_open],
    [fs_close], [fs_read_fd] and [fs_seek]) create no node and release
    none, leave the root where it is and change no field of any node
    other than its access time. *)
Theorem queries_change_access_times_only c s r s' :
  is_query c = true -> exec c s = Ret r s' -> only_accessed s s'.
Proof.
  assert (Hrefl : forall s, only_accessed s s)
    by (intros s0; apply step_same; reflexivity).
  pose proof (@step_trans _ _ only_accessed_step) as Htrans.
  intros Hq H. destruct c; try discriminate Hq; cbn [exec] in H.
  - eapply (fp_fs_cd accessed_only only_accessed); eauto using accessed_only_stamp.
  - eapply (fp_ls_dir accessed_only only_accessed); eauto using accessed_only_stamp.
  - eapply (fp_fs_search accessed_only only_accessed);
      eauto using accessed_only_stamp.
  - eapply (pres_fst only_accessed (read_file path off len)); eauto.
    apply (fp_read_file accessed_only only_accessed); eauto using accessed_only_stamp.
  - eapply (fp_fs_open accessed_only only_accessed); eauto using accessed_only_stamp.
  - eapply (fp_fs_close accessed_only only_accessed); eauto.
  - eapply (pres_fst only_accessed (fs_read_fd fd len)); eauto.
    apply (fp_fs_read_fd accessed_only only_accessed);
      eauto using accessed_only_stamp.
  - eapply (fp_fs_seek accessed_only only_accessed); eauto.
  - eapply (pres_fst only_accessed (get_file_info path)); eauto.
    apply (fp_get_file_info accessed_only only_accessed);
      eauto using accessed_only_stamp.
Qed.

Lemma queries_change_access_times_only_witness :
  only_accessed with_data
    (state_after (exec (Read_file "/a/b/c/f.txt" 0 5)) with_data).
Proof.
  apply (queries_change_access_times_only (Read_file "/a/b/c/f.txt" 0 5)
           with_data 5).
  - reflexivity.
  - vm_compute. reflexivity.
Defined.

(** ** Contents change by a write and by nothing else *)

Lemma buffer_eq_trans a b c : buffer_eq a b -> buffer_eq b c -> buffer_eq a c.
Proof. intros [? ?] [? ?]. split; congruence. Qed.

#[local] Instance extends_buf_step : StepRel buffer_eq extends_buf.
Proof.
  split.
  - intros s s' H _ a nd Hnd. exists nd. rewrite H. repeat split. exact Hnd.
  - intros s1 s2 s3 H12 H23 a nd Hnd.
    destruct (H12 a nd Hnd) as (n2 & Hn2 & E2).
    destruct (H23 a n2 Hn2) as (n3 & Hn3 & E3).
    exists n3. split; [exact Hn3 | eapply buffer_eq_trans; eassumption].
  - intros s a n n' Hn Hk b nd Hnd. cbn [heap set_heap].
    destruct (decide (a = b)) as [<- | Hne].
    + exists n'. rewrite lookup_insert_eq. split; [reflexivity |]. congruence.
    + exists nd. rewrite lookup_insert_ne by exact Hne. repeat split. exact Hnd.
Qed.

#[local] Instance shrinks_buf_step : StepRel buffer_eq shrinks_buf.
Proof.
  split.
  - intros s s' H _ a nd Hnd. exists nd. rewrite <- H. repeat split. exact Hnd.
  - intros s1 s2 s3 H12 H23 a nd Hnd.
    destruct (H23 a nd Hnd) as (n2 & Hn2 & E2).
    destruct (H12 a n2 Hn2) as (n1 & Hn1 & E1).
    exists n1. split; [exact Hn1 | eapply buffer_eq_trans; eassumption].
  - intros s a n n' Hn Hk b nd. cbn [heap set_heap].
    destruct (decide (a = b)) as [<- | Hne].
    + rewrite lookup_insert_eq. intros H. inversion H; subst.
      exists n. auto.
    + rewrite lookup_insert_ne by exact Hne. intros H. exists nd.
      repeat split. exact H.
Qed.

Lemma extends_buf_node_new t nm par : pres extends_buf (node_new t nm par).
Proof.
  intros s v s' H. rewrite node_new_run in H. inversion H; subst. clear H.
  intros a nd Hnd. exists nd. cbn [heap set_heap set_ticks].
  rewrite lookup_insert_ne; [repeat split; exact Hnd |].
  intros <-. rewrite fresh_not_live in Hnd. discriminate.
Qed.

Lemma shrinks_buf_node_free n : pres shrinks_buf (node_free n).
Proof.
  intros s v s' H. unfold node_free in H.
  destruct (node_free_heap _ _ _) as [h'|] eqn:E; inversion H; subst.
  intros a nd Hnd. exists nd. split; [| repeat split].
  eapply node_free_heap_sub; eauto.
Qed.

Lemma extends_buf_fs_init : pres extends_buf fs_init.
Proof.
  intros s v s' H. unfold fs_init in H.
  apply bind_Ret in H as (r & s1 & Hnew & H). inversion H; subst. clear H.
  apply extends_buf_node_new in Hnew.
  intros a nd Hnd. destruct (Hnew a nd Hnd) as (nd' & Hnd' & Heq).
  exists nd'. split; [exact Hnd' | exact Heq].
Qed.

Lemma shrinks_buf_fs_destroy : pres shrinks_buf fs_destroy.
Proof.
  intros s v s' H. unfold fs_destroy in H.
  apply bind_Ret in H as (s0 & s1 & Hget & H). inversion Hget; subst.
  apply bind_Ret in H as (u & s2 & Hfree & H). inversion H; subst. clear H.
  apply shrinks_buf_node_free in Hfree.
  intros a nd Hnd. apply (Hfree a nd). exact Hnd.
Qed.

(** [create_file] allocates and, when the directory is full, releases
    the node it has just allocated; the nodes that were there keep
    their content and stay. *)
Lemma extends_buf_create_file path : pres extends_buf (create_file path).
Proof.
  intros s r s' H.
  destruct (Z.eq_dec r (-1)) as [-> | Hr].
  { apply create_file_fails in H as (Hh & Hroot & _).
    apply step_same; [exact Hh | exact Hroot]. }
  unfold create_file in H.
  apply bind_Ret in H as ([par w] & s1 & Hw & H).
  apply walk_Ret in Hw as [-> Hw].
  destruct par as [p|]; [| unfold ret in H; inversion H; congruence].
  apply bind_Ret in H as (pn & s2 & Hd & H).
  apply deref_Ret in Hd as [-> _].
  repeat match type of H with
         | (if ?b then _ else _) _ = _ =>
             destruct b; [unfold ret in H; inversion H; congruence |]
         end.
  apply bind_Ret in H as (c & s3 & Hf & H).
  apply lift_Ret in Hf as [-> Hf].
  destruct c; [unfold ret in H; inversion H; congruence |].
  destruct (is_readonly pn); [unfold ret in H; inversion H; congruence |].
  apply bind_Ret in H as (f & s4 & Hnew & H).
  apply bind_Ret in H as (x & s5 & Hadd & H).
  apply (step_trans s s4 s'); [eapply extends_buf_node_new; eauto |].
  apply (step_trans s4 s5 s').
  { eapply (fp_dir_add buffer_eq extends_buf); try exact Hadd;
      first [exact buffer_eq_trans | intros; split; reflexivity]. }
  destruct x as [c|].
  - apply bind_Ret in H as (now & s6 & Ht & H).
    apply time_Ret in Ht as [-> ->].
    apply bind_Ret in H as (u & s7 & Hm & H).
    unfold ret in H. inversion H; subst. clear H.
    apply modify_Ret in Hm as (n & Hn & ->).
    apply (step_trans _ (set_ticks (S (ticks s5)) s5));
      [apply step_same; reflexivity |].
    apply (step_modify _ _ n); [exact Hn | split; reflexivity].
  - exfalso. apply bind_Ret in H as (u & s6 & _ & H).
    unfold ret in H. inversion H; congruence.
Qed.

Lemma extends_buf_keeps s s' a nd nd' :
  extends_buf s s' -> heap s !! a = Some nd -> heap s' !! a = Some nd' ->
  buffer_eq nd nd'.
Proof.
  intros H Hnd Hnd'. destruct (H a nd Hnd) as (n & Hn & Heq). congruence.
Qed.

Lemma shrinks_buf_keeps s s' a nd nd' :
  shrinks_buf s s' -> heap s !! a = Some nd -> heap s' !! a = Some nd' ->
  buffer_eq nd nd'.
Proof.
  intros H Hnd Hnd'. destruct (H a nd' Hnd') as (n & Hn & Heq). congruence.
Qed.

Lemma buffer_eq_fields :
  (forall a b c, buffer_eq a b -> buffer_eq b c -> buffer_eq a c) /\
  (forall n t, buffer_eq n (set_accessed t n)) /\
  (forall n t, buffer_eq n (set_modified t n)) /\
  (forall n x, buffer_eq n (set_attributes x n)) /\
  (forall n cs, buffer_eq n (set_children cs n)) /\
  (forall n p, buffer_eq n (set_parent p n)) /\
  (forall n x, buffer_eq n (set_name (str_take NAME_MAX x) n)).
Proof.
  split; [exact buffer_eq_trans |]. repeat split; reflexivity.
Qed.

(** X10. The bytes and the size of a file change by [write_file] and
    [fs_write_fd] and by no other call, and those two change no file
    that carries the read-only attribute: across any other call, and
    across a write when the node is read-only, a node that is live
    before and after has the buffer and the size it had. *)
Theorem content_changes_by_writes_only c s r s' a nd nd' :
  caps_fit s ->
  exec c s = Ret r s' ->
  heap s !! a = Some nd -> heap s' !! a = Some nd' ->
  is_write c = false \/ is_readonly nd = true ->
  data nd' = data nd /\ size nd' = size nd.
Proof.
  intros Hcaps H Hnd Hnd' Hwhy.
  destruct buffer_eq_fields as (Ht & Hacc & Hmod & Hattr & Hch & Hpar & Hname).
  assert (Hext : extends_buf s s' -> buffer_eq nd nd')
    by (intros E; eapply extends_buf_keeps; eauto).
  assert (Hshr : shrinks_buf s s' -> buffer_eq nd nd')
    by (intros E; eapply shrinks_buf_keeps; eauto).
  assert (Hrefl : forall s0, extends_buf s0 s0)
    by (intros s0; apply step_same; reflexivity).
  pose proof (@step_trans _ _ extends_buf_step) as Htrans.
  destruct c; cbn [exec] in H.
  - apply Hext. apply bind_Ret in H as (u & s1 & Hi & H).
    inversion H; subst. eapply extends_buf_fs_init; eauto.
  - apply Hshr. apply bind_Ret in H as (u & s1 & Hi & H).
    inversion H; subst. eapply shrinks_buf_fs_destroy; eauto.
  - apply Hext. eapply (fp_fs_cd buffer_eq extends_buf); eauto.
  - apply Hext.
    eapply (fp_mkdir_p buffer_eq extends_buf); eauto using extends_buf_node_new.
  - apply Hshr.
    eapply (fp_rmdir_empty buffer_eq shrinks_buf);
      eauto using shrinks_buf_node_free.
  - apply Hext. eapply (fp_ls_dir buffer_eq extends_buf); eauto.
  - apply Hext. eapply (fp_fs_search buffer_eq extends_buf); eauto.
  - apply Hext. eapply extends_buf_create_file; eauto.
  - destruct Hwhy as [Hw | Hro]; [discriminate Hw |].
    destruct (write_file_cases _ _ _ _ _ _ Hcaps H)
      as [[_ ->] | (a0 & w & nd0 & k & _ & Hnd0 & _ & Hro0 & _ & _ & _ & _ & _
                    & ->)].
    + split; congruence.
    + cbn [heap set_heap set_ticks] in Hnd'.
      destruct (decide (a0 = a)) as [-> | Hne]; [congruence |].
      rewrite lookup_insert_ne in Hnd' by exact Hne. split; congruence.
  - apply Hext. eapply (pres_fst extends_buf (read_file path off len)); eauto.
    apply (fp_read_file buffer_eq extends_buf); eauto.
  - apply Hshr.
    eapply (fp_rm_file buffer_eq shrinks_buf); eauto using shrinks_buf_node_free.
  - apply Hext. eapply (fp_rename_file buffer_eq extends_buf); eauto.
  - apply Hext. eapply (fp_fs_open buffer_eq extends_buf); eauto.
  - apply Hext. eapply (fp_fs_close buffer_eq extends_buf); eauto.
  - apply Hext. eapply (pres_fst extends_buf (fs_read_fd fd len)); eauto.
    apply (fp_fs_read_fd buffer_eq extends_buf); eauto.
  - destruct Hwhy as [Hw | Hro]; [discriminate Hw |].
    destruct (fs_write_fd_cases _ _ _ _ _ Hcaps H)
      as [[_ ->] | (f & a0 & nd0 & k & _ & _ & Hnd0 & _ & _ & Hro0 & _ & _ & _
                    & _ & _ & ->)].
    + split; congruence.
    + cbn [heap set_heap set_ticks set_fd_table] in Hnd'.
      destruct (decide (a0 = a)) as [-> | Hne]; [congruence |].
      rewrite lookup_insert_ne in Hnd' by exact Hne. split; congruence.
  - apply Hext. eapply (fp_fs_seek buffer_eq extends_buf); eauto.
  - apply Hext. eapply (pres_fst extends_buf (get_file_info path)); eauto.
    apply (fp_get_file_info buffer_eq extends_buf); eauto.
  - apply Hext.
    eapply (fp_set_file_attributes buffer_eq extends_buf); eauto.
  - apply Hext. eapply (fp_touch_file buffer_eq extends_buf); eauto.
Qed.

Lemma content_changes_by_writes_only_witness :
  data (node_at (state_after (exec (Write_file "/a/b/c/f.txt" 0
                                      (bytes_of "x")))
                   with_readonly_file) 5%positive) =
    data (node_at with_readonly_file 5%positive) /\
  size (node_at (state_after (exec (Write_file "/a/b/c/f.txt" 0
                                      (bytes_of "x")))
                   with_readonly_file) 5%positive) =
    size (node_at with_readonly_file 5%positive).
Proof.
  apply (content_changes_by_writes_only
           (Write_file "/a/b/c/f.txt" 0 (bytes_of "x"))
           with_readonly_file (-1)
           (state_after (exec (Write_file "/a/b/c/f.txt" 0 (bytes_of "x")))
              with_readonly_file)
           5%positive).
  - apply caps_fit_b_true. vm_compute. reflexivity.
  - vm_compute. reflexivity.
  - vm_compute. reflexivity.
  - vm_compute. reflexivity.
  - right. vm_compute. reflexivity.
Defined.

(** ** Buffers stay sound *)

Lemma run_invariant (P : fs -> Prop) :
  (forall c s r s', exec c s = Ret r s' -> P s -> P s') ->
  forall cs s s', run cs s = Some s' -> P s -> P s'.
Proof.
  intros Hstep. induction cs as [|c cs IH]; intros s s' H Hs; cbn [run] in H.
  - inversion H; subst. exact Hs.
  - destruct (exec c s) as [r s1| |] eqn:E; try discriminate.
    eapply IH; [exact H |]. eapply Hstep; eauto.
Qed.

Lemma reachable_invariant (P : fs -> Prop) :
  (forall alloc clk, P (boot alloc clk)) ->
  (forall c s r s', exec c s = Ret r s' -> P s -> P s') ->
  forall s, reachable s -> P s.
Proof.
  intros Hboot Hstep s (alloc & clk & cs & Hrun).
  eapply run_invariant; [exact Hstep | exact Hrun | apply Hboot].
Qed.

Lemma reachable_caps_fit s : reachable s -> caps_fit s.
Proof.
  apply (reachable_invariant caps_fit); [apply boot_caps_fit |].
  intros c s0 r s' H Hs. eapply exec_keeps_caps_fit; eauto.
Qed.

(** In every state that the calls of the interface reach after
    [fs_init], the capacities are multiples of 64 that a [size_t]
    holds. *)
Lemma reachable_caps_aligned s : reachable s -> caps_aligned s.
Proof.
  apply (reachable_invariant caps_aligned); [apply boot_caps_aligned |].
  intros c s0 r s' H Hs. eapply exec_keeps_caps_aligned; eauto.
Qed.

Lemma sound_buffers_caps_fit s : sound_buffers s -> caps_fit s.
Proof. intros H a nd Hnd. apply (H a nd Hnd). Qed.

#[local] Instance keeps_buffers_step : StepRel buffer_eq keeps_buffers.
Proof.
  split.
  - intros s s' H _ Hs a nd. rewrite H. apply Hs.
  - intros s1 s2 s3 H12 H23 Hs. auto.
  - intros s a n n' Hn [Hd Hsz] Hs b nd. cbn [heap set_heap].
    destruct (decide (a = b)) as [<- | Hne].
    + rewrite lookup_insert_eq. intros H. inversion H; subst.
      specialize (Hs a n Hn). unfold buffer_ok, cap in *.
      rewrite Hd, Hsz. exact Hs.
    + rewrite lookup_insert_ne by exact Hne. apply Hs.
Qed.

Lemma keeps_buffers_node_new t nm par : pres keeps_buffers (node_new t nm par).
Proof.
  intros s v s' H. rewrite node_new_run in H. inversion H; subst. clear H.
  intros Hs a nd. cbn [heap set_heap set_ticks].
  destruct (decide (fresh (dom (heap s)) = a)) as [<- | Hne].
  - rewrite lookup_insert_eq. intros H. inversion H; subst.
    unfold buffer_ok, cap. cbn. split; [lia |]. split; [reflexivity |].
    intros i b _ Hb. rewrite lookup_nil in Hb. discriminate.
  - rewrite lookup_insert_ne by exact Hne. apply Hs.
Qed.

Lemma keeps_buffers_node_free n : pres keeps_buffers (node_free n).
Proof.
  intros s v s' H. unfold node_free in H.
  destruct (node_free_heap _ _ _) as [h'|] eqn:E; inversion H; subst.
  intros Hs a nd Hnd. apply (Hs a nd). eapply node_free_heap_sub; eauto.
Qed.

(** The node that a write leaves has a sound buffer. *)
Lemma written_buffer_ok nd k off buf now :
  buffer_ok nd -> 0 <= off ->
  off + Z.of_nat (length buf) <= cap nd + Z.of_nat k ->
  cap nd + Z.of_nat k < SIZE_MOD ->
  buffer_ok (written nd k off buf now).
Proof.
  intros (Hsz & Hcap & Hzero) Hoff Hfit Hmax.
  pose proof (written_length nd k off buf now Hoff Hfit) as Hlen.
  unfold buffer_ok. rewrite written_size. unfold cap in *. rewrite Hlen.
  split; [lia |]. split; [lia |].
  intros i b Hi Hb.
  rewrite written_outside in Hb by (unfold cap; lia).
  apply lookup_app_Some in Hb as [Hb | [_ Hb]].
  - apply (Hzero i b); [lia | exact Hb].
  - apply lookup_replicate in Hb as [-> _]. reflexivity.
Qed.

Lemma exec_keeps_buffers c s r s' :
  exec c s = Ret r s' -> sound_buffers s -> sound_buffers s'.
Proof.
  intros H Hs. pose proof (sound_buffers_caps_fit s Hs) as Hcaps.
  destruct buffer_eq_fields as (Ht & Hacc & Hmod & Hattr & Hch & Hpar & Hname).
  assert (Hrefl : forall s0, keeps_buffers s0 s0) by (intros s0 H0; exact H0).
  pose proof (@step_trans _ _ keeps_buffers_step) as Htrans.
  revert Hs. change (keeps_buffers s s').
  destruct c; cbn [exec] in H.
  - apply bind_Ret in H as (u & s1 & Hi & H). inversion H; subst. clear H.
    unfold fs_init in Hi.
    apply bind_Ret in Hi as (p & s2 & Hnew & H). inversion H; subst. clear H.
    apply keeps_buffers_node_new in Hnew. exact Hnew.
  - apply bind_Ret in H as (u & s1 & Hi & H). inversion H; subst. clear H.
    unfold fs_destroy in Hi.
    apply bind_Ret in Hi as (s0 & s2 & Hget & H). inversion Hget; subst.
    apply bind_Ret in H as (u' & s3 & Hfree & H). inversion H; subst. clear H.
    apply keeps_buffers_node_free in Hfree. exact Hfree.
  - eapply (fp_fs_cd buffer_eq keeps_buffers); eauto.
  - eapply (fp_mkdir_p buffer_eq keeps_buffers);
      eauto using keeps_buffers_node_new.
  - eapply (fp_rmdir_empty buffer_eq keeps_buffers);
      eauto using keeps_buffers_node_free.
  - eapply (fp_ls_dir buffer_eq keeps_buffers); eauto.
  - eapply (fp_fs_search buffer_eq keeps_buffers); eauto.
  - eapply (fp_create_file buffer_eq keeps_buffers);
      eauto using keeps_buffers_node_new, keeps_buffers_node_free.
  - destruct (write_file_cases _ _ _ _ _ _ Hcaps H)
      as [[_ ->] | (a0 & w & nd0 & k & _ & Hnd0 & _ & _ & _ & Hoff & Hfit
                    & Hmax & _ & ->)]; [apply Hrefl |].
    intros Hs b nd. cbn [heap set_heap set_ticks].
    destruct (decide (a0 = b)) as [<- | Hne].
    + rewrite lookup_insert_eq. intros E. inversion E; subst.
      apply written_buffer_ok; auto. apply (Hs a0 nd0 Hnd0).
    + rewrite lookup_insert_ne by exact Hne. apply Hs.
  - eapply (pres_fst keeps_buffers (read_file path off len)); eauto.
    apply (fp_read_file buffer_eq keeps_buffers); eauto.
  - eapply (fp_rm_file buffer_eq keeps_buffers);
      eauto using keeps_buffers_node_free.
  - eapply (fp_rename_file buffer_eq keeps_buffers); eauto.
  - eapply (fp_fs_open buffer_eq keeps_buffers); eauto.
  - eapply (fp_fs_close buffer_eq keeps_buffers); eauto.
  - eapply (pres_fst keeps_buffers (fs_read_fd fd len)); eauto.
    apply (fp_fs_read_fd buffer_eq keeps_buffers); eauto.
  - destruct (fs_write_fd_cases _ _ _ _ _ Hcaps H)
      as [[_ ->] | (f & a0 & nd0 & k & _ & _ & Hnd0 & _ & _ & _ & _ & Hoff
                    & Hfit & Hmax & _ & ->)]; [apply Hrefl |].
    intros Hs b nd. cbn [heap set_heap set_ticks set_fd_table].
    destruct (decide (a0 = b)) as [<- | Hne].
    + rewrite lookup_insert_eq. intros E. inversion E; subst.
      apply written_buffer_ok; auto. apply (Hs a0 nd0 Hnd0).
    + rewrite lookup_insert_ne by exact Hne. apply Hs.
  - eapply (fp_fs_seek buffer_eq keeps_buffers); eauto.
  - eapply (pres_fst keeps_buffers (get_file_info path)); eauto.
    apply (fp_get_file_info buffer_eq keeps_buffers); eauto.
  - eapply (fp_set_file_attributes buffer_eq keeps_buffers); eauto.
  - eapply (fp_touch_file buffer_eq keeps_buffers); eauto.
Qed.

Lemma boot_sound_buffers alloc clk : sound_buffers (boot alloc clk).
Proof. intros a nd H. cbn in H. rewrite lookup_empty in H. discriminate. Qed.

Lemma reachable_sound_buffers s : reachable s -> sound_buffers s.
Proof.
  apply (reachable_invariant sound_buffers); [apply boot_sound_buffers |].
  intros c s0 r s' H Hs. eapply exec_keeps_buffers; eauto.
Qed.

Lemma reachable_with_data : reachable with_data.
Proof.
  exists always_grants, wall_clock, scenario. vm_compute. reflexivity.
Qed.

(** X11. In every state that calls of the interface reach after
    [fs_init], the buffer of every node is sound: the size is not
    negative and does not exceed the capacity, the capacity is a
    64-bit value, and every allocated byte at or after the size is
    zero. Every call that returns hands the property on. *)
Theorem buffers_stay_sound :
  (forall s, reachable s -> sound_buffers s) /\
  (forall c s r s',
     sound_buffers s -> exec c s = Ret r s' -> sound_buffers s').
Proof.
  split.
  - apply reachable_sound_buffers.
  - intros c s r s' Hs H. eapply exec_keeps_buffers; eauto.
Qed.

Lemma buffers_stay_sound_witness : sound_buffers with_data.
Proof.
  destruct buffers_stay_sound as [H _]. apply H.
  exists always_grants, wall_clock, scenario. vm_compute. reflexivity.
Defined.

(** ** Reads stay inside the buffer *)

Lemma read_file_spec_aux s path off len a w nd :
  sound_buffers s ->
  walk_from s (cwd s) path false = Some (Some a, w) ->
  heap s !! a = Some nd -> type nd = N_FILE ->
  0 <= off -> 0 <= len ->
  exists s',
    read_file path off len s =
      Ret (to_signed (Z.max 0 (Z.min len (size nd - off))),
           take (Z.to_nat (Z.min len (size nd - off)))
                (drop (Z.to_nat off) (data nd)))
          s'.
Proof.
  intros Hs Hw Hnd Hty Hoff Hlen.
  destruct (Hs a nd Hnd) as ((Hsz0 & Hsz) & Hcap & _).
  unfold read_file.
  rewrite (bind_run _ _ _ _ _ (walk_run _ _ _ _ Hw)).
  rewrite (bind_run _ _ _ _ _ (deref_live _ _ _ Hnd)).
  unfold is_file. rewrite Hty. cbn [node_type_eqb negb].
  destruct (size nd <=? off) eqn:Eend.
  - apply Z.leb_le in Eend.
    rewrite Z.max_l by lia.
    replace (Z.to_nat (Z.min len (size nd - off))) with 0%nat by lia.
    rewrite take_0. eexists. reflexivity.
  - apply Z.leb_gt in Eend.
    assert ((if len <? size nd - off then len else size nd - off) =
            Z.min len (size nd - off)) as ->.
    { destruct (len <? size nd - off) eqn:E.
      - apply Z.ltb_lt in E. lia.
      - apply Z.ltb_ge in E. lia. }
    rewrite Z.max_r by lia.
    unfold memcpy_from.
    replace (0 <=? off) with true by (symmetry; apply Z.leb_le; lia).
    replace (off + Z.min len (size nd - off) <=? Z.of_nat (length (data nd)))
      with true by (symmetry; apply Z.leb_le; unfold cap in *; lia).
    cbn [andb]. unfold bind, time, modify, ret.
    cbn [heap set_heap set_ticks]. rewrite Hnd. eexists. reflexivity.
Qed.

(** X12. On sound buffers a read stays inside the buffer and cannot
    fail: when the path names a file, [read_file(path, off, len)]
    returns; the count [n] is the smaller of [len] and what the file
    holds from [off] on (0 at or past the end); the bytes handed back
    are [n] bytes, those of the file from [off]; and the range copied,
    from [off] to [off + n], lies within the size and so within the
    capacity of the buffer. *)
Theorem read_file_in_bounds s path off len a w nd :
  sound_buffers s ->
  walk_from s (cwd s) path false = Some (Some a, w) ->
  heap s !! a = Some nd -> type nd = N_FILE ->
  0 <= off -> 0 <= len ->
  let n := Z.max 0 (Z.min len (size nd - off)) in
  exists s' bytes,
    read_file path off len s = Ret (to_signed n, bytes) s' /\
    bytes = take (Z.to_nat n) (drop (Z.to_nat off) (data nd)) /\
    Z.of_nat (length bytes) = n /\
    (n = 0 \/ off + n <= size nd <= cap nd).
Proof.
  intros Hs Hw Hnd Hty Hoff Hlen n.
  destruct (read_file_spec_aux s path off len a w nd Hs Hw Hnd Hty Hoff Hlen)
    as (s' & Hrun).
  destruct (Hs a nd Hnd) as ((Hsz0 & Hsz) & Hcap & _).
  assert (Hn : Z.to_nat (Z.min len (size nd - off)) = Z.to_nat n)
    by (unfold n; lia).
  rewrite Hn in Hrun. exists s', (take (Z.to_nat n)
                                   (drop (Z.to_nat off) (data nd))).
  split; [exact Hrun |]. split; [reflexivity |]. split.
  - rewrite length_take, length_drop. unfold cap in Hsz. unfold n. lia.
  - unfold n. lia.
Qed.

Lemma read_file_in_bounds_witness :
  exists s' bytes,
    read_file "/a/b/c/f.txt" 7 100 with_data
      = Ret (to_signed
               (Z.max 0 (Z.min 100 (size (node_at with_data 5%positive) - 7))),
             bytes) s' /\
    bytes = take (Z.to_nat
                    (Z.max 0 (Z.min 100
                                (size (node_at with_data 5%positive) - 7))))
                 (drop (Z.to_nat 7) (data (node_at with_data 5%positive))) /\
    Z.of_nat (length bytes)
      = Z.max 0 (Z.min 100 (size (node_at with_data 5%positive) - 7)) /\
    (Z.max 0 (Z.min 100 (size (node_at with_data 5%positive) - 7)) = 0 \/
     7 + Z.max 0 (Z.min 100 (size (node_at with_data 5%positive) - 7))
       <= size (node_at with_data 5%positive)
       <= cap (node_at with_data 5%positive)).
Proof.
  apply (read_file_in_bounds with_data "/a/b/c/f.txt" 7 100 5%positive None).
  - apply reachable_sound_buffers. apply reachable_with_data.
  - vm_compute. reflexivity.
  - vm_compute. reflexivity.
  - vm_compute. reflexivity.
  - lia.
  - lia.
Defined.

(** X13. A write that starts past the end of a file leaves zeros in
    between: after [write_file(path, off, buf, len)] has returned
    [len] on a file of size [size <= off], reading the [off - size]
    bytes from the old end returns that many zero bytes. *)
Theorem write_past_end_zero_fills s path off buf s' a w nd :
  sound_buffers s ->
  walk_from s (cwd s) path false = Some (Some a, w) ->
  heap s !! a = Some nd ->
  size nd <= off -> off - size nd < SSIZE_MOD ->
  write_file path off buf s = Ret (Z.of_nat (length buf)) s' ->
  exists s'',
    read_file path (size nd) (off - size nd) s' =
      Ret (off - size nd, replicate (Z.to_nat (off - size nd)) x00) s''.
Proof.
  intros Hs Hwalk Hnd Hpast Hsmall Hw.
  pose proof (sound_buffers_caps_fit s Hs) as Hcaps.
  destruct (write_file_ok _ _ _ _ _ _ Hcaps Hw ltac:(lia))
    as (a' & w' & nd0 & k & Hwalk' & Hnd0 & Hty & _ & _ & Hoff & Hfit & Hmax
        & _ & ->).
  rewrite Hwalk in Hwalk'. inversion Hwalk'; subst a' w'. clear Hwalk'.
  rewrite Hnd in Hnd0. inversion Hnd0; subst nd0. clear Hnd0.
  destruct (Hs a nd Hnd) as ((Hsz0 & Hsz) & Hcap & Hzero).
  set (nd' := written nd k off buf (clock s (ticks s))).
  set (s1 := set_heap _ _).
  assert (Hs1 : sound_buffers s1).
  { eapply (exec_keeps_buffers (Write_file path off buf)); [exact Hw | exact Hs]. }
  assert (Hw1 : walk_from s1 (cwd s1) path false = Some (Some a, w)).
  { subst s1. cbn [cwd set_heap set_ticks].
    rewrite (walk_from_update s a nd nd')
      by (assumption || apply written_shape).
    exact Hwalk. }
  assert (Hnd1 : heap s1 !! a = Some nd')
    by (subst s1; cbn [heap set_heap]; apply lookup_insert_eq).
  assert (Hty1 : type nd' = N_FILE) by exact Hty.
  destruct (read_file_spec_aux s1 path (size nd) (off - size nd) a w nd'
              Hs1 Hw1 Hnd1 Hty1 ltac:(lia) ltac:(lia)) as (s2 & Hread).
  exists s2. rewrite Hread.
  assert (Hsize' : size nd' = Z.max (size nd) (off + Z.of_nat (length buf)))
    by reflexivity.
  assert (Z.min (off - size nd) (size nd' - size nd) = off - size nd) as ->
    by lia.
  rewrite Z.max_r by lia. rewrite to_signed_small by lia.
  f_equal. f_equal.
  assert (Hlen : length (data nd') = (length (data nd) + k)%nat)
    by (apply written_length; assumption).
  apply list_eq. intros j.
  destruct (decide (j < Z.to_nat (off - size nd))%nat) as [Hj | Hj].
  - rewrite lookup_take_lt by exact Hj. rewrite lookup_drop.
    rewrite lookup_replicate_2 by exact Hj.
    unfold nd'. rewrite written_outside by (assumption || lia).
    destruct (decide (Z.to_nat (size nd) + j < length (data nd))%nat)
      as [Hin | Hout].
    + rewrite lookup_app_l by exact Hin.
      destruct (data nd !! (Z.to_nat (size nd) + j)%nat) as [b|] eqn:Eb.
      * f_equal.
        apply (Hzero (Z.to_nat (size nd) + j)%nat b); [lia | exact Eb].
      * apply lookup_ge_None in Eb. lia.
    + rewrite lookup_app_r by lia. apply lookup_replicate_2.
      unfold cap in *. lia.
  - rewrite lookup_take_ge by lia.
    symmetry. apply lookup_ge_None. rewrite length_replicate. lia.
Qed.

Lemma write_past_end_zero_fills_witness :
  exists s'',
    read_file "/a/b/c/f.txt" (size (node_at with_data 5%positive))
              (20 - size (node_at with_data 5%positive))
              (state_after (write_file "/a/b/c/f.txt" 20 (bytes_of "tail"))
                 with_data) =
      Ret (20 - size (node_at with_data 5%positive),
           replicate (Z.to_nat (20 - size (node_at with_data 5%positive)))
                     x00) s''.
Proof.
  apply (write_past_end_zero_fills with_data "/a/b/c/f.txt" 20
           (bytes_of "tail") _ 5%positive None).
  - apply reachable_sound_buffers. apply reachable_with_data.
  - vm_compute. reflexivity.
  - vm_compute. reflexivity.
  - vm_compute. discriminate.
  - vm_compute. reflexivity.
  - vm_compute. reflexivity.
Defined.

(** ** The links of the tree *)

(** *** Lists of entries *)

Lemma index_of_Some c : forall cs i,
  index_of c cs = Some i -> cs !! i = Some c.
Proof.
  induction cs as [|x cs IH]; intros i H; cbn [index_of] in H;
    [discriminate |].
  destruct (Pos.eqb x c) eqn:E.
  - apply Pos.eqb_eq in E. inversion H; subst. reflexivity.
  - destruct (index_of c cs) as [j|]; cbn in H; [| discriminate].
    inversion H; subst. cbn. apply IH. reflexivity.
Qed.

Lemma index_of_None_inv c : forall cs, index_of c cs = None -> c ∉ cs.
Proof.
  induction cs as [|x cs IH]; intros H Hin; cbn [index_of] in H.
  - apply elem_of_nil in Hin. exact Hin.
  - destruct (Pos.eqb x c) eqn:E; [discriminate |].
    apply Pos.eqb_neq in E.
    destruct (index_of c cs) as [j|]; cbn in H; [discriminate |].
    apply elem_of_cons in Hin as [-> | Hin]; [congruence |].
    apply IH; [reflexivity | exact Hin].
Qed.

(** Taking the entry at [i] out by swapping the last one in: the
    entries that remain are the others, in some order. *)
Lemma swap_remove_perm cs i c :
  cs !! i = Some c -> cs ≡ₚ c :: swap_remove i cs.
Proof.
  intros Hi. unfold swap_remove.
  destruct (last cs) as [l|] eqn:El.
  2:{ apply last_None in El. subst. discriminate. }
  apply last_Some in El as [cs0 ->].
  rewrite length_app. cbn [length].
  replace (length cs0 + 1 - 1)%nat with (length cs0) by lia.
  destruct (decide (i = length cs0)) as [-> | Hne].
  - rewrite lookup_app_r in Hi by lia.
    replace (length cs0 - length cs0)%nat with 0%nat in Hi by lia.
    cbn in Hi. inversion Hi; subst l.
    rewrite insert_app_r_alt by lia.
    replace (length cs0 - length cs0)%nat with 0%nat by lia.
    cbn [insert list_insert]. rewrite take_app_length.
    rewrite Permutation_app_comm. reflexivity.
  - assert (Hlt : (i < length cs0)%nat).
    { apply lookup_lt_Some in Hi. rewrite length_app in Hi. cbn in Hi. lia. }
    rewrite lookup_app_l in Hi by exact Hlt.
    rewrite insert_app_l by exact Hlt.
    rewrite take_app_length' by (rewrite length_insert; reflexivity).
    rewrite insert_take_drop by exact Hlt.
    rewrite <- (take_drop_middle cs0 i c Hi) at 1.
    rewrite <- app_assoc. cbn [app].
    rewrite <- Permutation_middle. apply perm_skip.
    apply Permutation_app_head.
    rewrite Permutation_app_comm. reflexivity.
Qed.

Lemma swap_remove_elem cs i c y :
  NoDup cs -> cs !! i = Some c ->
  y ∈ swap_remove i cs <-> y ∈ cs /\ y <> c.
Proof.
  intros Hnd Hi. pose proof (swap_remove_perm cs i c Hi) as Hp.
  apply (NoDup_Permutation_proper _ _ Hp) in Hnd.
  apply NoDup_cons in Hnd as [Hnotin Hnd].
  pose proof (elem_of_Permutation_proper y _ _ Hp) as Hiff.
  rewrite Hiff, elem_of_cons. split.
  - intros Hy. split; [right; exact Hy |]. intros ->. contradiction.
  - intros [[-> | Hy] Hne]; [congruence | exact Hy].
Qed.

Lemma swap_remove_NoDup cs i c :
  NoDup cs -> cs !! i = Some c -> NoDup (swap_remove i cs).
Proof.
  intros Hnd Hi.
  apply (NoDup_Permutation_proper _ _ (swap_remove_perm cs i c Hi)) in Hnd.
  apply NoDup_cons in Hnd as [_ Hnd]. exact Hnd.
Qed.

Lemma swap_remove_length cs i c :
  cs !! i = Some c -> length cs = S (length (swap_remove i cs)).
Proof.
  intros Hi.
  apply (length_Permutation_proper _ _ (swap_remove_perm cs i c Hi)).
Qed.

(** *** Updates of the heap that keep the links *)

(** An update in place that keeps type, parent and entries. *)
Lemma linked_update h a n n' :
  linked h -> h !! a = Some n ->
  type n' = type n -> parent n' = parent n -> children n' = children n ->
  (strlen (name n') <= NAME_MAX)%nat ->
  linked (<[a := n']> h).
Proof.
  intros Hl Hn Hty Hpar Hch Hname d nd Hd.
  assert (exists nd0, h !! d = Some nd0 /\ type nd = type nd0 /\
                      children nd = children nd0 /\
                      (strlen (name nd) <= NAME_MAX)%nat)
    as (nd0 & Hd0 & Ety & Ech & Ename).
  { destruct (decide (a = d)) as [<- | Hne].
    - rewrite lookup_insert_eq in Hd. inversion Hd; subst nd.
      exists n. auto.
    - rewrite lookup_insert_ne in Hd by exact Hne. exists nd.
      repeat split; auto. apply (Hl d nd Hd). }
  destruct (Hl d nd0 Hd0) as (H1 & H2 & H3 & _ & H5).
  unfold node_ok, child_count in *. rewrite Ety, Ech.
  repeat split; auto.
  intros c Hc. destruct (H5 c Hc) as (cn & Hcn & Hp).
  destruct (decide (a = c)) as [<- | Hne].
  - exists n'. rewrite lookup_insert_eq. split; [reflexivity | congruence].
  - exists cn. rewrite lookup_insert_ne by exact Hne. auto.
Qed.

(** A new node without entries. *)
Lemma linked_alloc h a n :
  linked h -> h !! a = None -> children n = [] ->
  (strlen (name n) <= NAME_MAX)%nat ->
  linked (<[a := n]> h).
Proof.
  intros Hl Ha Hch Hname d nd Hd.
  destruct (decide (a = d)) as [<- | Hne].
  - rewrite lookup_insert_eq in Hd. inversion Hd; subst nd.
    unfold node_ok, child_count. rewrite Hch.
    repeat split; auto; try (cbn; lia).
    + intros H. congruence.
    + apply NoDup_nil_2.
    + intros c Hc. apply elem_of_nil in Hc. contradiction.
  - rewrite lookup_insert_ne in Hd by exact Hne.
    destruct (Hl d nd Hd) as (H1 & H2 & H3 & H4 & H5).
    repeat split; auto.
    intros c Hc. destruct (H5 c Hc) as (cn & Hcn & Hp).
    exists cn. split; [| exact Hp].
    rewrite lookup_insert_ne; [exact Hcn | congruence].
Qed.

(** The entry [c] is appended to the directory [d] and its parent
    pointer set to [d]; [c] was an entry of no directory, or [d] is
    its parent already. The two nodes may be one. *)
Lemma linked_attach h d c dn c1 :
  linked h -> h !! d = Some dn -> type dn = N_DIR ->
  (child_count dn < MAX_CHILDREN)%nat -> c ∉ children dn ->
  (<[d := set_children (children dn ++ [c]) dn]> h) !! c = Some c1 ->
  parent c1 = NULL \/ parent c1 = Some d ->
  linked (<[c := set_parent (Some d) c1]>
            (<[d := set_children (children dn ++ [c]) dn]> h)).
Proof.
  intros Hl Hd Hdir Hroom Hnotin Hc1 Hpar.
  set (h1 := <[d := set_children (children dn ++ [c]) dn]> h) in *.
  set (hf := <[c := set_parent (Some d) c1]> h1).
  (* every node of the new heap comes from a node of the old one *)
  assert (Hfrom : forall x nx, hf !! x = Some nx ->
            exists ox, h !! x = Some ox /\ type nx = type ox /\
                       name nx = name ox /\
                       children nx = (if decide (x = d)
                                      then children dn ++ [c]
                                      else children ox) /\
                       parent nx = (if decide (x = c) then Some d
                                    else parent ox)).
  { intros x nx Hx. subst hf h1.
    destruct (decide (x = c)) as [-> | Hxc].
    - rewrite lookup_insert_eq in Hx. inversion Hx; subst nx. clear Hx.
      destruct (decide (c = d)) as [-> | Hcd].
      + rewrite lookup_insert_eq in Hc1. inversion Hc1; subst c1.
        exists dn. repeat split; auto.
      + rewrite lookup_insert_ne in Hc1 by congruence.
        exists c1. repeat split; auto.
    - rewrite lookup_insert_ne in Hx by congruence.
      destruct (decide (x = d)) as [-> | Hxd].
      + rewrite lookup_insert_eq in Hx. inversion Hx; subst nx.
        exists dn. repeat split; auto.
      + rewrite lookup_insert_ne in Hx by congruence.
        exists nx. repeat split; auto. }
  (* every node of the old heap is still there, with its parent *)
  assert (Hto : forall y oy, h !! y = Some oy ->
            exists ny, hf !! y = Some ny /\
                       parent ny = (if decide (y = c) then Some d
                                    else parent oy)).
  { intros y oy Hy. subst hf h1.
    destruct (decide (y = c)) as [-> | Hyc].
    - eexists. rewrite lookup_insert_eq. split; reflexivity.
    - rewrite lookup_insert_ne by congruence.
      destruct (decide (y = d)) as [-> | Hyd].
      + eexists. rewrite lookup_insert_eq. split; [reflexivity |].
        cbn. congruence.
      + rewrite lookup_insert_ne by congruence. exists oy. auto. }
  assert (Hclive : exists oc, h !! c = Some oc /\
                              (parent oc = NULL \/ parent oc = Some d)).
  { subst h1. destruct (decide (c = d)) as [-> | Hcd].
    - rewrite lookup_insert_eq in Hc1. inversion Hc1; subst c1.
      exists dn. auto.
    - rewrite lookup_insert_ne in Hc1 by congruence. exists c1. auto. }
  destruct Hclive as (oc & Hoc & Hocpar).
  intros x nx Hx.
  destruct (Hfrom x nx Hx) as (ox & Hox & Ety & Ename & Ech & Epar).
  destruct (Hl x ox Hox) as (H1 & H2 & H3 & H4 & H5).
  unfold node_ok, child_count in *. rewrite Ety, Ename, Ech.
  destruct (decide (x = d)) as [-> | Hxd].
  - rewrite Hd in Hox. inversion Hox; subst ox.
    split; [intros _; exact Hdir |].
    split.
    { apply NoDup_app. split; [exact H2 |]. split.
      - intros y Hy Hy'. apply list_elem_of_singleton in Hy'. subst y.
        contradiction.
      - apply NoDup_singleton. }
    split; [rewrite length_app; cbn; lia |].
    split; [exact H4 |].
    intros y Hy. apply elem_of_app in Hy as [Hy | Hy].
    + destruct (H5 y Hy) as (oy & Hoy & Hp).
      destruct (Hto y oy Hoy) as (ny & Hny & Hpy).
      exists ny. split; [exact Hny |].
      destruct (decide (y = c)); congruence.
    + apply list_elem_of_singleton in Hy. subst y.
      destruct (Hto c oc Hoc) as (ny & Hny & Hpy).
      exists ny. split; [exact Hny |].
      destruct (decide (c = c)); congruence.
  - repeat split; auto.
    intros y Hy. destruct (H5 y Hy) as (oy & Hoy & Hp).
    destruct (Hto y oy Hoy) as (ny & Hny & Hpy).
    exists ny. split; [exact Hny |].
    destruct (decide (y = c)) as [-> | Hyc]; [| congruence].
    rewrite Hoc in Hoy. inversion Hoy; subst oy.
    destruct Hocpar; congruence.
Qed.

(** The entry at slot [i] of the directory [p] is taken out of the
    list and its node released. *)
Lemma linked_remove h p pn i c :
  linked h -> h !! p = Some pn -> children pn !! i = Some c -> c <> p ->
  linked (delete c (<[p := set_children (swap_remove i (children pn)) pn]> h)).
Proof.
  intros Hl Hp Hi Hcp x nx Hx.
  apply lookup_delete_Some in Hx as [Hxc Hx].
  destruct (Hl p pn Hp) as (P1 & P2 & P3 & P4 & P5).
  assert (Hcin : c ∈ children pn) by (eapply list_elem_of_lookup_2; eauto).
  assert (Hkeep : forall y oy, h !! y = Some oy -> y <> c ->
            exists ny,
              delete c (<[p := set_children (swap_remove i (children pn)) pn]>
                          h) !! y = Some ny /\ parent ny = parent oy).
  { intros y oy Hy Hyc. rewrite lookup_delete_ne by congruence.
    destruct (decide (y = p)) as [-> | Hyp].
    - rewrite lookup_insert_eq. eexists. split; [reflexivity |].
      cbn. congruence.
    - rewrite lookup_insert_ne by congruence. exists oy. auto. }
  destruct (decide (x = p)) as [-> | Hxp].
  - rewrite lookup_insert_eq in Hx. inversion Hx; subst nx. clear Hx.
    unfold node_ok, child_count. cbn [type name children set_children].
    split.
    { intros _. apply P1. intros E. rewrite E in Hcin.
      apply elem_of_nil in Hcin. exact Hcin. }
    split; [eapply swap_remove_NoDup; eauto |].
    split.
    { pose proof (swap_remove_length _ _ _ Hi) as Hlen.
      unfold child_count in P3. lia. }
    split; [exact P4 |].
    intros y Hy. apply (swap_remove_elem _ _ _ _ P2 Hi) in Hy as [Hy Hyc].
    destruct (P5 y Hy) as (oy & Hoy & Hpar).
    destruct (Hkeep y oy Hoy Hyc) as (ny & Hny & Hpy).
    exists ny. split; [exact Hny | congruence].
  - rewrite lookup_insert_ne in Hx by congruence.
    destruct (Hl x nx Hx) as (H1 & H2 & H3 & H4 & H5).
    repeat split; auto.
    intros y Hy. destruct (H5 y Hy) as (oy & Hoy & Hpar).
    assert (Hyc : y <> c).
    { intros ->. destruct (P5 c Hcin) as (oc & Hoc & Hpc). congruence. }
    destruct (Hkeep y oy Hoy Hyc) as (ny & Hny & Hpy).
    exists ny. split; [exact Hny | congruence].
Qed.

(** A node that no directory lists is released. *)
Lemma linked_delete h c :
  linked h ->
  (forall x nx, h !! x = Some nx -> c ∉ children nx) ->
  linked (delete c h).
Proof.
  intros Hl Hfree x nx Hx. apply lookup_delete_Some in Hx as [Hxc Hx].
  destruct (Hl x nx Hx) as (H1 & H2 & H3 & H4 & H5).
  repeat split; auto.
  intros y Hy. destruct (H5 y Hy) as (oy & Hoy & Hpar).
  exists oy. split; [| exact Hpar].
  rewrite lookup_delete_ne; [exact Hoy |].
  intros <-. apply (Hfree x nx Hx). exact Hy.
Qed.

(** *** The calls keep the links *)

Lemma tree_update s a n n' :
  tree_ok s -> heap s !! a = Some n -> shape_eq n n' ->
  tree_ok (set_heap (<[a := n']> (heap s)) s).
Proof.
  intros [Hl Hr] Hn (Hty & Hname & Hpar & Hch). split.
  - cbn [heap set_heap]. apply (linked_update _ _ n); auto.
    rewrite <- Hname. apply (Hl a n Hn).
  - intros r Hroot. cbn [root heap set_heap] in *.
    destruct (Hr r Hroot) as (rn & Hrn & Hrt & Hrp).
    destruct (decide (a = r)) as [<- | Hne].
    + exists n'. rewrite lookup_insert_eq. split; [reflexivity |].
      split; congruence.
    + exists rn. rewrite lookup_insert_ne by exact Hne. auto.
Qed.

#[local] Instance tree_step_rel : StepRel shape_eq tree_step.
Proof.
  split.
  - intros s s' Hh Hr. split; [exact Hr |]. intros [Hl Hroot]. split.
    + rewrite Hh. exact Hl.
    + intros r Hr'. rewrite Hh. apply Hroot. congruence.
  - intros s1 s2 s3 [R12 H12] [R23 H23]. split; [congruence | auto].
  - intros s a n n' Hn Hk. split; [reflexivity |].
    intros Ht. apply (tree_update _ _ n); assumption.
Qed.

Lemma tree_step_refl s : tree_step s s.
Proof. apply step_same; reflexivity. Qed.

Lemma shape_eq_fields :
  (forall a b c, shape_eq a b -> shape_eq b c -> shape_eq a c) /\
  (forall n t, shape_eq n (set_accessed t n)) /\
  (forall n t, shape_eq n (set_modified t n)) /\
  (forall n x, shape_eq n (set_attributes x n)) /\
  (forall n d, shape_eq n (set_data d n)) /\
  (forall n x, shape_eq n (set_size x n)).
Proof.
  split.
  - intros a b c (H1 & H2 & H3 & H4) (G1 & G2 & G3 & G4).
    repeat split; congruence.
  - repeat split; reflexivity.
Qed.

Lemma tree_step_node_new t nm par s p s' :
  node_new t nm par s = Ret p s' ->
  tree_step s s' /\ heap s !! fresh (dom (heap s)) = None /\
  p = Some (fresh (dom (heap s))).
Proof.
  intros H. rewrite node_new_run in H. inversion H; subst. clear H.
  split; [| split; [apply fresh_not_live | reflexivity]].
  split; [reflexivity |]. intros [Hl Hr]. split.
  - cbn [heap set_heap set_ticks]. apply linked_alloc; auto.
    + apply fresh_not_live.
    + apply str_take_length.
  - intros r Hroot. cbn [root heap set_heap set_ticks] in *.
    destruct (Hr r Hroot) as (rn & Hrn & Hrt & Hrp).
    exists rn. rewrite lookup_insert_ne; [auto |].
    intros <-. rewrite fresh_not_live in Hrn. discriminate.
Qed.

Lemma dir_add_cases dir child s r s' :
  dir_add dir child s = Ret r s' ->
  s' = s \/
  exists d c dn c1 d2,
    dir = Some d /\ child = Some c /\
    heap s !! d = Some dn /\ type dn = N_DIR /\
    (child_count dn < MAX_CHILDREN)%nat /\ (c ∉ children dn) /\
    (<[d := set_children (children dn ++ [c]) dn]> (heap s)) !! c
      = Some c1 /\
    (parent c1 = NULL \/ parent c1 = Some d) /\
    (<[c := set_parent (Some d) c1]>
       (<[d := set_children (children dn ++ [c]) dn]> (heap s))) !! d
      = Some d2 /\
    s' = set_heap
           (<[d := stamp_both (clock s (ticks s)) d2]>
              (<[c := set_parent (Some d) c1]>
                 (<[d := set_children (children dn ++ [c]) dn]> (heap s))))
           (set_ticks (S (ticks s)) s).
Proof.
  unfold dir_add. intros H.
  destruct dir as [d|]; [| inversion H; auto].
  apply bind_Ret in H as (dn & s1 & Hd & H).
  apply deref_Ret in Hd as [-> (d' & Hd' & Hdn)]. inversion Hd'; subst d'.
  destruct (negb (is_dir dn) || (MAX_CHILDREN <=? child_count dn)%nat)
    eqn:Echeck; [inversion H; auto |].
  apply orb_false_iff in Echeck as [Edir Eroom].
  apply Nat.leb_gt in Eroom.
  destruct child as [c|]; [| inversion H; auto].
  apply bind_Ret in H as (cn & s1 & Hc & H).
  apply deref_Ret in Hc as [-> (c' & Hc' & Hcn)]. inversion Hc'; subst c'.
  destruct (match parent cn with
            | Some p => negb (p =? d)%positive
            | None => false
            end) eqn:Epar; [inversion H; auto |].
  destruct (index_of c (children dn)) as [i|] eqn:Eidx; [inversion H; auto |].
  apply index_of_None_inv in Eidx.
  apply bind_Ret in H as (u1 & s1 & Hm1 & H).
  apply modify_Ret in Hm1 as (n1 & Hn1 & ->).
  rewrite Hdn in Hn1. inversion Hn1; subst n1. clear Hn1.
  apply bind_Ret in H as (u2 & s2 & Hm2 & H).
  apply modify_Ret in Hm2 as (c1 & Hc1 & ->).
  cbn [heap set_heap] in Hc1.
  apply bind_Ret in H as (now & s3 & Ht & H).
  apply time_Ret in Ht as [-> ->].
  apply bind_Ret in H as (u3 & s4 & Hm3 & H).
  apply modify_Ret in Hm3 as (d2 & Hd2 & ->).
  cbn [heap set_heap set_ticks] in Hd2.
  unfold ret in H. inversion H; subst. clear H.
  right. exists d, c, dn, c1, d2.
  split; [reflexivity |]. split; [reflexivity |]. split; [exact Hdn |].
  split.
  { unfold is_dir in Edir. destruct (type dn); [reflexivity | discriminate]. }
  split; [exact Eroom |]. split; [exact Eidx |]. split; [exact Hc1 |].
  split.
  { assert (parent c1 = parent cn) as ->.
    { destruct (decide (c = d)) as [-> | Hne].
      - rewrite lookup_insert_eq in Hc1. inversion Hc1; subst.
        rewrite Hdn in Hcn. inversion Hcn; subst. reflexivity.
      - rewrite lookup_insert_ne in Hc1 by congruence. congruence. }
    destruct (parent cn) as [p|]; [right | left; reflexivity].
    apply negb_false_iff in Epar. apply Pos.eqb_eq in Epar. congruence. }
  split; [exact Hd2 |]. reflexivity.
Qed.

Lemma dir_add_root dir child s r s' :
  dir_add dir child s = Ret r s' -> root s' = root s.
Proof.
  intros H.
  destruct (dir_add_cases _ _ _ _ _ H)
    as [-> | (d & c & dn & c1 & d2 & _ & _ & _ & _ & _ & _ & _ & _ & _ & ->)];
    reflexivity.
Qed.

(** [dir_add] keeps the links whatever it is given; it keeps the root
    a root when the node it attaches is not the root. *)
Lemma dir_add_tree dir child s r s' :
  dir_add dir child s = Ret r s' ->
  tree_ok s ->
  (forall c, child = Some c -> root s <> Some c) ->
  tree_ok s'.
Proof.
  intros H [Hl Hr] Hnotroot.
  destruct (dir_add_cases _ _ _ _ _ H)
    as [-> | (d & c & dn & c1 & d2 & -> & -> & Hdn & Hdir & Hroom & Hnotin
              & Hc1 & Hpar & Hd2 & ->)]; [split; assumption |].
  set (h2 := <[c := set_parent (Some d) c1]>
               (<[d := set_children (children dn ++ [c]) dn]> (heap s))) in *.
  assert (Hl2 : linked h2) by (apply linked_attach; assumption).
  split.
  - cbn [heap set_heap set_ticks].
    apply (linked_update _ _ d2); auto.
    apply (Hl2 d d2 Hd2).
  - intros r0 Hroot. cbn [root heap set_heap set_ticks] in *.
    destruct (Hr r0 Hroot) as (rn & Hrn & Hrt & Hrp).
    assert (Hrc : r0 <> c).
    { intros ->. apply (Hnotroot c eq_refl). exact Hroot. }
    assert (Hr2 : exists rn2, h2 !! r0 = Some rn2 /\ type rn2 = N_DIR /\
                              parent rn2 = NULL).
    { subst h2. rewrite lookup_insert_ne by congruence.
      destruct (decide (r0 = d)) as [-> | Hne].
      - rewrite lookup_insert_eq. eexists. split; [reflexivity |].
        rewrite Hdn in Hrn. inversion Hrn; subst. auto.
      - rewrite lookup_insert_ne by congruence. exists rn. auto. }
    destruct Hr2 as (rn2 & Hrn2 & Hrt2 & Hrp2).
    destruct (decide (r0 = d)) as [-> | Hne].
    + rewrite lookup_insert_eq. eexists. split; [reflexivity |].
      rewrite Hd2 in Hrn2. inversion Hrn2; subst. auto.
    + rewrite lookup_insert_ne by congruence. exists rn2. auto.
Qed.

(** A node that was just allocated is not the root of a sound tree. *)
Lemma fresh_not_root s :
  tree_ok s -> root s <> Some (fresh (dom (heap s))).
Proof.
  intros [_ Hr] Hroot. destruct (Hr _ Hroot) as (rn & Hrn & _).
  rewrite fresh_not_live in Hrn. discriminate.
Qed.

Lemma tree_step_modify a f s u s' :
  modify a f s = Ret u s' -> (forall n, shape_eq n (f n)) -> tree_step s s'.
Proof.
  intros H Hf. apply modify_Ret in H as (n & Hn & ->).
  apply (step_modify _ _ n); [exact Hn | apply Hf].
Qed.

(** [node_new] followed by [dir_add] of the new node. *)
Lemma tree_step_new_entry t nm cur s p s1 x s2 :
  node_new t nm cur s = Ret p s1 -> dir_add cur p s1 = Ret x s2 ->
  tree_step s s2.
Proof.
  intros Hnew Hadd.
  apply tree_step_node_new in Hnew as ([Hr1 Ht1] & Hfresh & ->).
  split; [rewrite (dir_add_root _ _ _ _ _ Hadd); exact Hr1 |].
  intros Hok. eapply dir_add_tree; [exact Hadd | auto |].
  intros c Hc. inversion Hc; subst c. rewrite Hr1.
  apply fresh_not_root. exact Hok.
Qed.

Lemma tree_step_mkdir_loop toks : forall cur s r s',
  mkdir_loop toks cur s = Ret r s' -> tree_step s s'.
Proof.
  induction toks as [|tok rest IH]; intros cur s r s' H; cbn [mkdir_loop] in H.
  { inversion H; subst. apply tree_step_refl. }
  destruct ((strlen tok =? 0)%nat || (NAME_MAX <? strlen tok)%nat);
    [inversion H; subst; apply tree_step_refl |].
  destruct (strcmp_eq tok dot); [eapply IH; eauto |].
  destruct (strcmp_eq tok dotdot).
  { apply bind_Ret in H as (cn & s1 & Hd & H).
    apply deref_Ret in Hd as [-> _]. eapply IH; eauto. }
  apply bind_Ret in H as (n & s1 & Hf & H).
  apply lift_Ret in Hf as [-> Hf].
  destruct n as [a|].
  - apply bind_Ret in H as (nd & s1 & Hd & H).
    apply deref_Ret in Hd as [-> _].
    destruct (negb (is_dir nd)); [inversion H; subst; apply tree_step_refl |].
    apply bind_Ret in H as (now & s1 & Ht & H).
    apply time_Ret in Ht as [-> ->].
    apply bind_Ret in H as (u & s2 & Hm & H).
    apply (step_trans s (set_ticks (S (ticks s)) s) s');
      [apply step_same; reflexivity |].
    apply (step_trans _ s2 s'); [| eapply IH; eauto].
    eapply tree_step_modify; [exact Hm |]. intros n0. repeat split.
  - apply bind_Ret in H as (n' & s1 & Hnew & H).
    apply bind_Ret in H as (x & s2 & Hadd & H).
    pose proof (tree_step_new_entry _ _ _ _ _ _ _ _ Hnew Hadd) as Hstep.
    destruct x as [c|].
    + apply (step_trans s s2 s'); [exact Hstep | eapply IH; eauto].
    + inversion H; subst. exact Hstep.
Qed.

Lemma tree_step_mkdir_p path s r s' :
  mkdir_p path s = Ret r s' -> tree_step s s'.
Proof.
  unfold mkdir_p. intros H.
  destruct (strcmp_eq path (String slash EmptyString) ||
            strcmp_eq path EmptyString);
    [inversion H; subst; apply tree_step_refl |].
  apply bind_Ret in H as (s0 & s1 & Hg & H). inversion Hg; subst.
  eapply tree_step_mkdir_loop; eauto.
Qed.

(** Releasing the file that was just allocated and could not be
    attached gives the heap back. *)
Lemma tree_step_create_file path s r s' :
  create_file path s = Ret r s' -> tree_step s s'.
Proof.
  intros H.
  destruct (Z.eq_dec r (-1)) as [-> | Hr].
  { apply create_file_fails in H as (Hh & Hroot & _).
    apply step_same; [exact Hh | exact Hroot]. }
  unfold create_file in H.
  apply bind_Ret in H as ([par w] & s1 & Hw & H).
  apply walk_Ret in Hw as [-> Hw].
  destruct par as [p|]; [| unfold ret in H; inversion H; congruence].
  apply bind_Ret in H as (pn & s2 & Hd & H).
  apply deref_Ret in Hd as [-> _].
  repeat match type of H with
         | (if ?b then _ else _) _ = _ =>
             destruct b; [unfold ret in H; inversion H; congruence |]
         end.
  apply bind_Ret in H as (c & s3 & Hf & H).
  apply lift_Ret in Hf as [-> Hf].
  destruct c; [unfold ret in H; inversion H; congruence |].
  destruct (is_readonly pn); [unfold ret in H; inversion H; congruence |].
  apply bind_Ret in H as (f & s4 & Hnew & H).
  apply bind_Ret in H as (x & s5 & Hadd & H).
  pose proof (tree_step_new_entry _ _ _ _ _ _ _ _ Hnew Hadd) as Hstep.
  destruct x as [c|].
  - apply bind_Ret in H as (now & s6 & Ht & H).
    apply time_Ret in Ht as [-> ->].
    apply bind_Ret in H as (u & s7 & Hm & H).
    unfold ret in H. inversion H; subst. clear H.
    apply (step_trans s s5 s'); [exact Hstep |].
    apply (step_trans _ (set_ticks (S (ticks s5)) s5));
      [apply step_same; reflexivity |].
    eapply tree_step_modify; [exact Hm |]. intros n0. repeat split.
  - exfalso. apply bind_Ret in H as (u & s6 & _ & H).
    unfold ret in H. inversion H; congruence.
Qed.

(** What [node_free] releases: the node it is given and entries of
    nodes that it releases, and nothing else. *)
Lemma node_free_heap_reach fuel : forall n h h',
  node_free_heap fuel n h = Some h' ->
  forall b nb, h !! b = Some nb -> h' !! b = None ->
    n = Some b \/
    exists d nd, h !! d = Some nd /\ h' !! d = None /\ b ∈ children nd.
Proof.
  induction fuel as [|fuel IH]; intros n h h' H b nb Hb Hgone;
    destruct n as [a|]; cbn [node_free_heap] in H;
    try discriminate; try (inversion H; subst; congruence).
  destruct (h !! a) as [na|] eqn:Ea; cbn in H; [| discriminate].
  (* the loop over the entries *)
  assert (Hfold : forall cs (h0 h1 : gmap addr node_t),
             foldl (fun acc c => hc ← acc; node_free_heap fuel (Some c) hc)
                   (Some h0) cs = Some h1 ->
             (forall x nx, h1 !! x = Some nx -> h0 !! x = Some nx) /\
             forall x nx, h0 !! x = Some nx -> h1 !! x = None ->
               x ∈ cs \/
               exists d nd, h0 !! d = Some nd /\ h1 !! d = None /\
                            x ∈ children nd).
  { induction cs as [|c cs IHcs]; intros h0 h1 Hrun; cbn [foldl] in Hrun.
    - inversion Hrun; subst. split; [auto |]. intros x nx Hx Hx'. congruence.
    - cbn [mbind option_bind] in Hrun.
      destruct (node_free_heap fuel (Some c) h0) as [hc|] eqn:Ec.
      2:{ exfalso. clear - Hrun.
          induction cs as [|c' cs IHc]; cbn [foldl] in Hrun;
            [discriminate | auto]. }
      destruct (IHcs hc h1 Hrun) as [Hsub1 Hreach1].
      pose proof (node_free_heap_sub _ _ _ _ Ec) as Hsub0.
      split; [intros x nx Hx; apply Hsub0, Hsub1; exact Hx |].
      intros x nx Hx Hx'.
      destruct (hc !! x) as [nx'|] eqn:Ex.
      + assert (nx' = nx) as ->
          by (apply Hsub0 in Ex; congruence).
        destruct (Hreach1 x nx Ex Hx') as [Hin | (d & nd & Hd & Hd' & Hin)].
        * left. apply elem_of_cons. right. exact Hin.
        * right. exists d, nd. split; [apply Hsub0; exact Hd | auto].
      + destruct (IH _ _ _ Ec x nx Hx Ex) as [Heq | (d & nd & Hd & Hd' & Hin)].
        * inversion Heq; subst. left. apply elem_of_cons. left. reflexivity.
        * right. exists d, nd. split; [exact Hd |]. split; [| exact Hin].
          destruct (h1 !! d) as [nd1|] eqn:E1; [| reflexivity].
          apply Hsub1 in E1. congruence. }
  destruct (decide (b = a)) as [-> | Hba]; [left; reflexivity |].
  right. destruct (is_dir na) eqn:Edir.
  - destruct (foldl _ _ _) as [h1|] eqn:Ef; cbn in H; [| discriminate].
    destruct (h1 !! a) eqn:Ea1; cbn in H; [| discriminate].
    inversion H; subst h'. clear H.
    rewrite lookup_delete_ne in Hgone by congruence.
    destruct (Hfold _ _ _ Ef) as [Hsub Hreach].
    destruct (Hreach b nb Hb Hgone) as [Hin | (d & nd & Hd & Hd' & Hin)].
    + exists a, na. split; [exact Ea |]. split; [apply lookup_delete_eq |].
      exact Hin.
    + exists d, nd. split; [exact Hd |]. split; [| exact Hin].
      destruct (decide (d = a)) as [-> | Hda];
        [apply lookup_delete_eq | rewrite lookup_delete_ne by congruence];
        exact Hd'.
  - cbn in H. rewrite Ea in H. cbn in H. inversion H; subst h'.
    rewrite lookup_delete_ne in Hgone by congruence. congruence.
Qed.

(** Releasing a whole subtree whose top no directory lists. *)
Lemma linked_node_free fuel n h h' :
  node_free_heap fuel n h = Some h' ->
  linked h ->
  (forall a x nx, n = Some a -> h !! x = Some nx -> a ∉ children nx) ->
  linked h'.
Proof.
  intros H Hl Htop x nx Hx.
  pose proof (node_free_heap_sub _ _ _ _ H) as Hsub.
  pose proof (Hsub x nx Hx) as Hx0.
  destruct (Hl x nx Hx0) as (H1 & H2 & H3 & H4 & H5).
  repeat split; auto.
  intros y Hy. destruct (H5 y Hy) as (oy & Hoy & Hpar).
  destruct (h' !! y) as [ny|] eqn:Ey.
  - exists ny. split; [reflexivity |]. apply Hsub in Ey. congruence.
  - exfalso.
    destruct (node_free_heap_reach _ _ _ _ H y oy Hoy Ey)
      as [-> | (d & nd & Hd & Hd' & Hin)].
    + apply (Htop y x nx eq_refl Hx0). exact Hy.
    + destruct (Hl d nd Hd) as (_ & _ & _ & _ & G5).
      destruct (G5 y Hin) as (oy' & Hoy' & Hpar').
      assert (d = x) by congruence. subst d. congruence.
Qed.

Lemma tree_ok_fs_init s u s' :
  fs_init s = Ret u s' -> tree_ok s -> tree_ok s'.
Proof.
  unfold fs_init. intros H [Hl Hr].
  apply bind_Ret in H as (p & s1 & Hnew & H).
  rewrite node_new_run in Hnew. inversion Hnew; subst p s1. clear Hnew.
  inversion H; subst. clear H. split.
  - cbn [heap set_cwd set_root set_heap set_ticks].
    apply linked_alloc; auto; [apply fresh_not_live | apply str_take_length].
  - intros r Hroot. cbn [root heap set_cwd set_root set_heap set_ticks] in *.
    inversion Hroot; subst r. eexists. rewrite lookup_insert_eq.
    split; [reflexivity |]. split; reflexivity.
Qed.

Lemma tree_ok_fs_destroy s u s' :
  fs_destroy s = Ret u s' -> tree_ok s -> tree_ok s'.
Proof.
  unfold fs_destroy. intros H [Hl Hr].
  apply bind_Ret in H as (s0 & s1 & Hg & H). inversion Hg; subst s0 s1.
  apply bind_Ret in H as (u' & s2 & Hfree & H).
  inversion H; subst. clear H.
  unfold node_free in Hfree.
  destruct (node_free_heap _ _ _) as [h'|] eqn:E; inversion Hfree; subst.
  split.
  - cbn [heap set_cwd set_root set_heap].
    eapply linked_node_free; [exact E | exact Hl |].
    intros a x nx Hroot Hx Hin.
    destruct (Hr a Hroot) as (rn & Hrn & _ & Hpar).
    destruct (Hl x nx Hx) as (_ & _ & _ & _ & H5).
    destruct (H5 a Hin) as (an & Han & Hpa). congruence.
  - intros r Hroot. cbn [root set_cwd set_root] in Hroot. discriminate.
Qed.

Lemma find_file_Some h leaf : forall cs i0 i c cn,
  find_file h cs leaf i0 = Some (Some (i, c, cn)) ->
  exists k, i = (i0 + k)%nat /\ cs !! k = Some c /\ h !! c = Some cn /\
            is_file cn = true.
Proof.
  induction cs as [|x cs IH]; intros i0 i c cn H; cbn [find_file] in H;
    [discriminate |].
  destruct (h !! x) as [xn|] eqn:Ex; cbn in H; [| discriminate].
  destruct (strncmp_eq (name xn) leaf NAME_MAX && is_file xn) eqn:E.
  - inversion H; subst. apply andb_true_iff in E as [_ E].
    exists O. split; [lia |]. auto.
  - apply IH in H as (k & -> & Hk & Hc & Hf).
    exists (S k). split; [lia |]. auto.
Qed.

(** The entry at slot [i] of [p] is taken out and released; it is not
    the root. *)
Lemma tree_remove s p pn i c :
  tree_ok s -> heap s !! p = Some pn -> children pn !! i = Some c ->
  c <> p -> root s <> Some c ->
  tree_ok (set_heap
             (delete c (<[p := set_children (swap_remove i (children pn)) pn]>
                          (heap s))) s).
Proof.
  intros [Hl Hr] Hp Hi Hcp Hroot. split.
  - cbn [heap set_heap]. apply linked_remove; assumption.
  - intros r Hr0. cbn [root heap set_heap] in *.
    destruct (Hr r Hr0) as (rn & Hrn & Hrt & Hrp).
    rewrite lookup_delete_ne by congruence.
    destruct (decide (r = p)) as [-> | Hne].
    + rewrite lookup_insert_eq. eexists. split; [reflexivity |].
      rewrite Hp in Hrn. inversion Hrn; subst. auto.
    + rewrite lookup_insert_ne by congruence. exists rn. auto.
Qed.

(** The tail shared by [rm_file] and [rmdir_empty]: the entry is taken
    out of the list of [p], its node released and [p] stamped. *)
Lemma tree_step_unlink s p pn i c cn (r : Z) s' :
  heap s !! p = Some pn -> children pn !! i = Some c ->
  heap s !! c = Some cn -> c <> p ->
  (is_dir cn = false \/ children cn = []) ->
  (tree_ok s -> root s <> Some c) ->
  bind (modify p (set_children (swap_remove i (children pn))))
       (fun _ => bind (node_free (Some c))
          (fun _ => bind time
             (fun now => bind (modify p (stamp_both now))
                (fun _ => ret 0)))) s = Ret r s' ->
  tree_step s s'.
Proof.
  intros Hp Hi Hc Hcp Hleaf Hroot H.
  apply bind_Ret in H as (u1 & s1 & Hm1 & H).
  rewrite (modify_live _ _ _ _ Hp) in Hm1. inversion Hm1; subst s1. clear Hm1.
  apply bind_Ret in H as (u2 & s2 & Hfree & H).
  rewrite (node_free_leaf c cn) in Hfree.
  2:{ cbn [heap set_heap]. rewrite lookup_insert_ne by congruence. exact Hc. }
  2:{ exact Hleaf. }
  inversion Hfree; subst s2. clear Hfree.
  apply bind_Ret in H as (now & s3 & Ht & H).
  apply time_Ret in Ht as [-> ->].
  apply bind_Ret in H as (u3 & s4 & Hm & H).
  unfold ret in H. inversion H; subst s4. clear H.
  apply modify_Ret in Hm as (n3 & Hn3 & ->).
  split; [reflexivity |]. intros Hok.
  pose proof (tree_remove s p pn i c Hok Hp Hi Hcp (Hroot Hok)) as Hok1.
  apply (tree_update _ p n3); [| exact Hn3 | repeat split].
  destruct Hok1 as [Hl1 Hr1]. split; [exact Hl1 | exact Hr1].
Qed.

Lemma tree_step_rm_file path s r s' :
  rm_file path s = Ret r s' -> tree_step s s'.
Proof.
  unfold rm_file. intros H.
  apply bind_Ret in H as ([par w] & s1 & Hw & H).
  apply walk_Ret in Hw as [-> Hw].
  destruct par as [p|]; [| inversion H; subst; apply tree_step_refl].
  apply bind_Ret in H as (pn & s1 & Hd & H).
  apply deref_Ret in Hd as [-> (p' & Hp' & Hp)]. inversion Hp'; subst p'.
  destruct (is_readonly pn); [inversion H; subst; apply tree_step_refl |].
  apply bind_Ret in H as (hit & s1 & Hf & H).
  apply lift_Ret in Hf as [-> Hf].
  destruct hit as [[[i c] cn]|]; [| inversion H; subst; apply tree_step_refl].
  destruct (is_readonly cn); [inversion H; subst; apply tree_step_refl |].
  apply find_file_Some in Hf as (k & -> & Hk & Hc & Hfile).
  cbn [Nat.add] in H.
  assert (Htype : type cn = N_FILE).
  { unfold is_file in Hfile. destruct (type cn); [discriminate | reflexivity]. }
  assert (Hleaf : is_dir cn = false \/ children cn = []).
  { left. unfold is_dir. rewrite Htype. reflexivity. }
  assert (Hcp : c <> p \/ ~ tree_ok s).
  { destruct (decide (c = p)) as [-> | Hne]; [right | left; exact Hne].
    intros [Hl _]. destruct (Hl p pn Hp) as (H1 & _).
    rewrite Hp in Hc. inversion Hc; subst cn.
    assert (children pn <> []) as Hne.
    { intros E. rewrite E in Hk. rewrite lookup_nil in Hk. discriminate. }
    apply H1 in Hne. congruence. }
  destruct Hcp as [Hcp | Hbad].
  - eapply (tree_step_unlink s p pn k c cn); eauto.
    intros [_ Hr] Hroot. destruct (Hr c Hroot) as (rn & Hrn & Hrt & _).
    congruence.
  - (* the same steps on a state that is not a tree: the root stays *)
    split; [| intros Hok; contradiction].
    apply bind_Ret in H as (u1 & s1 & Hm1 & H).
    apply modify_Ret in Hm1 as (n1 & _ & ->).
    apply bind_Ret in H as (u2 & s2 & Hfree & H).
    unfold node_free in Hfree.
    destruct (node_free_heap _ _ _); inversion Hfree; subst s2.
    apply bind_Ret in H as (now & s3 & Ht & H).
    apply time_Ret in Ht as [-> ->].
    apply bind_Ret in H as (u3 & s4 & Hm & H).
    apply modify_Ret in Hm as (n3 & _ & ->).
    unfold ret in H. inversion H; subst. reflexivity.
Qed.

Lemma tree_step_rmdir_empty path s r s' :
  rmdir_empty path s = Ret r s' -> tree_step s s'.
Proof.
  unfold rmdir_empty. intros H.
  apply bind_Ret in H as ([d w] & s1 & Hw & H).
  apply walk_Ret in Hw as [-> Hw].
  destruct d as [a|]; [| inversion H; subst; apply tree_step_refl].
  apply bind_Ret in H as (dn & s1 & Hd & H).
  apply deref_Ret in Hd as [-> (a' & Ha' & Ha)]. inversion Ha'; subst a'.
  apply bind_Ret in H as (s0 & s1 & Hg & H). inversion Hg; subst s0 s1.
  destruct (negb (is_dir dn) || ptr_eqb (Some a) (root s)) eqn:Echeck;
    [inversion H; subst; apply tree_step_refl |].
  apply orb_false_iff in Echeck as [_ Eroot].
  apply ptr_eqb_false in Eroot.
  destruct (negb (child_count dn =? 0)%nat) eqn:Eempty;
    [inversion H; subst; apply tree_step_refl |].
  apply negb_false_iff in Eempty. apply Nat.eqb_eq in Eempty.
  assert (Hempty : children dn = []).
  { unfold child_count in Eempty. destruct (children dn); [reflexivity |].
    discriminate. }
  apply bind_Ret in H as (pn & s1 & Hd & H).
  apply deref_Ret in Hd as [-> (p & Hpar & Hp)].
  destruct (is_readonly pn); [inversion H; subst; apply tree_step_refl |].
  destruct (is_readonly dn); [inversion H; subst; apply tree_step_refl |].
  rewrite Hpar in H.
  destruct (index_of a (children pn)) as [i|] eqn:Eidx;
    [| inversion H; subst; apply tree_step_refl].
  apply index_of_Some in Eidx.
  assert (Hap : a <> p).
  { intros ->. rewrite Hp in Ha. inversion Ha; subst pn.
    rewrite Hempty in Eidx. rewrite lookup_nil in Eidx. discriminate. }
  eapply (tree_step_unlink s p pn i a dn); eauto.
Qed.

(** The node [a] is taken out of the list of its parent [op], if it is
    there, and its parent pointer is cleared. *)
Lemma linked_detach h a nd op opn h1 a1 :
  linked h -> h !! a = Some nd -> parent nd = Some op ->
  h !! op = Some opn ->
  h1 = match index_of a (children opn) with
       | Some i => <[op := set_children (swap_remove i (children opn)) opn]> h
       | None => h
       end ->
  h1 !! a = Some a1 ->
  linked (<[a := set_parent NULL a1]> h1).
Proof.
  intros Hl Ha Hpar Hop Hh1 Ha1.
  destruct (Hl op opn Hop) as (P1 & P2 & P3 & P4 & P5).
  set (cs' := match index_of a (children opn) with
              | Some i => swap_remove i (children opn)
              | None => children opn
              end).
  assert (Hcs : (a ∉ cs') /\ (forall y, y ∈ cs' -> y ∈ children opn) /\
                NoDup cs' /\ (length cs' <= length (children opn))%nat).
  { subst cs'. destruct (index_of a (children opn)) as [i|] eqn:Eidx.
    - apply index_of_Some in Eidx. split; [| split; [| split]].
      + intros Hin. apply (swap_remove_elem _ _ _ _ P2 Eidx) in Hin as [_ Hne].
        congruence.
      + intros y Hy. apply (swap_remove_elem _ _ _ _ P2 Eidx) in Hy as [Hy _].
        exact Hy.
      + eapply swap_remove_NoDup; eauto.
      + pose proof (swap_remove_length _ _ _ Eidx). lia.
    - apply index_of_None_inv in Eidx. auto. }
  destruct Hcs as (Hnotin & Hsub & Hnd & Hlen).
  set (hf := <[a := set_parent NULL a1]> h1).
  assert (Hh1x : forall x, x <> op -> h1 !! x = h !! x).
  { intros x Hx. subst h1. destruct (index_of a (children opn));
      [apply lookup_insert_ne; congruence | reflexivity]. }
  assert (Hh1op : exists n1, h1 !! op = Some n1 /\ type n1 = type opn /\
                             name n1 = name opn /\ parent n1 = parent opn /\
                             children n1 = cs').
  { subst h1 cs'. destruct (index_of a (children opn)).
    - rewrite lookup_insert_eq. eexists. repeat split.
    - exists opn. auto. }
  destruct Hh1op as (n1 & Hn1 & N1 & N2 & N3 & N4).
  assert (Hfrom : forall x nx, hf !! x = Some nx ->
            exists ox, h !! x = Some ox /\ type nx = type ox /\
                       name nx = name ox /\
                       children nx = (if decide (x = op) then cs'
                                      else children ox) /\
                       parent nx = (if decide (x = a) then NULL
                                    else parent ox)).
  { intros x nx Hx. subst hf.
    destruct (decide (x = a)) as [-> | Hxa].
    - rewrite lookup_insert_eq in Hx. inversion Hx; subst nx. clear Hx.
      destruct (decide (a = op)) as [-> | Haop].
      + rewrite Hn1 in Ha1. inversion Ha1; subst a1.
        exists opn. repeat split; auto.
      + rewrite Hh1x in Ha1 by exact Haop.
        rewrite Ha in Ha1. inversion Ha1; subst a1.
        exists nd. repeat split; auto.
    - rewrite lookup_insert_ne in Hx by congruence.
      destruct (decide (x = op)) as [-> | Hxop].
      + rewrite Hn1 in Hx. inversion Hx; subst nx.
        exists opn. repeat split; auto.
      + rewrite Hh1x in Hx by exact Hxop. exists nx. repeat split; auto. }
  assert (Hto : forall y oy, h !! y = Some oy -> y <> a ->
            exists ny, hf !! y = Some ny /\ parent ny = parent oy).
  { intros y oy Hy Hya. subst hf. rewrite lookup_insert_ne by congruence.
    destruct (decide (y = op)) as [-> | Hyop].
    - exists n1. split; [exact Hn1 |]. congruence.
    - rewrite Hh1x by exact Hyop. exists oy. auto. }
  intros x nx Hx.
  destruct (Hfrom x nx Hx) as (ox & Hox & Ety & Ename & Ech & Epar).
  destruct (Hl x ox Hox) as (H1 & H2 & H3 & H4 & H5).
  unfold node_ok, child_count in *. rewrite Ety, Ename, Ech.
  destruct (decide (x = op)) as [-> | Hxop].
  - rewrite Hop in Hox. inversion Hox; subst ox.
    split.
    { intros Hne. apply P1. intros E. apply Hne.
      destruct cs' as [|y ?]; [reflexivity |].
      specialize (Hsub y ltac:(apply elem_of_cons; left; reflexivity)).
      rewrite E in Hsub. apply elem_of_nil in Hsub. contradiction. }
    split; [exact Hnd |]. split; [lia |]. split; [exact P4 |].
    intros y Hy.
    assert (Hya : y <> a) by (intros ->; contradiction).
    destruct (P5 y (Hsub y Hy)) as (oy & Hoy & Hpy).
    destruct (Hto y oy Hoy Hya) as (ny & Hny & Hpn).
    exists ny. split; [exact Hny | congruence].
  - repeat split; auto.
    intros y Hy. destruct (H5 y Hy) as (oy & Hoy & Hpy).
    assert (Hya : y <> a).
    { intros ->. rewrite Ha in Hoy. inversion Hoy; subst oy. congruence. }
    destruct (Hto y oy Hoy Hya) as (ny & Hny & Hpn).
    exists ny. split; [exact Hny | congruence].
Qed.

Lemma tree_step_set_name a x s u s' :
  modify a (set_name (str_take NAME_MAX x)) s = Ret u s' -> tree_step s s'.
Proof.
  intros H. apply modify_Ret in H as (n & Hn & ->).
  split; [reflexivity |]. intros [Hl Hr]. split.
  - cbn [heap set_heap]. apply (linked_update _ _ n); auto.
    apply str_take_length.
  - intros r Hroot. cbn [root heap set_heap] in *.
    destruct (Hr r Hroot) as (rn & Hrn & Hrt & Hrp).
    destruct (decide (a = r)) as [<- | Hne].
    + eexists. rewrite lookup_insert_eq. split; [reflexivity |].
      rewrite Hn in Hrn. inversion Hrn; subst. auto.
    + exists rn. rewrite lookup_insert_ne by exact Hne. auto.
Qed.

(** The first half of a move: [a] leaves the list of its parent and
    loses its parent pointer. *)
Lemma tree_step_detach s a nd op opn s2 :
  heap s !! a = Some nd -> parent nd = Some op -> heap s !! op = Some opn ->
  root s <> Some a ->
  bind (match index_of a (children opn) with
        | Some i =>
            modify op (set_children (swap_remove i (children opn)))
        | None => ret tt
        end)
       (fun _ => modify a (set_parent NULL)) s = Ret tt s2 ->
  tree_step s s2.
Proof.
  intros Ha Hpar Hop Hroot H.
  apply bind_Ret in H as (u & s1 & H1 & H).
  assert (Hs1 : s1 = set_heap
                  (match index_of a (children opn) with
                   | Some i =>
                       <[op := set_children (swap_remove i (children opn))
                                 opn]> (heap s)
                   | None => heap s
                   end) s).
  { destruct (index_of a (children opn)).
    - rewrite (modify_live _ _ _ _ Hop) in H1. inversion H1. reflexivity.
    - inversion H1; subst. destruct s1. reflexivity. }
  subst s1. clear H1.
  apply modify_Ret in H as (a1 & Ha1 & ->).
  cbn [heap set_heap] in *.
  split; [reflexivity |]. intros [Hl Hr]. split.
  - cbn [heap set_heap].
    eapply (linked_detach (heap s) a nd op opn); eauto.
  - intros r Hr0. cbn [root heap set_heap] in *.
    destruct (Hr r Hr0) as (rn & Hrn & Hrt & Hrp).
    rewrite lookup_insert_ne by congruence.
    destruct (index_of a (children opn)) as [i|]; [| exists rn; auto].
    destruct (decide (r = op)) as [-> | Hne].
    + rewrite lookup_insert_eq. eexists. split; [reflexivity |].
      rewrite Hop in Hrn. inversion Hrn; subst. auto.
    + rewrite lookup_insert_ne by congruence. exists rn. auto.
Qed.

Lemma tree_step_dir_add dir a s r s' :
  dir_add dir (Some a) s = Ret r s' -> root s <> Some a -> tree_step s s'.
Proof.
  intros H Hroot. split; [eapply dir_add_root; eauto |].
  intros Hok. eapply dir_add_tree; eauto.
  intros c Hc. inversion Hc; subst. exact Hroot.
Qed.

Lemma tree_step_rename_file o n s r s' :
  rename_file o n s = Ret r s' -> tree_step s s'.
Proof.
  unfold rename_file. intros H.
  apply bind_Ret in H as ([x w] & s1 & Hw & H).
  apply walk_Ret in Hw as [-> Hw].
  destruct x as [a|]; [| inversion H; subst; apply tree_step_refl].
  apply bind_Ret in H as (s0 & s1 & Hg & H). inversion Hg; subst s0 s1.
  destruct (ptr_eqb (Some a) (root s)) eqn:Eroot;
    [inversion H; subst; apply tree_step_refl |].
  apply ptr_eqb_false in Eroot.
  assert (Hroot : root s <> Some a) by congruence.
  apply bind_Ret in H as (nd & s1 & Hd & H).
  apply deref_Ret in Hd as [-> (a' & Ha' & Ha)]. inversion Ha'; subst a'.
  destruct (is_readonly nd); [inversion H; subst; apply tree_step_refl |].
  apply bind_Ret in H as (ro & s1 & Hro & H).
  assert (s1 = s) as ->.
  { destruct (parent nd) as [p|].
    - apply bind_Ret in Hro as (pn & s2 & Hd & Hro).
      apply deref_Ret in Hd as [-> _]. inversion Hro. reflexivity.
    - inversion Hro. reflexivity. }
  clear Hro.
  destruct ro; [inversion H; subst; apply tree_step_refl |].
  apply bind_Ret in H as ([new_parent written] & s1 & Hw2 & H).
  apply walk_Ret in Hw2 as [-> Hw2].
  destruct new_parent as [np|]; [| inversion H; subst; apply tree_step_refl].
  apply bind_Ret in H as (npn & s1 & Hd & H).
  apply deref_Ret in Hd as [-> _].
  destruct (negb (is_dir npn)); [inversion H; subst; apply tree_step_refl |].
  destruct (is_readonly npn); [inversion H; subst; apply tree_step_refl |].
  apply bind_Ret in H as (c & s1 & Hf & H).
  apply lift_Ret in Hf as [-> _].
  destruct c; [inversion H; subst; apply tree_step_refl |].
  apply bind_Ret in H as (moved & s1 & Hmove & H).
  (* the move *)
  assert (Hstep1 : tree_step s s1).
  { destruct (ptr_eqb (parent nd) (Some np));
      [inversion Hmove; subst; apply tree_step_refl |].
    apply bind_Ret in Hmove as (opn & s2 & Hd & Hmove).
    apply deref_Ret in Hd as [-> (op & Hpar & Hop)].
    rewrite Hpar in Hmove.
    apply bind_Ret in Hmove as (u1 & s2 & Hcut & Hmove).
    apply bind_Ret in Hmove as (u2 & s3 & Hclear & Hmove).
    assert (Hdetach : tree_step s s3).
    { apply (tree_step_detach s a nd op opn s3 Ha Hpar Hop Hroot).
      unfold bind. rewrite Hcut. destruct u2. exact Hclear. }
    assert (Hroot3 : root s3 <> Some a)
      by (destruct Hdetach as [-> _]; exact Hroot).
    apply bind_Ret in Hmove as (x & s4 & Hadd & Hmove).
    pose proof (tree_step_dir_add _ _ _ _ _ Hadd Hroot3) as Hadd1.
    assert (Hroot4 : root s4 <> Some a)
      by (destruct Hadd1 as [-> _]; exact Hroot3).
    apply (step_trans s s3 s1); [exact Hdetach |].
    apply (step_trans s3 s4 s1); [exact Hadd1 |].
    destruct x as [c|].
    - apply bind_Ret in Hmove as (now & s5 & Ht & Hmove).
      apply time_Ret in Ht as [-> ->].
      apply bind_Ret in Hmove as (u3 & s6 & Hm & Hmove).
      inversion Hmove; subst.
      apply (step_trans _ (set_ticks (S (ticks s4)) s4));
        [apply step_same; reflexivity |].
      eapply tree_step_modify; [exact Hm |]. intros n0. repeat split.
    - apply bind_Ret in Hmove as (y & s5 & Hback & Hmove).
      inversion Hmove; subst.
      eapply tree_step_dir_add; eauto. }
  apply (step_trans s s1 s'); [exact Hstep1 |].
  destruct (negb moved); [inversion H; subst; apply tree_step_refl |].
  apply bind_Ret in H as (u1 & s2 & Hname & H).
  apply (step_trans s1 s2 s'); [eapply tree_step_set_name; eauto |].
  apply bind_Ret in H as (now & s3 & Ht & H).
  apply time_Ret in Ht as [-> ->].
  apply (step_trans _ (set_ticks (S (ticks s2)) s2));
    [apply step_same; reflexivity |].
  apply bind_Ret in H as (u2 & s4 & Hm & H).
  apply (step_trans _ s4 s');
    [eapply tree_step_modify; [exact Hm |]; intros n0; repeat split |].
  apply bind_Ret in H as (cur & s5 & Hd & H).
  apply deref_Ret in Hd as [-> _].
  apply bind_Ret in H as (u3 & s6 & Hm2 & H). inversion H; subst.
  destruct (parent cur) as [p|].
  - eapply tree_step_modify; [exact Hm2 |]. intros n0. repeat split.
  - inversion Hm2; subst. apply tree_step_refl.
Qed.

Lemma exec_keeps_tree c s r s' :
  exec c s = Ret r s' -> tree_ok s -> tree_ok s'.
Proof.
  intros H.
  destruct shape_eq_fields as (Ht & Hacc & Hmod & Hattr & Hdata & Hsize).
  assert (Hstep : tree_step s s' -> tree_ok s -> tree_ok s')
    by (intros [_ E]; exact E).
  pose proof tree_step_refl as Hrefl.
  pose proof (@step_trans _ _ tree_step_rel) as Htrans.
  destruct c; cbn [exec] in H.
  - apply bind_Ret in H as (u & s1 & Hi & H). inversion H; subst.
    eapply tree_ok_fs_init; eauto.
  - apply bind_Ret in H as (u & s1 & Hi & H). inversion H; subst.
    eapply tree_ok_fs_destroy; eauto.
  - apply Hstep. eapply (fp_fs_cd shape_eq tree_step); eauto.
  - apply Hstep. eapply tree_step_mkdir_p; eauto.
  - apply Hstep. eapply tree_step_rmdir_empty; eauto.
  - apply Hstep. eapply (fp_ls_dir shape_eq tree_step); eauto.
  - apply Hstep. eapply (fp_fs_search shape_eq tree_step); eauto.
  - apply Hstep. eapply tree_step_create_file; eauto.
  - apply Hstep. eapply (fp_write_file shape_eq tree_step); eauto.
  - apply Hstep. eapply (pres_fst tree_step (read_file path off len)); eauto.
    apply (fp_read_file shape_eq tree_step); eauto.
  - apply Hstep. eapply tree_step_rm_file; eauto.
  - apply Hstep. eapply tree_step_rename_file; eauto.
  - apply Hstep. eapply (fp_fs_open shape_eq tree_step); eauto.
  - apply Hstep. eapply (fp_fs_close shape_eq tree_step); eauto.
  - apply Hstep. eapply (pres_fst tree_step (fs_read_fd fd len)); eauto.
    apply (fp_fs_read_fd shape_eq tree_step); eauto.
  - apply Hstep. eapply (fp_fs_write_fd shape_eq tree_step); eauto.
  - apply Hstep. eapply (fp_fs_seek shape_eq tree_step); eauto.
  - apply Hstep. eapply (pres_fst tree_step (get_file_info path)); eauto.
    apply (fp_get_file_info shape_eq tree_step); eauto.
  - apply Hstep. eapply (fp_set_file_attributes shape_eq tree_step); eauto.
  - apply Hstep. eapply (fp_touch_file shape_eq tree_step); eauto.
Qed.

Lemma boot_tree_ok alloc clk : tree_ok (boot alloc clk).
Proof.
  split.
  - intros d nd H. cbn in H. rewrite lookup_empty in H. discriminate.
  - intros r H. discriminate H.
Qed.

Lemma reachable_tree_ok s : reachable s -> tree_ok s.
Proof.
  apply (reachable_invariant tree_ok); [apply boot_tree_ok |].
  intros c s0 r s' H Hs. eapply exec_keeps_tree; eauto.
Qed.

(** X14. The links of the tree hold in every state that calls of the
    interface reach after [fs_init], and every call that returns hands
    them on: only a directory has entries; a directory has at most
    [MAX_CHILDREN] entries and lists none twice; every entry is a live
    node whose parent pointer is the directory that lists it; every
    name fits the [name] array; and the root, as long as there is one,
    is a live directory without parent. *)
Theorem tree_stays_linked :
  (forall s, reachable s -> tree_ok s) /\
  (forall c s r s', tree_ok s -> exec c s = Ret r s' -> tree_ok s').
Proof.
  split.
  - apply reachable_tree_ok.
  - intros c s r s' Hs H. eapply exec_keeps_tree; eauto.
Qed.

Lemma tree_stays_linked_witness : tree_ok with_data.
Proof.
  destruct tree_stays_linked as [H _]. apply H.
  exists always_grants, wall_clock, scenario. vm_compute. reflexivity.
Defined.

(** ** The current directory and the descriptor table across calls *)

(** The decomposition of the operations once more, for a part of the
    state that the updates of the heap and of the clock leave alone. *)
Section Field.

Context {X : Type} (proj : fs -> X).

Hypothesis proj_heap : forall h s, proj (set_heap h s) = proj s.
Hypothesis proj_ticks : forall k s, proj (set_ticks k s) = proj s.
Hypothesis proj_root : forall r s, proj (set_root r s) = proj s.
Hypothesis proj_cwd : forall c s, proj (set_cwd c s) = proj s.
Hypothesis proj_slot : forall i d s,
  proj (set_fd_table (<[i := d]> (fd_table s)) s) = proj s.

Lemma fld_ret {A : Type} (v : A) : pres (field_kept proj) (ret v).
Proof. intros s v' s' H. inversion H; subst. reflexivity. Qed.

Lemma fld_bind {A B : Type} (m : M A) (k : A -> M B) :
  pres (field_kept proj) m -> (forall x, pres (field_kept proj) (k x)) ->
  pres (field_kept proj) (bind m k).
Proof.
  intros Hm Hk s v s' H. apply bind_Ret in H as (x & s1 & H1 & H2).
  unfold field_kept. rewrite (Hk _ _ _ _ H2). exact (Hm _ _ _ H1).
Qed.

Lemma fld_lift {A : Type} (f : fs -> option A) :
  pres (field_kept proj) (lift f).
Proof. intros s v s' H. apply lift_Ret in H as [-> _]. reflexivity. Qed.

Lemma fld_modify a f : pres (field_kept proj) (modify a f).
Proof.
  intros s v s' H. unfold modify in H.
  destruct (heap s !! a); inversion H; subst. apply proj_heap.
Qed.

Lemma fld_time : pres (field_kept proj) time.
Proof. intros s v s' H. inversion H; subst. apply proj_ticks. Qed.

Lemma fld_get : pres (field_kept proj) get.
Proof. intros s v s' H. inversion H; subst. reflexivity. Qed.

Lemma fld_node_new t nm par : pres (field_kept proj) (node_new t nm par).
Proof.
  intros s v s' H. rewrite node_new_run in H. inversion H; subst.
  unfold field_kept. rewrite proj_heap. apply proj_ticks.
Qed.

Lemma fld_node_free n : pres (field_kept proj) (node_free n).
Proof.
  intros s v s' H. unfold node_free in H.
  destruct (node_free_heap _ _ _); inversion H; subst. apply proj_heap.
Qed.

Lemma fld_set_slot i d : pres (field_kept proj) (set_slot i d).
Proof. intros s v s' H. inversion H; subst. apply proj_slot. Qed.

Lemma fld_set_cwd c : pres (field_kept proj) (fun s => Ret tt (set_cwd c s)).
Proof. intros s v s' H. inversion H; subst. apply proj_cwd. Qed.

Ltac fld_step :=
  lazymatch goal with
  | |- pres _ (bind _ _) => apply fld_bind; [| intros ?]
  | |- pres _ (ret _) => apply fld_ret
  | |- pres _ (match ?x with _ => _ end) => destruct x
  | |- pres _ (lift _) => apply fld_lift
  | |- pres _ (deref _) => apply fld_lift
  | |- pres _ (walk _ _) => apply fld_lift
  | |- pres _ undefined => intros ? ? ? ?; discriminate
  | |- pres _ diverges => intros ? ? ? ?; discriminate
  | |- pres _ (modify _ _) => apply fld_modify
  | |- pres _ time => apply fld_time
  | |- pres _ get => apply fld_get
  | |- pres _ (set_slot _ _) => apply fld_set_slot
  | |- pres _ (fun s => Ret tt (set_cwd _ s)) => apply fld_set_cwd
  | |- pres _ (fun s => Ret tt (set_fd_table _ s)) =>
      apply (fld_set_slot _ _)
  | |- pres _ (node_new _ _ _) => apply fld_node_new
  | |- pres _ (node_free _) => apply fld_node_free
  end.

Ltac fld_auto := repeat fld_step.

Lemma fld_fd_lookup fd : pres (field_kept proj) (fd_lookup fd).
Proof. unfold fd_lookup. fld_auto. Qed.

Lemma fld_dir_add dir child : pres (field_kept proj) (dir_add dir child).
Proof. unfold dir_add. fld_auto. Qed.

Lemma fld_fs_init : pres (field_kept proj) fs_init.
Proof.
  unfold fs_init. fld_auto. intros s v s' H. inversion H; subst.
  unfold field_kept. rewrite proj_cwd. apply proj_root.
Qed.

Lemma fld_fs_destroy : pres (field_kept proj) fs_destroy.
Proof.
  unfold fs_destroy. fld_auto. intros s v s' H. inversion H; subst.
  unfold field_kept. rewrite proj_cwd. apply proj_root.
Qed.

Lemma fld_fs_cd path : pres (field_kept proj) (fs_cd path).
Proof. unfold fs_cd. fld_auto. Qed.

Lemma fld_mkdir_loop toks : forall cur,
  pres (field_kept proj) (mkdir_loop toks cur).
Proof.
  induction toks as [|tok rest IH]; intros cur; cbn [mkdir_loop];
    fld_auto; first [apply IH | apply fld_dir_add].
Qed.

Lemma fld_mkdir_p path : pres (field_kept proj) (mkdir_p path).
Proof. unfold mkdir_p. fld_auto. apply fld_mkdir_loop. Qed.

Lemma fld_rmdir_empty path : pres (field_kept proj) (rmdir_empty path).
Proof. unfold rmdir_empty. fld_auto. Qed.

Lemma fld_ls_dir path : pres (field_kept proj) (ls_dir path).
Proof. unfold ls_dir. fld_auto. Qed.

Lemma fld_search_children (f : ptr -> M Z) :
  (forall n, pres (field_kept proj) (f n)) ->
  forall (cs : list addr) (acc : M Z),
    pres (field_kept proj) acc ->
    pres (field_kept proj)
         (foldl (fun acc c => m <- acc ; r <- f (Some c) ; ret (m + r))
                acc cs).
Proof.
  intros Hf. induction cs as [|c cs IH]; intros acc Hacc; cbn [foldl];
    [exact Hacc |].
  apply IH. fld_auto; [exact Hacc | apply Hf].
Qed.

Lemma fld_search_subtree fuel : forall n term,
  pres (field_kept proj) (search_subtree fuel n term).
Proof.
  induction fuel as [|fuel IH]; intros n term; cbn [search_subtree];
    fld_auto.
  apply (fld_search_children (fun n => search_subtree fuel n term)).
  - intros n. apply IH.
  - fld_auto.
Qed.

Lemma fld_fs_search term : pres (field_kept proj) (fs_search term).
Proof. unfold fs_search. fld_auto. apply fld_search_subtree. Qed.

Lemma fld_create_file path : pres (field_kept proj) (create_file path).
Proof. unfold create_file. fld_auto. apply fld_dir_add. Qed.

Lemma fld_ensure_cap a want : pres (field_kept proj) (ensure_cap a want).
Proof. unfold ensure_cap. fld_auto. Qed.

Lemma fld_write_at a off buf : pres (field_kept proj) (write_at a off buf).
Proof. unfold write_at. fld_auto. apply fld_ensure_cap. Qed.

Lemma fld_write_file path off buf :
  pres (field_kept proj) (write_file path off buf).
Proof. unfold write_file. fld_auto. apply fld_write_at. Qed.

Lemma fld_read_file path off len :
  pres (field_kept proj) (read_file path off len).
Proof. unfold read_file. fld_auto. Qed.

Lemma fld_rm_file path : pres (field_kept proj) (rm_file path).
Proof. unfold rm_file. fld_auto. Qed.

Lemma fld_rename_file o n : pres (field_kept proj) (rename_file o n).
Proof. unfold rename_file. fld_auto; apply fld_dir_add. Qed.

Lemma fld_fs_open path fl : pres (field_kept proj) (fs_open path fl).
Proof. unfold fs_open. fld_auto. Qed.

Lemma fld_fs_close fd : pres (field_kept proj) (fs_close fd).
Proof. unfold fs_close. fld_auto; apply fld_fd_lookup. Qed.

Lemma fld_fs_read_fd fd len : pres (field_kept proj) (fs_read_fd fd len).
Proof. unfold fs_read_fd. fld_auto; apply fld_fd_lookup. Qed.

Lemma fld_fs_write_fd fd buf : pres (field_kept proj) (fs_write_fd fd buf).
Proof.
  unfold fs_write_fd. fld_auto;
    first [apply fld_fd_lookup | apply fld_ensure_cap].
Qed.

Lemma fld_fs_seek fd off wh : pres (field_kept proj) (fs_seek fd off wh).
Proof. unfold fs_seek. fld_auto; apply fld_fd_lookup. Qed.

Lemma fld_get_file_info path : pres (field_kept proj) (get_file_info path).
Proof. unfold get_file_info. fld_auto. Qed.

Lemma fld_set_file_attributes path bits :
  pres (field_kept proj) (set_file_attributes path bits).
Proof. unfold set_file_attributes. fld_auto. Qed.

Lemma fld_touch_file path : pres (field_kept proj) (touch_file path).
Proof. unfold touch_file. fld_auto. Qed.

End Field.

Ltac fld_call :=
  lazymatch goal with
  | |- pres _ (bind _ _) => apply fld_bind; [| intros ?; apply fld_ret]
  | _ => idtac
  end;
  first [ apply fld_fs_init | apply fld_fs_destroy | apply fld_fs_cd
        | apply fld_mkdir_p | apply fld_rmdir_empty | apply fld_ls_dir
        | apply fld_fs_search | apply fld_create_file | apply fld_write_file
        | apply fld_read_file | apply fld_rm_file | apply fld_rename_file
        | apply fld_fs_open | apply fld_fs_close | apply fld_fs_read_fd
        | apply fld_fs_write_fd | apply fld_fs_seek
        | apply fld_get_file_info | apply fld_set_file_attributes
        | apply fld_touch_file ]; reflexivity.

Lemma fld_exec_cwd c : moves_cwd c = false -> pres (field_kept cwd) (exec c).
Proof.
  intros Hc. destruct c; try discriminate Hc; cbn [exec]; fld_call.
Qed.

Lemma fld_exec_table c :
  uses_table c = false -> pres (field_kept fd_table) (exec c).
Proof.
  intros Hc. destruct c; try discriminate Hc; cbn [exec]; fld_call.
Qed.

(** X15. The current directory is assigned by [fs_init], [fs_destroy]
    and [fs_cd] and by no other call, and the slots of the descriptor
    table are written by [fs_open], [fs_close], [fs_read_fd],
    [fs_write_fd] and [fs_seek] and by no other call: every other call
    that returns, whatever it returns, leaves [cwd], respectively the
    whole table, as it was. *)
Theorem cursors_move_by_their_calls_only c s r s' :
  exec c s = Ret r s' ->
  (moves_cwd c = false -> cwd s' = cwd s) /\
  (uses_table c = false -> fd_table s' = fd_table s).
Proof.
  intros H. split; intros Hc.
  - exact (fld_exec_cwd c Hc _ _ _ H).
  - exact (fld_exec_table c Hc _ _ _ H).
Qed.

Lemma cursors_move_by_their_calls_only_witness :
  (moves_cwd (Rmdir_empty "/a/b/c") = false ->
   cwd (state_after (exec (Rmdir_empty "/a/b/c")) with_dirs) = cwd with_dirs)
  /\
  (uses_table (Rmdir_empty "/a/b/c") = false ->
   fd_table (state_after (exec (Rmdir_empty "/a/b/c")) with_dirs)
   = fd_table with_dirs).
Proof.
  apply (cursors_move_by_their_calls_only (Rmdir_empty "/a/b/c") with_dirs 0).
  vm_compute. reflexivity.
Defined.

(** ** Paths across calls *)

Lemma entries_kept_refl n : entries_kept n n.
Proof.
  repeat split. exists []. rewrite app_nil_r. reflexivity.
Qed.

Lemma entries_kept_trans a b c :
  entries_kept a b -> entries_kept b c -> entries_kept a c.
Proof.
  intros (Ht & Hn & Hp & m1 & Hc) (Ht' & Hn' & Hp' & m2 & Hc').
  repeat split; try congruence.
  exists (m1 ++ m2). rewrite Hc', Hc, app_assoc. reflexivity.
Qed.

Lemma entries_kept_shape n n' : shape_eq n n' -> entries_kept n n'.
Proof.
  intros (Ht & Hn & Hp & Hc). repeat split; try congruence.
  exists []. rewrite app_nil_r. congruence.
Qed.

Lemma grows_refl s : grows s s.
Proof.
  split; [reflexivity |]. intros a n H. exists n.
  split; [exact H | apply entries_kept_refl].
Qed.

Lemma grows_trans s1 s2 s3 : grows s1 s2 -> grows s2 s3 -> grows s1 s3.
Proof.
  intros [Hr1 H1] [Hr2 H2]. split; [congruence |].
  intros a n Ha. destruct (H1 _ _ Ha) as (n' & Ha' & Hk).
  destruct (H2 _ _ Ha') as (n'' & Ha'' & Hk').
  exists n''. split; [exact Ha'' | eapply entries_kept_trans; eauto].
Qed.

Lemma grows_same s s' : heap s' = heap s -> root s' = root s -> grows s s'.
Proof.
  intros Hh Hr. split; [exact Hr |]. intros a n Ha. exists n.
  rewrite Hh. split; [exact Ha | apply entries_kept_refl].
Qed.

(** The heap after some nodes were updated or added: [grows] read off
    the lookups. *)
Lemma grows_lookup s s' :
  root s' = root s ->
  (forall a n, heap s !! a = Some n ->
     exists n', heap s' !! a = Some n' /\ entries_kept n n') ->
  grows s s'.
Proof. intros Hr H. split; assumption. Qed.

#[local] Instance grows_step : StepRel shape_eq grows.
Proof.
  split.
  - intros s s' Hh Hr. apply grows_same; assumption.
  - apply grows_trans.
  - intros s a n n' Ha Hk. split; [reflexivity |].
    intros b m Hb. cbn [heap set_heap].
    destruct (decide (b = a)) as [-> | Hne].
    + rewrite lookup_insert_eq. exists n'. split; [reflexivity |].
      rewrite Ha in Hb. inversion Hb; subst.
      apply entries_kept_shape. exact Hk.
    + rewrite lookup_insert_ne by congruence. exists m.
      split; [exact Hb | apply entries_kept_refl].
Qed.

Lemma grows_node_new t nm par s p s' :
  node_new t nm par s = Ret p s' -> grows s s'.
Proof.
  intros H. rewrite node_new_run in H. inversion H; subst. clear H.
  split; [reflexivity |]. intros a n Ha. cbn [heap set_heap set_ticks].
  exists n. split; [| apply entries_kept_refl].
  rewrite lookup_insert_ne; [exact Ha |].
  intros E. rewrite <- E, fresh_not_live in Ha. discriminate.
Qed.

(** ** What the scans find in a tree that has grown *)

Lemma find_by_name_grows s s' nm : grows s s' ->
  forall cs more c,
    find_by_name (heap s) cs nm = Some (Some c) ->
    find_by_name (heap s') (cs ++ more) nm = Some (Some c).
Proof.
  intros [_ Hg]. induction cs as [|x cs IH]; intros more c H;
    cbn [find_by_name] in H; [discriminate |].
  destruct (heap s !! x) as [xn|] eqn:Ex; cbn in H; [| discriminate].
  destruct (Hg _ _ Ex) as (xn' & Ex' & _ & Hname & _).
  change ((x :: cs) ++ more) with (x :: (cs ++ more)).
  cbn [find_by_name]. rewrite Ex'. cbn [mbind option_bind]. rewrite Hname.
  destruct (strncmp_eq (name xn) nm NAME_MAX); [exact H | apply IH; exact H].
Qed.

Lemma dir_find_grows s s' d nm c : grows s s' ->
  dir_find (heap s) d nm = Some (Some c) ->
  dir_find (heap s') d nm = Some (Some c).
Proof.
  intros Hg H. destruct d as [d|]; [| discriminate H].
  cbn [dir_find] in *.
  destruct (heap s !! d) as [dn|] eqn:Ed; cbn in H; [| discriminate].
  destruct (proj2 Hg _ _ Ed) as (dn' & Ed' & Hty & _ & _ & more & Hch).
  rewrite Ed'. cbn [mbind option_bind]. unfold is_dir in *. rewrite Hty.
  destruct (negb (node_type_eqb (type dn) N_DIR)); [discriminate |].
  rewrite Hch. eapply find_by_name_grows; eauto.
Qed.

(** A path that resolves to a node resolves to the same node in a tree
    that has grown. *)
Lemma walk_loop_grows s s' wp : grows s s' ->
  forall toks cur a w,
    walk_loop (heap s) wp cur toks = Some (Some a, w) ->
    walk_loop (heap s') wp cur toks = Some (Some a, w).
Proof.
  intros Hg. induction toks as [|tok rest IH]; intros cur a w H;
    [exact H |].
  destruct rest as [|next rest].
  - cbn [walk_loop] in *.
    destruct ((strlen tok =? 0)%nat || (NAME_MAX <? strlen tok)%nat);
      [discriminate |].
    destruct (strcmp_eq tok dot); [exact H |].
    destruct (strcmp_eq tok dotdot).
    { destruct cur as [c|]; [| discriminate]. cbn [mbind option_bind] in *.
      destruct (heap s !! c) as [cn|] eqn:Ec; [| discriminate].
      destruct (proj2 Hg _ _ Ec) as (cn' & Ec' & _ & _ & Hpar & _).
      rewrite Ec'. cbn [mbind option_bind] in *. rewrite Hpar. exact H. }
    destruct wp; [exact H |].
    destruct (dir_find (heap s) cur tok) as [[r|]|] eqn:Ef;
      cbn [mbind option_bind] in H; try discriminate.
    rewrite (dir_find_grows _ _ _ _ _ Hg Ef). exact H.
  - rewrite (walk_loop_cons _ _ _ _ (next :: rest)) in H by discriminate.
    rewrite (walk_loop_cons _ _ _ _ (next :: rest)) by discriminate.
    destruct ((strlen tok =? 0)%nat || (NAME_MAX <? strlen tok)%nat);
      [discriminate |].
    destruct (strcmp_eq tok dot); [apply IH; exact H |].
    destruct (strcmp_eq tok dotdot).
    { destruct cur as [c|]; [| discriminate]. cbn [mbind option_bind] in *.
      destruct (heap s !! c) as [cn|] eqn:Ec; [| discriminate].
      destruct (proj2 Hg _ _ Ec) as (cn' & Ec' & _ & _ & Hpar & _).
      rewrite Ec'. cbn [mbind option_bind] in *. rewrite Hpar.
      apply IH. exact H. }
    destruct (dir_find (heap s) cur tok) as [[r|]|] eqn:Ef;
      cbn [mbind option_bind] in H; try discriminate.
    rewrite (dir_find_grows _ _ _ _ _ Hg Ef). cbn [mbind option_bind].
    destruct (heap s !! r) as [n|] eqn:Er; [| discriminate].
    destruct (proj2 Hg _ _ Er) as (n' & Er' & Hty & _).
    rewrite Er'. cbn [mbind option_bind] in *. unfold is_dir in *.
    rewrite Hty.
    destruct (negb (node_type_eqb (type n) N_DIR)); [discriminate |].
    apply IH. exact H.
Qed.

Lemma walk_from_grows s s' start path wp a w : grows s s' ->
  walk_from s start path wp = Some (Some a, w) ->
  walk_from s' start path wp = Some (Some a, w).
Proof.
  intros Hg H. unfold walk_from, start_node in *. rewrite (proj1 Hg).
  eapply walk_loop_grows; eauto.
Qed.

(** ** New entries *)

(** [node_new] followed by [dir_add] of the new node into the
    directory [d] in which the name was looked up without success:
    the node [f] is new; when [dir_add] returns it, it is the last
    entry of [d]; no other node changes. *)
Lemma new_entry_cases t tok d s p s1 x s2 :
  dir_find (heap s) (Some d) tok = Some NULL ->
  node_new t tok (Some d) s = Ret p s1 ->
  dir_add (Some d) p s1 = Ret x s2 ->
  exists f dn fn dn',
    p = Some f /\ heap s !! f = None /\ heap s !! d = Some dn /\
    heap s2 !! f = Some fn /\
    type fn = t /\ name fn = str_take NAME_MAX tok /\
    parent fn = Some d /\ children fn = [] /\
    heap s2 !! d = Some dn' /\
    type dn' = type dn /\ name dn' = name dn /\ parent dn' = parent dn /\
    root s2 = root s /\
    (forall b, b <> d -> b <> f -> heap s2 !! b = heap s !! b) /\
    ((x = NULL /\ children dn' = children dn) \/
     (x = Some f /\ type dn = N_DIR /\ children dn' = children dn ++ [f])).
Proof.
  intros Hfind Hnew Hadd.
  rewrite node_new_run in Hnew. inversion Hnew; subst p s1. clear Hnew.
  set (f := fresh (dom (heap s))) in *.
  set (fn := {| type := t; name := str_take NAME_MAX tok; parent := Some d;
                created := clock s (ticks s); modified := clock s (ticks s);
                accessed := clock s (ticks s); attributes := ATTR_NONE;
                children := []; data := []; size := 0 |}) in *.
  assert (Hfresh : heap s !! f = None) by apply fresh_not_live.
  cbn [dir_find] in Hfind.
  destruct (heap s !! d) as [dn|] eqn:Hdn; [| discriminate Hfind].
  cbn [mbind option_bind] in Hfind.
  assert (Hdf : d <> f) by (intros E; rewrite E in Hdn; congruence).
  pose proof Hadd as Hadd0.
  unfold dir_add in Hadd.
  apply bind_Ret in Hadd as (dn1 & s3 & Hd & Hadd).
  apply deref_Ret in Hd as [-> (d' & Hd' & Hdn1)]. inversion Hd'; subst d'.
  cbn [heap set_heap set_ticks] in Hdn1.
  rewrite lookup_insert_ne in Hdn1 by congruence.
  rewrite Hdn in Hdn1. inversion Hdn1; subst dn1. clear Hdn1 Hd'.
  destruct (negb (is_dir dn) || (MAX_CHILDREN <=? child_count dn)%nat)
    eqn:Echeck.
  - inversion Hadd; subst x s2. clear Hadd Hadd0.
    exists f, dn, fn, dn. cbn [heap set_heap set_ticks root].
    rewrite lookup_insert_eq, lookup_insert_ne by congruence.
    repeat (split; [first [reflexivity | assumption] |]).
    split; [| left; split; reflexivity].
    intros b _ Hb. rewrite lookup_insert_ne by congruence. reflexivity.
  - clear Hadd. apply orb_false_iff in Echeck as [Edir Eroom].
    apply Nat.leb_gt in Eroom.
    assert (Hdir : is_dir dn = true) by (destruct (is_dir dn); auto).
    rewrite Hdir in Hfind. cbn [negb] in Hfind.
    assert (Hnotin : f ∉ children dn).
    { intros Hin. destruct (find_by_name_NULL _ _ _ Hfind f Hin)
        as (xn & Hx & _). congruence. }
    rewrite (dir_add_appends d f _ dn fn) in Hadd0; try assumption.
    + inversion Hadd0; subst x s2. clear Hadd0.
      eexists f, dn, fn, _. cbn [heap set_heap set_ticks root].
      rewrite lookup_insert_eq.
      rewrite (lookup_insert_ne _ d f) by congruence.
      rewrite lookup_insert_eq.
      split; [reflexivity |]. split; [exact Hfresh |].
      split; [reflexivity |]. split; [reflexivity |].
      repeat (split; [reflexivity |]).
      split.
      { intros b Hbd Hbf. rewrite !lookup_insert_ne by congruence.
        reflexivity. }
      right. split; [reflexivity |]. split; [| reflexivity].
      unfold is_dir in Hdir. destruct (type dn); [reflexivity | discriminate].
    + cbn [heap set_heap set_ticks].
      rewrite lookup_insert_ne by congruence. exact Hdn.
    + cbn [heap set_heap set_ticks]. apply lookup_insert_eq.
    + left. reflexivity.
Qed.

Lemma new_entry_grows t tok d s p s1 x s2 :
  dir_find (heap s) (Some d) tok = Some NULL ->
  node_new t tok (Some d) s = Ret p s1 ->
  dir_add (Some d) p s1 = Ret x s2 ->
  grows s s2.
Proof.
  intros Hfind Hnew Hadd.
  destruct (new_entry_cases _ _ _ _ _ _ _ _ Hfind Hnew Hadd)
    as (f & dn & fn & dn' & _ & Hfresh & Hdn & _ & _ & _ & _ & _ & Hdn'
        & Hty & Hnm & Hpar & Hroot & Hrest & Hcase).
  split; [exact Hroot |]. intros b n Hb.
  destruct (decide (b = d)) as [-> | Hbd].
  - exists dn'. split; [exact Hdn' |].
    rewrite Hdn in Hb. inversion Hb; subst n.
    repeat split; try assumption.
    destruct Hcase as [[_ ->] | (_ & _ & ->)]; [exists [] | exists [f]];
      rewrite ?app_nil_r; reflexivity.
  - assert (Hbf : b <> f) by (intros E; rewrite E in Hb; congruence).
    exists n. rewrite (Hrest _ Hbd Hbf).
    split; [exact Hb | apply entries_kept_refl].
Qed.

Lemma mkdir_loop_grows toks : forall cur s r s',
  mkdir_loop toks cur s = Ret r s' -> grows s s'.
Proof.
  induction toks as [|tok rest IH]; intros cur s r s' H; cbn [mkdir_loop] in H.
  { inversion H; subst. apply grows_refl. }
  destruct ((strlen tok =? 0)%nat || (NAME_MAX <? strlen tok)%nat);
    [inversion H; subst; apply grows_refl |].
  destruct (strcmp_eq tok dot); [eapply IH; eauto |].
  destruct (strcmp_eq tok dotdot).
  { apply bind_Ret in H as (cn & s1 & Hd & H).
    apply deref_Ret in Hd as [-> _]. eapply IH; eauto. }
  apply bind_Ret in H as (n & s1 & Hf & H).
  apply lift_Ret in Hf as [-> Hf].
  destruct n as [a|].
  - apply bind_Ret in H as (nd & s1 & Hd & H).
    apply deref_Ret in Hd as [-> _].
    destruct (negb (is_dir nd)); [inversion H; subst; apply grows_refl |].
    apply bind_Ret in H as (now & s1 & Ht & H).
    apply time_Ret in Ht as [-> ->].
    apply bind_Ret in H as (u & s2 & Hm & H).
    apply (grows_trans s (set_ticks (S (ticks s)) s) s');
      [apply grows_same; reflexivity |].
    apply (grows_trans _ s2 s'); [| eapply IH; eauto].
    apply modify_Ret in Hm as (n0 & Hn0 & ->).
    apply (step_modify (R := grows) _ _ n0); [exact Hn0 |]. repeat split.
  - apply bind_Ret in H as (n' & s1 & Hnew & H).
    apply bind_Ret in H as (x & s2 & Hadd & H).
    assert (Hstep : grows s s2).
    { destruct cur as [d|].
      - eapply new_entry_grows; eauto.
      - inversion Hadd; subst. eapply grows_node_new; eauto. }
    destruct x as [c|].
    + apply (grows_trans s s2 s'); [exact Hstep | eapply IH; eauto].
    + inversion H; subst. exact Hstep.
Qed.

Lemma mkdir_p_grows path s r s' : mkdir_p path s = Ret r s' -> grows s s'.
Proof.
  unfold mkdir_p. intros H.
  destruct (strcmp_eq path (String slash EmptyString) ||
            strcmp_eq path EmptyString);
    [inversion H; subst; apply grows_refl |].
  apply bind_Ret in H as (s0 & s1 & Hg & H). inversion Hg; subst.
  eapply mkdir_loop_grows; eauto.
Qed.

Lemma create_file_grows path s r s' :
  create_file path s = Ret r s' -> grows s s'.
Proof.
  intros H.
  destruct (Z.eq_dec r (-1)) as [-> | Hr].
  { apply create_file_fails in H as (Hh & Hroot & _).
    apply grows_same; assumption. }
  unfold create_file in H.
  apply bind_Ret in H as ([par w] & s1 & Hw & H).
  unfold walk in Hw. apply lift_Ret in Hw as [-> Hw].
  destruct par as [p|]; [| inversion H; subst; apply grows_refl].
  apply bind_Ret in H as (pn & s2 & Hd & H).
  apply deref_Ret in Hd as [-> _].
  destruct (negb (is_dir pn)); [inversion H; subst; apply grows_refl |].
  destruct (strlen (leaf_of w) =? 0)%nat;
    [inversion H; subst; apply grows_refl |].
  destruct (_ || _); [inversion H; subst; apply grows_refl |].
  destruct (NAME_MAX <? strlen (leaf_of w))%nat;
    [inversion H; subst; apply grows_refl |].
  apply bind_Ret in H as (c & s3 & Hf & H).
  apply lift_Ret in Hf as [-> Hf].
  destruct c; [inversion H; subst; apply grows_refl |].
  destruct (is_readonly pn); [inversion H; subst; apply grows_refl |].
  apply bind_Ret in H as (f & s1 & Hnew & H).
  apply bind_Ret in H as (x & s2 & Hadd & H).
  pose proof (new_entry_grows _ _ _ _ _ _ _ _ Hf Hnew Hadd) as Hstep.
  destruct x as [c|].
  - apply bind_Ret in H as (now & s3 & Ht & H).
    apply time_Ret in Ht as [-> ->].
    apply bind_Ret in H as (u & s4 & Hm & H). inversion H; subst.
    apply (grows_trans s s2 s'); [exact Hstep |].
    apply (grows_trans _ (set_ticks (S (ticks s2)) s2) s');
      [apply grows_same; reflexivity |].
    apply modify_Ret in Hm as (n0 & Hn0 & ->).
    apply (step_modify (R := grows) _ _ n0); [exact Hn0 |]. repeat split.
  - apply bind_Ret in H as (u & s3 & _ & H). inversion H; subst.
    exfalso. apply Hr. reflexivity.
Qed.

Lemma exec_grows c s r s' :
  keeps_paths c = true -> exec c s = Ret r s' -> grows s s'.
Proof.
  intros Hc H.
  destruct shape_eq_fields as (Ht & Hacc & Hmod & Hattr & Hdata & Hsize).
  pose proof grows_refl as Hrefl.
  pose proof grows_trans as Htrans.
  destruct c; try discriminate Hc; cbn [exec] in H.
  - eapply (fp_fs_cd shape_eq grows); eauto.
  - eapply mkdir_p_grows; eauto.
  - eapply (fp_ls_dir shape_eq grows); eauto.
  - eapply (fp_fs_search shape_eq grows); eauto.
  - eapply create_file_grows; eauto.
  - eapply (fp_write_file shape_eq grows); eauto.
  - eapply (pres_fst grows (read_file path off len)); eauto.
    apply (fp_read_file shape_eq grows); eauto.
  - eapply (fp_fs_open shape_eq grows); eauto.
  - eapply (fp_fs_close shape_eq grows); eauto.
  - eapply (pres_fst grows (fs_read_fd fd len)); eauto.
    apply (fp_fs_read_fd shape_eq grows); eauto.
  - eapply (fp_fs_write_fd shape_eq grows); eauto.
  - eapply (fp_fs_seek shape_eq grows); eauto.
  - eapply (pres_fst grows (get_file_info path)); eauto.
    apply (fp_get_file_info shape_eq grows); eauto.
  - eapply (fp_set_file_attributes shape_eq grows); eauto.
  - eapply (fp_touch_file shape_eq grows); eauto.
Qed.

(** X16. Paths outlive every call that neither removes nor renames:
    across any call other than [fs_init], [fs_destroy], [rm_file],
    [rmdir_empty] and [rename_file], whatever it returns, a path that
    resolved to a node from some start directory resolves to the same
    node from there afterwards (with the same leaf when the parent was
    asked for), and a node that was live still is, with the type, the
    name and the parent that it had. *)
Theorem paths_outlive_calls c s r s' :
  keeps_paths c = true -> exec c s = Ret r s' ->
  (forall start path wp a w,
     walk_from s start path wp = Some (Some a, w) ->
     walk_from s' start path wp = Some (Some a, w)) /\
  (forall a n, heap s !! a = Some n ->
     exists n', heap s' !! a = Some n' /\
       type n' = type n /\ name n' = name n /\ parent n' = parent n).
Proof.
  intros Hc H. pose proof (exec_grows _ _ _ _ Hc H) as Hg. split.
  - intros start path wp a w Hw. eapply walk_from_grows; eauto.
  - intros a n Ha. destruct (proj2 Hg _ _ Ha) as (n' & Ha' & Hty & Hnm & Hp & _).
    eauto.
Qed.

Lemma paths_outlive_calls_witness :
  walk_from (state_after (exec (Create_file "/a/g.txt")) with_file)
            NULL "/a/b/c/f.txt" false
  = Some (Some 5%positive, None).
Proof.
  destruct (paths_outlive_calls (Create_file "/a/g.txt") with_file 0
              (state_after (exec (Create_file "/a/g.txt")) with_file))
    as [H _].
  - reflexivity.
  - vm_compute. reflexivity.
  - apply H. vm_compute. reflexivity.
Defined.

(** ** Creating, then resolving *)

(** The two modes of the resolver agree: when the walk for the parent
    hands back a directory and a leaf, the walk for the node returns
    what [dir_find] finds under that leaf in that directory. *)
Lemma walk_from_leaf_found s start path p leaf r :
  walk_from s start path true = Some (p, Some leaf) ->
  dir_find (heap s) p leaf = Some r ->
  walk_from s start path false = Some (r, None).
Proof.
  unfold walk_from. intros Hw Hf.
  apply walk_loop_leaf in Hw as (pre & -> & Hpre & Hd & Hdd & Hlen).
  rewrite walk_loop_app, Hpre, walk_loop_last by assumption.
  replace ((strlen leaf =? 0)%nat || (NAME_MAX <? strlen leaf)%nat)
    with false.
  - rewrite Hf. reflexivity.
  - symmetry. apply orb_false_iff. split.
    + apply Nat.eqb_neq. lia.
    + apply Nat.ltb_ge. lia.
Qed.

(** The scan over entries none of which has the name, followed by one
    that has it. *)
Lemma find_by_name_append h nm f fn : forall cs,
  (forall x, x ∈ cs ->
     exists xn, h !! x = Some xn /\ strncmp_eq (name xn) nm NAME_MAX = false) ->
  h !! f = Some fn -> strncmp_eq (name fn) nm NAME_MAX = true ->
  find_by_name h (cs ++ [f]) nm = Some (Some f).
Proof.
  induction cs as [|x cs IH]; intros Hcs Hf Hnm.
  - cbn. rewrite Hf. cbn. rewrite Hnm. reflexivity.
  - change ((x :: cs) ++ [f]) with (x :: (cs ++ [f])). cbn [find_by_name].
    destruct (Hcs x) as (xn & Hx & Hno);
      [apply elem_of_cons; left; reflexivity |].
    rewrite Hx. cbn [mbind option_bind]. rewrite Hno.
    apply IH; [| assumption | assumption].
    intros y Hy. apply Hcs. apply elem_of_cons. right. exact Hy.
Qed.

(** The entry that was just added under a name that the directory did
    not hold is what [dir_find] returns for that name. *)
Lemma dir_find_new_entry s s' d dn dn' f fn nm :
  grows s s' ->
  dir_find (heap s) (Some d) nm = Some NULL ->
  heap s !! d = Some dn -> type dn = N_DIR ->
  heap s' !! d = Some dn' -> children dn' = children dn ++ [f] ->
  heap s' !! f = Some fn -> name fn = str_take NAME_MAX nm ->
  dir_find (heap s') (Some d) nm = Some (Some f).
Proof.
  intros Hg Hfind Hdn Hdir Hdn' Hch Hfn Hname.
  cbn [dir_find] in *. rewrite Hdn in Hfind. rewrite Hdn'.
  cbn [mbind option_bind] in *.
  destruct (proj2 Hg _ _ Hdn) as (dn2 & Hdn2 & Hty & _).
  rewrite Hdn' in Hdn2. inversion Hdn2; subst dn2.
  unfold is_dir in *. rewrite Hty, Hdir in *. cbn [node_type_eqb negb] in *.
  rewrite Hch. apply (find_by_name_append _ _ _ fn); [| exact Hfn |].
  - intros x Hx.
    destruct (find_by_name_NULL _ _ _ Hfind x Hx) as (xn & Hxn & Hno).
    destruct (proj2 Hg _ _ Hxn) as (xn' & Hxn' & _ & Hnm & _).
    exists xn'. split; [exact Hxn' | rewrite Hnm; exact Hno].
  - rewrite Hname. unfold strncmp_eq.
    rewrite (str_take_all NAME_MAX (str_take NAME_MAX nm))
      by apply str_take_length.
    apply String.eqb_refl.
Qed.

(** X17. A file that [create_file] has made is found at once: when
    [create_file] returns 0, the same path resolves, from the same
    current directory, to a node that was not live before; that node
    is a file without content and without attributes, as
    [get_file_info] then reports; and a second [create_file] on the
    path returns -1 and changes nothing. *)
Theorem create_file_then_found s path s' :
  create_file path s = Ret 0 s' ->
  exists f fn,
    heap s !! f = None /\
    walk_from s' (cwd s') path false = Some (Some f, None) /\
    heap s' !! f = Some fn /\
    type fn = N_FILE /\ size fn = 0 /\ attributes fn = ATTR_NONE /\
    (exists info s'',
       get_file_info path s' = Ret (0, Some info) s'' /\
       info_type info = N_FILE /\ info_size info = 0 /\
       info_attributes info = ATTR_NONE) /\
    create_file path s' = Ret (-1) s'.
Proof.
  intros H.
  pose proof (create_file_grows _ _ _ _ H) as Hg.
  assert (Hcwd : cwd s' = cwd s).
  { apply (fld_create_file cwd) in H; [exact H | reflexivity | reflexivity]. }
  destruct (create_file_success _ _ _ H)
    as (p & pn & leaf & f & fn & pn' & Hw & Hpn & Hdir & _ & Hfind & Hfresh
        & Hfn & Hty & Hname & _ & Hattr & Hsize & _ & _ & Hpn' & Hch & _).
  assert (Hw' : walk_from s' (cwd s') path true = Some (Some p, Some leaf)).
  { rewrite Hcwd. eapply walk_from_grows; eauto. }
  assert (Hleaf : (strlen leaf <= NAME_MAX)%nat).
  { unfold walk_from in Hw. apply walk_loop_leaf in Hw as (_ & _ & _ & _ & _ & Hl).
    lia. }
  assert (Hfind' : dir_find (heap s') (Some p) leaf = Some (Some f)).
  { eapply dir_find_new_entry; eauto.
    rewrite Hname. symmetry. apply str_take_all. exact Hleaf. }
  pose proof (walk_from_leaf_found _ _ _ _ _ _ Hw' Hfind') as Hres.
  exists f, fn. repeat (split; [assumption |]). split.
  - eexists _, _. split; [apply (get_file_info_run _ _ _ _ _ Hres Hfn) |].
    cbn [info_type info_size info_attributes]. unfold is_file.
    rewrite Hty. cbn [node_type_eqb]. auto.
  - destruct (create_file_rejects _ _ _ _ Hw') as [_ Hrej].
    apply (Hrej p pn' eq_refl Hpn'). right. right.
    exists (Some f). split; [exact Hfind' | left; discriminate].
Qed.

Lemma create_file_then_found_witness :
  exists f fn,
    heap with_dirs !! f = None /\
    walk_from with_file (cwd with_file) "/a/b/c/f.txt" false
      = Some (Some f, None) /\
    heap with_file !! f = Some fn /\
    type fn = N_FILE /\ size fn = 0 /\ attributes fn = ATTR_NONE /\
    (exists info s'',
       get_file_info "/a/b/c/f.txt" with_file = Ret (0, Some info) s'' /\
       info_type info = N_FILE /\ info_size info = 0 /\
       info_attributes info = ATTR_NONE) /\
    create_file "/a/b/c/f.txt" with_file = Ret (-1) with_file.
Proof.
  apply (create_file_then_found with_dirs "/a/b/c/f.txt" with_file).
  vm_compute. reflexivity.
Defined.

(** ** Making directories, then resolving *)

Lemma is_dir_type n : is_dir n = true <-> type n = N_DIR.
Proof. unfold is_dir. destruct (type n); cbn; split; congruence. Qed.

Lemma live_dir_grows s s' a : grows s s' -> live_dir s a -> live_dir s' a.
Proof.
  intros Hg (n & Hn & Hty). destruct (proj2 Hg _ _ Hn) as (n' & Hn' & Hty' & _).
  exists n'. split; [exact Hn' | congruence].
Qed.

(** One iteration of the resolver on a name that [dir_find] finds as a
    directory. *)
Lemma walk_loop_step h cur tok rest a1 n1 :
  (strlen tok =? 0)%nat || (NAME_MAX <? strlen tok)%nat = false ->
  strcmp_eq tok dot = false -> strcmp_eq tok dotdot = false ->
  dir_find h cur tok = Some (Some a1) ->
  h !! a1 = Some n1 -> is_dir n1 = true ->
  walk_loop h false cur (tok :: rest) = walk_loop h false (Some a1) rest.
Proof.
  intros Hlen Hd Hdd Hf Hn Hdir. cbn [walk_loop].
  rewrite Hlen, Hd, Hdd, Hf. cbn [mbind option_bind].
  destruct rest; [reflexivity |]. rewrite Hn. cbn [mbind option_bind].
  rewrite Hdir. reflexivity.
Qed.

(** [mkdir_loop] from the null pointer does nothing, and succeeds on
    [.] segments only. *)
Lemma mkdir_loop_null toks : forall s s',
  mkdir_loop toks NULL s = Ret 0 s' -> (dotdot ∉ toks) ->
  s' = s /\ forall h c, walk_loop h false c toks = Some (c, None).
Proof.
  induction toks as [|tok rest IH]; intros s s' H Hno; cbn [mkdir_loop] in H.
  { inversion H; subst. split; reflexivity. }
  destruct ((strlen tok =? 0)%nat || (NAME_MAX <? strlen tok)%nat) eqn:Elen;
    [inversion H |].
  destruct (strcmp_eq tok dot) eqn:Ed.
  { destruct (IH _ _ H) as [-> Hw].
    - intros Hin. apply Hno. apply elem_of_cons. right. exact Hin.
    - split; [reflexivity |]. intros h c. cbn [walk_loop].
      rewrite Elen, Ed. apply Hw. }
  destruct (strcmp_eq tok dotdot) eqn:Edd.
  { exfalso. apply Hno. apply strcmp_eq_true in Edd. subst tok.
    apply elem_of_cons. left. reflexivity. }
  exfalso. apply bind_Ret in H as (n & s1 & Hf & H).
  apply lift_Ret in Hf as [-> Hf]. cbn in Hf. inversion Hf; subst n.
  apply bind_Ret in H as (n' & s1 & Hnew & H).
  apply bind_Ret in H as (x & s2 & Hadd & H).
  inversion Hadd; subst. inversion H.
Qed.

(** After [mkdir_loop] has returned 0 on segments without [..], the
    resolver follows the same segments to a live directory. *)
Lemma mkdir_loop_lands toks : forall a s s',
  mkdir_loop toks (Some a) s = Ret 0 s' -> (dotdot ∉ toks) ->
  live_dir s a ->
  exists d, walk_loop (heap s') false (Some a) toks = Some (Some d, None) /\
            live_dir s' d.
Proof.
  induction toks as [|tok rest IH]; intros a s s' H Hno Hlive.
  { cbn in H. inversion H; subst. exists a. split; [reflexivity | exact Hlive]. }
  pose proof (mkdir_loop_grows _ _ _ _ _ H) as Hgrows.
  cbn [mkdir_loop] in H.
  assert (Hno' : dotdot ∉ rest).
  { intros Hin. apply Hno. apply elem_of_cons. right. exact Hin. }
  destruct ((strlen tok =? 0)%nat || (NAME_MAX <? strlen tok)%nat) eqn:Elen;
    [inversion H |].
  destruct (strcmp_eq tok dot) eqn:Ed.
  { destruct (IH _ _ _ H Hno' Hlive) as (d & Hw & Hd). exists d.
    split; [| exact Hd]. cbn [walk_loop]. rewrite Elen, Ed. exact Hw. }
  destruct (strcmp_eq tok dotdot) eqn:Edd.
  { exfalso. apply Hno. apply strcmp_eq_true in Edd. subst tok.
    apply elem_of_cons. left. reflexivity. }
  apply bind_Ret in H as (n & s1 & Hf & H).
  apply lift_Ret in Hf as [-> Hf].
  destruct n as [a1|].
  - apply bind_Ret in H as (nd & s1 & Hd & H).
    apply deref_Ret in Hd as [-> (a1' & Ha1' & Hnd)]. inversion Ha1'; subst a1'.
    destruct (negb (is_dir nd)) eqn:Edir; [inversion H |].
    apply negb_false_iff in Edir.
    apply bind_Ret in H as (now & s1 & Ht & H).
    apply time_Ret in Ht as [-> ->].
    apply bind_Ret in H as (u & s2 & Hm & H).
    apply modify_Ret in Hm as (n0 & Hn0 & ->).
    cbn [heap set_ticks] in Hn0. rewrite Hnd in Hn0. inversion Hn0; subst n0.
    assert (Hlive1 : live_dir s a1)
      by (exists nd; split; [exact Hnd | apply is_dir_type; exact Edir]).
    destruct (IH _ _ _ H Hno') as (d & Hw & Hd).
    { exists (set_accessed (clock s (ticks s)) nd).
      cbn [heap set_heap set_ticks]. rewrite lookup_insert_eq.
      split; [reflexivity |]. apply is_dir_type. exact Edir. }
    exists d. split; [| exact Hd].
    destruct (live_dir_grows _ _ _ Hgrows Hlive1) as (n1' & Hn1' & Hty1).
    rewrite (walk_loop_step _ _ _ _ a1 n1'); try assumption.
    + eapply dir_find_grows; eauto.
    + apply is_dir_type. exact Hty1.
  - apply bind_Ret in H as (n' & s1 & Hnew & H).
    apply bind_Ret in H as (x & s2 & Hadd & H).
    destruct (new_entry_cases _ _ _ _ _ _ _ _ Hf Hnew Hadd)
      as (f & dn & fn & dn' & -> & Hfresh & Hdn & Hfn & Hty & Hname & _ & _
          & Hdn' & _ & _ & _ & _ & _ & Hcase).
    pose proof (new_entry_grows _ _ _ _ _ _ _ _ Hf Hnew Hadd) as Hg2.
    destruct Hcase as [[-> _] | (-> & Hdir & Hch)]; [inversion H |].
    pose proof (mkdir_loop_grows _ _ _ _ _ H) as Hg'.
    assert (Hlive2 : live_dir s2 f) by (exists fn; split; assumption).
    destruct (IH _ _ _ H Hno' Hlive2) as (d & Hw & Hd).
    exists d. split; [| exact Hd].
    destruct (live_dir_grows _ _ _ Hg' Hlive2) as (fn' & Hfn' & Htyf).
    rewrite (walk_loop_step _ _ _ _ f fn'); try assumption.
    + eapply dir_find_grows; [exact Hg' |].
      eapply dir_find_new_entry; eauto.
    + apply is_dir_type. exact Htyf.
Qed.

(** What a walk that ends on a directory has read on a first segment
    that is a name. *)
Lemma walk_loop_name_inv h cur tok rest d :
  (strlen tok =? 0)%nat || (NAME_MAX <? strlen tok)%nat = false ->
  strcmp_eq tok dot = false -> strcmp_eq tok dotdot = false ->
  walk_loop h false cur (tok :: rest) = Some (Some d, None) ->
  (exists n, h !! d = Some n /\ type n = N_DIR) ->
  exists a1 n1, dir_find h cur tok = Some (Some a1) /\
    h !! a1 = Some n1 /\ is_dir n1 = true /\
    walk_loop h false (Some a1) rest = Some (Some d, None).
Proof.
  intros Hlen Hd Hdd Hw (n & Hn & Hty). cbn [walk_loop] in Hw.
  rewrite Hlen, Hd, Hdd in Hw.
  destruct (dir_find h cur tok) as [[a1|]|] eqn:Ef;
    cbn [mbind option_bind] in Hw.
  - destruct rest as [|next rest].
    + inversion Hw; subst a1. exists d, n.
      repeat split; try assumption. apply is_dir_type. exact Hty.
    + destruct (h !! a1) as [n1|] eqn:Ea1; [| discriminate].
      cbn [mbind option_bind] in Hw.
      destruct (negb (is_dir n1)) eqn:Edir; [discriminate |].
      apply negb_false_iff in Edir. exists a1, n1. auto.
  - destruct rest; discriminate.
  - destruct rest; discriminate.
Qed.

(** [mkdir_loop] along segments that lead to a directory creates
    nothing. *)
Lemma mkdir_loop_existing toks : forall cur s d,
  walk_loop (heap s) false cur toks = Some (Some d, None) ->
  live_dir s d ->
  exists s'', mkdir_loop toks cur s = Ret 0 s'' /\ only_accessed s s''.
Proof.
  assert (Hrefl : forall s, only_accessed s s)
    by (intros s; apply step_same; reflexivity).
  induction toks as [|tok rest IH]; intros cur s d Hw Hlive.
  { exists s. split; [reflexivity | apply Hrefl]. }
  cbn [mkdir_loop].
  destruct ((strlen tok =? 0)%nat || (NAME_MAX <? strlen tok)%nat) eqn:Elen.
  { cbn [walk_loop] in Hw. rewrite Elen in Hw. discriminate. }
  destruct (strcmp_eq tok dot) eqn:Ed.
  { cbn [walk_loop] in Hw. rewrite Elen, Ed in Hw. eapply IH; eauto. }
  destruct (strcmp_eq tok dotdot) eqn:Edd.
  { cbn [walk_loop] in Hw. rewrite Elen, Ed, Edd in Hw.
    destruct cur as [c|]; [| discriminate]. cbn [mbind option_bind] in Hw.
    destruct (heap s !! c) as [cn|] eqn:Ec; [| discriminate].
    cbn [mbind option_bind] in Hw.
    rewrite (bind_run _ _ _ _ _ (deref_live _ _ _ Ec)).
    eapply IH; eauto. }
  destruct (walk_loop_name_inv _ _ _ _ _ Elen Ed Edd Hw Hlive)
    as (a1 & n1 & Hf & Hn1 & Hdir & Hrest).
  set (s2 := set_heap (<[a1 := set_accessed (clock s (ticks s)) n1]> (heap s))
                      (set_ticks (S (ticks s)) s)).
  assert (Hshape : same_shape (heap s) (heap s2)).
  { apply same_shape_insert with (n := n1); [exact Hn1 | repeat split]. }
  destruct (IH (Some a1) s2 d) as (s'' & Hrun & Hacc).
  { rewrite <- (walk_loop_shape _ _ false Hshape). exact Hrest. }
  { destruct Hlive as (n & Hn & Hty).
    destruct (Hshape d) as [[Hnone _] | (m & m' & Hm & Hm' & Hty' & _)];
      [congruence |].
    exists m'. split; [exact Hm' | congruence]. }
  exists s''. split.
  - rewrite (bind_run _ _ s (Some a1) s)
      by (unfold lift; rewrite Hf; reflexivity).
    rewrite (bind_run _ _ _ _ _ (deref_live _ _ _ Hn1)).
    rewrite Hdir. cbn [negb].
    rewrite (bind_run _ _ s (clock s (ticks s)) (set_ticks (S (ticks s)) s))
      by reflexivity.
    rewrite (bind_run _ _ _ _ _
               (modify_live a1 _ (set_ticks (S (ticks s)) s) n1 Hn1)).
    exact Hrun.
  - eapply step_trans; [| exact Hacc].
    eapply (step_trans s (set_ticks (S (ticks s)) s));
      [apply step_same; reflexivity |].
    apply (step_modify (R := only_accessed) (set_ticks (S (ticks s)) s) a1 n1);
      [exact Hn1 | apply accessed_only_stamp].
Qed.

Lemma fs_cd_run s path a w n :
  walk_from s (cwd s) path false = Some (Some a, w) ->
  heap s !! a = Some n -> type n = N_DIR ->
  fs_cd path s =
    Ret 0 (set_heap (<[a := set_accessed (clock s (ticks s)) n]> (heap s))
             (set_ticks (S (ticks s)) (set_cwd (Some a) s))).
Proof.
  intros Hw Hn Hty. unfold fs_cd.
  rewrite (bind_run _ _ _ _ _ (walk_run _ _ _ _ Hw)).
  rewrite (bind_run _ _ _ _ _ (deref_live _ _ _ Hn)).
  apply is_dir_type in Hty. rewrite Hty. cbn [negb].
  unfold bind, time, modify, ret. cbn [heap set_heap set_ticks set_cwd].
  rewrite Hn. reflexivity.
Qed.

(** X18. Directories that [mkdir_p] has made are there: when
    [mkdir_p] returns 0 on a path without [..] segments, started from
    a live directory, the same path then resolves to a live directory,
    [fs_cd] on it returns 0 and makes that directory the current one,
    and a second [mkdir_p] on the path returns 0 without creating
    anything: it changes access times only. *)
Theorem mkdir_p_then_directory s path s' a :
  mkdir_p path s = Ret 0 s' ->
  (dotdot ∉ tokens (path_buffer path)) ->
  start_node s (cwd s) path = Some a -> live_dir s a ->
  exists d,
    walk_from s' (cwd s') path false = Some (Some d, None) /\
    live_dir s' d /\
    (exists s1, fs_cd path s' = Ret 0 s1 /\ cwd s1 = Some d) /\
    (exists s2, mkdir_p path s' = Ret 0 s2 /\ only_accessed s' s2).
Proof.
  intros H Hno Hstart Hlive.
  pose proof (mkdir_p_grows _ _ _ _ H) as Hg.
  assert (Hcwd : cwd s' = cwd s).
  { apply (fld_mkdir_p cwd) in H; [exact H | reflexivity | reflexivity]. }
  assert (Hstart' : start_node s' (cwd s') path = Some a).
  { unfold start_node in *. rewrite Hcwd, (proj1 Hg). exact Hstart. }
  assert (Hrefl : forall s, only_accessed s s)
    by (intros s0; apply step_same; reflexivity).
  assert (Hmain : exists d,
            walk_from s' (cwd s') path false = Some (Some d, None) /\
            live_dir s' d /\
            exists s2, mkdir_p path s' = Ret 0 s2 /\ only_accessed s' s2).
  { unfold walk_from. rewrite Hstart'. unfold mkdir_p in *.
    destruct (strcmp_eq path (String slash EmptyString) ||
              strcmp_eq path EmptyString) eqn:Etriv.
    - inversion H; subst s'. exists a.
      assert (tokens (path_buffer path) = []) as ->.
      { apply orb_true_iff in Etriv as [E | E]; apply strcmp_eq_true in E;
          subst path; reflexivity. }
      split; [reflexivity |]. split; [exact Hlive |].
      exists s. split; [reflexivity | apply Hrefl].
    - apply bind_Ret in H as (s0 & s1 & Hget & H). inversion Hget; subst s0 s1.
      unfold bind at 1. unfold get. rewrite Hcwd, (proj1 Hg).
      destruct (if is_absolute path then root s else cwd s) as [x|] eqn:Ex.
      + assert (x = a) as ->.
        { unfold start_node in Hstart.
          destruct (is_absolute path); [congruence |].
          rewrite Ex in Hstart. congruence. }
        destruct (mkdir_loop_lands _ _ _ _ H Hno Hlive) as (d & Hw & Hd).
        exists d. split; [exact Hw |]. split; [exact Hd |].
        eapply mkdir_loop_existing; eauto.
      + destruct (mkdir_loop_null _ _ _ H Hno) as [-> Hw].
        exists a. split; [apply Hw |]. split; [exact Hlive |].
        exists s. split; [exact H | apply Hrefl]. }
  destruct Hmain as (d & Hw & Hd & Hagain).
  exists d. split; [exact Hw |]. split; [exact Hd |]. split; [| exact Hagain].
  destruct Hd as (n & Hn & Hty).
  eexists. split; [apply (fs_cd_run _ _ _ _ _ Hw Hn Hty) | reflexivity].
Qed.

Lemma mkdir_p_then_directory_witness :
  exists d,
    walk_from with_dirs (cwd with_dirs) "/a/b/c" false
      = Some (Some d, None) /\
    live_dir with_dirs d /\
    (exists s1, fs_cd "/a/b/c" with_dirs = Ret 0 s1 /\ cwd s1 = Some d) /\
    (exists s2, mkdir_p "/a/b/c" with_dirs = Ret 0 s2 /\
                only_accessed with_dirs s2).
Proof.
  apply (mkdir_p_then_directory fresh_fs "/a/b/c" with_dirs 1%positive).
  - vm_compute. reflexivity.
  - vm_compute. intros H. repeat (apply elem_of_cons in H as [H | H];
      [discriminate H |]). inversion H.
  - vm_compute. reflexivity.
  - eexists. split; vm_compute; reflexivity.
Defined.

(** ** Changing directory, then resolving *)

Lemma tokens_from_app_slash p q : forall tok,
  tokens_from (p +:+ String slash q) tok = tokens_from p tok ++ tokens q.
Proof.
  induction p as [|c p IH]; intros tok;
    rewrite ?app_String, ?app_empty; cbn [tokens_from].
  - rewrite Ascii.eqb_refl. destruct tok; reflexivity.
  - destruct (Ascii.eqb c slash).
    + destruct tok; rewrite IH; reflexivity.
    + apply IH.
Qed.

(** The walk over segments followed by others is the descent over the
    first ones followed by the walk over the others. *)
Lemma walk_loop_descend h wp rest : rest <> [] -> forall pre cur,
  walk_loop h wp cur (pre ++ rest) =
  match descend h cur pre with
  | None => None
  | Some Lost => Some (NULL, None)
  | Some (At c) => walk_loop h wp c rest
  end.
Proof.
  intros Hrest. induction pre as [|t pre IH]; intros cur; [reflexivity |].
  change ((t :: pre) ++ rest) with (t :: (pre ++ rest)).
  rewrite walk_loop_cons by (destruct pre; [exact Hrest | discriminate]).
  cbn [descend].
  destruct ((strlen t =? 0)%nat || (NAME_MAX <? strlen t)%nat); [reflexivity |].
  destruct (strcmp_eq t dot); [apply IH |].
  destruct (strcmp_eq t dotdot).
  { destruct cur as [a|]; [| reflexivity]. cbn.
    destruct (h !! a) as [cn|]; [| reflexivity]. cbn. apply IH. }
  destruct (dir_find h cur t) as [[a|]|]; cbn; try reflexivity.
  destruct (h !! a) as [n|]; cbn; [| reflexivity].
  destruct (negb (is_dir n)); [reflexivity | apply IH].
Qed.

(** A walk that ends on a directory is a descent. *)
Lemma descend_of_walk h : forall pre cur d,
  walk_loop h false cur pre = Some (Some d, None) ->
  (exists n, h !! d = Some n /\ type n = N_DIR) ->
  descend h cur pre = Some (At (Some d)).
Proof.
  induction pre as [|tok rest IH]; intros cur d Hw Hd.
  { cbn in Hw. inversion Hw; subst. reflexivity. }
  cbn [descend].
  destruct ((strlen tok =? 0)%nat || (NAME_MAX <? strlen tok)%nat) eqn:Elen.
  { cbn [walk_loop] in Hw. rewrite Elen in Hw. discriminate. }
  destruct (strcmp_eq tok dot) eqn:Ed.
  { cbn [walk_loop] in Hw. rewrite Elen, Ed in Hw. apply IH; assumption. }
  destruct (strcmp_eq tok dotdot) eqn:Edd.
  { cbn [walk_loop] in Hw. rewrite Elen, Ed, Edd in Hw.
    destruct cur as [c|]; [| discriminate]. cbn [mbind option_bind] in *.
    destruct (h !! c) as [cn|]; [| discriminate]. cbn [mbind option_bind] in *.
    apply IH; assumption. }
  destruct (walk_loop_name_inv _ _ _ _ _ Elen Ed Edd Hw Hd)
    as (a1 & n1 & Hf & Hn1 & Hdir & Hrest).
  rewrite Hf. cbn [mbind option_bind]. rewrite Hn1. cbn [mbind option_bind].
  rewrite Hdir. cbn [negb]. apply IH; assumption.
Qed.

(** The resolver hands back a leaf only when the parent is asked
    for. *)
Lemma walk_loop_no_leaf h : forall toks cur r w,
  walk_loop h false cur toks = Some (r, w) -> w = None.
Proof.
  induction toks as [|tok rest IH]; intros cur r w H.
  { cbn in H. inversion H. reflexivity. }
  cbn [walk_loop] in H.
  destruct ((strlen tok =? 0)%nat || (NAME_MAX <? strlen tok)%nat);
    [inversion H; reflexivity |].
  destruct (strcmp_eq tok dot); [eapply IH; eauto |].
  destruct (strcmp_eq tok dotdot).
  { destruct cur as [c|]; [| discriminate]. cbn [mbind option_bind] in H.
    destruct (h !! c) as [cn|]; [| discriminate]. cbn [mbind option_bind] in H.
    eapply IH; eauto. }
  destruct (dir_find h cur tok) as [[a|]|]; cbn [mbind option_bind] in H.
  - destruct rest as [|next rest]; [inversion H; reflexivity |].
    destruct (h !! a) as [n|]; [| discriminate]. cbn [mbind option_bind] in H.
    destruct (negb (is_dir n)); [inversion H; reflexivity | eapply IH; eauto].
  - destruct rest; inversion H; reflexivity.
  - destruct rest; discriminate.
Qed.

(** What a successful [fs_cd] has done. *)
Lemma fs_cd_success path s s' :
  fs_cd path s = Ret 0 s' ->
  exists d n,
    walk_from s (cwd s) path false = Some (Some d, None) /\
    heap s !! d = Some n /\ type n = N_DIR /\
    s' = set_heap (<[d := set_accessed (clock s (ticks s)) n]> (heap s))
           (set_ticks (S (ticks s)) (set_cwd (Some d) s)).
Proof.
  unfold fs_cd. intros H.
  apply bind_Ret in H as ([d w] & s1 & Hw & H).
  apply walk_Ret in Hw as [-> Hw].
  pose proof (walk_loop_no_leaf _ _ _ _ _ Hw) as ->.
  destruct d as [a|]; [| inversion H].
  apply bind_Ret in H as (dn & s1 & Hd & H).
  apply deref_Ret in Hd as [-> (a' & Ha' & Hdn)]. inversion Ha'; subst a'.
  destruct (negb (is_dir dn)) eqn:Edir; [inversion H |].
  apply negb_false_iff, is_dir_type in Edir.
  exists a, dn. split; [exact Hw |]. split; [exact Hdn |].
  split; [exact Edir |].
  apply bind_Ret in H as (u & s1 & Hs & H). inversion Hs; subst u s1.
  apply bind_Ret in H as (now & s1 & Ht & H).
  apply time_Ret in Ht as [-> ->].
  apply bind_Ret in H as (u & s2 & Hm & H).
  apply modify_Ret in Hm as (n0 & Hn0 & ->).
  cbn [heap set_ticks set_cwd] in Hn0. rewrite Hdn in Hn0.
  inversion Hn0; subst n0. inversion H; subst. reflexivity.
Qed.

(** X19. Where [fs_cd] has gone, relative paths start: after
    [fs_cd p] has returned 0, a relative path [q] with at least one
    segment resolves as [p/q] did before the call, for either value of
    [want_parent], as long as [p/q] fits the buffer of the resolver. *)
Theorem fs_cd_then_relative s p s' q want_parent :
  fs_cd p s = Ret 0 s' ->
  p <> EmptyString -> is_absolute q = false ->
  tokens (path_buffer q) <> [] ->
  (strlen p + strlen q + 1 <= 1023)%nat ->
  walk_from s' (cwd s') q want_parent =
  walk_from s (cwd s) (p +:+ String slash q) want_parent.
Proof.
  intros H Hp Hq Htoks Hlen.
  destruct (fs_cd_success _ _ _ H) as (d & n & Hw & Hn & Hty & ->).
  unfold walk_from, start_node in *.
  cbn [heap root cwd set_heap set_ticks set_cwd].
  rewrite Hq. rewrite (is_absolute_app p) by exact Hp.
  assert (Hshape : same_shape (heap s)
                     (<[d := set_accessed (clock s (ticks s)) n]> (heap s))).
  { apply same_shape_insert with (n := n); [exact Hn | repeat split]. }
  rewrite <- (walk_loop_shape _ _ want_parent Hshape).
  rewrite (path_buffer_short (p +:+ String slash q)).
  2:{ rewrite strlen_app. change (strlen (String slash q)) with (S (strlen q)).
      lia. }
  rewrite (path_buffer_short p) in Hw by lia.
  rewrite (path_buffer_short q) in * by lia.
  unfold tokens at 2. rewrite tokens_from_app_slash.
  rewrite (walk_loop_descend _ _ _ Htoks).
  fold (tokens p).
  rewrite (descend_of_walk _ _ _ _ Hw); [reflexivity |].
  exists n. split; assumption.
Qed.

Lemma fs_cd_then_relative_witness :
  walk_from (state_after (fs_cd "/a/b") with_file)
            (cwd (state_after (fs_cd "/a/b") with_file)) "c/f.txt" false =
  walk_from with_file (cwd with_file) "/a/b/c/f.txt" false.
Proof.
  apply (fs_cd_then_relative with_file "/a/b"
           (state_after (fs_cd "/a/b") with_file) "c/f.txt" false).
  - vm_compute. reflexivity.
  - discriminate.
  - reflexivity.
  - vm_compute. discriminate.
  - vm_compute. lia.
Defined.

(** ** Names and attachment *)

Lemma lists_insert h x n' d y :
  lists (<[x := n']> h) d y <->
  (d = x /\ y ∈ children n') \/ (d <> x /\ lists h d y).
Proof.
  unfold lists. destruct (decide (d = x)) as [-> | Hne].
  - rewrite lookup_insert_eq. split.
    + intros (dn & Hdn & Hy). inversion Hdn; subst. left. auto.
    + intros [[_ Hy] | [Hne _]]; [eauto | congruence].
  - rewrite lookup_insert_ne by congruence. split.
    + intros H. right. auto.
    + intros [[E _] | [_ H]]; [congruence | exact H].
Qed.

Lemma lists_insert_same h x n n' d y :
  h !! x = Some n -> children n' = children n ->
  lists (<[x := n']> h) d y <-> lists h d y.
Proof.
  intros Hn Hch. rewrite lists_insert. split.
  - intros [[-> Hy] | [_ H]]; [| exact H].
    exists n. rewrite <- Hch. auto.
  - intros (dn & Hdn & Hy). destruct (decide (d = x)) as [-> | Hne].
    + left. split; [reflexivity |]. rewrite Hch.
      rewrite Hn in Hdn. inversion Hdn; subst. exact Hy.
    + right. split; [exact Hne |]. exists dn. auto.
Qed.

Lemma lists_delete h c d y :
  lists (delete c h) d y <-> d <> c /\ lists h d y.
Proof.
  unfold lists. split.
  - intros (dn & Hdn & Hy). apply lookup_delete_Some in Hdn as [Hne Hdn].
    split; [congruence | eauto].
  - intros [Hne (dn & Hdn & Hy)]. exists dn. split; [| exact Hy].
    rewrite lookup_delete_ne by congruence. exact Hdn.
Qed.

(** An entry is live and points back at the node that lists it, so
    only one node lists it. *)
Lemma listed_live h d x :
  linked h -> lists h d x -> exists xn, h !! x = Some xn /\ parent xn = Some d.
Proof.
  intros Hl (dn & Hdn & Hx). destruct (Hl d dn Hdn) as (_ & _ & _ & _ & H).
  apply H. exact Hx.
Qed.

Lemma lister_unique h d d' x :
  linked h -> lists h d x -> lists h d' x -> d = d'.
Proof.
  intros Hl H1 H2.
  destruct (listed_live _ _ _ Hl H1) as (xn & Hx & Hp).
  destruct (listed_live _ _ _ Hl H2) as (xn' & Hx' & Hp').
  congruence.
Qed.

Lemma lister_is_dir h d x :
  linked h -> lists h d x -> exists dn, h !! d = Some dn /\ type dn = N_DIR.
Proof.
  intros Hl (dn & Hdn & Hx). exists dn. split; [exact Hdn |].
  destruct (Hl d dn Hdn) as (H & _). apply H. intros E. rewrite E in Hx.
  apply elem_of_nil in Hx. exact Hx.
Qed.

Lemma attached_live s x :
  tree_ok s -> attached s x -> is_Some (heap s !! x).
Proof.
  intros [Hl Hr] [Hroot | (d & Hd)].
  - destruct (Hr _ Hroot) as (rn & Hrn & _). eauto.
  - destruct (listed_live _ _ _ Hl Hd) as (xn & Hx & _). eauto.
Qed.

(** The parent pointer of an attached node is null, for the root, or
    points at the node that lists it, which is attached as well. *)
Lemma attached_parent s x xn p :
  tree_ok s -> holders_attached s -> attached s x ->
  heap s !! x = Some xn -> parent xn = Some p ->
  lists (heap s) p x /\ attached s p.
Proof.
  intros [Hl Hr] Hj [Hroot | (d & Hd)] Hx Hp.
  - destruct (Hr _ Hroot) as (rn & Hrn & _ & Hnone). congruence.
  - destruct (listed_live _ _ _ Hl Hd) as (xn' & Hx' & Hp').
    assert (d = p) as -> by congruence.
    split; [exact Hd | eapply Hj; eauto].
Qed.

(** The scan of a list of live entries is defined, and what it finds
    is in the list. *)
Lemma find_by_name_defined h nm : forall cs,
  (forall x, x ∈ cs -> is_Some (h !! x)) ->
  exists r, find_by_name h cs nm = Some r /\
            forall y, r = Some y -> y ∈ cs.
Proof.
  induction cs as [|x cs IH]; intros Hlive.
  - exists NULL. split; [reflexivity | discriminate].
  - cbn [find_by_name].
    destruct (Hlive x) as [xn Hx]; [apply elem_of_cons; left; reflexivity |].
    rewrite Hx. cbn [mbind option_bind].
    destruct (strncmp_eq (name xn) nm NAME_MAX).
    + exists (Some x). split; [reflexivity |]. intros y Hy. inversion Hy; subst.
      apply elem_of_cons. left. reflexivity.
    + destruct IH as (r & Hr & Hin).
      { intros y Hy. apply Hlive. apply elem_of_cons. right. exact Hy. }
      exists r. split; [exact Hr |]. intros y Hy. apply elem_of_cons. right.
      apply Hin. exact Hy.
Qed.

Lemma dir_find_defined s c nm :
  tree_ok s -> attached s c ->
  exists r, dir_find (heap s) (Some c) nm = Some r /\
            forall y, r = Some y -> lists (heap s) c y.
Proof.
  intros Hok Hc. destruct (attached_live _ _ Hok Hc) as [cn Hcn].
  cbn [dir_find]. rewrite Hcn. cbn [mbind option_bind].
  destruct (negb (is_dir cn)).
  - exists NULL. split; [reflexivity | discriminate].
  - destruct (find_by_name_defined (heap s) nm (children cn)) as (r & Hr & Hin).
    + intros x Hx. destruct Hok as [Hl _].
      destruct (listed_live (heap s) c x Hl) as (xn & Hxn & _); [| eauto].
      exists cn. auto.
    + exists r. split; [exact Hr |]. intros y Hy. exists cn. auto.
Qed.

(** In a tidy tree the resolver, started on an attached node, reads
    live nodes only and returns the null pointer or an attached
    node. *)
Lemma walk_loop_attached s wp :
  tree_ok s -> holders_attached s ->
  forall toks c, attached s c ->
    exists r w, walk_loop (heap s) wp (Some c) toks = Some (r, w) /\
                forall a, r = Some a -> attached s a.
Proof.
  intros Hok Hj. induction toks as [|tok rest IH]; intros c Hc.
  { exists (Some c), None. split; [reflexivity |].
    intros a Ha. inversion Ha; subst. exact Hc. }
  assert (Hnull : exists r w, Some (NULL, @None string) = Some (r, w) /\
                    forall a, r = Some a -> attached s a).
  { exists NULL, None. split; [reflexivity | discriminate]. }
  destruct (attached_live _ _ Hok Hc) as [cn Hcn].
  assert (Hup : attached s (match parent cn with Some p => p | None => c end)).
  { destruct (parent cn) as [p|] eqn:Ep; [| exact Hc].
    eapply attached_parent; eauto. }
  destruct (dir_find_defined s c tok Hok Hc) as (r & Hr & Hlist).
  destruct rest as [|next rest].
  - cbn [walk_loop].
    destruct ((strlen tok =? 0)%nat || (NAME_MAX <? strlen tok)%nat);
      [exact Hnull |].
    destruct (strcmp_eq tok dot); [apply (IH c Hc) |].
    destruct (strcmp_eq tok dotdot).
    { cbn [mbind option_bind]. rewrite Hcn. cbn [mbind option_bind].
      destruct (parent cn) as [p|]; apply (IH _ Hup). }
    destruct wp.
    + eexists _, _. split; [reflexivity |]. intros a Ha.
      inversion Ha; subst. exact Hc.
    + rewrite Hr. cbn [mbind option_bind]. eexists _, _.
      split; [reflexivity |]. intros a Ha. right. exists c. auto.
  - rewrite (walk_loop_cons _ _ _ _ (next :: rest)) by discriminate.
    destruct ((strlen tok =? 0)%nat || (NAME_MAX <? strlen tok)%nat);
      [exact Hnull |].
    destruct (strcmp_eq tok dot); [apply (IH c Hc) |].
    destruct (strcmp_eq tok dotdot).
    { cbn [mbind option_bind]. rewrite Hcn. cbn [mbind option_bind].
      destruct (parent cn) as [p|]; apply (IH _ Hup). }
    rewrite Hr. cbn [mbind option_bind].
    destruct r as [y|]; [| exact Hnull].
    assert (Hy : attached s y) by (right; exists c; auto).
    destruct (attached_live _ _ Hok Hy) as [yn Hyn].
    rewrite Hyn. cbn [mbind option_bind].
    destruct (negb (is_dir yn)); [exact Hnull | apply (IH y Hy)].
Qed.

Lemma walk_from_attached s path wp c :
  tidy s -> start_node s (cwd s) path = Some c ->
  exists r w, walk_from s (cwd s) path wp = Some (r, w) /\
              forall a, r = Some a -> attached s a.
Proof.
  intros (Hok & _ & Hj & Hcwd) Hstart. unfold walk_from. rewrite Hstart.
  apply walk_loop_attached; try assumption.
  unfold start_node in Hstart.
  destruct (is_absolute path); [left; exact Hstart |].
  destruct (cwd s) as [x|] eqn:Ex.
  - inversion Hstart; subst. apply (Hcwd _ Ex).
  - left. exact Hstart.
Qed.

(** *** How a call may change the tree *)

Lemma str_take_idem n x : str_take n (str_take n x) = str_take n x.
Proof. apply str_take_all. apply str_take_length. Qed.

(** A name that [dir_find] does not find is the name of no entry. *)
Lemma dir_find_NULL_names h d dn nm :
  dir_find h (Some d) nm = Some NULL ->
  h !! d = Some dn -> type dn = N_DIR ->
  forall y yn, y ∈ children dn -> h !! y = Some yn ->
               name yn <> str_take NAME_MAX nm.
Proof.
  intros Hf Hd Hty y yn Hy Hyn Hname. cbn [dir_find] in Hf. rewrite Hd in Hf.
  cbn [mbind option_bind] in Hf. apply is_dir_type in Hty. rewrite Hty in Hf.
  cbn [negb] in Hf.
  destruct (find_by_name_NULL _ _ _ Hf y Hy) as (yn' & Hyn' & Hno).
  rewrite Hyn in Hyn'. inversion Hyn'; subst yn'.
  unfold strncmp_eq in Hno. rewrite Hname, str_take_idem in Hno.
  rewrite String.eqb_refl in Hno. discriminate.
Qed.

(** The step from [h] to [h']: the node [a] may have been attached
    under [np], with a name that no other entry of [np] has; every
    other entry was one before and has kept its name. *)
Lemma names_unique_step h h' a np :
  names_unique h ->
  (forall d x, lists h' d x ->
     (x <> a /\ lists h d x) \/ (x = a /\ d = np)) ->
  (forall x n', h' !! x = Some n' -> x <> a ->
     exists n, h !! x = Some n /\ name n = name n') ->
  (forall y yn an, lists h' np y -> y <> a ->
     h' !! y = Some yn -> h' !! a = Some an -> name yn <> name an) ->
  names_unique h'.
Proof.
  intros Hu HA HC HD d x y xn yn Hx Hy Hxn Hyn Hname.
  destruct (HA _ _ Hx) as [[Hxa Hx0] | [-> ->]];
    destruct (HA _ _ Hy) as [[Hya Hy0] | [Ey Ed]]; subst.
  - destruct (HC _ _ Hxn Hxa) as (xn0 & Hxn0 & Ex).
    destruct (HC _ _ Hyn Hya) as (yn0 & Hyn0 & Ey).
    apply (Hu d x y xn0 yn0); try assumption. congruence.
  - exfalso. apply (HD x xn yn Hx Hxa Hxn Hyn). exact Hname.
  - exfalso. apply (HD y yn xn Hy Hya Hyn Hxn). symmetry. exact Hname.
  - reflexivity.
Qed.

(** An attached node stays attached when its lister keeps it. *)
Lemma attached_step s s' a c x :
  root s' = root s ->
  (forall d y, lists (heap s) d y -> y <> a -> y <> c -> lists (heap s') d y) ->
  attached s x -> x <> c -> (x = a -> attached s' a) -> attached s' x.
Proof.
  intros Hroot HB [Hr | (d & Hd)] Hxc Ha.
  - left. congruence.
  - destruct (decide (x = a)) as [-> | Hxa]; [apply Ha; reflexivity |].
    right. exists d. apply HB; assumption.
Qed.

(** The general step of a call on a tidy state: [a] may have been
    attached under the attached node [np] or renamed there, [c] may
    have been released. *)
Lemma tidy_step s s' a np c :
  tidy s -> tree_ok s' -> root s' = root s ->
  (forall x, cwd s' = Some x -> attached s x /\ live_dir s x /\ x <> c) ->
  (forall d x, lists (heap s') d x ->
     (x <> a /\ lists (heap s) d x) \/ (x = a /\ d = np)) ->
  (forall d y, lists (heap s) d y -> y <> a -> y <> c ->
     lists (heap s') d y) ->
  (forall x n', heap s' !! x = Some n' -> x <> a ->
     exists n, heap s !! x = Some n /\ name n = name n') ->
  (forall x n, heap s !! x = Some n -> x <> c ->
     exists n', heap s' !! x = Some n' /\ type n' = type n) ->
  (forall y yn an, lists (heap s') np y -> y <> a ->
     heap s' !! y = Some yn -> heap s' !! a = Some an ->
     name yn <> name an) ->
  (is_Some (heap s !! a) -> attached s' a) ->
  (lists (heap s') np a -> attached s np) ->
  heap s' !! c = None ->
  tidy s'.
Proof.
  intros (Hok & Hu & Hj & Hcwd) Hok' Hroot Hc HA HB HC HT HD HE HG HF.
  assert (Hkeep : forall x, attached s x -> is_Some (heap s' !! x) ->
                            attached s' x).
  { intros x Hx Hlive. eapply attached_step; eauto.
    - intros ->. rewrite HF in Hlive. destruct Hlive. discriminate.
    - intros ->. apply HE. eapply attached_live; eauto. }
  split; [exact Hok' |]. split; [| split].
  - eapply names_unique_step; eauto.
  - intros d x Hx.
    assert (Hlive : is_Some (heap s' !! d))
      by (destruct Hx as (dn & Hdn & _); eauto).
    destruct (HA _ _ Hx) as [[Hxa Hx0] | [-> ->]].
    + apply Hkeep; [eapply Hj; eauto | exact Hlive].
    + apply Hkeep; [apply HG; exact Hx | exact Hlive].
  - intros x Hx. destruct (Hc _ Hx) as (Hat & (n & Hn & Hty) & Hxc).
    destruct (HT _ _ Hn Hxc) as (n' & Hn' & Hty').
    split; [apply Hkeep; eauto |]. exists n'. split; [exact Hn' | congruence].
Qed.

(** The current directory of a tidy state, for a call that leaves it
    where it is and does not release it. *)
Lemma cwd_stays s s' c :
  tidy s -> cwd s' = cwd s -> cwd s <> Some c ->
  forall x, cwd s' = Some x -> attached s x /\ live_dir s x /\ x <> c.
Proof.
  intros (_ & _ & _ & Hcwd) Hc Hne x Hx. rewrite Hc in Hx.
  destruct (Hcwd _ Hx) as [Hat Hdir]. repeat split; try assumption.
  congruence.
Qed.

(** A call that changes no entry and no name. *)
Lemma tidy_same s s' :
  tidy s -> tree_ok s' -> root s' = root s ->
  (forall x, cwd s' = Some x -> attached s x /\ live_dir s x) ->
  (forall d x, lists (heap s') d x <-> lists (heap s) d x) ->
  (forall x n', heap s' !! x = Some n' ->
     exists n, heap s !! x = Some n /\ name n = name n') ->
  (forall x n, heap s !! x = Some n ->
     exists n', heap s' !! x = Some n' /\ type n' = type n) ->
  tidy s'.
Proof.
  intros Ht Hok' Hroot Hc Hlists Hnames Htypes.
  set (z := fresh (dom (heap s'))).
  assert (Hz : heap s' !! z = None) by apply fresh_not_live.
  assert (Hz0 : heap s !! z = None).
  { destruct (heap s !! z) as [n|] eqn:E; [| reflexivity].
    destruct (Htypes _ _ E) as (n' & Hn' & _). congruence. }
  assert (Hnot : forall d x, lists (heap s') d x -> x <> z).
  { intros d x Hx ->. destruct Hok' as [Hl _].
    destruct (listed_live _ _ _ Hl Hx) as (xn & Hxn & _). congruence. }
  apply (tidy_step s s' z z z); try assumption.
  - intros x Hx. destruct (Hc _ Hx) as [Hat (n & Hn & Hty)].
    split; [exact Hat |]. split; [exists n; auto |].
    intros ->. rewrite Hz0 in Hn. discriminate.
  - intros d x Hx. left. split; [eapply Hnot; eauto | apply Hlists; exact Hx].
  - intros d y Hy _ _. apply Hlists. exact Hy.
  - intros x n' Hx _. apply Hnames. exact Hx.
  - intros x n Hx _. eapply Htypes; eauto.
  - intros y yn an _ _ _ Han. congruence.
  - intros [n Hn]. congruence.
  - intros Hx. exfalso. eapply Hnot; eauto.
Qed.

Lemma cwd_same s s' :
  tidy s -> cwd s' = cwd s ->
  forall x, cwd s' = Some x -> attached s x /\ live_dir s x.
Proof.
  intros (_ & _ & _ & Hcwd) Hc x Hx. rewrite Hc in Hx. apply Hcwd. exact Hx.
Qed.

(** *** Calls that keep the shape of the tree *)

Lemma same_shape_refl h : same_shape h h.
Proof.
  intros a. destruct (h !! a) as [n|]; [right | left; auto].
  exists n, n. repeat split.
Qed.

Lemma same_shape_trans h1 h2 h3 :
  same_shape h1 h2 -> same_shape h2 h3 -> same_shape h1 h3.
Proof.
  intros H12 H23 a.
  destruct (H12 a) as [[E1 E2] | (n1 & n2 & E1 & E2 & Hs)];
    destruct (H23 a) as [[E2' E3] | (n2' & n3 & E2' & E3 & Hs')];
    try congruence.
  - left. auto.
  - right. exists n1, n3. rewrite E2 in E2'. inversion E2'; subst n2'.
    destruct Hs as (A1 & A2 & A3 & A4). destruct Hs' as (B1 & B2 & B3 & B4).
    repeat split; congruence.
Qed.

#[local] Instance shape_kept_step : StepRel shape_eq shape_kept.
Proof.
  split.
  - intros s s' Hh Hr. split; [exact Hr |]. rewrite Hh. apply same_shape_refl.
  - intros s1 s2 s3 [R1 S1] [R2 S2]. split; [congruence |].
    eapply same_shape_trans; eauto.
  - intros s a n n' Hn Hk. split; [reflexivity |].
    apply same_shape_insert with (n := n); assumption.
Qed.

Lemma shape_kept_refl s : shape_kept s s.
Proof. split; [reflexivity | apply same_shape_refl]. Qed.

Lemma lists_shape h h' d x : same_shape h h' -> lists h d x -> lists h' d x.
Proof.
  intros Hs (dn & Hdn & Hx).
  destruct (Hs d) as [[E _] | (n & n' & E & E' & _ & _ & _ & Hch)];
    [congruence |].
  exists n'. split; [exact E' |]. rewrite <- Hch.
  rewrite Hdn in E. inversion E; subst. exact Hx.
Qed.

Lemma same_shape_sym h h' : same_shape h h' -> same_shape h' h.
Proof.
  intros Hs a. destruct (Hs a) as [[E1 E2] | (n & n' & E & E' & A & B & C & D)].
  - left. auto.
  - right. exists n', n. repeat split; auto.
Qed.

(** A tidy state stays tidy across a step that keeps the shape of the
    tree and moves the current directory, if at all, to an attached
    directory. *)
Lemma tidy_shape s s' :
  tidy s -> shape_kept s s' ->
  (forall x, cwd s' = Some x -> attached s x /\ live_dir s x) ->
  tree_ok s' -> tidy s'.
Proof.
  intros Ht [Hroot Hs] Hc Hok'.
  apply (tidy_same s s'); try assumption.
  - intros d x. split; apply lists_shape; [apply same_shape_sym |]; exact Hs.
  - intros x n' Hx.
    destruct (Hs x) as [[_ E] | (n & n0 & E & E' & _ & Hn & _)];
      [congruence |].
    exists n. split; [exact E | congruence].
  - intros x n Hx.
    destruct (Hs x) as [[E _] | (n0 & n' & E & E' & Hty & _)];
      [congruence |].
    exists n'. split; [exact E' | congruence].
Qed.

(** The resolver returns no node when it starts from the null
    pointer. *)
Lemma walk_loop_from_null h wp : forall toks a w,
  walk_loop h wp NULL toks <> Some (Some a, w).
Proof.
  induction toks as [|tok rest IH]; intros a w H; [discriminate H |].
  cbn [walk_loop] in H.
  destruct ((strlen tok =? 0)%nat || (NAME_MAX <? strlen tok)%nat);
    [discriminate |].
  destruct (strcmp_eq tok dot); [eapply IH; eauto |].
  destruct (strcmp_eq tok dotdot); [discriminate |].
  cbn in H. destruct rest; [destruct wp |]; discriminate.
Qed.

(** In a tidy state, what a path resolves to is attached. *)
Lemma walk_result_attached s path wp a w :
  tidy s -> walk_from s (cwd s) path wp = Some (Some a, w) -> attached s a.
Proof.
  intros Ht Hw.
  destruct (start_node s (cwd s) path) as [c|] eqn:Estart.
  - destruct (walk_from_attached s path wp c Ht Estart) as (r & w' & Hr & Hat).
    rewrite Hw in Hr. inversion Hr; subst. apply Hat. reflexivity.
  - exfalso. unfold walk_from in Hw. rewrite Estart in Hw.
    eapply walk_loop_from_null; eauto.
Qed.

Lemma fs_cd_cases path s r s' :
  fs_cd path s = Ret r s' ->
  (r = -1 /\ s' = s) \/
  (r = 0 /\ exists d n,
     walk_from s (cwd s) path false = Some (Some d, None) /\
     heap s !! d = Some n /\ type n = N_DIR /\
     s' = set_heap (<[d := set_accessed (clock s (ticks s)) n]> (heap s))
            (set_ticks (S (ticks s)) (set_cwd (Some d) s))).
Proof.
  unfold fs_cd. intros H.
  apply bind_Ret in H as ([d w] & s1 & Hw & H).
  apply walk_Ret in Hw as [-> Hw].
  pose proof (walk_loop_no_leaf _ _ _ _ _ Hw) as ->.
  destruct d as [a|]; [| inversion H; auto].
  apply bind_Ret in H as (dn & s1 & Hd & H).
  apply deref_Ret in Hd as [-> (a' & Ha' & Hdn)]. inversion Ha'; subst a'.
  destruct (negb (is_dir dn)) eqn:Edir; [inversion H; auto |].
  apply negb_false_iff, is_dir_type in Edir.
  right.
  assert (Hrun := fs_cd_run _ _ _ _ _ Hw Hdn Edir).
  unfold fs_cd in Hrun.
  rewrite (bind_run _ _ _ _ _ (walk_run _ _ _ _ Hw)) in Hrun.
  rewrite (bind_run _ _ _ _ _ (deref_live _ _ _ Hdn)) in Hrun.
  apply is_dir_type in Edir. rewrite Edir in Hrun. cbn [negb] in Hrun.
  rewrite Hrun in H. inversion H; subst.
  split; [reflexivity |]. exists a, dn. apply is_dir_type in Edir. auto.
Qed.

(** *** New entries in a tidy tree *)

(** [node_new] followed by [dir_add] of the new node into an attached
    directory [d] that has no entry of that name. *)
Lemma tidy_new_entry t tok d s p s1 x s2 :
  tidy s -> attached s d ->
  dir_find (heap s) (Some d) tok = Some NULL ->
  node_new t tok (Some d) s = Ret p s1 ->
  dir_add (Some d) p s1 = Ret x s2 ->
  tidy s2 /\ (x <> NULL -> exists f, p = Some f /\ attached s2 f).
Proof.
  intros Ht Hd Hfind Hnew Hadd.
  pose proof Ht as (Hok & Hu & Hj & Hcwd).
  assert (Hok2 : tree_ok s2).
  { destruct (tree_step_new_entry _ _ _ _ _ _ _ _ Hnew Hadd) as [_ H].
    apply H. exact Hok. }
  assert (Hc2 : cwd s2 = cwd s).
  { apply (fld_dir_add cwd) in Hadd; [| reflexivity | reflexivity].
    apply (fld_node_new cwd) in Hnew; [| reflexivity | reflexivity].
    unfold field_kept in *. congruence. }
  pose proof (new_entry_grows _ _ _ _ _ _ _ _ Hfind Hnew Hadd) as Hg.
  destruct (new_entry_cases _ _ _ _ _ _ _ _ Hfind Hnew Hadd)
    as (f & dn & fn & dn' & -> & Hfresh & Hdn & Hfn & Hty & Hname & Hpar & Hch
        & Hdn' & Htyd & Hnamed & _ & Hroot & Hrest & Hcase).
  set (z := fresh (dom (heap s2))).
  assert (Hz : heap s2 !! z = None) by apply fresh_not_live.
  assert (Hz0 : heap s !! z = None).
  { destruct (heap s !! z) as [n|] eqn:E; [| reflexivity].
    destruct (proj2 Hg _ _ E) as (n' & Hn' & _). congruence. }
  assert (Hdf : d <> f) by (intros E; rewrite E in Hdn; congruence).
  assert (Hold : forall y, y ∈ children dn -> y <> f).
  { intros y Hy ->. destruct Hok as [Hl _].
    destruct (listed_live (heap s) d f Hl) as (n & Hn & _);
      [exists dn; auto | congruence]. }
  (* the entries afterwards *)
  assert (HA0 : forall d' y, lists (heap s2) d' y ->
            (y <> f /\ lists (heap s) d' y) \/
            (y = f /\ d' = d /\ x = Some f)).
  { intros d' y (n & Hn & Hy).
    destruct (decide (d' = d)) as [-> | Hne].
    - rewrite Hdn' in Hn. inversion Hn; subst n.
      destruct Hcase as [[-> E] | (-> & _ & E)]; rewrite E in Hy.
      + left. split; [apply Hold; exact Hy | exists dn; auto].
      + apply elem_of_app in Hy as [Hy | Hy].
        * left. split; [apply Hold; exact Hy | exists dn; auto].
        * apply list_elem_of_singleton in Hy. right. auto.
    - destruct (decide (d' = f)) as [-> | Hnf].
      + rewrite Hfn in Hn. inversion Hn; subst n. rewrite Hch in Hy.
        apply elem_of_nil in Hy. contradiction.
      + rewrite (Hrest _ Hne Hnf) in Hn. left. split; [| exists n; auto].
        intros ->. destruct Hok as [Hl _].
        destruct (listed_live (heap s) d' f Hl) as (m & Hm & _);
          [exists n; auto | congruence]. }
  assert (HB : forall d' y, lists (heap s) d' y -> lists (heap s2) d' y).
  { intros d' y (n & Hn & Hy).
    destruct (proj2 Hg _ _ Hn) as (n' & Hn' & _ & _ & _ & more & Hmore).
    exists n'. split; [exact Hn' |]. rewrite Hmore. apply elem_of_app. auto. }
  assert (HC : forall y n', heap s2 !! y = Some n' -> y <> f ->
            exists n, heap s !! y = Some n /\ name n = name n').
  { intros y n' Hy Hyf. destruct (decide (y = d)) as [-> | Hyd].
    - rewrite Hdn' in Hy. inversion Hy; subst n'. exists dn. auto.
    - rewrite (Hrest _ Hyd Hyf) in Hy. exists n'. auto. }
  assert (HT : forall y n, heap s !! y = Some n ->
            exists n', heap s2 !! y = Some n' /\ type n' = type n).
  { intros y n Hy. destruct (proj2 Hg _ _ Hy) as (n' & Hn' & Hty' & _).
    eauto. }
  assert (Hcw : forall y, cwd s2 = Some y ->
            attached s y /\ live_dir s y /\ y <> z).
  { apply cwd_stays; [exact Ht | exact Hc2 |].
    intros E. destruct (Hcwd _ E) as [_ (n & Hn & _)]. congruence. }
  destruct Hcase as [[-> Hsame] | (-> & Hdir & Happ)].
  - split; [| intros E; congruence].
    apply (tidy_step s s2 f z z); try assumption.
    + intros d' y Hy. destruct (HA0 _ _ Hy) as [H | (_ & _ & E)];
        [left; exact H | discriminate].
    + intros d' y Hy _ _. apply HB. exact Hy.
    + intros y n Hy _. apply HT. exact Hy.
    + intros y yn an (n & Hn & _). congruence.
    + intros [n Hn]. congruence.
    + intros (n & Hn & _). congruence.
  - split.
    + apply (tidy_step s s2 f d z); try assumption.
      * intros d' y Hy. destruct (HA0 _ _ Hy) as [H | (E1 & E2 & _)];
          [left; exact H | right; auto].
      * intros d' y Hy _ _. apply HB. exact Hy.
      * intros y n Hy _. apply HT. exact Hy.
      * intros y yn an Hy Hyf Hyn Han.
        rewrite Hfn in Han. inversion Han; subst an. rewrite Hname.
        destruct (HA0 _ _ Hy) as [[_ (n & Hn & Hin)] | (E & _)];
          [| congruence].
        rewrite Hdn in Hn. inversion Hn; subst n.
        destruct (HC _ _ Hyn Hyf) as (yn0 & Hyn0 & <-).
        eapply dir_find_NULL_names; eauto.
      * intros [n Hn]. congruence.
      * intros _. exact Hd.
    + intros _. exists f. split; [reflexivity |]. right. exists d.
      exists dn'. split; [exact Hdn' |]. rewrite Happ.
      apply elem_of_app. right. apply list_elem_of_singleton. reflexivity.
Qed.

(** A new node that nobody lists. *)
Lemma tidy_node_new t nm par s p s1 :
  tidy s -> node_new t nm par s = Ret p s1 -> tidy s1.
Proof.
  intros Ht Hnew. pose proof Ht as (Hok & Hu & Hj & Hcwd).
  assert (Hok1 : tree_ok s1).
  { destruct (tree_step_node_new _ _ _ _ _ _ Hnew) as ([_ H] & _).
    apply H. exact Hok. }
  pose proof (grows_node_new _ _ _ _ _ _ Hnew) as Hg.
  rewrite node_new_run in Hnew. inversion Hnew; subst p s1. clear Hnew.
  set (f := fresh (dom (heap s))) in *.
  assert (Hfresh : heap s !! f = None) by apply fresh_not_live.
  cbn [heap set_heap set_ticks] in *.
  match goal with
  | |- tidy ?st => set (s1 := st) in *
  end.
  set (z := fresh (dom (heap s1))).
  assert (Hz : heap s1 !! z = None) by apply fresh_not_live.
  assert (Hz0 : heap s !! z = None).
  { destruct (heap s !! z) as [n|] eqn:E; [| reflexivity].
    destruct (proj2 Hg _ _ E) as (n' & Hn' & _). congruence. }
  assert (Hlists : forall d y, lists (heap s1) d y <->
                     lists (heap s) d y).
  { intros d y. unfold s1. cbn [heap set_heap set_ticks].
    rewrite lists_insert. cbn [children]. split.
    - intros [[_ H] | [_ H]]; [apply elem_of_nil in H; contradiction | exact H].
    - intros H. right. split; [| exact H].
      intros ->. destruct H as (n & Hn & _). congruence. }
  apply (tidy_step s s1 f z z); try assumption; try reflexivity.
  - apply cwd_stays; [exact Ht | reflexivity |].
    intros E. destruct (Hcwd _ E) as [_ (n & Hn & _)]. congruence.
  - intros d y Hy. left. split; [| apply Hlists; exact Hy].
    intros ->. apply Hlists in Hy. destruct Hok as [Hl _].
    destruct (listed_live _ _ _ Hl Hy) as (n & Hn & _). congruence.
  - intros d y Hy _ _. apply Hlists. exact Hy.
  - intros y n' Hy Hyf. unfold s1 in Hy. cbn [heap set_heap set_ticks] in Hy.
    rewrite lookup_insert_ne in Hy by congruence. eauto.
  - intros y n Hy _. destruct (proj2 Hg _ _ Hy) as (n' & Hn' & Hty & _). eauto.
  - intros y yn an (n & Hn & _). congruence.
  - intros [n Hn]. congruence.
  - intros (n & Hn & _). congruence.
Qed.

(** An update in place that keeps the shape. *)
Lemma tidy_modify a f s u s' :
  tidy s -> modify a f s = Ret u s' -> (forall n, shape_eq n (f n)) ->
  tidy s'.
Proof.
  intros Ht Hm Hf. pose proof Hm as Hm0.
  apply modify_Ret in Hm as (n & Hn & ->).
  apply (tidy_shape s); [exact Ht | | |].
  - apply (step_modify (R := shape_kept) _ _ n); [exact Hn | apply Hf].
  - apply cwd_same; [exact Ht | reflexivity].
  - destruct (tree_step_modify _ _ _ _ _ Hm0 Hf) as [_ H]. apply H.
    apply Ht.
Qed.

Lemma tidy_ticks s k : tidy s -> tidy (set_ticks k s).
Proof.
  intros Ht. apply (tidy_shape s); [exact Ht | | |].
  - apply step_same; reflexivity.
  - apply cwd_same; [exact Ht | reflexivity].
  - destruct Ht as ([Hl Hr] & _). split; assumption.
Qed.

Lemma attached_modify a f s u s' x :
  modify a f s = Ret u s' -> (forall n, shape_eq n (f n)) ->
  attached s x -> attached s' x.
Proof.
  intros Hm Hf Hx. apply modify_Ret in Hm as (n & Hn & ->).
  destruct Hx as [Hr | (d & Hd)]; [left; exact Hr |].
  right. exists d. cbn [heap set_heap].
  apply (lists_insert_same _ _ n); [exact Hn | | exact Hd].
  destruct (Hf n) as (_ & _ & _ & E). symmetry. exact E.
Qed.

Lemma tidy_mkdir_loop toks : forall cur s r s',
  mkdir_loop toks cur s = Ret r s' ->
  tidy s -> (forall c, cur = Some c -> attached s c) -> tidy s'.
Proof.
  induction toks as [|tok rest IH]; intros cur s r s' H Ht Hcur;
    cbn [mkdir_loop] in H.
  { inversion H; subst. exact Ht. }
  destruct ((strlen tok =? 0)%nat || (NAME_MAX <? strlen tok)%nat);
    [inversion H; subst; exact Ht |].
  destruct (strcmp_eq tok dot); [eapply IH; eauto |].
  destruct (strcmp_eq tok dotdot).
  { apply bind_Ret in H as (cn & s1 & Hd & H).
    apply deref_Ret in Hd as [-> (c & -> & Hcn)].
    eapply IH; eauto. intros c' Hc'.
    destruct (parent cn) as [p|] eqn:Ep; inversion Hc'; subst c'.
    - destruct Ht as (Hok & _ & Hj & _).
      eapply attached_parent; eauto.
    - apply Hcur. reflexivity. }
  apply bind_Ret in H as (n & s1 & Hf & H).
  apply lift_Ret in Hf as [-> Hf].
  destruct n as [a1|].
  - apply bind_Ret in H as (nd & s1 & Hd & H).
    apply deref_Ret in Hd as [-> _].
    destruct (negb (is_dir nd)); [inversion H; subst; exact Ht |].
    apply bind_Ret in H as (now & s1 & Htm & H).
    apply time_Ret in Htm as [-> ->].
    apply bind_Ret in H as (u & s2 & Hm & H).
    assert (Hshape : forall n0, shape_eq n0 (set_accessed (clock s (ticks s)) n0))
      by (intros n0; repeat split).
    eapply IH; [exact H | |].
    + eapply tidy_modify; [| exact Hm | exact Hshape]. apply tidy_ticks. exact Ht.
    + intros c Hc. inversion Hc; subst c.
      eapply attached_modify; [exact Hm | exact Hshape |].
      destruct cur as [d|]; [| discriminate Hf].
      destruct (dir_find_defined s d tok) as (r0 & Hr0 & Hin);
        [apply Ht | apply Hcur; reflexivity |].
      rewrite Hf in Hr0. inversion Hr0; subst r0.
      right. exists d. apply Hin. reflexivity.
  - apply bind_Ret in H as (n' & s1 & Hnew & H).
    apply bind_Ret in H as (x & s2 & Hadd & H).
    destruct cur as [d|].
    + destruct (tidy_new_entry _ _ _ _ _ _ _ _ Ht (Hcur d eq_refl) Hf Hnew Hadd)
        as [Ht2 Hx].
      destruct x as [c|]; [| inversion H; subst; exact Ht2].
      eapply IH; [exact H | exact Ht2 |].
      intros c' Hc'. destruct Hx as (f & Hf' & Hat); [discriminate |].
      rewrite Hf' in Hc'. inversion Hc'; subst. exact Hat.
    + inversion Hadd; subst. inversion H; subst.
      eapply tidy_node_new; eauto.
Qed.

Lemma tidy_mkdir_p path s r s' :
  mkdir_p path s = Ret r s' -> tidy s -> tidy s'.
Proof.
  unfold mkdir_p. intros H Ht.
  destruct (strcmp_eq path (String slash EmptyString) ||
            strcmp_eq path EmptyString);
    [inversion H; subst; exact Ht |].
  apply bind_Ret in H as (s0 & s1 & Hg & H). inversion Hg; subst.
  eapply tidy_mkdir_loop; eauto.
  intros c Hc. destruct (is_absolute path).
  - left. exact Hc.
  - destruct Ht as (_ & _ & _ & Hcwd). apply (Hcwd _ Hc).
Qed.

Lemma tidy_create_file path s r s' :
  create_file path s = Ret r s' -> tidy s -> tidy s'.
Proof.
  intros H Ht.
  destruct (Z.eq_dec r (-1)) as [-> | Hr].
  { apply create_file_fails in H as (Hh & Hroot & Hc & _).
    apply (tidy_shape s); [exact Ht | | |].
    - split; [exact Hroot |]. rewrite Hh. apply same_shape_refl.
    - apply cwd_same; [exact Ht | exact Hc].
    - destruct Ht as ([Hl Hr] & _). split.
      + rewrite Hh. exact Hl.
      + intros x Hx. rewrite Hroot in Hx. rewrite Hh. apply Hr. exact Hx. }
  unfold create_file in H.
  apply bind_Ret in H as ([par w] & s1 & Hw & H).
  apply walk_Ret in Hw as [-> Hw].
  destruct par as [p|]; [| inversion H; subst; exact Ht].
  pose proof (walk_result_attached _ _ _ _ _ Ht Hw) as Hp.
  apply bind_Ret in H as (pn & s2 & Hd & H).
  apply deref_Ret in Hd as [-> _].
  destruct (negb (is_dir pn)); [inversion H; subst; exact Ht |].
  destruct (strlen (leaf_of w) =? 0)%nat; [inversion H; subst; exact Ht |].
  destruct (_ || _); [inversion H; subst; exact Ht |].
  destruct (NAME_MAX <? strlen (leaf_of w))%nat;
    [inversion H; subst; exact Ht |].
  apply bind_Ret in H as (c & s3 & Hf & H).
  apply lift_Ret in Hf as [-> Hf].
  destruct c; [inversion H; subst; exact Ht |].
  destruct (is_readonly pn); [inversion H; subst; exact Ht |].
  apply bind_Ret in H as (f & s1 & Hnew & H).
  apply bind_Ret in H as (x & s2 & Hadd & H).
  destruct (tidy_new_entry _ _ _ _ _ _ _ _ Ht Hp Hf Hnew Hadd) as [Ht2 _].
  destruct x as [c|].
  - apply bind_Ret in H as (now & s3 & Htm & H).
    apply time_Ret in Htm as [-> ->].
    apply bind_Ret in H as (u & s4 & Hm & H). inversion H; subst.
    eapply tidy_modify; [| exact Hm | intros n0; repeat split].
    apply tidy_ticks. exact Ht2.
  - apply bind_Ret in H as (u & s3 & _ & H). inversion H; subst.
    exfalso. apply Hr. reflexivity.
Qed.

(** *** Removing an entry of a tidy tree *)

(** The steps that [rm_file] and [rmdir_empty] share: the entry at
    slot [i] of [p] is taken out, its node released, [p] stamped. *)
Lemma unlink_run s p pn i c cn (r : Z) s' :
  heap s !! p = Some pn -> children pn !! i = Some c ->
  heap s !! c = Some cn -> c <> p ->
  (is_dir cn = false \/ children cn = []) ->
  bind (modify p (set_children (swap_remove i (children pn))))
       (fun _ => bind (node_free (Some c))
          (fun _ => bind time
             (fun now => bind (modify p (stamp_both now))
                (fun _ => ret 0)))) s = Ret r s' ->
  r = 0 /\
  s' = set_heap
         (<[p := stamp_both (clock s (ticks s))
                   (set_children (swap_remove i (children pn)) pn)]>
            (delete c
               (<[p := set_children (swap_remove i (children pn)) pn]>
                  (heap s))))
         (set_ticks (S (ticks s)) s).
Proof.
  intros Hp Hi Hc Hcp Hleaf H.
  apply bind_Ret in H as (u1 & s1 & Hm1 & H).
  rewrite (modify_live _ _ _ _ Hp) in Hm1. inversion Hm1; subst s1. clear Hm1.
  apply bind_Ret in H as (u2 & s2 & Hfree & H).
  rewrite (node_free_leaf c cn) in Hfree.
  2:{ cbn [heap set_heap]. rewrite lookup_insert_ne by congruence. exact Hc. }
  2:{ exact Hleaf. }
  inversion Hfree; subst s2. clear Hfree.
  apply bind_Ret in H as (now & s3 & Ht & H).
  apply time_Ret in Ht as [-> ->].
  apply bind_Ret in H as (u3 & s4 & Hm & H).
  unfold ret in H. inversion H; subst s4 r. clear H.
  apply modify_Ret in Hm as (n3 & Hn3 & ->).
  cbn [heap set_heap set_ticks] in *.
  rewrite lookup_delete_ne, lookup_insert_eq in Hn3 by congruence.
  inversion Hn3; subst n3. split; reflexivity.
Qed.

Lemma tidy_unlink s p pn i c cn s' :
  tidy s ->
  heap s !! p = Some pn -> children pn !! i = Some c ->
  heap s !! c = Some cn -> c <> p ->
  (is_dir cn = false \/ children cn = []) ->
  cwd s <> Some c -> tree_ok s' ->
  s' = set_heap
         (<[p := stamp_both (clock s (ticks s))
                   (set_children (swap_remove i (children pn)) pn)]>
            (delete c
               (<[p := set_children (swap_remove i (children pn)) pn]>
                  (heap s))))
         (set_ticks (S (ticks s)) s) ->
  tidy s'.
Proof.
  intros Ht Hp Hi Hc Hcp Hleaf Hcwd Hok' Hs'.
  pose proof Ht as ([Hl Hr] & Hu & Hj & Hcw).
  destruct (Hl p pn Hp) as (_ & Hnd & _).
  assert (Hcin : c ∈ children pn) by (eapply list_elem_of_lookup_2; eauto).
  assert (Hempty : children cn = []).
  { destruct Hleaf as [E | E]; [| exact E].
    destruct (Hl c cn Hc) as (Hdir & _).
    destruct (children cn) as [|y ys] eqn:Ech; [reflexivity |].
    assert (type cn = N_DIR) by (apply Hdir; discriminate).
    apply is_dir_type in H. congruence. }
  assert (Hlists : forall d y, lists (heap s') d y <->
                     lists (heap s) d y /\ y <> c).
  { intros d y. subst s'. cbn [heap set_heap set_ticks].
    rewrite lists_insert. cbn [children stamp_both set_accessed set_modified
                               set_children].
    rewrite lists_delete, lists_insert. cbn [children set_children].
    rewrite (swap_remove_elem _ _ _ y Hnd Hi). split.
    - intros [[-> [Hy Hyc]] | [Hdp [Hdc [[E _] | [_ Hy]]]]];
        [| congruence |].
      + split; [exists pn; auto | exact Hyc].
      + split; [exact Hy |]. intros ->.
        apply Hdp. eapply (lister_unique (heap s)); eauto. exists pn. auto.
    - intros [(dn & Hdn & Hy) Hyc].
      destruct (decide (d = p)) as [-> | Hdp].
      + left. rewrite Hp in Hdn. inversion Hdn; subst dn. auto.
      + right. split; [exact Hdp |]. split.
        * intros ->. rewrite Hc in Hdn. inversion Hdn; subst dn.
          rewrite Hempty in Hy. apply elem_of_nil in Hy. exact Hy.
        * right. split; [exact Hdp | exists dn; auto]. }
  assert (Hgone : heap s' !! c = None).
  { subst s'. cbn [heap set_heap set_ticks].
    rewrite lookup_insert_ne by congruence. apply lookup_delete_eq. }
  set (z := fresh (dom (heap s))).
  assert (Hz0 : heap s !! z = None) by apply fresh_not_live.
  assert (Hback : forall x n', heap s' !! x = Some n' ->
            exists n, heap s !! x = Some n /\ name n = name n' /\
                      type n = type n').
  { intros x n' Hx. subst s'. cbn [heap set_heap set_ticks] in Hx.
    destruct (decide (x = p)) as [-> | Hxp].
    - rewrite lookup_insert_eq in Hx. inversion Hx; subst n'. exists pn. auto.
    - rewrite lookup_insert_ne in Hx by congruence.
      apply lookup_delete_Some in Hx as [Hxc Hx].
      rewrite lookup_insert_ne in Hx by congruence. exists n'. auto. }
  assert (Hfwd : forall x n, heap s !! x = Some n -> x <> c ->
            exists n', heap s' !! x = Some n' /\ type n' = type n).
  { intros x n Hx Hxc. subst s'. cbn [heap set_heap set_ticks].
    destruct (decide (x = p)) as [-> | Hxp].
    - rewrite lookup_insert_eq. eexists. split; [reflexivity |].
      rewrite Hp in Hx. inversion Hx; subst n. reflexivity.
    - rewrite lookup_insert_ne by congruence.
      rewrite lookup_delete_ne by congruence.
      rewrite lookup_insert_ne by congruence. eauto. }
  assert (Hz : heap s' !! z = None).
  { destruct (heap s' !! z) as [n'|] eqn:E; [| reflexivity].
    destruct (Hback _ _ E) as (n & Hn & _). congruence. }
  assert (Hnz : forall d y, lists (heap s') d y -> y <> z).
  { intros d y Hy ->. destruct Hok' as [Hl' _].
    destruct (listed_live _ _ _ Hl' Hy) as (n & Hn & _). congruence. }
  apply (tidy_step s s' z z c); try assumption.
  - subst s'. reflexivity.
  - apply cwd_stays; [exact Ht | subst s'; reflexivity | exact Hcwd].
  - intros d y Hy. left. split; [eapply Hnz; eauto |].
    apply Hlists in Hy. apply Hy.
  - intros d y Hy _ Hyc. apply Hlists. auto.
  - intros x n' Hx _. destruct (Hback _ _ Hx) as (n & Hn & Hnm & _). eauto.
  - intros y yn an _ _ _ Han. congruence.
  - intros [n Hn]. congruence.
  - intros Hx. exfalso. eapply Hnz; eauto.
Qed.

Lemma tidy_rm_file path s r s' :
  rm_file path s = Ret r s' -> tidy s -> tidy s'.
Proof.
  intros H Ht. pose proof Ht as ([Hl Hroot] & Hu & Hj & Hcw).
  assert (Hok' : tree_ok s').
  { destruct (tree_step_rm_file _ _ _ _ H) as [_ E]. apply E. apply Ht. }
  unfold rm_file in H.
  apply bind_Ret in H as ([par w] & s1 & Hw & H).
  apply walk_Ret in Hw as [-> Hw].
  destruct par as [p|]; [| inversion H; subst; exact Ht].
  apply bind_Ret in H as (pn & s1 & Hd & H).
  apply deref_Ret in Hd as [-> (p' & Hp' & Hp)]. inversion Hp'; subst p'.
  destruct (is_readonly pn); [inversion H; subst; exact Ht |].
  apply bind_Ret in H as (hit & s1 & Hf & H).
  apply lift_Ret in Hf as [-> Hf].
  destruct hit as [[[i c] cn]|]; [| inversion H; subst; exact Ht].
  destruct (is_readonly cn); [inversion H; subst; exact Ht |].
  apply find_file_Some in Hf as (k & -> & Hk & Hc & Hfile).
  cbn [Nat.add] in H.
  assert (Htype : type cn = N_FILE).
  { unfold is_file in Hfile. destruct (type cn); [discriminate | reflexivity]. }
  assert (Hleaf : is_dir cn = false \/ children cn = []).
  { left. unfold is_dir. rewrite Htype. reflexivity. }
  assert (Hcp : c <> p).
  { intros ->. destruct (Hl p pn Hp) as (H1 & _).
    rewrite Hp in Hc. inversion Hc; subst cn.
    assert (children pn <> []) as Hne.
    { intros E. rewrite E in Hk. rewrite lookup_nil in Hk. discriminate. }
    apply H1 in Hne. congruence. }
  destruct (unlink_run _ _ _ _ _ _ _ _ Hp Hk Hc Hcp Hleaf H) as [_ Hs'].
  eapply (tidy_unlink s p pn k c cn); eauto.
  intros E. destruct (Hcw _ E) as [_ (n & Hn & Hty)]. congruence.
Qed.

Lemma tidy_rmdir_empty path s r s' :
  rmdir_empty path s = Ret r s' -> tidy s ->
  (forall w, walk_from s (cwd s) path false <> Some (cwd s, w)) ->
  tidy s'.
Proof.
  intros H Ht Hsafe. pose proof Ht as ([Hl Hroot] & Hu & Hj & Hcw).
  assert (Hok' : tree_ok s').
  { destruct (tree_step_rmdir_empty _ _ _ _ H) as [_ E]. apply E. apply Ht. }
  unfold rmdir_empty in H.
  apply bind_Ret in H as ([d w] & s1 & Hw & H).
  apply walk_Ret in Hw as [-> Hw].
  destruct d as [a|]; [| inversion H; subst; exact Ht].
  apply bind_Ret in H as (dn & s1 & Hd & H).
  apply deref_Ret in Hd as [-> (a' & Ha' & Ha)]. inversion Ha'; subst a'.
  apply bind_Ret in H as (s0 & s1 & Hg & H). inversion Hg; subst s0 s1.
  destruct (negb (is_dir dn) || ptr_eqb (Some a) (root s)) eqn:Echeck;
    [inversion H; subst; exact Ht |].
  destruct (negb (child_count dn =? 0)%nat) eqn:Eempty;
    [inversion H; subst; exact Ht |].
  apply negb_false_iff in Eempty. apply Nat.eqb_eq in Eempty.
  assert (Hempty : children dn = []).
  { unfold child_count in Eempty. destruct (children dn); [reflexivity |].
    discriminate. }
  apply bind_Ret in H as (pn & s1 & Hd & H).
  apply deref_Ret in Hd as [-> (p & Hpar & Hp)].
  destruct (is_readonly pn); [inversion H; subst; exact Ht |].
  destruct (is_readonly dn); [inversion H; subst; exact Ht |].
  rewrite Hpar in H.
  destruct (index_of a (children pn)) as [i|] eqn:Eidx;
    [| inversion H; subst; exact Ht].
  apply index_of_Some in Eidx.
  assert (Hap : a <> p).
  { intros ->. rewrite Hp in Ha. inversion Ha; subst pn.
    rewrite Hempty in Eidx. rewrite lookup_nil in Eidx. discriminate. }
  destruct (unlink_run _ _ _ _ _ _ _ _ Hp Eidx Ha Hap (or_intror Hempty) H)
    as [_ Hs'].
  eapply (tidy_unlink s p pn i a dn); eauto.
  intros E. apply (Hsafe w). rewrite Hw, E. reflexivity.
Qed.

(** *** Moving and renaming in a tidy tree *)

Lemma kept_refl h : kept h h.
Proof. intros x. destruct (h !! x); auto. Qed.

Lemma kept_trans h1 h2 h3 : kept h1 h2 -> kept h2 h3 -> kept h1 h3.
Proof.
  intros H12 H23 x. specialize (H12 x). specialize (H23 x).
  destruct (h1 !! x) as [n1|]; destruct (h2 !! x) as [n2|];
    destruct (h3 !! x) as [n3|]; try tauto.
  destruct H12, H23. split; congruence.
Qed.

Lemma kept_insert h b n n' :
  h !! b = Some n -> type n' = type n -> name n' = name n ->
  kept h (<[b := n']> h).
Proof.
  intros Hb Hty Hnm x. destruct (decide (x = b)) as [-> | Hne].
  - rewrite lookup_insert_eq, Hb. auto.
  - rewrite lookup_insert_ne by congruence. destruct (h !! x); auto.
Qed.

Lemma kept_live h h' x : kept h h' -> is_Some (h !! x) <-> is_Some (h' !! x).
Proof.
  intros Hk. specialize (Hk x).
  destruct (h !! x) as [n|]; destruct (h' !! x) as [n'|]; try tauto;
    split; eauto.
Qed.

Lemma same_lists_refl h : same_lists h h.
Proof. intros d y. reflexivity. Qed.

Lemma same_lists_trans h1 h2 h3 :
  same_lists h1 h2 -> same_lists h2 h3 -> same_lists h1 h3.
Proof.
  intros H12 H23 d y. etransitivity; [apply H23 | apply H12].
Qed.

Lemma same_lists_insert h b n n' :
  h !! b = Some n -> children n' = children n ->
  same_lists h (<[b := n']> h).
Proof. intros Hb Hch d y. eapply lists_insert_same; eauto. Qed.

(** An update in place that keeps type, name and entries. *)
Lemma modify_kept b f s u t :
  modify b f s = Ret u t ->
  (forall n, type (f n) = type n /\ name (f n) = name n /\
             children (f n) = children n) ->
  kept (heap s) (heap t) /\ same_lists (heap s) (heap t).
Proof.
  intros H Hf. apply modify_Ret in H as (n & Hn & ->). cbn [heap set_heap].
  destruct (Hf n) as (Hty & Hnm & Hch). split.
  - eapply kept_insert; eauto.
  - eapply same_lists_insert; eauto.
Qed.

Lemma index_of_elem c : forall cs, c ∈ cs -> is_Some (index_of c cs).
Proof.
  intros cs Hin. destruct (index_of c cs) as [i|] eqn:E; [eauto |].
  apply index_of_None_inv in E. contradiction.
Qed.

(** What [dir_add] returns, and why. *)
Lemma dir_add_outcome d c s r s' dn cn :
  dir_add (Some d) (Some c) s = Ret r s' ->
  heap s !! d = Some dn -> heap s !! c = Some cn ->
  (r = NULL /\ s' = s /\
   (is_dir dn = false \/ (MAX_CHILDREN <= child_count dn)%nat \/
    exists p, parent cn = Some p /\ p <> d)) \/
  (r = Some c /\ s' = s /\ c ∈ children dn) \/
  (r = Some c /\ (c ∉ children dn) /\
   exists c1 d2,
     (<[d := set_children (children dn ++ [c]) dn]> (heap s)) !! c
       = Some c1 /\
     (<[c := set_parent (Some d) c1]>
        (<[d := set_children (children dn ++ [c]) dn]> (heap s))) !! d
       = Some d2 /\
     s' = set_heap
            (<[d := stamp_both (clock s (ticks s)) d2]>
               (<[c := set_parent (Some d) c1]>
                  (<[d := set_children (children dn ++ [c]) dn]> (heap s))))
            (set_ticks (S (ticks s)) s)).
Proof.
  unfold dir_add. intros H Hdn Hcn.
  rewrite (bind_run _ _ _ _ _ (deref_live _ _ _ Hdn)) in H.
  destruct (negb (is_dir dn)) eqn:Edir.
  { cbn [orb] in H. inversion H. left. apply negb_true_iff in Edir. auto. }
  cbn [orb] in H.
  destruct (MAX_CHILDREN <=? child_count dn)%nat eqn:Eroom.
  { inversion H. left. apply Nat.leb_le in Eroom. auto. }
  rewrite (bind_run _ _ _ _ _ (deref_live _ _ _ Hcn)) in H.
  destruct (match parent cn with
            | Some p => negb (p =? d)%positive
            | None => false
            end) eqn:Epar.
  { inversion H. left. split; [reflexivity |]. split; [reflexivity |].
    right. right. destruct (parent cn) as [p|]; [| discriminate].
    exists p. split; [reflexivity |].
    apply negb_true_iff, Pos.eqb_neq in Epar. exact Epar. }
  destruct (index_of c (children dn)) as [i|] eqn:Eidx.
  { inversion H. right. left. split; [reflexivity |]. split; [reflexivity |].
    apply index_of_Some in Eidx. eapply list_elem_of_lookup_2; eauto. }
  apply index_of_None_inv in Eidx.
  apply bind_Ret in H as (u1 & s1 & Hm1 & H).
  apply modify_Ret in Hm1 as (n1 & Hn1 & ->).
  rewrite Hdn in Hn1. inversion Hn1; subst n1. clear Hn1.
  apply bind_Ret in H as (u2 & s2 & Hm2 & H).
  apply modify_Ret in Hm2 as (c1 & Hc1 & ->).
  cbn [heap set_heap] in Hc1.
  apply bind_Ret in H as (now & s3 & Ht & H).
  apply time_Ret in Ht as [-> ->].
  apply bind_Ret in H as (u3 & s4 & Hm3 & H).
  apply modify_Ret in Hm3 as (d2 & Hd2 & ->).
  cbn [heap set_heap set_ticks] in Hd2.
  unfold ret in H. inversion H; subst. clear H.
  right. right. split; [reflexivity |]. split; [exact Eidx |].
  exists c1, d2. auto.
Qed.

(** The entries and the names after [dir_add] has appended [c] to the
    list of [d]. *)
Lemma attach_view h d c dn c1 d2 now :
  h !! d = Some dn ->
  (<[d := set_children (children dn ++ [c]) dn]> h) !! c = Some c1 ->
  (<[c := set_parent (Some d) c1]>
     (<[d := set_children (children dn ++ [c]) dn]> h)) !! d = Some d2 ->
  let h' := <[d := stamp_both now d2]>
              (<[c := set_parent (Some d) c1]>
                 (<[d := set_children (children dn ++ [c]) dn]> h)) in
  kept h h' /\
  forall d' y, lists h' d' y <-> lists h d' y \/ (d' = d /\ y = c).
Proof.
  intros Hdn Hc1 Hd2 h'.
  set (h1 := <[d := set_children (children dn ++ [c]) dn]> h) in *.
  set (h2 := <[c := set_parent (Some d) c1]> h1) in *.
  assert (K1 : kept h h1) by (eapply kept_insert; eauto).
  assert (K2 : kept h1 h2) by (eapply kept_insert; eauto).
  assert (K3 : kept h2 h') by (eapply kept_insert; eauto).
  split; [eapply kept_trans; [| exact K3]; eapply kept_trans; eauto |].
  assert (L2 : same_lists h1 h2) by (eapply same_lists_insert; eauto).
  assert (L3 : same_lists h2 h') by (eapply same_lists_insert; eauto).
  intros d' y. etransitivity; [apply L3 |]. etransitivity; [apply L2 |].
  unfold h1. rewrite lists_insert. cbn [children set_children]. split.
  - intros [[-> Hy] | [Hne Hy]]; [| left; exact Hy].
    apply elem_of_app in Hy as [Hy | Hy].
    + left. exists dn. auto.
    + apply list_elem_of_singleton in Hy. right. auto.
  - intros [(n & Hn & Hy) | [-> ->]].
    + destruct (decide (d' = d)) as [-> | Hne].
      * left. split; [reflexivity |]. rewrite Hdn in Hn. inversion Hn; subst.
        apply elem_of_app. left. exact Hy.
      * right. split; [exact Hne | exists n; auto].
    + left. split; [reflexivity |]. apply elem_of_app. right.
      apply list_elem_of_singleton. reflexivity.
Qed.

(** The entries and the names after [a] was taken out of the list of
    the node [op] that lists it and its parent pointer was cleared. *)
Lemma detach_view h a nd op opn i a2 :
  linked h -> h !! a = Some nd -> h !! op = Some opn ->
  children opn !! i = Some a ->
  (<[op := set_children (swap_remove i (children opn)) opn]> h) !! a
    = Some a2 ->
  let h' := <[a := set_parent NULL a2]>
              (<[op := set_children (swap_remove i (children opn)) opn]> h) in
  kept h h' /\
  (forall d y, lists h' d y <-> lists h d y /\ y <> a) /\
  (exists a3, h' !! a = Some a3 /\ parent a3 = NULL) /\
  exists op3, h' !! op = Some op3 /\
              children op3 = swap_remove i (children opn).
Proof.
  intros Hl Ha Hop Hi Ha2 h'.
  set (h1 := <[op := set_children (swap_remove i (children opn)) opn]> h) in *.
  assert (K1 : kept h h1) by (eapply kept_insert; eauto).
  assert (K2 : kept h1 h') by (eapply kept_insert; eauto).
  split; [eapply kept_trans; eauto |].
  assert (L2 : same_lists h1 h') by (eapply same_lists_insert; eauto).
  destruct (Hl op opn Hop) as (_ & Hnd & _).
  assert (Hin : a ∈ children opn) by (eapply list_elem_of_lookup_2; eauto).
  split.
  - intros d y. etransitivity; [apply L2 |]. unfold h1.
    rewrite lists_insert.
    cbn [children set_children].
    rewrite (swap_remove_elem _ _ _ y Hnd Hi). split.
    + intros [[-> [Hy Hya]] | [Hne Hy]].
      * split; [exists opn; auto | exact Hya].
      * split; [exact Hy |]. intros ->. apply Hne.
        eapply (lister_unique h); eauto. exists opn. auto.
    + intros [(n & Hn & Hy) Hya].
      destruct (decide (d = op)) as [-> | Hne].
      * left. rewrite Hop in Hn. inversion Hn; subst. auto.
      * right. split; [exact Hne | exists n; auto].
  - split.
    + exists (set_parent NULL a2).
      split; [apply lookup_insert_eq | reflexivity].
    + unfold h'. destruct (decide (op = a)) as [-> | Hne].
      * rewrite lookup_insert_eq. eexists. split; [reflexivity |].
        unfold h1 in Ha2. rewrite lookup_insert_eq in Ha2.
        inversion Ha2; subst a2. reflexivity.
      * rewrite lookup_insert_ne by congruence. unfold h1.
        rewrite lookup_insert_eq. eexists. split; reflexivity.
Qed.

(** The node [a] ends up listed by the attached node [q], and by it
    only, under a name that no other entry of [q] has; nothing else
    changes but in place. *)
Lemma tidy_reattach s s' a q :
  tidy s -> tree_ok s' -> root s' = root s -> cwd s' = cwd s ->
  (forall d y, lists (heap s') d y <->
     (lists (heap s) d y /\ y <> a) \/ (d = q /\ y = a)) ->
  (forall x, x <> a ->
     match heap s !! x, heap s' !! x with
     | Some n, Some n' => type n' = type n /\ name n' = name n
     | None, None => True
     | _, _ => False
     end) ->
  (exists n n', heap s !! a = Some n /\ heap s' !! a = Some n' /\
     type n' = type n /\
     forall y yn, lists (heap s) q y -> y <> a -> heap s !! y = Some yn ->
                  name yn <> name n') ->
  attached s q -> tidy s'.
Proof.
  intros Ht Hok' Hroot Hcwd Hlists Hkept (n & n' & Ha & Ha' & Hty & Hfree) Hq.
  pose proof Ht as (Hok & Hu & Hj & Hcw).
  set (z := fresh (dom (heap s))).
  assert (Hz0 : heap s !! z = None) by apply fresh_not_live.
  assert (Hza : z <> a) by (intros E; rewrite E in Hz0; congruence).
  assert (Hz : heap s' !! z = None).
  { specialize (Hkept z Hza). rewrite Hz0 in Hkept.
    destruct (heap s' !! z); [contradiction | reflexivity]. }
  apply (tidy_step s s' a q z); try assumption.
  - apply cwd_stays; [exact Ht | exact Hcwd |].
    intros E. destruct (Hcw _ E) as [_ (m & Hm & _)]. congruence.
  - intros d y Hy. apply Hlists in Hy as [[Hy Hya] | [-> ->]]; auto.
  - intros d y Hy Hya _. apply Hlists. auto.
  - intros x m' Hx Hxa. specialize (Hkept x Hxa). rewrite Hx in Hkept.
    destruct (heap s !! x) as [m|]; [| contradiction].
    exists m. split; [reflexivity | symmetry; apply Hkept].
  - intros x m Hx _. destruct (decide (x = a)) as [-> | Hxa].
    + rewrite Ha in Hx. inversion Hx; subst m. eauto.
    + specialize (Hkept x Hxa). rewrite Hx in Hkept.
      destruct (heap s' !! x) as [m'|]; [| contradiction].
      exists m'. split; [reflexivity | apply Hkept].
  - intros y yn an Hy Hya Hyn Han. rewrite Ha' in Han. inversion Han; subst an.
    apply Hlists in Hy as [[Hy _] | [_ E]]; [| congruence].
    specialize (Hkept y Hya). rewrite Hyn in Hkept.
    destruct (heap s !! y) as [yn0|] eqn:Eyn0; [| contradiction].
    destruct Hkept as [_ Enm]. rewrite Enm. eapply Hfree; eauto.
  - intros _. right. exists q. apply Hlists. right. auto.
  - intros _. exact Hq.
Qed.

(** What [rename_file] does to a tidy tree: nothing, or the node [a]
    that the old path names ends up as an entry of [q], which is the
    directory [np] of the new path when the call returns 0, with the
    new name, and the directory that listed it before when the move
    failed; the other entries and nodes are as before, but for times. *)
Lemma rename_file_view o n s r s' :
  rename_file o n s = Ret r s' -> tidy s ->
  (r = -1 /\ s' = s) \/
  exists a nd np npn w written q n',
    walk_from s (cwd s) o false = Some (Some a, w) /\
    heap s !! a = Some nd /\ root s <> Some a /\
    walk_from s (cwd s) n true = Some (Some np, written) /\
    heap s !! np = Some npn /\ type npn = N_DIR /\
    dir_find (heap s) (Some np) (leaf_of written) = Some NULL /\
    attached s q /\
    (forall d y, lists (heap s') d y <->
       (lists (heap s) d y /\ y <> a) \/ (d = q /\ y = a)) /\
    (forall x, x <> a ->
       match heap s !! x, heap s' !! x with
       | Some n0, Some n1 => type n1 = type n0 /\ name n1 = name n0
       | None, None => True
       | _, _ => False
       end) /\
    heap s' !! a = Some n' /\ type n' = type nd /\
    ((r = 0 /\ q = np /\
      name n' = str_take NAME_MAX (leaf_of written)) \/
     (r = -1 /\ lists (heap s) q a /\ name n' = name nd)).
Proof.
  intros H Ht. pose proof Ht as (Hok & Hu & Hj & Hcw).
  pose proof Hok as [Hl Hrt].
  unfold rename_file in H.
  apply bind_Ret in H as ([x w] & s1 & Hw & H).
  apply walk_Ret in Hw as [-> Hw].
  destruct x as [a|]; [| inversion H; subst; left; auto].
  pose proof (walk_result_attached _ _ _ _ _ Ht Hw) as Hatt.
  apply bind_Ret in H as (s0 & s1 & Hg & H). inversion Hg; subst s0 s1.
  destruct (ptr_eqb (Some a) (root s)) eqn:Eroot;
    [inversion H; subst; left; auto |].
  apply ptr_eqb_false in Eroot.
  assert (Hroot : root s <> Some a) by congruence.
  apply bind_Ret in H as (nd & s1 & Hd & H).
  apply deref_Ret in Hd as [-> (a' & Ha' & Ha)]. inversion Ha'; subst a'.
  destruct (is_readonly nd); [inversion H; subst; left; auto |].
  apply bind_Ret in H as (ro & s1 & Hro & H).
  assert (s1 = s) as ->.
  { destruct (parent nd) as [p|].
    - apply bind_Ret in Hro as (pn & s2 & Hd & Hro).
      apply deref_Ret in Hd as [-> _]. inversion Hro. reflexivity.
    - inversion Hro. reflexivity. }
  clear Hro.
  destruct ro; [inversion H; subst; left; auto |].
  apply bind_Ret in H as ([new_parent written] & s1 & Hw2 & H).
  apply walk_Ret in Hw2 as [-> Hw2].
  destruct new_parent as [np|]; [| inversion H; subst; left; auto].
  pose proof (walk_result_attached _ _ _ _ _ Ht Hw2) as Hnpatt.
  apply bind_Ret in H as (npn & s1 & Hd & H).
  apply deref_Ret in Hd as [-> (np' & Hnp' & Hnp)]. inversion Hnp'; subst np'.
  destruct (negb (is_dir npn)) eqn:Enpdir; [inversion H; subst; left; auto |].
  apply negb_false_iff, is_dir_type in Enpdir.
  destruct (is_readonly npn); [inversion H; subst; left; auto |].
  apply bind_Ret in H as (c & s1 & Hf & H).
  apply lift_Ret in Hf as [-> Hf].
  destruct c; [inversion H; subst; left; auto |].
  apply bind_Ret in H as (moved & s1 & Hmove & H).
  (* the node is an entry of its parent *)
  assert (Hlisted : exists op, parent nd = Some op /\ lists (heap s) op a).
  { destruct Hatt as [E | (d & Hd)]; [congruence |].
    destruct (listed_live _ _ _ Hl Hd) as (n0 & Hn0 & Hp).
    rewrite Ha in Hn0. inversion Hn0; subst n0. eauto. }
  destruct Hlisted as (op & Hpar & Hop).
  pose proof Hop as (opn & Hopn & Hin).
  assert (Hopatt : attached s op) by (eapply Hj; eauto).
  (* the state after the move *)
  assert (Hmoved : exists q,
            attached s q /\ kept (heap s) (heap s1) /\
            (forall d y, lists (heap s1) d y <->
               (lists (heap s) d y /\ y <> a) \/ (d = q /\ y = a)) /\
            ((moved = true /\ q = np) \/ (moved = false /\ q = op))).
  { rewrite Hpar in Hmove.
    destruct (ptr_eqb (Some op) (Some np)) eqn:Esame.
    { apply ptr_eqb_true in Esame. inversion Esame; subst op.
      inversion Hmove; subst moved s1. exists np.
      split; [exact Hnpatt |]. split; [apply kept_refl |].
      split; [| left; auto]. intros d y. split.
      - intros Hy. destruct (decide (y = a)) as [-> | Hya]; [right | left; auto].
        split; [| reflexivity]. eapply (lister_unique (heap s)); eauto.
      - intros [[Hy _] | [-> ->]]; assumption. }
    apply ptr_eqb_false in Esame.
    assert (Hne : op <> np) by congruence.
    rewrite (bind_run _ _ _ _ _ (deref_live _ _ _ Hopn)) in Hmove.
    destruct (index_of_elem a (children opn) Hin) as [i Ei].
    rewrite Ei in Hmove. apply index_of_Some in Ei.
    apply bind_Ret in Hmove as (u1 & s2 & Hcut & Hmove).
    rewrite (modify_live _ _ _ _ Hopn) in Hcut. inversion Hcut; subst u1 s2.
    clear Hcut.
    apply bind_Ret in Hmove as (u2 & s3 & Hclear & Hmove).
    apply modify_Ret in Hclear as (a2 & Ha2 & ->).
    cbn [heap set_heap] in Ha2.
    destruct (detach_view (heap s) a nd op opn i a2 Hl Ha Hopn Ei Ha2)
      as (K3 & L3 & (a3 & Ha3 & Hpar3) & (op3 & Hop3 & Hch3)).
    match type of Hmove with
    | bind (dir_add _ _) _ ?st = _ => set (s3 := st) in *
    end.
    assert (Hh3 : heap s3 =
              <[a := set_parent NULL a2]>
                (<[op := set_children (swap_remove i (children opn)) opn]>
                   (heap s))) by reflexivity.
    rewrite <- Hh3 in K3, L3, Ha3, Hop3.
    apply bind_Ret in Hmove as (x & s4 & Hadd & Hmove).
    assert (Hnp3 : exists npn3, heap s3 !! np = Some npn3).
    { apply (kept_live _ _ np K3). eauto. }
    destruct Hnp3 as (npn3 & Hnp3).
    destruct (dir_add_outcome _ _ _ _ _ _ _ Hadd Hnp3 Ha3)
      as [(-> & -> & _) | [(-> & -> & Hbad) | (-> & Hnotin & c1 & d2 & Hc1 & Hd2
                                                 & ->)]].
    - (* the new parent does not take it: back to the old one *)
      apply bind_Ret in Hmove as (y & s5 & Hback & Hmove).
      inversion Hmove; subst moved s1. clear Hmove.
      exists op. split; [exact Hopatt |].
      destruct (Hl op opn Hopn) as (_ & Hnd & Hcount & _).
      destruct (lister_is_dir _ _ _ Hl Hop) as (opn' & Hopn' & Hopdir).
      rewrite Hopn in Hopn'. inversion Hopn'; subst opn'.
      destruct (dir_add_outcome _ _ _ _ _ _ _ Hback Hop3 Ha3)
        as [(_ & _ & Hwhy) | [(_ & _ & Hbad) | (_ & _ & c1 & d2 & Hc1 & Hd2
                                                  & ->)]].
      + exfalso. destruct Hwhy as [Hnd3 | [Hfull | (p & Hp & _)]].
        * specialize (K3 op). rewrite Hopn, Hop3 in K3. destruct K3 as [Ety _].
          unfold is_dir in Hnd3. rewrite Ety, Hopdir in Hnd3. discriminate.
        * unfold child_count in Hfull, Hcount. rewrite Hch3 in Hfull.
          pose proof (swap_remove_length _ _ _ Ei). lia.
        * congruence.
      + exfalso. rewrite Hch3 in Hbad.
        apply (swap_remove_elem _ _ _ a Hnd Ei) in Hbad as [_ Hbad].
        apply Hbad. reflexivity.
      + destruct (attach_view (heap s3) op a op3 c1 d2 (clock s3 (ticks s3))
                    Hop3 Hc1 Hd2) as [K5 L5].
        cbn [heap set_heap set_ticks]. split.
        * eapply kept_trans; eauto.
        * split; [| right; auto]. intros d0 y0.
          etransitivity; [apply L5 |]. rewrite L3. reflexivity.
    - exfalso. assert (lists (heap s3) np a) as Hy by (exists npn3; auto).
      apply L3 in Hy as [_ Hy]. apply Hy. reflexivity.
    - destruct (attach_view (heap s3) np a npn3 c1 d2 (clock s3 (ticks s3))
                  Hnp3 Hc1 Hd2) as [K4 L4].
      apply bind_Ret in Hmove as (now & s5 & Htm & Hmove).
      apply time_Ret in Htm as [-> ->].
      apply bind_Ret in Hmove as (u3 & s6 & Hm & Hmove).
      inversion Hmove; subst moved s1. clear Hmove.
      destruct (modify_kept _ _ _ _ _ Hm) as [K6 L6];
        [intros n0; repeat split |].
      cbn [heap set_heap set_ticks] in K6, L6.
      exists np. split; [exact Hnpatt |]. split.
      + eapply kept_trans; [| exact K6]. eapply kept_trans; eauto.
      + split; [| left; auto]. intros d0 y0.
        etransitivity; [apply L6 |]. etransitivity; [apply L4 |].
        rewrite L3. reflexivity. }
  destruct Hmoved as (q & Hq & K1 & L1 & Hcase).
  assert (Hkx : forall h', kept (heap s1) h' -> forall x, x <> a ->
            match heap s !! x, h' !! x with
            | Some n0, Some n' => type n' = type n0 /\ name n' = name n0
            | None, None => True
            | _, _ => False
            end).
  { intros h' K x _. pose proof (kept_trans _ _ _ K1 K x) as E. exact E. }
  destruct Hcase as [[-> ->] | [-> ->]]; cbn [negb] in H.
  - (* the new name *)
    apply bind_Ret in H as (u1 & s2 & Hname & H).
    apply modify_Ret in Hname as (n1 & Hn1 & ->).
    apply bind_Ret in H as (now & s3 & Htm & H).
    apply time_Ret in Htm as [-> ->].
    apply bind_Ret in H as (u2 & s4 & Hm & H).
    destruct (modify_kept _ _ _ _ _ Hm) as [K4 L4];
      [intros n0; repeat split |].
    apply bind_Ret in H as (cur & s5 & Hd & H).
    apply deref_Ret in Hd as [-> _].
    apply bind_Ret in H as (u3 & s6 & Hm2 & H). inversion H; subst r s6.
    assert (K5 : kept (heap s4) (heap s') /\ same_lists (heap s4) (heap s')).
    { destruct (parent cur) as [p|].
      - apply (modify_kept _ _ _ _ _ Hm2). intros n0. repeat split.
      - inversion Hm2; subst. split; [apply kept_refl | apply same_lists_refl]. }
    destruct K5 as [K5 L5].
    cbn [heap set_heap set_ticks] in K4, L4.
    set (h2 := <[a := set_name (str_take NAME_MAX (leaf_of written)) n1]>
                 (heap s1)) in *.
    assert (K25 : kept h2 (heap s')) by (eapply kept_trans; eauto).
    assert (L25 : same_lists h2 (heap s'))
      by (eapply same_lists_trans; eauto).
    assert (L12 : same_lists (heap s1) h2)
      by (eapply same_lists_insert; eauto).
    pose proof (K1 a) as E1. pose proof (K25 a) as E2.
    unfold h2 in E2. rewrite lookup_insert_eq in E2.
    rewrite Ha, Hn1 in E1.
    destruct (heap s' !! a) as [n'|] eqn:Ea'; [| contradiction].
    destruct E1 as [Ety1 _]. destruct E2 as [Ety2 Enm2].
    cbn [type name set_name] in Ety2, Enm2.
    right. exists a, nd, np, npn, w, written, np, n'.
    repeat (split; [assumption |]).
    split.
    { intros d y. etransitivity; [apply L25 |].
      etransitivity; [apply L12 | apply L1]. }
    split.
    { intros x Hxa. pose proof (K1 x) as F1. pose proof (K25 x) as F2.
      unfold h2 in F2. rewrite lookup_insert_ne in F2 by congruence.
      destruct (heap s !! x) as [m0|]; destruct (heap s1 !! x) as [m1|];
        destruct (heap s' !! x) as [m2|]; try tauto.
      destruct F1, F2. split; congruence. }
    split; [exact Ea' |]. split; [congruence |]. left. auto.
  - (* the move failed *)
    inversion H; subst r s'.
    pose proof (K1 a) as E1. rewrite Ha in E1.
    destruct (heap s1 !! a) as [n'|] eqn:Ea'; [| contradiction].
    destruct E1 as [Ety Enm].
    right. exists a, nd, np, npn, w, written, op, n'.
    repeat (split; [assumption |]).
    split; [intros x Hxa; apply (Hkx (heap s1) (kept_refl _) x Hxa) |].
    split; [exact Ea' |]. split; [exact Ety |]. right. auto.
Qed.

Lemma tidy_rename_file o n s r s' :
  rename_file o n s = Ret r s' -> tidy s -> tidy s'.
Proof.
  intros H Ht. pose proof Ht as (Hok & Hu & Hj & Hcw).
  assert (Hok' : tree_ok s').
  { destruct (tree_step_rename_file _ _ _ _ _ H) as [_ E]. apply E. exact Hok. }
  assert (Hroot' : root s' = root s)
    by (destruct (tree_step_rename_file _ _ _ _ _ H) as [E _]; exact E).
  assert (Hcwd' : cwd s' = cwd s).
  { apply (fld_rename_file cwd) in H; [exact H | reflexivity | reflexivity]. }
  destruct (rename_file_view _ _ _ _ _ H Ht)
    as [[_ ->] | (a & nd & np & npn & w & written & q & n' & _ & Ha & _ & _
                  & Hnp & Hnpdir & Hf & Hq & Hlists & Hkept & Ha' & Hty
                  & Hcase)]; [exact Ht |].
  apply (tidy_reattach s s' a q); try assumption.
  exists nd, n'. split; [exact Ha |]. split; [exact Ha' |].
  split; [exact Hty |].
  intros y yn Hy Hya Hyn.
  destruct Hcase as [(_ & -> & ->) | (_ & Hqa & ->)].
  - destruct Hy as (m & Hm & Hy). rewrite Hnp in Hm. inversion Hm; subst m.
    eapply dir_find_NULL_names; eauto.
  - intros Hsame. apply Hya. apply (Hu q y a yn nd); assumption.
Qed.

(** *** Start and end of a tree *)

(** [node_free] releases its argument, and with a directory that it
    releases every entry of it. *)
Lemma node_free_heap_closed fuel : forall n h h',
  node_free_heap fuel n h = Some h' ->
  (forall a, n = Some a -> h' !! a = None) /\
  forall p pn y, h !! p = Some pn -> is_dir pn = true -> h' !! p = None ->
                 y ∈ children pn -> h' !! y = None.
Proof.
  induction fuel as [|fuel IH]; intros n h h' H;
    destruct n as [a|]; cbn [node_free_heap] in H; try discriminate.
  1,3: inversion H; subst; split; [discriminate | intros; congruence].
  destruct (h !! a) as [na|] eqn:Ea; cbn in H; [| discriminate].
  assert (Hfold : forall cs (h0 h1 : gmap addr node_t),
             foldl (fun acc c => hc ← acc; node_free_heap fuel (Some c) hc)
                   (Some h0) cs = Some h1 ->
             (forall x nx, h1 !! x = Some nx -> h0 !! x = Some nx) /\
             (forall c, c ∈ cs -> h1 !! c = None) /\
             forall p pn y, h0 !! p = Some pn -> is_dir pn = true ->
                            h1 !! p = None -> y ∈ children pn ->
                            h1 !! y = None).
  { induction cs as [|c cs IHcs]; intros h0 h1 Hrun; cbn [foldl] in Hrun.
    - inversion Hrun; subst. split; [auto |]. split.
      + intros c Hc. apply elem_of_nil in Hc. contradiction.
      + intros p pn y Hp _ Hp'. congruence.
    - cbn [mbind option_bind] in Hrun.
      destruct (node_free_heap fuel (Some c) h0) as [hc|] eqn:Ec.
      2:{ exfalso. clear - Hrun.
          induction cs as [|c' cs IHc]; cbn [foldl] in Hrun;
            [discriminate | auto]. }
      destruct (IHcs hc h1 Hrun) as (Hsub1 & Hgone1 & Hclosed1).
      pose proof (node_free_heap_sub _ _ _ _ Ec) as Hsub0.
      destruct (IH _ _ _ Ec) as [Htop Hclosed0].
      assert (Hdead : forall x, hc !! x = None -> h1 !! x = None).
      { intros x Hx. destruct (h1 !! x) as [nx|] eqn:E; [| reflexivity].
        apply Hsub1 in E. congruence. }
      split; [intros x nx Hx; apply Hsub0, Hsub1; exact Hx |]. split.
      + intros c' Hc'. apply elem_of_cons in Hc' as [-> | Hc'].
        * apply Hdead. apply Htop. reflexivity.
        * apply Hgone1. exact Hc'.
      + intros p pn y Hp Hdir Hp' Hy.
        destruct (hc !! p) as [pn'|] eqn:Ep.
        * assert (pn' = pn) as -> by (apply Hsub0 in Ep; congruence).
          eapply Hclosed1; eauto.
        * apply Hdead. eapply Hclosed0; eauto. }
  destruct (is_dir na) eqn:Edir.
  - destruct (foldl _ _ _) as [h1|] eqn:Ef; cbn in H; [| discriminate].
    destruct (h1 !! a) eqn:Ea1; cbn in H; [| discriminate].
    inversion H; subst h'. clear H.
    destruct (Hfold _ _ _ Ef) as (Hsub & Hgone & Hclosed).
    split; [intros a' Ha'; inversion Ha'; subst; apply lookup_delete_eq |].
    intros p pn y Hp Hpdir Hp' Hy.
    apply lookup_delete_None. destruct (decide (y = a)); [left; auto | right].
    destruct (decide (p = a)) as [-> | Hpa].
    + rewrite Ea in Hp. inversion Hp; subst pn. apply Hgone. exact Hy.
    + rewrite lookup_delete_ne in Hp' by congruence. eapply Hclosed; eauto.
  - cbn in H. rewrite Ea in H. cbn in H. inversion H; subst h'.
    split; [intros a' Ha'; inversion Ha'; subst; apply lookup_delete_eq |].
    intros p pn y Hp Hpdir Hp' Hy. exfalso.
    destruct (decide (p = a)) as [-> | Hpa].
    + rewrite Ea in Hp. inversion Hp; subst. congruence.
    + rewrite lookup_delete_ne in Hp' by congruence. congruence.
Qed.

Lemma tidy_fs_destroy s u s' :
  fs_destroy s = Ret u s' -> tidy s -> tidy s'.
Proof.
  intros H Ht. pose proof Ht as (Hok & Hu & Hj & Hcw).
  pose proof (tree_ok_fs_destroy _ _ _ H Hok) as Hok'.
  unfold fs_destroy in H.
  apply bind_Ret in H as (s0 & s1 & Hg & H). inversion Hg; subst s0 s1.
  apply bind_Ret in H as (u' & s2 & Hfree & H).
  inversion H; subst. clear H.
  unfold node_free in Hfree.
  destruct (node_free_heap _ _ _) as [h'|] eqn:E; inversion Hfree; subst.
  clear Hfree.
  pose proof (node_free_heap_sub _ _ _ _ E) as Hsub.
  destruct (node_free_heap_closed _ _ _ _ E) as [Htop Hclosed].
  assert (Hlists : forall d x, lists h' d x -> lists (heap s) d x).
  { intros d x (dn & Hdn & Hx). exists dn. split; [apply Hsub |]; assumption. }
  split; [exact Hok' |]. split; [| split].
  - cbn [heap set_cwd set_root set_heap].
    intros d x y xn yn Hx Hy Hxn Hyn Hname.
    apply (Hu d x y xn yn); auto.
  - intros d x Hx. cbn [heap set_cwd set_root set_heap] in Hx.
    pose proof Hx as (dn & Hdn & _).
    destruct (Hj d x (Hlists _ _ Hx)) as [Hroot | (p & pn & Hpn & Hd)].
    + rewrite (Htop d Hroot) in Hdn. discriminate.
    + right. exists p. cbn [heap set_cwd set_root set_heap].
      destruct (h' !! p) as [pn'|] eqn:Ep.
      * exists pn'. split; [exact Ep |].
        apply Hsub in Ep. rewrite Hpn in Ep. inversion Ep; subst. exact Hd.
      * exfalso. destruct Hok as [Hl _].
        destruct (lister_is_dir (heap s) p d Hl) as (pn2 & Hpn2 & Hty);
          [exists pn; auto |].
        rewrite Hpn in Hpn2. inversion Hpn2; subst pn2.
        apply is_dir_type in Hty.
        rewrite (Hclosed p pn d Hpn Hty Ep Hd) in Hdn. discriminate.
  - intros c Hc. discriminate Hc.
Qed.

Lemma tidy_fs_init s u s' :
  fs_init s = Ret u s' -> tidy s -> root s = NULL -> tidy s'.
Proof.
  intros H Ht Hnone. pose proof Ht as (Hok & Hu & Hj & Hcw).
  pose proof (tree_ok_fs_init _ _ _ H Hok) as Hok'.
  unfold fs_init in H.
  apply bind_Ret in H as (p & s1 & Hnew & H).
  rewrite node_new_run in Hnew. inversion Hnew; subst p s1. clear Hnew.
  inversion H; subst. clear H.
  set (f := fresh (dom (heap s))) in *.
  assert (Hfresh : heap s !! f = None) by apply fresh_not_live.
  assert (Hlists : forall d x,
            lists (<[f := {| type := N_DIR; name := str_take NAME_MAX "";
                             parent := NULL;
                             created := clock s (ticks s);
                             modified := clock s (ticks s);
                             accessed := clock s (ticks s);
                             attributes := ATTR_NONE;
                             children := []; data := []; size := 0 |}]>
                     (heap s)) d x <-> lists (heap s) d x).
  { intros d x. rewrite lists_insert. cbn [children]. split.
    - intros [[_ Hx] | [_ Hx]]; [apply elem_of_nil in Hx; contradiction |].
      exact Hx.
    - intros Hx. right. split; [| exact Hx].
      intros ->. destruct Hx as (n & Hn & _). congruence. }
  split; [exact Hok' |]. cbn [heap root cwd set_cwd set_root set_heap set_ticks].
  split; [| split].
  - intros d x y xn yn Hx Hy Hxn Hyn Hname.
    apply Hlists in Hx, Hy. destruct Hok as [Hl _].
    destruct (listed_live _ _ _ Hl Hx) as (xn0 & Hxn0 & _).
    destruct (listed_live _ _ _ Hl Hy) as (yn0 & Hyn0 & _).
    rewrite lookup_insert_ne in Hxn by congruence.
    rewrite lookup_insert_ne in Hyn by congruence.
    apply (Hu d x y xn yn); auto.
  - intros d x Hx. cbn [heap set_cwd set_root set_heap set_ticks] in Hx.
    apply Hlists in Hx.
    destruct (Hj d x Hx) as [Hroot | (p & Hp)]; [congruence |].
    right. exists p. cbn [heap set_cwd set_root set_heap set_ticks].
    apply Hlists. exact Hp.
  - intros c Hc. inversion Hc; subst c. split.
    + left. reflexivity.
    + eexists. cbn [heap set_cwd set_root set_heap set_ticks].
      rewrite lookup_insert_eq. split; reflexivity.
Qed.

Lemma tidy_boot alloc clk : tidy (boot alloc clk).
Proof.
  split; [apply boot_tree_ok |]. split; [| split].
  - intros d x y xn yn (dn & Hdn & _). cbn in Hdn.
    rewrite lookup_empty in Hdn. discriminate.
  - intros d x (dn & Hdn & _). cbn in Hdn.
    rewrite lookup_empty in Hdn. discriminate.
  - intros c Hc. discriminate Hc.
Qed.

(** *** Every call *)

Lemma tidy_fs_cd path s r s' : fs_cd path s = Ret r s' -> tidy s -> tidy s'.
Proof.
  intros H Ht.
  assert (Hok' : tree_ok s')
    by (apply (exec_keeps_tree (Fs_cd path) _ _ _ H); apply Ht).
  destruct (fs_cd_cases _ _ _ _ H) as [[_ ->] | (_ & d & n & Hw & Hn & Hty & ->)];
    [exact Ht |].
  apply (tidy_shape s); [exact Ht | | | exact Hok'].
  - apply (step_trans s (set_ticks (S (ticks s)) (set_cwd (Some d) s)));
      [apply step_same; reflexivity |].
    apply (step_modify (R := shape_kept)
             (set_ticks (S (ticks s)) (set_cwd (Some d) s)) d n);
      [exact Hn | repeat split].
  - intros x Hx. cbn [cwd set_heap set_ticks set_cwd] in Hx.
    inversion Hx; subst x. split.
    + eapply walk_result_attached; eauto.
    + exists n. auto.
Qed.

Lemma exec_tidy c s r s' :
  tidy s -> exec c s = Ret r s' -> stays_put c s -> tidy s'.
Proof.
  intros Ht H Hput.
  assert (Hok' : tree_ok s') by (eapply exec_keeps_tree; [exact H | apply Ht]).
  destruct shape_eq_fields as (Htr & Hacc & Hmod & Hattr & Hdata & Hsize).
  pose proof shape_kept_refl as Hrefl.
  pose proof (@step_trans _ _ shape_kept_step) as Htrans.
  assert (Hshape : shape_kept s s' -> cwd s' = cwd s -> tidy s').
  { intros Hs Hc. apply (tidy_shape s); try assumption.
    apply cwd_same; assumption. }
  assert (Hcwd : moves_cwd c = false -> cwd s' = cwd s)
    by (intros Hc; exact (fld_exec_cwd c Hc _ _ _ H)).
  destruct c; cbn [exec] in H; cbn [stays_put] in Hput.
  - apply bind_Ret in H as (u & s1 & Hi & H). inversion H; subst.
    eapply tidy_fs_init; eauto.
  - apply bind_Ret in H as (u & s1 & Hi & H). inversion H; subst.
    eapply tidy_fs_destroy; eauto.
  - eapply tidy_fs_cd; eauto.
  - eapply tidy_mkdir_p; eauto.
  - eapply tidy_rmdir_empty; eauto.
  - apply Hshape; [| apply Hcwd; reflexivity].
    eapply (fp_ls_dir shape_eq shape_kept); eauto.
  - apply Hshape; [| apply Hcwd; reflexivity].
    eapply (fp_fs_search shape_eq shape_kept); eauto.
  - eapply tidy_create_file; eauto.
  - apply Hshape; [| apply Hcwd; reflexivity].
    eapply (fp_write_file shape_eq shape_kept); eauto.
  - apply Hshape; [| apply Hcwd; reflexivity].
    eapply (pres_fst shape_kept (read_file path off len)); eauto.
    apply (fp_read_file shape_eq shape_kept); eauto.
  - eapply tidy_rm_file; eauto.
  - eapply tidy_rename_file; eauto.
  - apply Hshape; [| apply Hcwd; reflexivity].
    eapply (fp_fs_open shape_eq shape_kept); eauto.
  - apply Hshape; [| apply Hcwd; reflexivity].
    eapply (fp_fs_close shape_eq shape_kept); eauto.
  - apply Hshape; [| apply Hcwd; reflexivity].
    eapply (pres_fst shape_kept (fs_read_fd fd len)); eauto.
    apply (fp_fs_read_fd shape_eq shape_kept); eauto.
  - apply Hshape; [| apply Hcwd; reflexivity].
    eapply (fp_fs_write_fd shape_eq shape_kept); eauto.
  - apply Hshape; [| apply Hcwd; reflexivity].
    eapply (fp_fs_seek shape_eq shape_kept); eauto.
  - apply Hshape; [| apply Hcwd; reflexivity].
    eapply (pres_fst shape_kept (get_file_info path)); eauto.
    apply (fp_get_file_info shape_eq shape_kept); eauto.
  - apply Hshape; [| apply Hcwd; reflexivity].
    eapply (fp_set_file_attributes shape_eq shape_kept); eauto.
  - apply Hshape; [| apply Hcwd; reflexivity].
    eapply (fp_touch_file shape_eq shape_kept); eauto.
Qed.

Lemma tidy_with_file : tidy with_file.
Proof.
  assert (H0 : tidy fresh_fs).
  { apply (exec_tidy Fs_init (boot always_grants wall_clock) 0 fresh_fs);
      [apply tidy_boot | vm_compute; reflexivity | reflexivity]. }
  assert (H1 : tidy with_dirs).
  { apply (exec_tidy (Mkdir_p "/a/b/c") fresh_fs 0 with_dirs);
      [exact H0 | vm_compute; reflexivity | exact I]. }
  apply (exec_tidy (Create_file "/a/b/c/f.txt") with_dirs 0 with_file);
    [exact H1 | vm_compute; reflexivity | exact I].
Qed.

(** X20. Names stay unique among siblings. Call a state tidy when the
    links of the tree hold, no two entries of a directory have the
    same name, every node that has entries is the root or an entry of
    a live node, and the current directory, if set, is such a node and
    a directory. The zeroed statics are tidy; a tidy state is still
    tidy after any call that returns, whatever it returns, the two
    exceptions being [fs_init] when there is a root already and
    [rmdir_empty] on a path that resolves to the current directory;
    and in a tidy state two different entries of a directory differ
    within the first [NAME_MAX] bytes of their names, which are the
    bytes that [dir_find] compares. *)
Theorem names_stay_unique :
  (forall alloc clk, tidy (boot alloc clk)) /\
  (forall c s r s',
     tidy s -> stays_put c s -> exec c s = Ret r s' -> tidy s') /\
  (forall s d dn x y xn yn,
     tidy s -> heap s !! d = Some dn ->
     x ∈ children dn -> y ∈ children dn ->
     heap s !! x = Some xn -> heap s !! y = Some yn -> x <> y ->
     strncmp_eq (name xn) (name yn) NAME_MAX = false).
Proof.
  split; [apply tidy_boot |]. split.
  - intros c s r s' Ht Hput H. eapply exec_tidy; eauto.
  - intros s d dn x y xn yn ([Hl _] & Hu & _) Hd Hx Hy Hxn Hyn Hne.
    unfold strncmp_eq.
    destruct (Hl x xn Hxn) as (_ & _ & _ & Hlx & _).
    destruct (Hl y yn Hyn) as (_ & _ & _ & Hly & _).
    rewrite !str_take_all by assumption.
    apply String.eqb_neq. intros E. apply Hne.
    apply (Hu d x y xn yn); try assumption; exists dn; auto.
Qed.

Lemma names_stay_unique_witness :
  tidy (state_after (exec (Rename_file "/a/b/c/f.txt" "/a/g.txt")) with_file).
Proof.
  destruct names_stay_unique as (Hboot & Hstep & _).
  apply (Hstep (Rename_file "/a/b/c/f.txt" "/a/g.txt") with_file 0).
  - apply (Hstep (Create_file "/a/b/c/f.txt") with_dirs 0 with_file).
    + apply (Hstep (Mkdir_p "/a/b/c") fresh_fs 0 with_dirs).
      * apply (Hstep Fs_init (boot always_grants wall_clock) 0 fresh_fs).
        -- apply Hboot.
        -- reflexivity.
        -- vm_compute. reflexivity.
      * exact I.
      * vm_compute. reflexivity.
    + exact I.
    + vm_compute. reflexivity.
  - exact I.
  - vm_compute. reflexivity.
Defined.

(** X21. Path resolution is safe in a tidy state: when there is a
    root, [walk_from] is defined for every path and either mode, that
    is, it reads no node that is not live, and it returns the null
    pointer or a pointer to a live node that is the root or an entry
    of a live directory. *)
Theorem resolver_is_safe s path want_parent :
  tidy s -> root s <> NULL ->
  exists r w,
    walk_from s (cwd s) path want_parent = Some (r, w) /\
    forall a, r = Some a ->
      (exists n, heap s !! a = Some n) /\
      (root s = Some a \/
       exists d dn, heap s !! d = Some dn /\ type dn = N_DIR /\
                    a ∈ children dn).
Proof.
  intros Ht Hroot.
  assert (Hstart : exists c, start_node s (cwd s) path = Some c).
  { unfold start_node. destruct (root s) as [r|] eqn:Er;
      [| exfalso; apply Hroot; first [exact Er | reflexivity]].
    destruct (is_absolute path); [eauto |]. destruct (cwd s); eauto. }
  destruct Hstart as (c & Hc).
  destruct (walk_from_attached s path want_parent c Ht Hc)
    as (r & w & Hw & Hat).
  exists r, w. split; [exact Hw |]. intros a Ha.
  pose proof (Hat a Ha) as Hatt. destruct Ht as (Hok & _).
  split; [apply (attached_live _ _ Hok Hatt) |].
  destruct Hatt as [E | (d & Hd)]; [left; exact E | right].
  destruct Hok as [Hl _].
  destruct (lister_is_dir _ _ _ Hl Hd) as (dn & Hdn & Hty).
  destruct Hd as (dn' & Hdn' & Hin). rewrite Hdn in Hdn'. inversion Hdn'; subst.
  eauto.
Qed.

Lemma resolver_is_safe_witness :
  exists r w,
    walk_from with_file (cwd with_file) "/a/../a/b/./c/f.txt" false
      = Some (r, w) /\
    forall a, r = Some a ->
      (exists n, heap with_file !! a = Some n) /\
      (root with_file = Some a \/
       exists d dn, heap with_file !! d = Some dn /\ type dn = N_DIR /\
                    a ∈ children dn).
Proof.
  apply (resolver_is_safe with_file "/a/../a/b/./c/f.txt" false).
  - apply tidy_with_file.
  - vm_compute. discriminate.
Defined.

(** *** Removing, then resolving *)

Lemma find_file_name h leaf : forall cs i0 i c cn,
  find_file h cs leaf i0 = Some (Some (i, c, cn)) ->
  strncmp_eq (name cn) leaf NAME_MAX = true.
Proof.
  induction cs as [|x cs IH]; intros i0 i c cn H; cbn [find_file] in H;
    [discriminate |].
  destruct (h !! x) as [xn|] eqn:Ex; cbn in H; [| discriminate].
  destruct (strncmp_eq (name xn) leaf NAME_MAX && is_file xn) eqn:E.
  - inversion H; subst. apply andb_true_iff in E as [E _]. exact E.
  - eapply IH; eauto.
Qed.

(** What a successful [rm_file] has done. *)
Lemma rm_file_success path s s' :
  rm_file path s = Ret 0 s' -> tree_ok s ->
  exists p w pn i c cn,
    walk_from s (cwd s) path true = Some (Some p, w) /\
    heap s !! p = Some pn /\ children pn !! i = Some c /\
    heap s !! c = Some cn /\ type cn = N_FILE /\
    strncmp_eq (name cn) (leaf_of w) NAME_MAX = true /\ c <> p /\
    s' = set_heap
           (<[p := stamp_both (clock s (ticks s))
                     (set_children (swap_remove i (children pn)) pn)]>
              (delete c
                 (<[p := set_children (swap_remove i (children pn)) pn]>
                    (heap s))))
           (set_ticks (S (ticks s)) s).
Proof.
  intros H [Hl Hroot]. unfold rm_file in H.
  apply bind_Ret in H as ([par w] & s1 & Hw & H).
  apply walk_Ret in Hw as [-> Hw].
  destruct par as [p|]; [| inversion H].
  apply bind_Ret in H as (pn & s1 & Hd & H).
  apply deref_Ret in Hd as [-> (p' & Hp' & Hp)]. inversion Hp'; subst p'.
  destruct (is_readonly pn); [inversion H |].
  apply bind_Ret in H as (hit & s1 & Hf & H).
  apply lift_Ret in Hf as [-> Hf].
  destruct hit as [[[i c] cn]|]; [| inversion H].
  destruct (is_readonly cn); [inversion H |].
  pose proof (find_file_name _ _ _ _ _ _ _ Hf) as Hname.
  apply find_file_Some in Hf as (k & -> & Hk & Hc & Hfile).
  cbn [Nat.add] in H.
  assert (Htype : type cn = N_FILE).
  { unfold is_file in Hfile. destruct (type cn); [discriminate | reflexivity]. }
  assert (Hleaf : is_dir cn = false \/ children cn = []).
  { left. unfold is_dir. rewrite Htype. reflexivity. }
  assert (Hcp : c <> p).
  { intros ->. destruct (Hl p pn Hp) as (H1 & _).
    rewrite Hp in Hc. inversion Hc; subst cn.
    assert (children pn <> []) as Hne.
    { intros E. rewrite E in Hk. rewrite lookup_nil in Hk. discriminate. }
    apply H1 in Hne. congruence. }
  destruct (unlink_run _ _ _ _ _ _ _ _ Hp Hk Hc Hcp Hleaf H) as [_ Hs'].
  exists p, w, pn, k, c, cn. auto 10.
Qed.

(** What a successful [rmdir_empty] has done. *)
Lemma rmdir_empty_success path s s' :
  rmdir_empty path s = Ret 0 s' ->
  exists a p pn i dn,
    walk_from s (cwd s) path false = Some (Some a, None) /\
    heap s !! p = Some pn /\ children pn !! i = Some a /\
    heap s !! a = Some dn /\ type dn = N_DIR /\ children dn = [] /\
    root s <> Some a /\ a <> p /\
    s' = set_heap
           (<[p := stamp_both (clock s (ticks s))
                     (set_children (swap_remove i (children pn)) pn)]>
              (delete a
                 (<[p := set_children (swap_remove i (children pn)) pn]>
                    (heap s))))
           (set_ticks (S (ticks s)) s).
Proof.
  intros H. unfold rmdir_empty in H.
  apply bind_Ret in H as ([d w] & s1 & Hw & H).
  apply walk_Ret in Hw as [-> Hw].
  pose proof (walk_loop_no_leaf _ _ _ _ _ Hw) as ->.
  destruct d as [a|]; [| inversion H].
  apply bind_Ret in H as (dn & s1 & Hd & H).
  apply deref_Ret in Hd as [-> (a' & Ha' & Ha)]. inversion Ha'; subst a'.
  apply bind_Ret in H as (s0 & s1 & Hg & H). inversion Hg; subst s0 s1.
  destruct (negb (is_dir dn) || ptr_eqb (Some a) (root s)) eqn:Echeck;
    [inversion H |].
  apply orb_false_iff in Echeck as [Edir Eroot].
  apply negb_false_iff, is_dir_type in Edir.
  apply ptr_eqb_false in Eroot.
  destruct (negb (child_count dn =? 0)%nat) eqn:Eempty; [inversion H |].
  apply negb_false_iff in Eempty. apply Nat.eqb_eq in Eempty.
  assert (Hempty : children dn = []).
  { unfold child_count in Eempty. destruct (children dn); [reflexivity |].
    discriminate. }
  apply bind_Ret in H as (pn & s1 & Hd & H).
  apply deref_Ret in Hd as [-> (p & Hpar & Hp)].
  destruct (is_readonly pn); [inversion H |].
  destruct (is_readonly dn); [inversion H |].
  rewrite Hpar in H.
  destruct (index_of a (children pn)) as [i|] eqn:Eidx; [| inversion H].
  apply index_of_Some in Eidx.
  assert (Hap : a <> p).
  { intros ->. rewrite Hp in Ha. inversion Ha; subst pn.
    rewrite Hempty in Eidx. rewrite lookup_nil in Eidx. discriminate. }
  destruct (unlink_run _ _ _ _ _ _ _ _ Hp Eidx Ha Hap (or_intror Hempty) H)
    as [_ Hs'].
  exists a, p, pn, i, dn. repeat (split; [first [assumption | congruence] |]).
  exact Hs'.
Qed.

(** The tree after the entry [c], which has no entries of its own,
    was taken out of [p] and released. *)
Lemma unlink_view s p pn i c cn s' :
  tree_ok s ->
  heap s !! p = Some pn -> children pn !! i = Some c ->
  heap s !! c = Some cn -> c <> p -> children cn = [] ->
  s' = set_heap
         (<[p := stamp_both (clock s (ticks s))
                   (set_children (swap_remove i (children pn)) pn)]>
            (delete c
               (<[p := set_children (swap_remove i (children pn)) pn]>
                  (heap s))))
         (set_ticks (S (ticks s)) s) ->
  (forall d y, lists (heap s') d y <-> lists (heap s) d y /\ y <> c) /\
  heap s' !! c = None /\
  (forall x n, heap s !! x = Some n -> x <> c ->
     exists n', heap s' !! x = Some n' /\ type n' = type n /\
                name n' = name n /\ parent n' = parent n) /\
  root s' = root s /\ cwd s' = cwd s.
Proof.
  intros [Hl Hr] Hp Hi Hc Hcp Hempty Hs'.
  destruct (Hl p pn Hp) as (_ & Hnd & _).
  assert (Hcin : c ∈ children pn) by (eapply list_elem_of_lookup_2; eauto).
  split; [| split; [| split; [| subst s'; split; reflexivity]]].
  - intros d y. subst s'. cbn [heap set_heap set_ticks].
    rewrite lists_insert. cbn [children stamp_both set_accessed set_modified
                               set_children].
    rewrite lists_delete, lists_insert. cbn [children set_children].
    rewrite (swap_remove_elem _ _ _ y Hnd Hi). split.
    + intros [[-> [Hy Hyc]] | [Hdp [Hdc [[E _] | [_ Hy]]]]];
        [| congruence |].
      * split; [exists pn; auto | exact Hyc].
      * split; [exact Hy |]. intros ->.
        apply Hdp. eapply (lister_unique (heap s)); eauto. exists pn. auto.
    + intros [(dn & Hdn & Hy) Hyc].
      destruct (decide (d = p)) as [-> | Hdp].
      * left. rewrite Hp in Hdn. inversion Hdn; subst dn. auto.
      * right. split; [exact Hdp |]. split.
        -- intros ->. rewrite Hc in Hdn. inversion Hdn; subst dn.
           rewrite Hempty in Hy. apply elem_of_nil in Hy. exact Hy.
        -- right. split; [exact Hdp | exists dn; auto].
  - subst s'. cbn [heap set_heap set_ticks].
    rewrite lookup_insert_ne by congruence. apply lookup_delete_eq.
  - intros x n Hx Hxc. subst s'. cbn [heap set_heap set_ticks].
    destruct (decide (x = p)) as [-> | Hxp].
    + rewrite lookup_insert_eq. eexists. split; [reflexivity |].
      rewrite Hp in Hx. inversion Hx; subst n. repeat split.
    + rewrite lookup_insert_ne by congruence.
      rewrite lookup_delete_ne by congruence.
      rewrite lookup_insert_ne by congruence. eauto.
Qed.

Lemma find_by_name_only h nm y : forall cs,
  (forall x, x ∈ cs ->
     exists xn, h !! x = Some xn /\
                (strncmp_eq (name xn) nm NAME_MAX = true -> x = y)) ->
  y ∈ cs ->
  (exists yn, h !! y = Some yn /\ strncmp_eq (name yn) nm NAME_MAX = true) ->
  find_by_name h cs nm = Some (Some y).
Proof.
  induction cs as [|x cs IH]; intros Hcs Hy Hyn;
    [apply elem_of_nil in Hy; contradiction |].
  cbn [find_by_name].
  destruct (Hcs x) as (xn & Hx & Honly);
    [apply elem_of_cons; left; reflexivity |].
  rewrite Hx. cbn [mbind option_bind].
  destruct (strncmp_eq (name xn) nm NAME_MAX) eqn:E.
  - rewrite (Honly eq_refl). reflexivity.
  - apply IH; [| | exact Hyn].
    + intros z Hz. apply Hcs. apply elem_of_cons. right. exact Hz.
    + apply elem_of_cons in Hy as [-> | Hy]; [| exact Hy].
      destruct Hyn as (yn & Hyn & Em). congruence.
Qed.

Lemma find_by_name_none h nm : forall cs,
  (forall x, x ∈ cs ->
     exists xn, h !! x = Some xn /\ strncmp_eq (name xn) nm NAME_MAX = false) ->
  find_by_name h cs nm = Some NULL.
Proof.
  induction cs as [|x cs IH]; intros Hcs; [reflexivity |].
  cbn [find_by_name].
  destruct (Hcs x) as (xn & Hx & Hno); [apply elem_of_cons; left; reflexivity |].
  rewrite Hx. cbn [mbind option_bind]. rewrite Hno.
  apply IH. intros z Hz. apply Hcs. apply elem_of_cons. right. exact Hz.
Qed.

(** Two names that agree with the same name on [NAME_MAX] bytes are
    the same, for the names of nodes. *)
Lemma same_prefix_same_name h x y xn yn nm :
  linked h -> h !! x = Some xn -> h !! y = Some yn ->
  strncmp_eq (name xn) nm NAME_MAX = true ->
  strncmp_eq (name yn) nm NAME_MAX = true ->
  name xn = name yn.
Proof.
  intros Hl Hx Hy Ex Ey. unfold strncmp_eq in *.
  apply String.eqb_eq in Ex, Ey.
  destruct (Hl x xn Hx) as (_ & _ & _ & Hlx & _).
  destruct (Hl y yn Hy) as (_ & _ & _ & Hly & _).
  rewrite (str_take_all _ _ Hlx) in Ex. rewrite (str_take_all _ _ Hly) in Ey.
  congruence.
Qed.

(** In a tidy tree [dir_find] returns the one entry of that name, if
    there is one. *)
Lemma dir_find_the_entry s d dn y yn nm :
  tidy s -> heap s !! d = Some dn -> type dn = N_DIR ->
  y ∈ children dn -> heap s !! y = Some yn ->
  strncmp_eq (name yn) nm NAME_MAX = true ->
  dir_find (heap s) (Some d) nm = Some (Some y).
Proof.
  intros ([Hl _] & Hu & _) Hd Hty Hy Hyn Hm. cbn [dir_find]. rewrite Hd.
  cbn [mbind option_bind]. apply is_dir_type in Hty. rewrite Hty. cbn [negb].
  apply find_by_name_only; [| exact Hy | eauto].
  intros x Hx.
  destruct (listed_live (heap s) d x Hl) as (xn & Hxn & _); [exists dn; auto |].
  exists xn. split; [exact Hxn |]. intros Hxm.
  apply (Hu d x y xn yn); try assumption; try (exists dn; auto).
  eapply same_prefix_same_name; eauto.
Qed.

(** After the removal of the entry [c], a lookup in a live node finds
    what it found before, or nothing if that was [c]. *)
Lemma dir_find_after_unlink s s' c d nm r :
  tidy s -> tree_ok s' ->
  (forall d y, lists (heap s') d y <-> lists (heap s) d y /\ y <> c) ->
  (forall x n, heap s !! x = Some n -> x <> c ->
     exists n', heap s' !! x = Some n' /\ type n' = type n /\
                name n' = name n /\ parent n' = parent n) ->
  d <> c ->
  dir_find (heap s) (Some d) nm = Some r ->
  dir_find (heap s') (Some d) nm =
    Some (match r with
          | Some y => if decide (y = c) then NULL else Some y
          | None => NULL
          end).
Proof.
  intros Ht Hok' Hlists Hfwd Hdc Hf. pose proof Ht as ([Hl _] & Hu & _).
  cbn [dir_find] in *.
  destruct (heap s !! d) as [dn|] eqn:Hd; [| discriminate].
  cbn [mbind option_bind] in Hf.
  destruct (Hfwd _ _ Hd Hdc) as (dn' & Hd' & Hty & _).
  rewrite Hd'. cbn [mbind option_bind]. unfold is_dir in *. rewrite Hty.
  destruct (negb (node_type_eqb (type dn) N_DIR)) eqn:Edir;
    [inversion Hf; reflexivity |].
  assert (Hkids : forall x, x ∈ children dn' ->
            x ∈ children dn /\ x <> c /\
            exists xn xn', heap s !! x = Some xn /\ heap s' !! x = Some xn' /\
                           name xn' = name xn).
  { intros x Hx. assert (lists (heap s') d x) as Hlx by (exists dn'; auto).
    apply Hlists in Hlx as [(dn0 & Hdn0 & Hin) Hxc].
    rewrite Hd in Hdn0. inversion Hdn0; subst dn0.
    split; [exact Hin |]. split; [exact Hxc |].
    destruct (listed_live (heap s) d x Hl) as (xn & Hxn & _);
      [exists dn; auto |].
    destruct (Hfwd _ _ Hxn Hxc) as (xn' & Hxn' & _ & Hnm & _). eauto. }
  destruct r as [y|].
  - apply find_by_name_Some in Hf as (Hy & yn & Hyn & Hm).
    destruct (decide (y = c)) as [-> | Hyc].
    + apply find_by_name_none. intros x Hx.
      destruct (Hkids x Hx) as (Hin & Hxc & xn & xn' & Hxn & Hxn' & Hnm).
      exists xn'. split; [exact Hxn' |]. rewrite Hnm.
      destruct (strncmp_eq (name xn) nm NAME_MAX) eqn:E; [| reflexivity].
      exfalso. apply Hxc.
      apply (Hu d x c xn yn); try assumption; try (exists dn; auto).
      eapply same_prefix_same_name; eauto.
    + destruct (Hfwd _ _ Hyn Hyc) as (yn' & Hyn' & _ & Hnm' & _).
      apply find_by_name_only.
      * intros x Hx.
        destruct (Hkids x Hx) as (Hin & Hxc & xn & xn' & Hxn & Hxn' & Hnm).
        exists xn'. split; [exact Hxn' |]. rewrite Hnm. intros E.
        apply (Hu d x y xn yn); try assumption; try (exists dn; auto).
        eapply same_prefix_same_name; eauto.
      * assert (lists (heap s') d y) as (dn0 & Hdn0 & Hin).
        { apply Hlists. split; [exists dn; auto | exact Hyc]. }
        rewrite Hd' in Hdn0. inversion Hdn0; subst. exact Hin.
      * exists yn'. split; [exact Hyn' |]. rewrite Hnm'. exact Hm.
  - apply find_by_name_none. intros x Hx.
    destruct (Hkids x Hx) as (Hin & Hxc & xn & xn' & Hxn & Hxn' & Hnm).
    exists xn'. split; [exact Hxn' |]. rewrite Hnm.
    destruct (find_by_name_NULL _ _ _ Hf x Hin) as (xn0 & Hxn0 & Hno).
    congruence.
Qed.

(** After the removal of [c], which had no entries, a walk from an
    attached node other than [c] ends as before, on a node other than
    [c], or returns the null pointer. *)
Lemma walk_after_unlink s s' c wp :
  tidy s -> tree_ok s' ->
  (forall d y, lists (heap s') d y <-> lists (heap s) d y /\ y <> c) ->
  (forall x n, heap s !! x = Some n -> x <> c ->
     exists n', heap s' !! x = Some n' /\ type n' = type n /\
                name n' = name n /\ parent n' = parent n) ->
  (forall y, ~ lists (heap s) c y) ->
  forall toks cur r w,
    attached s cur -> cur <> c ->
    walk_loop (heap s) wp (Some cur) toks = Some (r, w) ->
    (walk_loop (heap s') wp (Some cur) toks = Some (r, w) /\ r <> Some c) \/
    walk_loop (heap s') wp (Some cur) toks = Some (NULL, None).
Proof.
  intros Ht Hok' Hlists Hfwd Hleaf. pose proof Ht as (Hok & Hu & Hj & _).
  induction toks as [|tok rest IH]; intros cur r w Hcur Hcc Hw.
  { cbn in *. inversion Hw; subst. left. split; [reflexivity | congruence]. }
  destruct (attached_live _ _ Hok Hcur) as [cn Hcn].
  destruct (Hfwd _ _ Hcn Hcc) as (cn' & Hcn' & _ & _ & Hpar).
  assert (Hup : forall p, parent cn = Some p -> attached s p /\ p <> c).
  { intros p Hp. destruct (attached_parent _ _ _ _ Hok Hj Hcur Hcn Hp)
      as [Hlp Hat].
    split; [exact Hat |]. intros ->. eapply Hleaf; eauto. }
  assert (Hstep : forall r0, dir_find (heap s) (Some cur) tok = Some r0 ->
            dir_find (heap s') (Some cur) tok =
              Some (match r0 with
                    | Some y => if decide (y = c) then NULL else Some y
                    | None => NULL
                    end))
    by (intros r0; apply dir_find_after_unlink; assumption).
  destruct rest as [|next rest].
  - cbn [walk_loop] in *.
    destruct ((strlen tok =? 0)%nat || (NAME_MAX <? strlen tok)%nat);
      [right; reflexivity |].
    destruct (strcmp_eq tok dot); [apply (IH cur r w Hcur Hcc Hw) |].
    destruct (strcmp_eq tok dotdot).
    { cbn [mbind option_bind] in *. rewrite Hcn in Hw. rewrite Hcn'.
      cbn [mbind option_bind] in *. rewrite Hpar.
      destruct (parent cn) as [p|] eqn:Ep.
      - destruct (Hup p eq_refl) as [Hat Hpc]. apply (IH p r w Hat Hpc Hw).
      - apply (IH cur r w Hcur Hcc Hw). }
    destruct wp.
    + inversion Hw; subst. left. split; [reflexivity | congruence].
    + destruct (dir_find (heap s) (Some cur) tok) as [r0|] eqn:Ef;
        [| discriminate].
      cbn [mbind option_bind] in Hw. inversion Hw; subst r0 w.
      rewrite (Hstep r eq_refl). cbn [mbind option_bind].
      destruct r as [y|]; [| left; split; [reflexivity | discriminate]].
      destruct (decide (y = c)); [right; reflexivity |].
      left. split; [reflexivity | congruence].
  - rewrite (walk_loop_cons _ _ _ _ (next :: rest)) in Hw by discriminate.
    rewrite (walk_loop_cons _ _ _ _ (next :: rest)) by discriminate.
    destruct ((strlen tok =? 0)%nat || (NAME_MAX <? strlen tok)%nat);
      [right; reflexivity |].
    destruct (strcmp_eq tok dot); [apply (IH cur r w Hcur Hcc Hw) |].
    destruct (strcmp_eq tok dotdot).
    { cbn [mbind option_bind] in *. rewrite Hcn in Hw. rewrite Hcn'.
      cbn [mbind option_bind] in *. rewrite Hpar.
      destruct (parent cn) as [p|] eqn:Ep.
      - destruct (Hup p eq_refl) as [Hat Hpc]. apply (IH p r w Hat Hpc Hw).
      - apply (IH cur r w Hcur Hcc Hw). }
    destruct (dir_find (heap s) (Some cur) tok) as [r0|] eqn:Ef;
      [| discriminate].
    cbn [mbind option_bind] in Hw.
    rewrite (Hstep r0 eq_refl). cbn [mbind option_bind].
    destruct r0 as [y|]; [| right; reflexivity].
    destruct (decide (y = c)) as [-> | Hyc]; [right; reflexivity |].
    destruct (heap s !! y) as [yn|] eqn:Hyn; [| discriminate].
    cbn [mbind option_bind] in Hw.
    destruct (Hfwd _ _ Hyn Hyc) as (yn' & Hyn' & Hty & _).
    rewrite Hyn'. cbn [mbind option_bind]. unfold is_dir in *. rewrite Hty.
    destruct (negb (node_type_eqb (type yn) N_DIR)); [right; reflexivity |].
    apply (IH y r w); [| exact Hyc | exact Hw].
    destruct (dir_find_defined s cur tok Hok Hcur) as (r1 & Hr1 & Hin).
    rewrite Ef in Hr1. inversion Hr1; subst r1.
    right. exists cur. apply Hin. reflexivity.
Qed.

(** Where a walk starts in a tidy state: on the root or on the current
    directory, which are attached directories. *)
Lemma start_node_tidy s path cur :
  tidy s -> start_node s (cwd s) path = Some cur ->
  attached s cur /\ live_dir s cur /\
  (root s = Some cur \/ cwd s = Some cur).
Proof.
  intros ([_ Hr] & _ & _ & Hcw) Hstart.
  assert (Hroot : root s = Some cur ->
            attached s cur /\ live_dir s cur /\
            (root s = Some cur \/ cwd s = Some cur)).
  { intros E. split; [left; exact E |]. split; [| left; exact E].
    destruct (Hr _ E) as (rn & Hrn & Hty & _). exists rn. auto. }
  unfold start_node in Hstart.
  destruct (is_absolute path); [apply Hroot; exact Hstart |].
  destruct (cwd s) as [x|] eqn:Ex; [| apply Hroot; exact Hstart].
  inversion Hstart; subst x. destruct (Hcw _ Ex) as [Hat Hdir]. auto.
Qed.

(** The walk over a path after the entry [c] was removed. *)
Lemma walk_from_after_unlink s s' c path r w :
  tidy s -> tree_ok s' -> root s' = root s -> cwd s' = cwd s ->
  (forall d y, lists (heap s') d y <-> lists (heap s) d y /\ y <> c) ->
  (forall x n, heap s !! x = Some n -> x <> c ->
     exists n', heap s' !! x = Some n' /\ type n' = type n /\
                name n' = name n /\ parent n' = parent n) ->
  (forall y, ~ lists (heap s) c y) ->
  root s <> Some c -> cwd s <> Some c ->
  walk_from s (cwd s) path false = Some (Some r, w) ->
  (walk_from s' (cwd s') path false = Some (Some r, w) /\ r <> c) \/
  walk_from s' (cwd s') path false = Some (NULL, None).
Proof.
  intros Ht Hok' Hroot Hcwd Hlists Hfwd Hleaf Hrc Hcc Hw.
  unfold walk_from in *.
  assert (Hs : start_node s' (cwd s') path = start_node s (cwd s) path)
    by (unfold start_node; rewrite Hroot, Hcwd; reflexivity).
  rewrite Hs.
  destruct (start_node s (cwd s) path) as [cur|] eqn:Estart.
  2:{ exfalso. eapply walk_loop_from_null; eauto. }
  destruct (start_node_tidy _ _ _ Ht Estart) as (Hat & _ & Hwhich).
  assert (Hne : cur <> c) by (intros ->; destruct Hwhich; congruence).
  destruct (walk_after_unlink s s' c false Ht Hok' Hlists Hfwd Hleaf
              _ _ _ _ Hat Hne Hw) as [[E Hr] | E]; [left | right; exact E].
  split; [exact E | congruence].
Qed.

(** X22. What was removed is gone. In a tidy state, when [rm_file]
    returns 0 on a path that ends in a name, the path resolved to a
    file, that node is released, and the path then resolves to the
    null pointer. When [rmdir_empty] returns 0, the path resolved to
    an empty directory, and that node is released; the current
    directory is left where it was, so that it points at the released
    node if that was the directory removed, and otherwise the path
    then resolves to the null pointer. *)
Theorem removed_then_gone s path s' :
  tidy s ->
  (rm_file path s = Ret 0 s' ->
   (exists p leaf, walk_from s (cwd s) path true = Some (p, Some leaf)) ->
   exists c cn,
     walk_from s (cwd s) path false = Some (Some c, None) /\
     heap s !! c = Some cn /\ type cn = N_FILE /\
     heap s' !! c = None /\
     walk_from s' (cwd s') path false = Some (NULL, None)) /\
  (rmdir_empty path s = Ret 0 s' ->
   exists a dn,
     walk_from s (cwd s) path false = Some (Some a, None) /\
     heap s !! a = Some dn /\ type dn = N_DIR /\ children dn = [] /\
     heap s' !! a = None /\ cwd s' = cwd s /\
     (cwd s <> Some a ->
      walk_from s' (cwd s') path false = Some (NULL, None))).
Proof.
  intros Ht. pose proof Ht as (Hok & Hu & Hj & Hcw). pose proof Hok as [Hl Hr].
  split.
  - intros H (p0 & leaf & Hleafy).
    assert (Hok' : tree_ok s')
      by (apply (exec_keeps_tree (Rm_file path) _ _ _ H Hok)).
    destruct (rm_file_success _ _ _ H Hok)
      as (p & w & pn & i & c & cn & Hw & Hp & Hi & Hc & Hty & Hname & Hcp
          & Hs').
    rewrite Hw in Hleafy. inversion Hleafy; subst p0 w. cbn [leaf_of] in Hname.
    assert (Hin : c ∈ children pn) by (eapply list_elem_of_lookup_2; eauto).
    assert (Hempty : children cn = []).
    { destruct (Hl c cn Hc) as (Hdir & _).
      destruct (children cn) as [|y ys] eqn:E; [reflexivity |].
      assert (type cn = N_DIR) by (apply Hdir; discriminate). congruence. }
    assert (Hpdir : type pn = N_DIR).
    { destruct (lister_is_dir (heap s) p c Hl) as (pn' & Hpn' & Hd);
        [exists pn; auto |]. congruence. }
    pose proof (dir_find_the_entry _ _ _ _ _ _ Ht Hp Hpdir Hin Hc Hname) as Hf.
    pose proof (walk_from_leaf_found _ _ _ _ _ _ Hw Hf) as Hres.
    destruct (unlink_view _ _ _ _ _ _ _ Hok Hp Hi Hc Hcp Hempty Hs')
      as (Hlists & Hgone & Hfwd & Hroot & Hcwd).
    exists c, cn. repeat (split; [assumption |]).
    destruct (walk_from_after_unlink s s' c path c None Ht Hok' Hroot Hcwd
                Hlists Hfwd) as [[_ E] | E]; try assumption.
    + intros y (n & Hn & Hy). rewrite Hc in Hn. inversion Hn; subst n.
      rewrite Hempty in Hy. apply elem_of_nil in Hy. exact Hy.
    + intros E. destruct (Hr _ E) as (rn & Hrn & Hrty & _). congruence.
    + intros E. destruct (Hcw _ E) as [_ (n & Hn & Hnty)]. congruence.
    + exfalso. apply E. reflexivity.
  - intros H.
    assert (Hok' : tree_ok s')
      by (apply (exec_keeps_tree (Rmdir_empty path) _ _ _ H Hok)).
    destruct (rmdir_empty_success _ _ _ H)
      as (a & p & pn & i & dn & Hw & Hp & Hi & Ha & Hty & Hempty & Hroot0
          & Hap & Hs').
    destruct (unlink_view _ _ _ _ _ _ _ Hok Hp Hi Ha Hap Hempty Hs')
      as (Hlists & Hgone & Hfwd & Hroot & Hcwd).
    exists a, dn. repeat (split; [assumption |]).
    intros Hne.
    destruct (walk_from_after_unlink s s' a path a None Ht Hok' Hroot Hcwd
                Hlists Hfwd) as [[_ E] | E]; try assumption.
    + intros y (n & Hn & Hy). rewrite Ha in Hn. inversion Hn; subst n.
      rewrite Hempty in Hy. apply elem_of_nil in Hy. exact Hy.
    + exfalso. apply E. reflexivity.
Qed.

Lemma removed_then_gone_witness :
  exists c cn,
    walk_from with_file (cwd with_file) "/a/b/c/f.txt" false
      = Some (Some c, None) /\
    heap with_file !! c = Some cn /\ type cn = N_FILE /\
    heap (state_after (rm_file "/a/b/c/f.txt") with_file) !! c = None /\
    walk_from (state_after (rm_file "/a/b/c/f.txt") with_file)
              (cwd (state_after (rm_file "/a/b/c/f.txt") with_file))
              "/a/b/c/f.txt" false = Some (NULL, None).
Proof.
  destruct (removed_then_gone with_file "/a/b/c/f.txt"
              (state_after (rm_file "/a/b/c/f.txt") with_file)
              tidy_with_file) as [H _].
  apply H.
  - vm_compute. reflexivity.
  - eexists _, _. vm_compute. reflexivity.
Defined.

(** *** Renaming, then resolving *)

(** X23. What [rename_file] does when it returns 0 in a tidy state:
    the node [a] that the old path resolved to is still live, with the
    type and the content that it had, and its name is now the leaf of
    the new path; it is an entry of the directory [np] that the new
    path named as parent and of no other node, every other entry of
    every node is an entry as before, and every other node has the
    type and the name that it had; and [dir_find] on [np] with the new
    leaf returns [a]. *)
Theorem rename_file_moves_entry o n s s' :
  tidy s -> rename_file o n s = Ret 0 s' ->
  exists a nd np written n',
    walk_from s (cwd s) o false = Some (Some a, None) /\
    heap s !! a = Some nd /\
    walk_from s (cwd s) n true = Some (Some np, written) /\
    heap s' !! a = Some n' /\
    name n' = str_take NAME_MAX (leaf_of written) /\
    type n' = type nd /\ data n' = data nd /\ size n' = size nd /\
    (forall d y, lists (heap s') d y <->
       (lists (heap s) d y /\ y <> a) \/ (d = np /\ y = a)) /\
    (forall x n0, x <> a -> heap s !! x = Some n0 ->
       exists n1, heap s' !! x = Some n1 /\
                  type n1 = type n0 /\ name n1 = name n0) /\
    dir_find (heap s') (Some np) (leaf_of written) = Some (Some a).
Proof.
  intros Ht H.
  pose proof (tidy_rename_file _ _ _ _ _ H Ht) as Ht'.
  destruct (rename_file_view _ _ _ _ _ H Ht)
    as [[E _] | (a & nd & np & npn & w & written & q & n' & Hw & Ha & _ & Hw2
                 & Hnp & Hnpdir & Hf & Hq & Hlists & Hkept & Ha' & Hty
                 & Hcase)]; [discriminate E |].
  destruct Hcase as [(_ & -> & Hname) | (E & _)]; [| discriminate E].
  pose proof (walk_loop_no_leaf _ _ _ _ _ Hw) as ->.
  assert (Hbuf : buffer_eq nd n').
  { destruct buffer_eq_fields
      as (Htr & Hacc & Hmod & Hattr & Hch & Hpar & Hnm).
    eapply extends_buf_keeps; eauto.
    eapply (fp_rename_file buffer_eq extends_buf); eauto. }
  destruct Hbuf as [Hdata Hsize].
  exists a, nd, np, written, n'.
  repeat (split; [assumption |]).
  split.
  { intros x n0 Hxa Hx. specialize (Hkept x Hxa). rewrite Hx in Hkept.
    destruct (heap s' !! x) as [n1|]; [| contradiction]. eauto. }
  assert (Hin : lists (heap s') np a) by (apply Hlists; right; auto).
  destruct Hin as (npn' & Hnp' & Hina).
  apply (dir_find_the_entry s' np npn' a n'); try assumption.
  - destruct Ht' as ([Hl' _] & _).
    destruct (lister_is_dir (heap s') np a Hl') as (m & Hm & Hd);
      [exists npn'; auto |]. congruence.
  - rewrite Hname. unfold strncmp_eq. rewrite str_take_idem.
    apply String.eqb_refl.
Qed.

Lemma rename_file_moves_entry_witness :
  exists a nd np written n',
    walk_from with_file (cwd with_file) "/a/b/c/f.txt" false
      = Some (Some a, None) /\
    heap with_file !! a = Some nd /\
    walk_from with_file (cwd with_file) "/a/g.txt" true
      = Some (Some np, written) /\
    heap (state_after (rename_file "/a/b/c/f.txt" "/a/g.txt") with_file) !! a
      = Some n' /\
    name n' = str_take NAME_MAX (leaf_of written) /\
    type n' = type nd /\ data n' = data nd /\ size n' = size nd /\
    (forall d y,
       lists (heap (state_after (rename_file "/a/b/c/f.txt" "/a/g.txt")
                      with_file)) d y <->
       (lists (heap with_file) d y /\ y <> a) \/ (d = np /\ y = a)) /\
    (forall x n0, x <> a -> heap with_file !! x = Some n0 ->
       exists n1,
         heap (state_after (rename_file "/a/b/c/f.txt" "/a/g.txt") with_file)
           !! x = Some n1 /\
         type n1 = type n0 /\ name n1 = name n0) /\
    dir_find (heap (state_after (rename_file "/a/b/c/f.txt" "/a/g.txt")
                      with_file))
             (Some np) (leaf_of written) = Some (Some a).
Proof.
  apply (rename_file_moves_entry "/a/b/c/f.txt" "/a/g.txt" with_file).
  - apply tidy_with_file.
  - vm_compute. reflexivity.
Defined.

(** ** Handles that are not open *)

Lemma table_len_exec c s r s' :
  exec c s = Ret r s' -> length (fd_table s') = length (fd_table s).
Proof.
  intros H.
  assert (Hp : pres (field_kept (fun st => length (fd_table st))) (exec c)).
  { destruct c; cbn [exec];
      lazymatch goal with
      | |- pres _ (bind _ _) => apply fld_bind; [| intros ?; apply fld_ret]
      | _ => idtac
      end;
      first [ apply fld_fs_init | apply fld_fs_destroy | apply fld_fs_cd
            | apply fld_mkdir_p | apply fld_rmdir_empty | apply fld_ls_dir
            | apply fld_fs_search | apply fld_create_file
            | apply fld_write_file | apply fld_read_file | apply fld_rm_file
            | apply fld_rename_file | apply fld_fs_open | apply fld_fs_close
            | apply fld_fs_read_fd | apply fld_fs_write_fd | apply fld_fs_seek
            | apply fld_get_file_info | apply fld_set_file_attributes
            | apply fld_touch_file ];
      first [ reflexivity
            | intros i d st; cbn [fd_table set_fd_table]; apply length_insert ]. }
  exact (Hp _ _ _ H).
Qed.

Lemma reachable_table_ok s : reachable s -> table_ok s.
Proof.
  apply (reachable_invariant table_ok).
  - intros alloc clk. unfold table_ok. cbn [fd_table boot].
    apply length_replicate.
  - intros c s0 r s' H Hs. unfold table_ok in *.
    rewrite (table_len_exec _ _ _ _ H). exact Hs.
Qed.

Lemma fd_lookup_bad s fd :
  table_ok s -> (forall f, ~ open_on s fd f) -> fd_lookup fd s = Ret None s.
Proof.
  intros Hlen Hbad. unfold fd_lookup.
  destruct ((fd <? 0) || (Z.of_nat MAX_OPEN_FILES <=? fd)) eqn:E;
    [reflexivity |].
  apply orb_false_iff in E as [E1 E2].
  apply Z.ltb_ge in E1. apply Z.leb_gt in E2.
  destruct (lookup_lt_is_Some_2 (fd_table s) (Z.to_nat fd)) as [f Hf].
  { rewrite Hlen. lia. }
  unfold bind, lift, ret. rewrite Hf.
  destruct (in_use f) eqn:Eu; [| reflexivity].
  exfalso. apply (Hbad f). repeat split; auto; lia.
Qed.

(** X24. A handle that is not open is turned away. The descriptor
    table keeps its [MAX_OPEN_FILES] slots in every state that calls
    of the interface reach after [fs_init]; and on such a table, for
    every integer [fd] that is negative, or at least [MAX_OPEN_FILES],
    or the index of a slot that is not in use, [fs_close],
    [fs_read_fd], [fs_write_fd] and [fs_seek] return -1 and leave the
    state as it was, whatever their other arguments. *)
Theorem bad_descriptor_is_rejected :
  (forall s, reachable s -> table_ok s) /\
  (forall s fd len buf off whence,
     table_ok s -> (forall f, ~ open_on s fd f) ->
     fs_close fd s = Ret (-1) s /\
     fs_read_fd fd len s = Ret (-1, []) s /\
     fs_write_fd fd buf s = Ret (-1) s /\
     fs_seek fd off whence s = Ret (-1) s).
Proof.
  split; [exact reachable_table_ok |].
  intros s fd len buf off whence Hlen Hbad.
  pose proof (fd_lookup_bad s fd Hlen Hbad) as Hl.
  unfold fs_close, fs_read_fd, fs_write_fd, fs_seek.
  rewrite !(bind_run _ _ _ _ _ Hl). repeat split; reflexivity.
Qed.

Lemma bad_descriptor_is_rejected_witness :
  fs_close 40 with_data = Ret (-1) with_data /\
  fs_read_fd 40 8 with_data = Ret (-1, []) with_data /\
  fs_write_fd 40 hello with_data = Ret (-1) with_data /\
  fs_seek 40 0 0 with_data = Ret (-1) with_data.
Proof.
  destruct bad_descriptor_is_rejected as [Hreach Hbad].
  apply Hbad.
  - apply Hreach. apply reachable_with_data.
  - intros f (Hfd & _). vm_compute in Hfd. destruct Hfd as [_ Hfd].
    discriminate Hfd.
Defined.

(** ** What removal leaves behind *)

Lemma walk_from_dot s a :
  cwd s = Some a -> walk_from s (cwd s) "." false = Some (Some a, None).
Proof.
  intros Hc. unfold walk_from, start_node. rewrite Hc.
  change (is_absolute ".") with false.
  change (tokens (path_buffer ".")) with [dot]. reflexivity.
Qed.

(** X25. Removal does not look for pointers to the node it releases.
    When [rm_file] returns 0, a descriptor that was open on the file
    is still in use and still names the released node: [fs_seek]
    through it then reads released memory, which has no defined
    result, while [fs_close] on it still returns 0 and frees the slot.
    When [rmdir_empty] returns 0 on the current directory, [cwd] still
    points at the released node, and [fs_cd] on [.] and [ls_dir] on
    the empty path have no defined result. *)
Theorem removal_leaves_stale_pointers :
  (forall s path s',
     tree_ok s -> rm_file path s = Ret 0 s' ->
     exists c cn,
       heap s !! c = Some cn /\ type cn = N_FILE /\ heap s' !! c = None /\
       forall fd f,
         open_on s fd f -> node f = Some c ->
         open_on s' fd f /\
         (forall off whence, fs_seek fd off whence s' = Undefined) /\
         fs_close fd s' = Ret 0 (released fd s')) /\
  (forall s path s' a,
     rmdir_empty path s = Ret 0 s' ->
     walk_from s (cwd s) path false = Some (Some a, None) ->
     cwd s = Some a ->
     cwd s' = Some a /\ heap s' !! a = None /\
     fs_cd "." s' = Undefined /\ ls_dir "" s' = Undefined).
Proof.
  split.
  - intros s path s' Hok H.
    destruct (rm_file_success _ _ _ H Hok)
      as (p & w & pn & i & c & cn & _ & _ & _ & Hc & Hty & _ & Hcp & Hs').
    assert (Hgone : heap s' !! c = None).
    { subst s'. cbn [heap set_heap set_ticks].
      rewrite lookup_insert_ne by congruence. apply lookup_delete_eq. }
    assert (Htab : fd_table s' = fd_table s) by (subst s'; reflexivity).
    exists c, cn. repeat (split; [assumption |]).
    intros fd f Hopen Hnode.
    assert (Hopen' : open_on s' fd f).
    { destruct Hopen as (Hfd & Hf & Hu). repeat split; auto; try apply Hfd.
      rewrite Htab. exact Hf. }
    split; [exact Hopen' |]. split.
    + intros off whence. unfold fs_seek.
      rewrite (bind_run _ _ _ _ _ (fd_lookup_open _ _ _ Hopen')).
      rewrite Hnode. unfold bind, deref, lift. cbn [mbind option_bind].
      rewrite Hgone. reflexivity.
    + unfold fs_close.
      rewrite (bind_run _ _ _ _ _ (fd_lookup_open _ _ _ Hopen')).
      reflexivity.
  - intros s path s' a H Hw Hcwd.
    destruct (rmdir_empty_success _ _ _ H)
      as (a' & p & pn & i & dn & Hw' & _ & _ & _ & _ & _ & _ & Hap & Hs').
    rewrite Hw in Hw'. inversion Hw'; subst a'.
    assert (Hgone : heap s' !! a = None).
    { subst s'. cbn [heap set_heap set_ticks].
      rewrite lookup_insert_ne by congruence. apply lookup_delete_eq. }
    assert (Hcwd' : cwd s' = Some a) by (subst s'; exact Hcwd).
    split; [exact Hcwd' |]. split; [exact Hgone |]. split.
    + unfold fs_cd.
      rewrite (bind_run _ _ _ _ _ (walk_run _ _ _ _ (walk_from_dot _ _ Hcwd'))).
      unfold bind, deref, lift. cbn [mbind option_bind].
      rewrite Hgone. reflexivity.
    + unfold ls_dir. unfold bind at 1. unfold get.
      change ((strlen "" =? 0)%nat || strcmp_eq "" dot) with true.
      cbv iota. unfold bind at 1. unfold ret at 1. rewrite Hcwd'.
      unfold bind, deref, lift. cbn [mbind option_bind].
      rewrite Hgone. reflexivity.
Qed.

Lemma removal_leaves_stale_pointers_witness :
  (exists c cn,
     heap with_read_fd !! c = Some cn /\ type cn = N_FILE /\
     heap (state_after (rm_file "/a/b/c/f.txt") with_read_fd) !! c = None /\
     forall fd f,
       open_on with_read_fd fd f -> node f = Some c ->
       open_on (state_after (rm_file "/a/b/c/f.txt") with_read_fd) fd f /\
       (forall off whence,
          fs_seek fd off whence
                  (state_after (rm_file "/a/b/c/f.txt") with_read_fd)
          = Undefined) /\
       fs_close fd (state_after (rm_file "/a/b/c/f.txt") with_read_fd)
         = Ret 0 (released fd
                    (state_after (rm_file "/a/b/c/f.txt") with_read_fd))) /\
  (exists a,
     cwd (state_after (fs_cd "/a/b/c") with_dirs) = Some a /\
     cwd (state_after (rmdir_empty ".")
            (state_after (fs_cd "/a/b/c") with_dirs)) = Some a /\
     heap (state_after (rmdir_empty ".")
             (state_after (fs_cd "/a/b/c") with_dirs)) !! a = None /\
     fs_cd "." (state_after (rmdir_empty ".")
                  (state_after (fs_cd "/a/b/c") with_dirs)) = Undefined /\
     ls_dir "" (state_after (rmdir_empty ".")
                  (state_after (fs_cd "/a/b/c") with_dirs)) = Undefined).
Proof.
  destruct removal_leaves_stale_pointers as [H1 H2]. split.
  - apply (H1 with_read_fd "/a/b/c/f.txt").
    + apply (exec_keeps_tree (Fs_open "/a/b/c/f.txt" O_RDONLY) with_data 0);
        [vm_compute; reflexivity
        | apply reachable_tree_ok, reachable_with_data].
    + vm_compute. reflexivity.
  - destruct (cwd (state_after (fs_cd "/a/b/c") with_dirs)) as [a |] eqn:E;
      [| vm_compute in E; discriminate E].
    exists a. split; [reflexivity |].
    apply (H2 (state_after (fs_cd "/a/b/c") with_dirs) ".").
    + vm_compute. reflexivity.
    + apply walk_from_dot. exact E.
    + exact E.
Defined.

(** ** Calls that return *)

Lemma returns_ret {A : Type} (v : A) s : returns (ret v) s.
Proof. exists v, s. reflexivity. Qed.

Lemma returns_bind {A B : Type} (m : M A) (k : A -> M B) s v s1 :
  m s = Ret v s1 -> returns (k v) s1 -> returns (bind m k) s.
Proof. intros Hm H. unfold returns. rewrite (bind_run _ _ _ _ _ Hm). exact H. Qed.

Lemma returns_fst {A B : Type} (m : M (A * B)) s :
  returns m s -> returns (bind m (fun r => ret (fst r))) s.
Proof.
  intros (v & s' & H). eapply returns_bind; [exact H | apply returns_ret].
Qed.

Lemma time_run s :
  time s = Ret (clock s (ticks s)) (set_ticks (S (ticks s)) s).
Proof. reflexivity. Qed.

Lemma lift_run {A : Type} (f : fs -> option A) s v :
  f s = Some v -> lift f s = Ret v s.
Proof. unfold lift. intros ->. reflexivity. Qed.

(** Liveness of a node in a state that updates in place and readings
    of the clock have led to. *)
Ltac live :=
  reduce_state; rewrite ?lookup_insert_is_Some'; eauto 10.

Ltac run_step :=
  cbv beta;
  lazymatch goal with
  | |- returns (ret _) _ => apply returns_ret
  | |- returns (bind (deref (Some ?a)) _) ?s =>
      let n := fresh "n" in
      let Hn := fresh "Hn" in
      assert (is_Some (heap s !! a)) as [n Hn] by live;
      apply (returns_bind _ _ _ _ _ (deref_live _ _ _ Hn))
  | |- returns (bind (modify ?a _) _) ?s =>
      let n := fresh "n" in
      let Hn := fresh "Hn" in
      assert (is_Some (heap s !! a)) as [n Hn] by live;
      apply (returns_bind _ _ _ _ _ (modify_live _ _ _ _ Hn))
  | |- returns (bind time _) _ =>
      apply (returns_bind _ _ _ _ _ (time_run _))
  | |- returns (bind get _) ?s =>
      apply (returns_bind get _ s s s eq_refl)
  | |- returns (bind (ret _) _) _ =>
      eapply returns_bind; [reflexivity |]
  | |- returns (bind (fun s => Ret tt _) _) _ =>
      eapply returns_bind; [reflexivity |]
  end.

(** In a tidy state with a root, a path resolves, and to an attached
    node when it resolves to one. *)
Lemma walk_total s path wp :
  tidy s -> root s <> NULL ->
  exists r w, walk path wp s = Ret (r, w) s /\
              forall a, r = Some a -> attached s a.
Proof.
  intros Ht Hroot.
  assert (Hstart : exists c, start_node s (cwd s) path = Some c).
  { unfold start_node. destruct (root s) as [r|] eqn:Er;
      [| exfalso; apply Hroot; first [exact Er | reflexivity]].
    destruct (is_absolute path); [eauto |]. destruct (cwd s); eauto. }
  destruct Hstart as (c & Hc).
  destruct (walk_from_attached s path wp c Ht Hc) as (r & w & Hw & Hat).
  exists r, w. split; [apply walk_run; exact Hw | exact Hat].
Qed.

Ltac run_walk Ht Hroot :=
  lazymatch goal with
  | |- returns (bind (walk ?p ?wp) _) ?s =>
      let r := fresh "r" in
      let w := fresh "w" in
      let Hw := fresh "Hw" in
      let Hat := fresh "Hat" in
      destruct (walk_total s p wp Ht Hroot) as (r & w & Hw & Hat);
      apply (returns_bind _ _ _ _ _ Hw); cbv beta iota;
      destruct r as [?a|]; [| try apply returns_ret]
  end.

Lemma fs_cd_returns s path :
  tidy s -> root s <> NULL -> returns (fs_cd path) s.
Proof.
  intros Ht Hroot. unfold fs_cd. run_walk Ht Hroot.
  pose proof (attached_live s a (proj1 Ht) (Hat a eq_refl)) as Hlive.
  run_step. destruct (negb (is_dir n)); [apply returns_ret |].
  repeat run_step.
Qed.

Lemma listing_returns s a :
  tree_ok s -> is_Some (heap s !! a) ->
  returns (dn <- deref (Some a) ;
           if negb (is_dir dn) then ret (-1)
           else
             now <- time ;
             modify a (set_accessed now) ;;
             lift (fun s' => mapM (fun c => heap s' !! c) (children dn)) ;;
             ret 0) s.
Proof.
  intros [Hl _] Hlive. run_step.
  destruct (negb (is_dir n)); [apply returns_ret |].
  do 2 run_step.
  match goal with |- returns (bind (lift ?f) _) ?s1 =>
    assert (Hall : is_Some (f s1)) end.
  { apply mapM_is_Some. apply Forall_forall. intros c Hc. unfold compose.
    destruct (listed_live (heap s) a c Hl) as (cn & Hcn & _);
      [exists n; auto |].
    live. }
  destruct Hall as [l Hall].
  eapply returns_bind; [apply lift_run; exact Hall | apply returns_ret].
Qed.

Lemma ls_dir_returns s path :
  tidy s -> root s <> NULL -> returns (ls_dir path) s.
Proof.
  intros Ht Hroot. pose proof Ht as (Hok & _ & _ & Hcwd).
  unfold ls_dir. run_step.
  destruct ((strlen path =? 0)%nat || strcmp_eq path dot).
  { eapply returns_bind; [reflexivity |]. cbv beta iota.
    destruct (cwd s) as [c|] eqn:Ec; [| apply returns_ret].
    apply listing_returns; [exact Hok |].
    apply attached_live; [exact Hok | apply (Hcwd c Ec)]. }
  destruct (strcmp_eq path (String slash EmptyString)).
  { eapply returns_bind; [reflexivity |]. cbv beta iota.
    destruct (root s) as [c|] eqn:Ec; [| apply returns_ret].
    apply listing_returns; [exact Hok |].
    apply attached_live; [exact Hok | left; exact Ec]. }
  run_walk Ht Hroot.
  apply listing_returns; [exact Hok |].
  apply attached_live; [exact Hok | apply Hat; reflexivity].
Qed.

Lemma get_file_info_returns s path :
  tidy s -> root s <> NULL -> returns (get_file_info path) s.
Proof.
  intros Ht Hroot. unfold get_file_info. run_walk Ht Hroot.
  pose proof (attached_live s a (proj1 Ht) (Hat a eq_refl)) as Hlive.
  repeat run_step.
Qed.

Lemma set_file_attributes_returns s path bits :
  tidy s -> root s <> NULL -> returns (set_file_attributes path bits) s.
Proof.
  intros Ht Hroot. unfold set_file_attributes. run_walk Ht Hroot.
  pose proof (attached_live s a (proj1 Ht) (Hat a eq_refl)) as Hlive.
  repeat run_step.
Qed.

Lemma touch_file_returns s path :
  tidy s -> root s <> NULL -> returns (touch_file path) s.
Proof.
  intros Ht Hroot. unfold touch_file. run_walk Ht Hroot.
  pose proof (attached_live s a (proj1 Ht) (Hat a eq_refl)) as Hlive.
  repeat run_step.
Qed.

Lemma fs_open_returns s path fl :
  tidy s -> root s <> NULL -> returns (fs_open path fl) s.
Proof.
  intros Ht Hroot. unfold fs_open. run_walk Ht Hroot.
  pose proof (attached_live s a (proj1 Ht) (Hat a eq_refl)) as Hlive.
  run_step. destruct (negb (is_file n)); [apply returns_ret |].
  destruct ((negb (Z.land fl O_WRONLY =? 0) || negb (Z.land fl O_RDWR =? 0))
            && is_readonly n); [apply returns_ret |].
  run_step.
  destruct (first_free (take MAX_OPEN_FILES (fd_table s)) 0);
    [| apply returns_ret].
  repeat run_step.
Qed.

Lemma read_file_returns s path off len :
  tidy s -> sound_buffers s -> root s <> NULL -> 0 <= off ->
  returns (read_file path off len) s.
Proof.
  intros Ht Hb Hroot Hoff. unfold read_file. run_walk Ht Hroot.
  pose proof (attached_live s a (proj1 Ht) (Hat a eq_refl)) as Hlive.
  run_step. destruct (negb (is_file n)); [apply returns_ret |].
  destruct (size n <=? off) eqn:Esz; [apply returns_ret |].
  apply Z.leb_gt in Esz.
  destruct (Hb a n Hn) as ((_ & Hcap) & _). unfold cap in Hcap.
  unfold memcpy_from.
  replace (0 <=? off) with true by (symmetry; apply Z.leb_le; exact Hoff).
  cbn [andb].
  match goal with |- context [?x <=? ?y] =>
    replace (x <=? y) with true
  end.
  2:{ symmetry. apply Z.leb_le.
      destruct (len <? size n - off) eqn:E;
        [apply Z.ltb_lt in E | apply Z.ltb_ge in E]; lia. }
  repeat run_step.
Qed.

Lemma dir_add_returns d c s :
  is_Some (heap s !! d) -> is_Some (heap s !! c) ->
  returns (dir_add (Some d) (Some c)) s.
Proof.
  intros Hd Hc. unfold dir_add. run_step.
  destruct (negb (is_dir n) || (MAX_CHILDREN <=? child_count n)%nat);
    [apply returns_ret |].
  run_step.
  destruct (match parent n0 with
            | Some p => negb (p =? d)%positive
            | None => false
            end); [apply returns_ret |].
  destruct (index_of c (children n)); [apply returns_ret |].
  repeat run_step.
Qed.

Lemma find_file_defined h leaf : forall cs i,
  (forall x, x ∈ cs -> is_Some (h !! x)) ->
  is_Some (find_file h cs leaf i).
Proof.
  induction cs as [|x cs IH]; intros i Hlive; cbn [find_file]; [eauto |].
  destruct (Hlive x) as [xn Hx]; [apply elem_of_cons; left; reflexivity |].
  rewrite Hx. cbn [mbind option_bind].
  destruct (strncmp_eq (name xn) leaf NAME_MAX && is_file xn); [eauto |].
  apply IH. intros y Hy. apply Hlive. apply elem_of_cons. right. exact Hy.
Qed.

(** Taking a leaf out of its directory and releasing it. *)
Lemma unlink_returns s p pn i c cn :
  heap s !! p = Some pn -> heap s !! c = Some cn -> c <> p ->
  (is_dir cn = false \/ children cn = []) ->
  returns (modify p (set_children (swap_remove i (children pn))) ;;
           node_free (Some c) ;;
           now <- time ;
           modify p (stamp_both now) ;;
           ret 0) s.
Proof.
  intros Hp Hc Hcp Hleaf.
  apply (returns_bind _ _ _ _ _ (modify_live _ _ _ _ Hp)).
  eapply returns_bind.
  { apply (node_free_leaf c cn); [| exact Hleaf].
    reduce_state. rewrite lookup_insert_ne by congruence. exact Hc. }
  run_step.
  eapply returns_bind; [| apply returns_ret].
  eapply modify_live. reduce_state.
  rewrite lookup_delete_ne by congruence. apply lookup_insert_eq.
Qed.

Lemma rm_file_returns s path :
  tidy s -> root s <> NULL -> returns (rm_file path) s.
Proof.
  intros Ht Hroot. pose proof Ht as ([Hl _] & _).
  unfold rm_file. run_walk Ht Hroot.
  pose proof (attached_live s a (proj1 Ht) (Hat a eq_refl)) as [pn Hp].
  apply (returns_bind _ _ _ _ _ (deref_live _ _ _ Hp)).
  destruct (is_readonly pn); [apply returns_ret |].
  destruct (find_file_defined (heap s) (leaf_of w) (children pn) O)
    as [hit Hf].
  { intros x Hx.
    destruct (listed_live (heap s) a x Hl) as (xn & Hxn & _); [| eauto].
    exists pn. auto. }
  eapply returns_bind; [apply lift_run; exact Hf |]. cbv beta.
  destruct hit as [[[i c] cn]|]; [| apply returns_ret].
  destruct (is_readonly cn); [apply returns_ret |].
  apply find_file_Some in Hf as (k & -> & Hk & Hc & Hfile).
  assert (Htype : type cn = N_FILE).
  { unfold is_file in Hfile. destruct (type cn); [discriminate | reflexivity]. }
  apply (unlink_returns s a pn _ c cn); [exact Hp | exact Hc | |].
  - intros ->. destruct (Hl a pn Hp) as (H1 & _).
    rewrite Hp in Hc. inversion Hc; subst cn.
    assert (children pn <> []) as Hne.
    { intros E. rewrite E in Hk. rewrite lookup_nil in Hk. discriminate. }
    apply H1 in Hne. congruence.
  - left. unfold is_dir. rewrite Htype. reflexivity.
Qed.

Lemma rmdir_empty_returns s path :
  tidy s -> root s <> NULL -> returns (rmdir_empty path) s.
Proof.
  intros Ht Hroot. pose proof Ht as ([Hl Hr] & _ & Hj & _).
  unfold rmdir_empty. run_walk Ht Hroot.
  pose proof (Hat a eq_refl) as Ha.
  pose proof (attached_live s a (proj1 Ht) Ha) as [dn Hdn].
  apply (returns_bind _ _ _ _ _ (deref_live _ _ _ Hdn)).
  run_step.
  destruct (negb (is_dir dn) || ptr_eqb (Some a) (root s)) eqn:Echeck;
    [apply returns_ret |].
  apply orb_false_iff in Echeck as [_ Enot].
  apply ptr_eqb_false in Enot.
  destruct (negb (child_count dn =? 0)%nat) eqn:Eempty;
    [apply returns_ret |].
  apply negb_false_iff in Eempty. apply Nat.eqb_eq in Eempty.
  assert (Hempty : children dn = []).
  { unfold child_count in Eempty. destruct (children dn); [reflexivity |].
    discriminate. }
  destruct Ha as [E | (p & Hlist)]; [exfalso; apply Enot; symmetry; exact E |].
  destruct (listed_live _ _ _ Hl Hlist) as (dn' & Hdn' & Hpar).
  rewrite Hdn in Hdn'. inversion Hdn'; subst dn'. rewrite Hpar.
  destruct Hlist as (pn & Hp & Hin).
  apply (returns_bind _ _ _ _ _ (deref_live _ _ _ Hp)).
  destruct (is_readonly pn); [apply returns_ret |].
  destruct (is_readonly dn); [apply returns_ret |].
  destruct (index_of a (children pn)) as [i|]; [| apply returns_ret].
  apply (unlink_returns s p pn i a dn); [exact Hp | exact Hdn | | right; exact Hempty].
  intros ->. rewrite Hp in Hdn. inversion Hdn; subst pn.
  rewrite Hempty in Hin. apply elem_of_nil in Hin. exact Hin.
Qed.

(** [dir_add] releases nothing, and the node it was given without a
    parent has afterwards no parent or the directory as parent. *)
Lemma dir_add_live dir child s r s' b :
  dir_add dir child s = Ret r s' ->
  is_Some (heap s !! b) -> is_Some (heap s' !! b).
Proof.
  intros H Hb.
  destruct (dir_add_cases _ _ _ _ _ H)
    as [-> | (d & c & dn & c1 & d2 & _ & _ & _ & _ & _ & _ & _ & _ & _ & ->)];
    [exact Hb | live].
Qed.

Lemma dir_add_parent dir c s r s' cn x p :
  dir_add dir (Some c) s = Ret r s' ->
  heap s !! c = Some cn -> parent cn = NULL ->
  heap s' !! c = Some x -> parent x = Some p -> dir = Some p.
Proof.
  intros H Hc Hpar Hx Hp.
  destruct (dir_add_cases _ _ _ _ _ H)
    as [-> | (d & c' & dn & c1 & d2 & -> & E & _ & _ & _ & _ & Hc1 & _ & Hd2
              & ->)].
  { rewrite Hc in Hx. inversion Hx; subst x. congruence. }
  inversion E; subst c'. reduce_state.
  destruct (decide (c = d)) as [-> | Hne].
  - rewrite lookup_insert_eq in Hd2. inversion Hd2; subst d2.
    rewrite lookup_insert_eq in Hx. inversion Hx; subst x.
    cbn in Hp. congruence.
  - rewrite lookup_insert_ne, lookup_insert_eq in Hx by congruence.
    inversion Hx; subst x. cbn in Hp. congruence.
Qed.

(** The part of [rename_file] that moves the node [a] from the
    directory [op] to the directory [np]. *)
Lemma move_returns s a nd op opn np :
  heap s !! a = Some nd -> parent nd = Some op ->
  heap s !! op = Some opn -> is_Some (heap s !! np) ->
  exists moved s3,
    (if ptr_eqb (parent nd) (Some np) then ret true
     else
       let old_parent := parent nd in
       opn <- deref old_parent ;
       match old_parent, index_of a (children opn) with
       | Some op, Some i =>
           modify op (set_children (swap_remove i (children opn)))
       | _, _ => ret tt
       end ;;
       modify a (set_parent NULL) ;;
       r <- dir_add (Some np) (Some a) ;
       match r with
       | None => dir_add old_parent (Some a) ;; ret false
       | Some _ =>
           now <- time ;
           match old_parent with
           | Some op => modify op (stamp_both now)
           | None => undefined
           end ;;
           ret true
       end) s = Ret moved s3 /\
    (forall b, is_Some (heap s !! b) -> is_Some (heap s3 !! b)) /\
    (forall x p, heap s3 !! a = Some x -> parent x = Some p ->
                 is_Some (heap s3 !! p)).
Proof.
  intros Ha Hpar Hop Hnp.
  destruct (ptr_eqb (parent nd) (Some np)).
  { exists true, s. split; [reflexivity |]. split; [auto |].
    intros x p Hx Hp. rewrite Ha in Hx. inversion Hx; subst x.
    rewrite Hpar in Hp. inversion Hp; subst p. eauto. }
  rewrite Hpar. cbv zeta.
  rewrite (bind_run _ _ _ _ _ (deref_live _ _ _ Hop)).
  assert (Hcut : exists s1,
            match index_of a (children opn) with
            | Some i => modify op (set_children (swap_remove i (children opn)))
            | None => ret tt
            end s = Ret tt s1 /\
            forall b, is_Some (heap s !! b) -> is_Some (heap s1 !! b)).
  { destruct (index_of a (children opn)) as [i|].
    - eexists. split; [apply (modify_live _ _ _ _ Hop) |].
      intros b Hb. live.
    - exists s. split; [reflexivity | auto]. }
  destruct Hcut as (s1 & Hcut & Hlive1).
  rewrite (bind_run _ _ _ _ _ Hcut).
  destruct (Hlive1 a) as [n1 Hn1]; [eauto |].
  rewrite (bind_run _ _ _ _ _ (modify_live _ _ _ _ Hn1)).
  set (s2 := set_heap (<[a := set_parent NULL n1]> (heap s1)) s1).
  assert (Hlive2 : forall b, is_Some (heap s !! b) -> is_Some (heap s2 !! b)).
  { intros b Hb. apply Hlive1 in Hb. subst s2. live. }
  assert (Ha2 : heap s2 !! a = Some (set_parent NULL n1)).
  { subst s2. reduce_state. apply lookup_insert_eq. }
  destruct (dir_add_returns np a s2) as (r & s3 & Hadd);
    [apply Hlive2; exact Hnp | eauto |].
  rewrite (bind_run _ _ _ _ _ Hadd).
  destruct r as [y|].
  - rewrite (bind_run _ _ _ _ _ (time_run _)).
    assert (Hop3 : is_Some (heap (set_ticks (S (ticks s3)) s3) !! op)).
    { reduce_state. eapply dir_add_live; [exact Hadd |]. apply Hlive2. eauto. }
    destruct Hop3 as [n3 Hn3].
    rewrite (bind_run _ _ _ _ _ (modify_live _ _ _ _ Hn3)).
    eexists _, _. split; [reflexivity |]. reduce_state. split.
    + intros b Hb. apply lookup_insert_is_Some'. right.
      eapply dir_add_live; [exact Hadd |]. apply Hlive2. exact Hb.
    + intros x p Hx Hp. apply lookup_insert_is_Some'. right.
      assert (Hx3 : exists x3, heap s3 !! a = Some x3 /\ parent x3 = Some p).
      { destruct (decide (op = a)) as [-> | Hne].
        - rewrite lookup_insert_eq in Hx. inversion Hx; subst x.
          exists n3. split; [exact Hn3 | exact Hp].
        - rewrite lookup_insert_ne in Hx by exact Hne. eauto. }
      destruct Hx3 as (x3 & Hx3 & Hp3).
      assert (E : Some np = Some p)
        by (eapply (dir_add_parent _ a s2); eauto).
      inversion E; subst p.
      eapply dir_add_live; [exact Hadd |]. apply Hlive2. exact Hnp.
  - pose proof (dir_add_NULL _ _ _ _ Hadd) as ->.
    destruct (dir_add_returns op a s2) as (r & s4 & Hback);
      [apply Hlive2; eauto | eauto |].
    rewrite (bind_run _ _ _ _ _ Hback).
    exists false, s4. split; [reflexivity |]. split.
    + intros b Hb. eapply dir_add_live; [exact Hback |]. apply Hlive2.
      exact Hb.
    + intros x p Hx Hp.
      assert (E : Some op = Some p)
        by (eapply (dir_add_parent _ a s2); eauto).
      inversion E; subst p.
      eapply dir_add_live; [exact Hback |]. apply Hlive2. eauto.
Qed.

Lemma rename_file_returns s o n :
  tidy s -> root s <> NULL -> returns (rename_file o n) s.
Proof.
  intros Ht Hroot. pose proof Ht as ([Hl Hr] & _ & Hj & _).
  unfold rename_file. run_walk Ht Hroot.
  pose proof (Hat a eq_refl) as Ha.
  pose proof (attached_live s a (proj1 Ht) Ha) as [nd Hnd].
  run_step.
  destruct (ptr_eqb (Some a) (root s)) eqn:Enot; [apply returns_ret |].
  apply ptr_eqb_false in Enot.
  apply (returns_bind _ _ _ _ _ (deref_live _ _ _ Hnd)).
  destruct (is_readonly nd); [apply returns_ret |].
  destruct Ha as [E | (op & Hlist)]; [exfalso; apply Enot; symmetry; exact E |].
  destruct (listed_live _ _ _ Hl Hlist) as (nd' & Hnd' & Hpar).
  rewrite Hnd in Hnd'. inversion Hnd'; subst nd'.
  destruct Hlist as (opn & Hop & Hin).
  eapply returns_bind.
  { rewrite Hpar. rewrite (bind_run _ _ _ _ _ (deref_live _ _ _ Hop)).
    reflexivity. }
  cbv beta. destruct (is_readonly opn); [apply returns_ret |].
  clear w Hw Hat. run_walk Ht Hroot. rename a0 into np.
  pose proof (Hat np eq_refl) as Hnp.
  pose proof (attached_live s np (proj1 Ht) Hnp) as [npn Hnpn].
  apply (returns_bind _ _ _ _ _ (deref_live _ _ _ Hnpn)).
  destruct (negb (is_dir npn)); [apply returns_ret |].
  destruct (is_readonly npn); [apply returns_ret |].
  destruct (dir_find_defined s np (leaf_of w) (proj1 Ht) Hnp) as (c & Hc & _).
  eapply returns_bind; [apply lift_run; exact Hc |]. cbv beta.
  destruct c as [c|]; [apply returns_ret |].
  destruct (move_returns s a nd op opn np Hnd Hpar Hop) as
    (moved & s3 & Hmove & Hlive3 & Hpar3); [eauto |].
  apply (returns_bind _ _ _ _ _ Hmove).
  destruct moved; [| apply returns_ret]. cbn [negb].
  destruct (Hlive3 a) as [x Hx]; [eauto |].
  apply (returns_bind _ _ _ _ _ (modify_live _ _ _ _ Hx)).
  run_step.
  eapply returns_bind.
  { eapply modify_live. reduce_state. apply lookup_insert_eq. }
  eapply returns_bind.
  { eapply deref_live. reduce_state. apply lookup_insert_eq. }
  cbv beta. cbn [parent set_modified set_name].
  destruct (parent x) as [p|] eqn:Ep; [| repeat run_step].
  pose proof (Hpar3 x p Hx Ep) as Hp.
  repeat run_step.
Qed.

(** X26. In every state that is tidy, has a root and has sound
    buffers, each of the calls that name their object by a path and
    allocate nothing returns: [fs_cd], [rmdir_empty], [ls_dir],
    [rm_file], [rename_file], [fs_open], [get_file_info],
    [set_file_attributes], [touch_file], and [read_file] at an offset
    that is not negative. Whatever the path, every pointer that such a
    call follows (the root, the current directory, entries, parent
    pointers) points at a live node, and every loop ends. The state is
    any state with these properties, however it came about. *)
Theorem path_calls_return c s :
  tidy s -> sound_buffers s -> root s <> NULL ->
  by_path c = true ->
  exists r s', exec c s = Ret r s'.
Proof.
  intros Ht Hb Hroot Hc.
  change (returns (exec c) s).
  destruct c; try discriminate Hc; cbn [exec].
  - apply fs_cd_returns; assumption.
  - apply rmdir_empty_returns; assumption.
  - apply ls_dir_returns; assumption.
  - apply returns_fst. apply read_file_returns; try assumption.
    apply Z.leb_le. exact Hc.
  - apply rm_file_returns; assumption.
  - apply rename_file_returns; assumption.
  - apply fs_open_returns; assumption.
  - apply returns_fst. apply get_file_info_returns; assumption.
  - apply set_file_attributes_returns; assumption.
  - apply touch_file_returns; assumption.
Qed.

Lemma path_calls_return_witness :
  exists r s', exec (Rename_file "/a/b/c/f.txt" "/a/../x/g.txt") with_data
               = Ret r s'.
Proof.
  apply path_calls_return.
  - apply (exec_tidy (Write_file "/a/b/c/f.txt" 0 hello) with_file
                     (Z.of_nat (length hello)) with_data);
      [apply tidy_with_file | vm_compute; reflexivity | exact I].
  - apply reachable_sound_buffers, reachable_with_data.
  - vm_compute. discriminate.
  - reflexivity.
Defined.
